(** * TwitchWatcher: the websocket connection pool (src/websocket.py)

    A shallow embedding of [Websocket] and [WebsocketPool] and the proofs of
    the properties the specification states about them.

    Conventions of the embedding:
    - a Python [dict] keyed by strings is a [gmap string _], a Python [set]
      is a [gset _]; the order in which [set.pop] and set iteration deliver
      the elements is unspecified in Python and is a parameter here;
    - [asyncio.Event] flags are booleans;
    - [time()] and the [timedelta] constants are integers counting
      milliseconds;
    - a method that mutates [self] is a state transformer; a method that can
      raise keeps the state it reached when it raises, as Python does;
    - a coroutine body that contains no suspension point between two
      statements runs atomically on the event loop, so the pool's
      [add_topics] and [remove_topics] are single transitions, and the tasks
      they spawn with [asyncio.create_task] are returned to the caller of the
      model, which plays the event loop. *)

From stdpp Require Import base option list gmap sets strings pretty fin_maps fin_sets sorting.
From Stdlib Require Import ZArith Lia.
From Stdlib Require Import Floats.SpecFloat.

Set Warnings "-register-all,-clear-no-such-hyp,-notation-for-abbreviation".

Local Open Scope Z_scope.
Local Open Scope nat_scope.

(** ** Exceptions and the state-and-exception monad *)

Inductive Exception :=
  | AssertionError
  | AttributeError
  | KeyError
  | TypeError
  | JSONDecodeError
  | ZeroDivisionError
  | ConnectionError
  | MinerException
  | WebsocketClosed (received : bool).

Inductive result (A : Type) :=
  | Returned (a : A)
  | Raised (e : Exception).
Arguments Returned {A} a.
Arguments Raised {A} e.

(** A computation over a mutable state [St]: the state survives a raise. *)
Definition M (St A : Type) : Type := St → St * result A.

Definition ret {St A} (a : A) : M St A := λ s, (s, Returned a).
Definition raise {St A} (e : Exception) : M St A := λ s, (s, Raised e).
Definition bind {St A B} (m : M St A) (k : A → M St B) : M St B :=
  λ s, match m s with
       | (s', Returned a) => k a s'
       | (s', Raised e) => (s', Raised e)
       end.
Definition get {St} : M St St := λ s, (s, Returned s).
(** An operation that looks at no state: it returns or raises *)
Definition lift {St A} (r : result A) : M St A := λ s, (s, r).
Definition modify {St} (f : St → St) : M St unit := λ s, (f s, Returned tt).
(** [try: body finally: fin] *)
Definition try_finally {St A} (body : M St A) (fin : St → St) : M St A :=
  λ s, let '(s', r) := body s in (fin s', r).

(** stdpp's [x ← m; k] and [m ;; k] are the sequencing of [M St]. *)
#[global] Instance M_ret {St} : MRet (M St) := λ A, ret.
#[global] Instance M_bind {St} : MBind (M St) := λ A B k m, bind m k.

(** ** Topics *)

(** Modelled from the spec: [WebsocketTopic] is declared in the [constants]
    module, which is not part of the sources at hand.  The specification
    describes it as an opaque, hashable, string-serializable handle whose
    equality and hash go by its key; the handler it carries takes no part in
    its identity and is left out. *)
Record WebsocketTopic := Topic { topic_id : string }.

Definition str (topic : WebsocketTopic) : string := topic_id topic.

#[global] Instance WebsocketTopic_eq_dec : EqDecision WebsocketTopic.
Proof. solve_decision. Defined.

#[global] Instance WebsocketTopic_countable : Countable WebsocketTopic :=
  inj_countable' topic_id Topic (λ t, match t with Topic _ => eq_refl end).

(** ** JSON values, as [json.loads] hands them out *)

Inductive JsonType :=
  | JNull                                        (* [None] *)
  | JBool (b : bool)
  | JInt (n : Z)
  | JFloat (f : spec_float)
  | JString (s : string)
  | JArray (items : list JsonType)               (* a [list] *)
  | JObject (fields : list (string * JsonType)). (* a [dict] *)

(** [message.get(key)] on a JSON object *)
Fixpoint assoc_get (key : string) (fields : list (string * JsonType)) : option JsonType :=
  match fields with
  | [] => None
  | (k, v) :: rest => if decide (k = key) then Some v else assoc_get key rest
  end.

Definition json_get (key : string) (message : JsonType) : option JsonType :=
  match message with
  | JObject fields => assoc_get key fields
  | _ => None
  end.

(** [message[key] = value]: a present key keeps its place, a new key goes last *)
Fixpoint assoc_set (key : string) (value : JsonType) (fields : list (string * JsonType))
  : list (string * JsonType) :=
  match fields with
  | [] => [(key, value)]
  | (k, v) :: rest =>
      if decide (k = key) then (k, value) :: rest else (k, v) :: assoc_set key value rest
  end.

Definition json_set (key : string) (value : JsonType) (message : JsonType) : JsonType :=
  match message with
  | JObject fields => JObject (assoc_set key value fields)
  | other => other
  end.

(** [value == s] for a Python string [s] *)
Definition json_is (s : string) (value : JsonType) : bool :=
  match value with
  | JString s' => bool_decide (s' = s)
  | _ => false
  end.

Definition json_has_key (key : string) (message : JsonType) : bool :=
  bool_decide (is_Some (json_get key message)).

(** [value.get(key)]: only a [dict] has the method *)
Definition dict_get (key : string) (value : JsonType) : result (option JsonType) :=
  match value with
  | JObject fields => Returned (assoc_get key fields)
  | _ => Raised AttributeError
  end.

(** [bool(value)], with [None] for a [.get] that found nothing *)
Definition truthy (value : option JsonType) : bool :=
  match value with
  | None | Some JNull => false
  | Some (JBool b) => b
  | Some (JInt n) => bool_decide (n ≠ 0%Z)
  | Some (JFloat f) => match f with S754_zero _ => false | _ => true end
  | Some (JString s) => bool_decide (s ≠ "")
  | Some (JArray items) => bool_decide (items ≠ [])
  | Some (JObject fields) => bool_decide (fields ≠ [])
  end.

(** ** The world a connection runs in *)

(** A socket handed out by [session.ws_connect]; every connect attempt that
    succeeds yields a new one, so the number identifies the socket
    generation. *)
Definition Socket := nat.

Inductive Event :=
  | Sent (sock : Socket) (frame : JsonType)   (* [ws.send_json] returned *)
  | ReconnectRequested (idx : nat)            (* [request_reconnect] was called *)
  | Dispatched (topic : WebsocketTopic) (payload : JsonType).
                                              (* the topic's handler task was created *)

Record World := mkWorld {
  clock : Z;                 (* what [time()] returns, in milliseconds *)
  access_token : string;     (* the token [get_auth()] currently hands out *)
  transport_up : bool;       (* whether [send_json] on the socket succeeds *)
  entropy : nat → nat;       (* the random source behind [create_nonce] *)
  drawn : nat;               (* how much of it has been consumed *)
  trace : list Event;        (* what happened, oldest first *)
}.

Definition emit (e : Event) (w : World) : World :=
  mkWorld (clock w) (access_token w) (transport_up w) (entropy w) (drawn w) (trace w ++ [e]).

Definition advance (dt : Z) (w : World) : World :=
  mkWorld (clock w + dt)%Z (access_token w) (transport_up w) (entropy w) (drawn w) (trace w).

(** Modelled from the spec: [create_nonce] lives in [utils], which is not part
    of the sources at hand.  The wire protocol asks for a random string of
    the requested length over the given alphabet; every character consumes
    one draw of the random source. *)
Definition random_choice (chars : string) (r : nat) : Ascii.ascii :=
  default Ascii.zero (String.get (r mod String.length chars) chars).

Definition create_nonce (chars : string) (len : nat) (w : World) : string * World :=
  (String.string_of_list_ascii
     (map (λ i, random_choice chars (entropy w (drawn w + i))) (seq 0 len)),
   mkWorld (clock w) (access_token w) (transport_up w) (entropy w)
           (len + drawn w) (trace w)).
Arguments create_nonce : simpl never.

(** A frame as [ws.receive] delivers it *)
Inductive WSMessage :=
  | TEXT (data : string)
  | CLOSE
  | CLOSED
  | CLOSING
  | ERROR
  | BINARY.

(** One run of [_handle_recv]: the frames that arrive before the receive
    timeout expires, and the time the whole wait took. *)
Record Poll := mkPoll {
  inbound : list WSMessage;
  elapsed : Z;
}.

(** ** Websocket: one connection *)

Module Websocket.

(** The lifecycle task [_handle]: created and not yet past its first lines,
    past them, or finished *)
Inductive Task := Initializing | Running | Done.

#[global] Instance Task_eq_dec : EqDecision Task.
Proof. solve_decision. Defined.

Record t := mk {
  _idx : nat;
  _ws : option Socket;
  _closed : bool;
  _reconnect_requested : bool;
  _topics_changed : bool;
  _next_ping : Z;
  _max_pong : Z;
  _handle_task : option Task;
  topics : gmap string WebsocketTopic;
  _submitted : gset WebsocketTopic;
}.

Definition set_ws v self :=
  mk (_idx self) v (_closed self) (_reconnect_requested self) (_topics_changed self)
     (_next_ping self) (_max_pong self) (_handle_task self) (topics self) (_submitted self).
Definition set_closed v self :=
  mk (_idx self) (_ws self) v (_reconnect_requested self) (_topics_changed self)
     (_next_ping self) (_max_pong self) (_handle_task self) (topics self) (_submitted self).
Definition set_reconnect_requested v self :=
  mk (_idx self) (_ws self) (_closed self) v (_topics_changed self)
     (_next_ping self) (_max_pong self) (_handle_task self) (topics self) (_submitted self).
Definition set_topics_changed v self :=
  mk (_idx self) (_ws self) (_closed self) (_reconnect_requested self) v
     (_next_ping self) (_max_pong self) (_handle_task self) (topics self) (_submitted self).
Definition set_next_ping v self :=
  mk (_idx self) (_ws self) (_closed self) (_reconnect_requested self) (_topics_changed self)
     v (_max_pong self) (_handle_task self) (topics self) (_submitted self).
Definition set_max_pong v self :=
  mk (_idx self) (_ws self) (_closed self) (_reconnect_requested self) (_topics_changed self)
     (_next_ping self) v (_handle_task self) (topics self) (_submitted self).
Definition set_handle_task v self :=
  mk (_idx self) (_ws self) (_closed self) (_reconnect_requested self) (_topics_changed self)
     (_next_ping self) (_max_pong self) v (topics self) (_submitted self).
Definition set_topics v self :=
  mk (_idx self) (_ws self) (_closed self) (_reconnect_requested self) (_topics_changed self)
     (_next_ping self) (_max_pong self) (_handle_task self) v (_submitted self).
Definition set_submitted v self :=
  mk (_idx self) (_ws self) (_closed self) (_reconnect_requested self) (_topics_changed self)
     (_next_ping self) (_max_pong self) (_handle_task self) (topics self) v.

#[global] Instance t_eq_dec : EqDecision t.
Proof. solve_decision. Defined.

Section Connection.

(** Constants of the [constants] module and of [utils]. *)
Variable PING_INTERVAL : Z.      (* [PING_INTERVAL.total_seconds()], in ms *)
Variable PING_TIMEOUT : Z.       (* [PING_TIMEOUT.total_seconds()], in ms *)
Variable WS_TOPICS_LIMIT : nat.
Variable CHARS_ASCII : string.
(** The order in which [set.pop] and iteration deliver a set's elements. *)
Variable pop_order : gset WebsocketTopic → list WebsocketTopic.

(** [Websocket.__init__(pool, index)], called at time [now] *)
Definition __init__ (index : nat) (now : Z) : t :=
  mk index None false false false now (now + PING_TIMEOUT)%Z None ∅ ∅.

(** [connected] *)
Definition connected (self : t) : bool := bool_decide (is_Some (_ws self)).

(** [request_reconnect] *)
Definition request_reconnect : M (t * World) unit :=
  modify (λ '(self, w),
    (set_reconnect_requested true (set_next_ping (clock w) self),
     emit (ReconnectRequested (_idx self)) w)).

(** [start_nowait]: the lifecycle task is created unless there is one that
    is not done *)
Definition start_nowait (self : t) : t :=
  match _handle_task self with
  | None | Some Done => set_handle_task (Some Initializing) self
  | Some _ => self
  end.

(** The first lines of [_handle], up to the connect loop: the task has
    waited for the login and clears two flags. *)
Definition begin (self : t) : t :=
  set_topics_changed false (set_closed false (set_handle_task (Some Running) self)).

(** The first lines of the body of the connect loop, run when
    [_backoff_connect] yields [websocket] *)
Definition attach (websocket : Socket) (self : t) : t :=
  set_reconnect_requested false (set_ws (Some websocket) self).

(** [start]: [start_nowait], then the wait until the connection has a
    socket.  A connection that has one is not waited for; otherwise the
    task gets there, from its first lines if it has not run them yet, and
    [websocket] is the socket it is given.  Nothing else happens to the
    connection while the caller waits: [stop] is kept out by [_state_lock]. *)
Definition start (websocket : Socket) (self : t) : t :=
  let self := start_nowait self in
  if connected self then self
  else
    match _handle_task self with
    | Some Initializing => attach websocket (begin self)
    | _ => attach websocket self
    end.

(** The [finally] block of [_handle], run when the steady-state loop of a
    connected socket is left for whatever reason. *)
Definition teardown (self : t) : t :=
  set_topics_changed true (set_submitted ∅ (set_ws None self)).

(** [stop(remove=...)].  Awaiting the lifecycle task after the socket was
    closed lets that task leave its steady-state loop, which runs [teardown]
    if it had a socket; a task that does not finish within the two seconds is
    cancelled, which unwinds through the same [finally]. *)
Definition stop (remove : bool) (self : t) : t :=
  if _closed self then self
  else
    let self := set_closed true self in
    let self :=
      match _handle_task self with
      | Some _ =>
          set_handle_task None (if connected self then teardown self else self)
      | None => self
      end in
    if remove then set_topics_changed true (set_topics ∅ self) else self.

(** The loop of [add_topics], over the elements in the order [pop] delivers
    them: [pending] is what is still in [topics_set]. *)
Fixpoint add_topics_loop (pending : list WebsocketTopic)
    (tp : gmap string WebsocketTopic) (changed : bool)
  : list WebsocketTopic * gmap string WebsocketTopic * bool :=
  match pending with
  | [] => ([], tp, changed)
  | topic :: rest =>
      if decide (size tp < WS_TOPICS_LIMIT)
      then add_topics_loop rest (<[str topic := topic]> tp) true
      else (pending, tp, changed)
  end.

(** [add_topics(topics_set)]: returns what is left in the caller's set *)
Definition add_topics (topics_set : gset WebsocketTopic) (self : t)
  : gset WebsocketTopic * t :=
  let '(rest, tp, changed) := add_topics_loop (pop_order topics_set) (topics self) false in
  (list_to_set rest,
   if changed then set_topics_changed true (set_topics tp self) else self).

(** [remove_topics(topics_set)]: returns what is left in the caller's set *)
Definition remove_topics (topics_set : gset string) (self : t) : gset string * t :=
  let existing := topics_set ∩ dom (topics self) in
  if decide (existing = ∅) then (topics_set, self)
  else
    (topics_set ∖ existing,
     set_topics_changed true
       (set_topics (foldr delete (topics self) (elements existing)) self)).

(** [send(message)] *)
Definition send (message : JsonType) : M (t * World) unit := λ '(self, w),
  match _ws self with
  | None => ((self, w), Raised AssertionError)
  | Some ws =>
      match json_get "type" message with
      | None => ((self, w), Raised KeyError)
      | Some type =>
          let '(message, w) :=
            if negb (json_is "PING" type)
            then let '(nonce, w) := create_nonce CHARS_ASCII 30 w in
                 (json_set "nonce" (JString nonce) message, w)
            else (message, w) in
          if transport_up w
          then ((self, emit (Sent ws message) w), Returned tt)
          else ((self, w), Raised ConnectionError)
      end
  end.

(** [_handle_ping] *)
Definition _handle_ping : M (t * World) unit := λ '(self, w),
  let now := clock w in
  if decide (_next_ping self ≤ now)%Z then
    send (JObject [("type", JString "PING")])
         (set_max_pong (now + PING_TIMEOUT)%Z (set_next_ping (now + PING_INTERVAL)%Z self), w)
  else if decide (_max_pong self ≤ now)%Z then
    request_reconnect (self, w)
  else ((self, w), Returned tt).

(** [set(self.topics.values())] *)
Definition current_topics (self : t) : gset WebsocketTopic := map_img (topics self).

(** The [LISTEN] and [UNLISTEN] messages built by [_handle_topics] *)
Definition control (type : string) (topics_list : list string) (auth_token : string)
  : JsonType :=
  JObject [("type", JString type);
           ("data", JObject [("topics", JArray (JString <$> topics_list));
                             ("auth_token", JString auth_token)])].

(** [_handle_topics] *)
Definition _handle_topics : M (t * World) unit :=
  '(self, w) ← get;
  if negb (_topics_changed self) then mret tt
  else
    modify (λ '(self, w), (set_topics_changed false self, w));;
    '(self, w) ← get;
    let auth_state := access_token w in
    let current := current_topics self in
    let removed := _submitted self ∖ current in
    (if decide (removed ≠ ∅) then
       send (control "UNLISTEN" (str <$> pop_order removed) auth_state);;
       modify (λ '(self, w), (set_submitted (_submitted self ∖ removed) self, w))
     else mret tt);;
    '(self, w) ← get;
    let added := current ∖ _submitted self in
    if decide (added ≠ ∅) then
      send (control "LISTEN" (str <$> pop_order added) auth_state);;
      modify (λ '(self, w), (set_submitted (_submitted self ∪ added) self, w))
    else mret tt.

(** [json.loads]: [None] stands for [json.JSONDecodeError] *)
Variable json_loads : string → option JsonType.

(** [_gather_recv]: running out of frames is the receive timeout, which the
    caller suppresses.  [WebsocketClosed()] without argument has
    [received=False]. *)
Fixpoint _gather_recv (frames : list WSMessage) (messages : list JsonType)
  : result (list JsonType) :=
  match frames with
  | [] => Returned messages
  | TEXT data :: rest =>
      match json_loads data with
      | Some message => _gather_recv rest (messages ++ [message])
      | None => Raised JSONDecodeError
      end
  | CLOSE :: _ => Raised (WebsocketClosed true)
  | CLOSED :: _ => Raised (WebsocketClosed false)
  | CLOSING :: rest => _gather_recv rest messages
  | ERROR :: _ => Raised (WebsocketClosed false)
  | BINARY :: rest => _gather_recv rest messages
  end.

(** [self.topics.get(topic_key)] for a [topic_key] that is true: a list or
    a dict cannot be hashed, and no other value equals a string, which the
    keys are *)
Definition topics_get (tp : gmap string WebsocketTopic) (topic_key : option JsonType)
  : result (option WebsocketTopic) :=
  match topic_key with
  | Some (JString topic_key) => Returned (tp !! topic_key)
  | Some (JArray _) | Some (JObject _) => Raised TypeError
  | _ => Returned None
  end.

(** [_handle_message] *)
Definition _handle_message (message : JsonType) : M (t * World) unit :=
  data ← lift (dict_get "data" message);
  let data := default (JObject []) data in
  topic_key ← lift (dict_get "topic" data);
  if negb (truthy topic_key) then mret tt
  else
    '(self, _) ← get;
    topic ← lift (topics_get (topics self) topic_key);
    match topic with
    | None => mret tt
    | Some topic =>
        payload ← lift (dict_get "message" data);
        match default (JString "{}") payload with
        | JString payload =>
            match json_loads payload with
            | Some msg_data =>
                modify (λ '(self, w), (self, emit (Dispatched topic msg_data) w))
            | None => mret tt         (* [json.JSONDecodeError], which is caught *)
            end
        | _ => raise TypeError        (* [json.loads] of what is no string *)
        end
    end.

(** The [for message in messages] loop of [_handle_recv] *)
Fixpoint process_messages (messages : list JsonType) : M (t * World) unit :=
  match messages with
  | [] => mret tt
  | message :: rest =>
      msg_type ← lift (dict_get "type" message);
      let msg_type := default (JString "") msg_type in
      if json_is "MESSAGE" msg_type then
        _handle_message message;; process_messages rest
      else if json_is "PONG" msg_type then
        modify (λ '(self, w), (set_max_pong (_next_ping self) self, w));;
        process_messages rest
      else if json_is "RESPONSE" msg_type then
        process_messages rest
      else if json_is "RECONNECT" msg_type then
        request_reconnect
      else
        process_messages rest
  end.

(** [_handle_recv], fed with what arrives during this poll *)
Definition _handle_recv (p : Poll) : M (t * World) unit := λ '(self, w),
  match _ws self with
  | None => ((self, w), Raised AssertionError)
  | Some _ =>
      let w := advance (elapsed p) w in
      match _gather_recv (inbound p) [] with
      | Raised e => ((self, w), Raised e)
      | Returned messages => process_messages messages (self, w)
      end
  end.

(** How a run of the steady-state loop ends: the loop condition failed, or
    the scripted input ran out while the loop was still going. *)
Inductive LoopExit := LoopLeft | LoopPending.

(** [while not self._reconnect_requested.is_set(): ...] of [_handle], one
    poll per iteration *)
Fixpoint steady_state (polls : list Poll) : M (t * World) LoopExit :=
  λ st,
    if _reconnect_requested st.1 then (st, Returned LoopLeft)
    else
      match polls with
      | [] => (st, Returned LoopPending)
      | p :: rest =>
          (_handle_ping;; _handle_topics;; _handle_recv p;; steady_state rest) st
      end.

(** What [_handle] does after one socket generation *)
Inductive Next := Reconnect | Exit | StillConnected.

(** The body of [async for websocket in self._backoff_connect(...)] for one
    socket *)
Definition generation (websocket : Socket) (polls : list Poll)
  : t * World → (t * World) * Next :=
  λ '(self, w),
    let self := set_reconnect_requested false (set_ws (Some websocket) self) in
    match steady_state polls (self, w) with
    | (st, Returned LoopPending) => (st, StillConnected)
    | ((self, w), r) =>
        let self := teardown self in
        match r with
        | Raised (WebsocketClosed received) =>
            if received then ((self, w), Reconnect)
            else if _closed self then ((self, w), Exit)
            else ((self, w), Reconnect)
        | _ => ((self, w), Reconnect)
        end
    end.

End Connection.
End Websocket.

(** ** WebsocketPool *)

Module WebsocketPool.

Record t := mk {
  _running : bool;
  websockets : list Websocket.t;
  _connection_count : nat;
}.

(** What a pool method hands to [asyncio.create_task] *)
Inductive Spawned :=
  | StopTask (ws : Websocket.t) (remove : bool)        (* [ws.stop_nowait(remove=...)] *)
  | AddTopicsTask (topics : list WebsocketTopic).      (* [self.add_topics(topics)] *)

(** [sorted(items, key=key)]: Python's sort is stable *)
Fixpoint insert_by {A} (key : A → nat) (x : A) (sorted : list A) : list A :=
  match sorted with
  | [] => [x]
  | y :: rest => if decide (key x ≤ key y) then x :: y :: rest else y :: insert_by key x rest
  end.

Definition sorted {A} (items : list A) (key : A → nat) : list A :=
  foldr (insert_by key) [] items.

(** [items.remove(x)].  Python compares the connections by identity; the
    connection popped from the stably sorted list is the first of its equals
    in the pool's list as well, so removing the first equal record removes
    the same connection. *)
Fixpoint list_remove `{EqDecision A} (x : A) (items : list A) : list A :=
  match items with
  | [] => []
  | y :: rest => if decide (y = x) then rest else y :: list_remove x rest
  end.

Section Pool.

Variable MAX_WEBSOCKETS : nat.
Variable WS_TOPICS_LIMIT : nat.
Variable PING_TIMEOUT : Z.
Variable pop_order : gset WebsocketTopic → list WebsocketTopic.

Definition __init__ : t := mk false [] 0.

Definition running (self : t) : bool := _running self.
Definition connection_count (self : t) : nat := _connection_count self.

Definition _increment_connections (self : t) : t :=
  mk (_running self) (websockets self) (_connection_count self + 1).

Definition _decrement_connections (self : t) : t :=
  mk (_running self) (websockets self) (0 `max` (_connection_count self - 1)).

(** [start]: the [ws.start()] of all connections are gathered, so the call
    returns when each of them has a socket; [sockets] tells which socket the
    connection at each place of the list is given. *)
Definition start (sockets : nat → Socket) (self : t) : t :=
  mk true (imap (λ i, Websocket.start (sockets i)) (websockets self))
     (_connection_count self).

(** [stop(clear_topics=...)] *)
Definition stop (clear_topics : bool) (self : t) : t :=
  mk false (Websocket.stop clear_topics <$> websockets self) 0.

(** The first loop of [add_topics], over the existing connections; the
    boolean tells whether the method returned from inside the loop. *)
Fixpoint fill_existing (wss : list Websocket.t) (topics_set : gset WebsocketTopic)
  : list Websocket.t * gset WebsocketTopic * bool :=
  match wss with
  | [] => ([], topics_set, false)
  | ws :: rest =>
      if Websocket.connected ws && bool_decide (size (Websocket.topics ws) < WS_TOPICS_LIMIT)
      then
        let '(topics_set, ws) :=
          Websocket.add_topics WS_TOPICS_LIMIT pop_order topics_set ws in
        if decide (topics_set = ∅) then (ws :: rest, topics_set, true)
        else
          let '(rest, topics_set, returned) := fill_existing rest topics_set in
          (ws :: rest, topics_set, returned)
      else
        let '(rest, topics_set, returned) := fill_existing rest topics_set in
        (ws :: rest, topics_set, returned)
  end.

(** The second loop of [add_topics], over the indices of the range, which
    Python computes once, before the first iteration. *)
Fixpoint create_new (now : Z) (indices : list nat) (self : t)
    (topics_set : gset WebsocketTopic) : t * gset WebsocketTopic * bool :=
  match indices with
  | [] => (self, topics_set, false)
  | ws_idx :: rest =>
      let ws := Websocket.__init__ PING_TIMEOUT ws_idx now in
      let ws := if running self then Websocket.start_nowait ws else ws in
      let self := mk (_running self) (websockets self ++ [ws]) (_connection_count self) in
      let self := _increment_connections self in
      (* [ws] is the last element of the list: adding topics to it changes it there *)
      let '(topics_set, ws) :=
        Websocket.add_topics WS_TOPICS_LIMIT pop_order topics_set ws in
      let self :=
        mk (_running self) (removelast (websockets self) ++ [ws]) (_connection_count self) in
      if decide (topics_set = ∅) then (self, topics_set, true)
      else create_new now rest self topics_set
  end.

(** [add_topics(topics)], called at time [now] *)
Definition add_topics (now : Z) (topics : list WebsocketTopic) : M t unit := λ self,
  let topics_set : gset WebsocketTopic := list_to_set topics in
  if decide (topics_set = ∅) then (self, Returned tt)
  else
    let existing_topics : gset WebsocketTopic :=
      ⋃ (Websocket.current_topics <$> websockets self) in
    let topics_set := topics_set ∖ existing_topics in
    if decide (topics_set = ∅) then (self, Returned tt)
    else
      let '(wss, topics_set, returned) := fill_existing (websockets self) topics_set in
      let self := mk (_running self) wss (_connection_count self) in
      if returned then (self, Returned tt)
      else
        let first := length (websockets self) in
        let '(self, topics_set, returned) :=
          create_new now (seq first (MAX_WEBSOCKETS - first)) self topics_set in
        if returned then (self, Returned tt)
        else (self, Raised MinerException).

(** [for ws in self.websockets: ws.remove_topics(topics_set)] *)
Fixpoint remove_each (wss : list Websocket.t) (topics_set : gset string)
  : list Websocket.t :=
  match wss with
  | [] => []
  | ws :: rest =>
      let '(topics_set, ws) := Websocket.remove_topics topics_set ws in
      ws :: remove_each rest topics_set
  end.

Definition total_topics (wss : list Websocket.t) : nat :=
  sum_list ((λ ws, size (Websocket.topics ws)) <$> wss).

(** [ws.topics.values()] as a list *)
Definition topic_values (ws : Websocket.t) : list WebsocketTopic :=
  (map_to_list (Websocket.topics ws)).*2.

(** The [while len(sorted_websockets) > required_websockets] loop *)
Fixpoint evict (sorted_websockets : list Websocket.t) (required_websockets : nat)
    (self : t) (recycled_topics : list WebsocketTopic) (spawned : list Spawned)
  : t * list WebsocketTopic * list Spawned :=
  match sorted_websockets with
  | [] => (self, recycled_topics, spawned)
  | ws :: rest =>
      if decide (required_websockets < length sorted_websockets) then
        let self :=
          mk (_running self) (list_remove ws (websockets self)) (_connection_count self) in
        evict rest required_websockets (_decrement_connections self)
              (recycled_topics ++ topic_values ws) (spawned ++ [StopTask ws true])
      else (self, recycled_topics, spawned)
  end.

(** [_optimize_pool]: returns the tasks it created *)
Definition _optimize_pool : M t (list Spawned) := λ self,
  if decide (length (websockets self) < 2) then (self, Returned [])
  else
    let total_topics := total_topics (websockets self) in
    if decide (WS_TOPICS_LIMIT = 0) then (self, Raised ZeroDivisionError)
    else
      let required_websockets := (total_topics + WS_TOPICS_LIMIT - 1) / WS_TOPICS_LIMIT in
      if decide (required_websockets < length (websockets self)) then
        let sorted_websockets :=
          sorted (websockets self) (λ ws, size (Websocket.topics ws)) in
        let '(self, recycled_topics, spawned) :=
          evict sorted_websockets required_websockets self [] [] in
        if decide (recycled_topics ≠ [])
        then (self, Returned (spawned ++ [AddTopicsTask recycled_topics]))
        else (self, Returned spawned)
      else (self, Returned []).

(** [remove_topics(topics)]: returns the tasks it created *)
Definition remove_topics (topics : list string) : M t (list Spawned) := λ self,
  let topics_set : gset string := list_to_set topics in
  if decide (topics_set = ∅) then (self, Returned [])
  else
    let self :=
      mk (_running self) (remove_each (websockets self) topics_set) (_connection_count self) in
    _optimize_pool self.

End Pool.
End WebsocketPool.

(** ** Vocabulary of the specification *)

(** The topic map of a connection is keyed by the string form of its values. *)
Definition key_coherent (self : Websocket.t) : Prop :=
  ∀ k v, Websocket.topics self !! k = Some v → str v = k.




(** The part of a connection the subscription protocol is about *)
Definition same_subscription (self self' : Websocket.t) : Prop :=
  Websocket.topics self' = Websocket.topics self ∧
  Websocket._submitted self' = Websocket._submitted self ∧
  Websocket._ws self' = Websocket._ws self ∧
  Websocket._topics_changed self' = Websocket._topics_changed self.

(** The frame of event [e], if [e] is a send on socket [sock] *)
Definition sent_on (sock : Socket) (e : Event) : option JsonType :=
  match e with
  | Sent sock' frame => if decide (sock' = sock) then Some frame else None
  | _ => None
  end.

Definition is_reconnect_request (e : Event) : bool :=
  match e with
  | ReconnectRequested _ => true
  | _ => false
  end.

(** How many times [request_reconnect] was called in a trace *)
Definition reconnect_requests (events : list Event) : nat :=
  length (filter (λ e, is_reconnect_request e = true) events).

Definition is_sent (e : Event) : bool :=
  match e with
  | Sent _ _ => true
  | _ => false
  end.

(** The frames written to the wire in a trace *)
Definition frames_sent (events : list Event) : list JsonType :=
  omap (λ e, match e with Sent _ frame => Some frame | _ => None end) events.

(** The message [send] writes for a control message built in world [w]: the
    message with the nonce drawn from the random source at its position. *)
Definition with_nonce (chars : string) (w : World) (message : JsonType) : JsonType :=
  json_set "nonce" (JString (create_nonce chars 30 w).1) message.

(** The nonce made of the thirty draws of the random source of [w] that
    start at [position] *)
Definition nonce_from (chars : string) (w : World) (position : nat) : string :=
  String.string_of_list_ascii
    (map (λ i, random_choice chars (entropy w (position + i))) (seq 0 30)).

(** The events of sending [messages] one after the other on [sock], starting
    in world [w]: the i-th message carries the nonce made of the i-th block
    of thirty draws not yet consumed in [w]. *)
Definition control_events (chars : string) (sock : Socket) (w : World)
    (messages : list JsonType) : list Event :=
  imap (λ i message,
          Sent sock (json_set "nonce" (JString (nonce_from chars w (30 * i + drawn w)))
                              message))
       messages.

(** The token a control message carries *)
Definition auth_token_of (message : JsonType) : option JsonType :=
  json_get "data" message ≫= json_get "auth_token".


Section Sync.

Variable CHARS_ASCII : string.
Variable pop_order : gset WebsocketTopic → list WebsocketTopic.

(** The two differences [_handle_topics] computes, and the messages it
    builds from them. *)
Definition sync_removed (self : Websocket.t) : gset WebsocketTopic :=
  Websocket._submitted self ∖ Websocket.current_topics self.
Definition sync_added (self : Websocket.t) : gset WebsocketTopic :=
  Websocket.current_topics self ∖ (Websocket._submitted self ∖ sync_removed self).
Definition unlisten_message (self : Websocket.t) (w : World) : JsonType :=
  Websocket.control "UNLISTEN" (str <$> pop_order (sync_removed self)) (access_token w).
Definition listen_message (self : Websocket.t) (w : World) : JsonType :=
  Websocket.control "LISTEN" (str <$> pop_order (sync_added self)) (access_token w).

(** The ways a run of [_handle_topics] from [(self, w)] can go. *)
Inductive sync_outcome (self : Websocket.t) (w : World)
  : Websocket.t * World → result unit → Prop :=
  | sync_clean :
      Websocket._topics_changed self = false →
      sync_outcome self w (self, w) (Returned tt)
  | sync_unlisten_failed w' e :
      Websocket._topics_changed self = true →
      sync_removed self ≠ ∅ →
      trace w' = trace w →
      sync_outcome self w (Websocket.set_topics_changed false self, w') (Raised e)
  | sync_done self1 w1 self2 w2 sock :
      Websocket._topics_changed self = true →
      (* the [UNLISTEN] step *)
      (sync_removed self = ∅ ∧ w1 = w ∨
       sync_removed self ≠ ∅ ∧ Websocket._ws self = Some sock ∧ transport_up w = true ∧
       w1 = emit (Sent sock (with_nonce CHARS_ASCII w (unlisten_message self w)))
                 (create_nonce CHARS_ASCII 30 w).2) →
      self1 = Websocket.set_submitted (Websocket._submitted self ∖ sync_removed self)
                (Websocket.set_topics_changed false self) →
      (* the [LISTEN] step *)
      (sync_added self = ∅ ∧ w2 = w1 ∧ self2 = self1 ∨
       sync_added self ≠ ∅ ∧ Websocket._ws self = Some sock ∧ transport_up w1 = true ∧
       w2 = emit (Sent sock (with_nonce CHARS_ASCII w1 (listen_message self w)))
                 (create_nonce CHARS_ASCII 30 w1).2 ∧
       self2 = Websocket.set_submitted (Websocket._submitted self1 ∪ sync_added self) self1) →
      sync_outcome self w (self2, w2) (Returned tt)
  | sync_listen_failed self1 w1 w2 sock e :
      Websocket._topics_changed self = true →
      (sync_removed self = ∅ ∧ w1 = w ∨
       sync_removed self ≠ ∅ ∧ Websocket._ws self = Some sock ∧ transport_up w = true ∧
       w1 = emit (Sent sock (with_nonce CHARS_ASCII w (unlisten_message self w)))
                 (create_nonce CHARS_ASCII 30 w).2) →
      self1 = Websocket.set_submitted (Websocket._submitted self ∖ sync_removed self)
                (Websocket.set_topics_changed false self) →
      sync_added self ≠ ∅ →
      trace w2 = trace w1 →
      sync_outcome self w (self1, w2) (Raised e).

End Sync.

(** [n] polls during which nothing arrives, each lasting the receive timeout *)
Definition quiet (recv_timeout : Z) (n : nat) : list Poll :=
  replicate n (mkPoll [] recv_timeout).

(** A connection created at time 0 whose socket has just been attached *)
Definition fresh_connection (PING_TIMEOUT : Z) (idx : nat) (sock : Socket) : Websocket.t :=
  Websocket.set_ws (Some sock) (Websocket.__init__ PING_TIMEOUT idx 0).

(** A world starting at time 0 in which the link works *)
Definition calm_world (token : string) : World := mkWorld 0 token true (λ i, i) 0 [].

Section Lifecycle.

Variable PING_INTERVAL : Z.
Variable PING_TIMEOUT : Z.
Variable WS_TOPICS_LIMIT : nat.
Variable CHARS_ASCII : string.
Variable pop_order : gset WebsocketTopic → list WebsocketTopic.
Variable json_loads : string → option JsonType.

(** A step of the steady-state loop inside the [try ... finally] of
    [_handle]: when the step raises, the [finally] block runs before any
    other task can look at the connection. *)
Definition in_loop {A} (op : M (Websocket.t * World) A)
  : Websocket.t * World → Websocket.t * World :=
  λ st, match op st with
        | (st', Returned _) => st'
        | ((self, w), Raised _) => (Websocket.teardown self, w)
        end.

(** What can happen to a connection, one step at a time, as seen by the
    other tasks of the event loop. *)
Inductive lifecycle : relation (Websocket.t * World) :=
  | lc_add_topics self w topics_set :
      lifecycle (self, w)
        ((Websocket.add_topics WS_TOPICS_LIMIT pop_order topics_set self).2, w)
  | lc_remove_topics self w topics_set :
      lifecycle (self, w) ((Websocket.remove_topics topics_set self).2, w)
  | lc_start_nowait self w :
      lifecycle (self, w) (Websocket.start_nowait self, w)
  | lc_begin self w :
      (* the task that was created runs the first lines of [_handle] *)
      Websocket._ws self = None →
      Websocket._handle_task self = Some Websocket.Initializing →
      lifecycle (self, w) (Websocket.begin self, w)
  | lc_connected self w websocket :
      Websocket._ws self = None →
      lifecycle (self, w)
        (Websocket.set_reconnect_requested false
           (Websocket.set_ws (Some websocket) self), w)
  | lc_handle_ping st :
      Websocket.connected st.1 = true →
      lifecycle st (in_loop (Websocket._handle_ping PING_INTERVAL PING_TIMEOUT CHARS_ASCII) st)
  | lc_handle_topics st :
      Websocket.connected st.1 = true →
      lifecycle st (in_loop (Websocket._handle_topics CHARS_ASCII pop_order) st)
  | lc_handle_recv st p :
      Websocket.connected st.1 = true →
      lifecycle st (in_loop (Websocket._handle_recv json_loads p) st)
  | lc_leave_loop self w :
      Websocket.connected self = true →
      lifecycle (self, w) (Websocket.teardown self, w)
  | lc_stop self w remove :
      lifecycle (self, w) (Websocket.stop remove self, w)
  | lc_world self w w' :
      lifecycle (self, w) (self, w').

(** The states a connection created by the pool can be in *)
Definition conn_reachable (st : Websocket.t * World) : Prop :=
  ∃ index now w, rtc lifecycle (Websocket.__init__ PING_TIMEOUT index now, w) st.

End Lifecycle.

(** How many connections hold key [k] *)
Definition count_holding (k : string) (wss : list Websocket.t) : nat :=
  length (filter (λ ws, k ∈ dom (Websocket.topics ws)) wss).

(** The keys assigned anywhere in the pool *)
Definition assigned_keys (wss : list Websocket.t) : gset string :=
  ⋃ ((λ ws, dom (Websocket.topics ws)) <$> wss).

(** No key is held by two connections of the list. *)
Fixpoint disjoint_keys (wss : list Websocket.t) : Prop :=
  match wss with
  | [] => True
  | ws :: rest => dom (Websocket.topics ws) ## assigned_keys rest ∧ disjoint_keys rest
  end.

(** The keys of a set of topics *)
Definition keys_of (topics_set : gset WebsocketTopic) : gset string :=
  set_map str topics_set.
Global Typeclasses Opaque keys_of.

(** How a connection may differ after topics were added to the pool *)
Definition grown (ws ws' : Websocket.t) : Prop :=
  Websocket.topics ws ⊆ Websocket.topics ws' ∧
  Websocket._ws ws' = Websocket._ws ws ∧
  Websocket._idx ws' = Websocket._idx ws.

(** How a connection may differ after keys were removed from the pool *)
Definition shrunk (ws ws' : Websocket.t) : Prop :=
  Websocket.topics ws' ⊆ Websocket.topics ws ∧
  Websocket._ws ws' = Websocket._ws ws ∧
  Websocket._idx ws' = Websocket._idx ws.

(** [ceil(total / capacity)] as [_optimize_pool] computes it *)
Definition ceil_div (total capacity : nat) : nat := (total + capacity - 1) / capacity.

Section EventLoop.

Variable MAX_WEBSOCKETS : nat.
Variable WS_TOPICS_LIMIT : nat.
Variable PING_TIMEOUT : Z.
Variable pop_order : gset WebsocketTopic → list WebsocketTopic.

(** The structural invariant of the pool *)
Record pool_inv (self : WebsocketPool.t) : Prop := {
  inv_coherent : Forall key_coherent (WebsocketPool.websockets self);
  inv_capacity :
    Forall (λ ws, size (Websocket.topics ws) ≤ WS_TOPICS_LIMIT)
           (WebsocketPool.websockets self);
  inv_unique : ∀ k, count_holding k (WebsocketPool.websockets self) ≤ 1;
  inv_bounded : length (WebsocketPool.websockets self) ≤ MAX_WEBSOCKETS;
}.

(** The event loop running the tasks a pool method created, in the order of
    their creation: a stop task works on a connection that has left the
    pool, an add task is a call of [add_topics]. *)
Fixpoint run_spawned (now : Z) (spawned : list WebsocketPool.Spawned)
  : M WebsocketPool.t unit :=
  match spawned with
  | [] => mret tt
  | WebsocketPool.StopTask _ _ :: rest => run_spawned now rest
  | WebsocketPool.AddTopicsTask topics :: rest =>
      WebsocketPool.add_topics MAX_WEBSOCKETS WS_TOPICS_LIMIT PING_TIMEOUT pop_order
        now topics;;
      run_spawned now rest
  end.

(** [remove_topics] followed by the follow-up tasks it created *)
Definition remove_topics_settled (now : Z) (topics : list string)
  : M WebsocketPool.t unit :=
  spawned ← WebsocketPool.remove_topics WS_TOPICS_LIMIT topics;
  run_spawned now spawned.

(** The pool together with the add tasks that were created and did not run
    yet *)
Record Loop := mkLoop {
  pool : WebsocketPool.t;
  pending : list (list WebsocketTopic);
}.

Definition add_tasks (r : result (list WebsocketPool.Spawned)) : list (list WebsocketTopic) :=
  match r with
  | Returned spawned =>
      omap (λ s, match s with
                 | WebsocketPool.AddTopicsTask topics => Some topics
                 | _ => None
                 end) spawned
  | Raised _ => []
  end.

(** The connections progress on their own: everything but the topic maps
    may have changed. *)
Definition same_topics (wss wss' : list Websocket.t) : Prop :=
  Forall2 (λ ws ws', Websocket.topics ws = Websocket.topics ws') wss wss'.

Inductive pool_step : relation Loop :=
  | ps_add_topics l now topics :
      pool_step l
        (mkLoop (WebsocketPool.add_topics MAX_WEBSOCKETS WS_TOPICS_LIMIT PING_TIMEOUT
                   pop_order now topics (pool l)).1
                (pending l))
  | ps_remove_topics l topics :
      pool_step l
        (mkLoop (WebsocketPool.remove_topics WS_TOPICS_LIMIT topics (pool l)).1
                (pending l ++
                 add_tasks (WebsocketPool.remove_topics WS_TOPICS_LIMIT topics (pool l)).2))
  | ps_run_task l now before topics after :
      pending l = before ++ topics :: after →
      pool_step l
        (mkLoop (WebsocketPool.add_topics MAX_WEBSOCKETS WS_TOPICS_LIMIT PING_TIMEOUT
                   pop_order now topics (pool l)).1
                (before ++ after))
  | ps_start l sockets :
      pool_step l (mkLoop (WebsocketPool.start sockets (pool l)) (pending l))
  | ps_stop l clear_topics :
      pool_step l (mkLoop (WebsocketPool.stop clear_topics (pool l)) (pending l))
  | ps_connections l wss' :
      same_topics (WebsocketPool.websockets (pool l)) wss' →
      pool_step l
        (mkLoop (WebsocketPool.mk (WebsocketPool._running (pool l)) wss'
                                  (WebsocketPool._connection_count (pool l)))
                (pending l)).

Definition pool_reachable (l : Loop) : Prop :=
  rtc pool_step (mkLoop WebsocketPool.__init__ []) l.

(** Every connection that still has room is connected. *)
Definition room_is_connected (self : WebsocketPool.t) : Prop :=
  Forall (λ ws, size (Websocket.topics ws) < WS_TOPICS_LIMIT →
                Websocket.connected ws = true)
         (WebsocketPool.websockets self).

End EventLoop.

(** ** Vocabulary of the receive path *)

(** The frames on which [_gather_recv] raises [WebsocketClosed] *)
Definition ends_session (frame : WSMessage) : bool :=
  match frame with
  | CLOSE | CLOSED | ERROR => true
  | _ => false
  end.

(** The decoded text of a frame *)
Definition text_of (json_loads : string → option JsonType) (frame : WSMessage)
  : option JsonType :=
  match frame with
  | TEXT data => json_loads data
  | _ => None
  end.

(** The frames [_gather_recv] can read: all but a text frame that is not
    JSON *)
Definition decodes (json_loads : string → option JsonType) (frame : WSMessage) : bool :=
  match frame with
  | TEXT data => bool_decide (is_Some (json_loads data))
  | _ => true
  end.

(** [message.get("type", "") == type] *)
Definition has_type (type : string) (message : JsonType) : bool :=
  json_is type (default (JString "") (json_get "type" message)).

Definition absent_or (P : JsonType → bool) (value : option JsonType) : bool :=
  match value with
  | None => true
  | Some v => P v
  end.

Definition is_object (value : JsonType) : bool :=
  match value with
  | JObject _ => true
  | _ => false
  end.

Definition is_string (value : JsonType) : bool :=
  match value with
  | JString _ => true
  | _ => false
  end.

(** The decoded frames on which [_handle_recv] and [_handle_message] use no
    operation that Python refuses: the frame is an object, and in a frame of
    type [MESSAGE] the ["data"] entry, when present, is an object whose
    ["topic"] and ["message"] entries, when present, are strings.  (On other
    frames [.get], the lookup of the topic or [json.loads] can raise.) *)
Definition well_formed (message : JsonType) : bool :=
  is_object message &&
  (negb (has_type "MESSAGE" message) ||
   absent_or (λ data,
                is_object data &&
                absent_or is_string (json_get "topic" data) &&
                absent_or is_string (json_get "message" data))
             (json_get "data" message)).

(** The key a [MESSAGE] frame names, if it names one *)
Definition topic_key_of (message : JsonType) : option string :=
  match json_get "topic" (default (JObject []) (json_get "data" message)) with
  | Some (JString topic_key) => Some topic_key
  | _ => None
  end.

(** What the steady-state loop leaves alone *)
Definition untouched_by_the_loop (self self' : Websocket.t) : Prop :=
  Websocket.topics self' = Websocket.topics self ∧
  Websocket._ws self' = Websocket._ws self ∧
  Websocket._closed self' = Websocket._closed self ∧
  Websocket._idx self' = Websocket._idx self ∧
  Websocket._handle_task self' = Websocket._handle_task self.

(** The connection after the [finally] block of [_handle] *)
Definition torn_down (self : Websocket.t) : Prop :=
  Websocket._ws self = None ∧
  Websocket._submitted self = ∅ ∧
  Websocket._topics_changed self = true.


(** A connection between two calls of [start] and [stop], which exclude
    each other by [_state_lock]: a socket is held by the lifecycle task,
    which has run its first lines; a connection that is closed has been
    stopped, so that it has neither task nor socket; and without a socket
    nothing is submitted. *)
Definition at_rest (self : Websocket.t) : Prop :=
  (is_Some (Websocket._ws self) → Websocket._handle_task self = Some Websocket.Running) ∧
  (Websocket._closed self = true →
   Websocket._handle_task self = None ∧ Websocket._ws self = None) ∧
  (Websocket._ws self = None → Websocket._submitted self = ∅).

(** * Channels (src/channel.py)

    The synchronous part of [Channel]: its status and the calls that change
    it.  The calls to the channel list of the GUI, to the task machinery and
    to [Twitch.on_channel_update] are recorded as events. *)

Module Stream.

(** The slots of a stream, but for the channel it points back to.  [game]
    holds what [Game(...)] was built from. *)
Record t := mk {
  broadcast_id : Z;
  viewers : Z;
  drops_enabled : bool;
  game : option JsonType;
  title : string;
  _stream_url : option string;
  _url_fetched_at : Z;
  _url_expiry : Z;
}.

(** [stream.viewers = value] *)
Definition set_viewers v self :=
  mk (broadcast_id self) v (drops_enabled self) (game self) (title self) (_stream_url self)
     (_url_fetched_at self) (_url_expiry self).

End Stream.

Module Channel.

(** The task created by [check_online] *)
Inductive Task := OnlineDelay.

Record t := mk {
  id : Z;
  _login : string;
  _display_name : option string;
  points : option Z;
  _stream : option Stream.t;
  _pending_stream_up : option Task;
  acl_based : bool;
}.

Inductive Event :=
  | Displayed (channel : Z) (add : bool)     (* [self._gui_channels.display(self, add=add)] *)
  | Removed (channel : Z)                    (* [self._gui_channels.remove(self)] *)
  | TaskCreated (channel : Z)                (* [asyncio.create_task(self._online_delay())] *)
  | TaskCancelled (channel : Z)              (* [self._pending_stream_up.cancel()] *)
  | ChannelUpdate (channel : Z) (old_stream new_stream : option Stream.t).
                                             (* [self._twitch.on_channel_update(...)] *)

Definition set_stream v self :=
  mk (id self) (_login self) (_display_name self) (points self) v
     (_pending_stream_up self) (acl_based self).
Definition set_pending_stream_up v self :=
  mk (id self) (_login self) (_display_name self) (points self) (_stream self) v
     (acl_based self).

(** [name] *)
Definition name (self : t) : string :=
  match _display_name self with
  | Some display_name => display_name
  | None => _login self
  end.

(** [online], [offline] and [pending_online] *)
Definition online (self : t) : bool := bool_decide (is_Some (_stream self)).
Definition offline (self : t) : bool :=
  bool_decide (_stream self = None) && bool_decide (_pending_stream_up self = None).
Definition pending_online (self : t) : bool :=
  bool_decide (_stream self = None) && bool_decide (is_Some (_pending_stream_up self)).

(** [game], [viewers] and [drops_enabled] *)
Definition game (self : t) : option JsonType := _stream self ≫= Stream.game.
Definition viewers (self : t) : option Z := Stream.viewers <$> _stream self.
Definition drops_enabled (self : t) : bool :=
  match _stream self with
  | Some stream => Stream.drops_enabled stream
  | None => false
  end.

(** The setter of [viewers] *)
Definition set_viewers (value : Z) (self : t) : t :=
  match _stream self with
  | Some stream => set_stream (Some (Stream.set_viewers value stream)) self
  | None => self
  end.

(** [display(add=...)] *)
Definition display (add : bool) : M (t * list Event) unit :=
  modify (λ '(self, log), (self, log ++ [Displayed (id self) add])).

(** [remove] *)
Definition remove : M (t * list Event) unit :=
  '(self, _) ← get;
  (if decide (is_Some (_pending_stream_up self)) then
     modify (λ '(self, log),
               (set_pending_stream_up None self, log ++ [TaskCancelled (id self)]))
   else mret tt);;
  modify (λ '(self, log), (self, log ++ [Removed (id self)])).

(** [check_online] *)
Definition check_online : M (t * list Event) unit :=
  '(self, _) ← get;
  if decide (_pending_stream_up self = None) then
    modify (λ '(self, log),
              (set_pending_stream_up (Some OnlineDelay) self,
               log ++ [TaskCreated (id self)]));;
    display false
  else mret tt.

(** [set_offline] *)
Definition set_offline : M (t * list Event) unit :=
  '(self, _) ← get;
  let needs_display := false in
  needs_display ←
    (if decide (is_Some (_pending_stream_up self)) then
       modify (λ '(self, log),
                 (set_pending_stream_up None self, log ++ [TaskCancelled (id self)]));;
       mret true
     else mret needs_display);
  '(self, _) ← get;
  needs_display ←
    (if online self then
       let old_stream := _stream self in
       modify (λ '(self, log),
                 (set_stream None self, log ++ [ChannelUpdate (id self) old_stream None]));;
       mret false
     else mret needs_display);
  if needs_display : bool then display false else mret tt.

End Channel.

(** * Drop campaigns (src/inventory.py)

    A [datetime] is the integer number of microseconds it stands for, and
    [datetime.now] is the [now] a call is given: no time passes during a
    call.  A campaign owns its drops in the dict [timed_drops], kept here in
    insertion order; a drop is the object stored under a key of that dict.
    The calls to the GUI are recorded as events. *)

Inductive BenefitType := UNKNOWN | BADGE | EMOTE | DIRECT_ENTITLEMENT.

Definition is_badge_or_emote (self : BenefitType) : bool :=
  match self with
  | BADGE | EMOTE => true
  | _ => false
  end.

Record Benefit := mkBenefit {
  benefit_id : string;
  benefit_name : string;
  benefit_type : BenefitType;
  benefit_image_url : string;
}.

(** The value of [TimedDrop.progress]: [0.0], [1.0] or the quotient
    [current_minutes / required_minutes], which is kept as the two integers
    it is computed from. *)
Inductive Progress :=
  | NoProgress
  | FullProgress
  | Quotient (current_minutes required_minutes : Z).

(** The value of [DropsCampaign.progress]: [0.0], or the sum of the values
    listed divided by their number. *)
Inductive MeanProgress :=
  | NoDrops
  | MeanOf (values : list Progress).

Inductive GuiEvent :=
  | UpdateDrop (drop : string)                               (* [_gui_inv.update_drop(self)] *)
  | DisplayDrop (drop : string) (countdown subone : bool).   (* [_manager.display_drop(...)] *)

Definition hours (n : Z) : Z := (n * 3600 * 1000000)%Z.

Module TimedDrop.

Record t := mk {
  id : string;
  name : string;
  benefits : list Benefit;
  starts_at : Z;
  ends_at : Z;
  claim_id : option string;
  is_claimed : bool;
  _precondition_drops : list string;
  _preconditions_met : option bool;     (* what [cached_property] has stored *)
  current_minutes : Z;
  required_minutes : Z;
  _cached_remaining_minutes : option Z;
  _cached_total_required_minutes : option Z;
  _cached_total_remaining_minutes : option Z;
  _cached_progress : option Progress;
}.

Definition set_claim_id v self :=
  mk (id self) (name self) (benefits self) (starts_at self) (ends_at self) v
     (is_claimed self) (_precondition_drops self) (_preconditions_met self)
     (current_minutes self) (required_minutes self) (_cached_remaining_minutes self)
     (_cached_total_required_minutes self) (_cached_total_remaining_minutes self)
     (_cached_progress self).
Definition set_is_claimed v self :=
  mk (id self) (name self) (benefits self) (starts_at self) (ends_at self) (claim_id self)
     v (_precondition_drops self) (_preconditions_met self)
     (current_minutes self) (required_minutes self) (_cached_remaining_minutes self)
     (_cached_total_required_minutes self) (_cached_total_remaining_minutes self)
     (_cached_progress self).
Definition set_preconditions_met v self :=
  mk (id self) (name self) (benefits self) (starts_at self) (ends_at self) (claim_id self)
     (is_claimed self) (_precondition_drops self) v
     (current_minutes self) (required_minutes self) (_cached_remaining_minutes self)
     (_cached_total_required_minutes self) (_cached_total_remaining_minutes self)
     (_cached_progress self).
Definition set_current_minutes v self :=
  mk (id self) (name self) (benefits self) (starts_at self) (ends_at self) (claim_id self)
     (is_claimed self) (_precondition_drops self) (_preconditions_met self)
     v (required_minutes self) (_cached_remaining_minutes self)
     (_cached_total_required_minutes self) (_cached_total_remaining_minutes self)
     (_cached_progress self).
Definition set_cached_remaining_minutes v self :=
  mk (id self) (name self) (benefits self) (starts_at self) (ends_at self) (claim_id self)
     (is_claimed self) (_precondition_drops self) (_preconditions_met self)
     (current_minutes self) (required_minutes self) v
     (_cached_total_required_minutes self) (_cached_total_remaining_minutes self)
     (_cached_progress self).
Definition set_cached_total_required_minutes v self :=
  mk (id self) (name self) (benefits self) (starts_at self) (ends_at self) (claim_id self)
     (is_claimed self) (_precondition_drops self) (_preconditions_met self)
     (current_minutes self) (required_minutes self) (_cached_remaining_minutes self)
     v (_cached_total_remaining_minutes self) (_cached_progress self).
Definition set_cached_total_remaining_minutes v self :=
  mk (id self) (name self) (benefits self) (starts_at self) (ends_at self) (claim_id self)
     (is_claimed self) (_precondition_drops self) (_preconditions_met self)
     (current_minutes self) (required_minutes self) (_cached_remaining_minutes self)
     (_cached_total_required_minutes self) v (_cached_progress self).
Definition set_cached_progress v self :=
  mk (id self) (name self) (benefits self) (starts_at self) (ends_at self) (claim_id self)
     (is_claimed self) (_precondition_drops self) (_preconditions_met self)
     (current_minutes self) (required_minutes self) (_cached_remaining_minutes self)
     (_cached_total_required_minutes self) (_cached_total_remaining_minutes self) v.

(** [update_claim] *)
Definition update_claim (claim_id : string) (self : t) : t := set_claim_id (Some claim_id) self.

(** [remaining_minutes]: the value, and the drop with its cache filled *)
Definition remaining_minutes (self : t) : Z * t :=
  match _cached_remaining_minutes self with
  | Some cached => (cached, self)
  | None =>
      let value := (required_minutes self - current_minutes self)%Z in
      (value, set_cached_remaining_minutes (Some value) self)
  end.

(** [progress] *)
Definition progress (self : t) : Progress * t :=
  match _cached_progress self with
  | Some cached => (cached, self)
  | None =>
      let value :=
        if decide (current_minutes self ≤ 0 ∨ required_minutes self ≤ 0)%Z then NoProgress
        else if decide (required_minutes self ≤ current_minutes self)%Z then FullProgress
        else Quotient (current_minutes self) (required_minutes self) in
      (value, set_cached_progress (Some value) self)
  end.

(** [_on_total_minutes_changed] *)
Definition _on_total_minutes_changed (self : t) : t :=
  set_cached_total_remaining_minutes None (set_cached_total_required_minutes None self).

End TimedDrop.

Module DropsCampaign.

Record t := mk {
  id : string;
  name : string;
  linked : bool;
  link_url : string;
  image_url : string;
  starts_at : Z;
  ends_at : Z;
  allowed_channels : list Channel.t;
  timed_drops : list (string * TimedDrop.t);
  _cached_progress : option MeanProgress;
  _cached_remaining_minutes : option Z;
  _cached_required_minutes : option Z;
  _cached_has_badge_or_emote : option bool;
  _cached_finished : option bool;
  _cached_claimed_drops : option nat;
  _cached_remaining_drops : option nat;
}.

Definition set_timed_drops v self :=
  mk (id self) (name self) (linked self) (link_url self) (image_url self) (starts_at self)
     (ends_at self) (allowed_channels self) v (_cached_progress self)
     (_cached_remaining_minutes self) (_cached_required_minutes self)
     (_cached_has_badge_or_emote self) (_cached_finished self) (_cached_claimed_drops self)
     (_cached_remaining_drops self).
Definition set_cached_progress v self :=
  mk (id self) (name self) (linked self) (link_url self) (image_url self) (starts_at self)
     (ends_at self) (allowed_channels self) (timed_drops self) v
     (_cached_remaining_minutes self) (_cached_required_minutes self)
     (_cached_has_badge_or_emote self) (_cached_finished self) (_cached_claimed_drops self)
     (_cached_remaining_drops self).
Definition set_cached_remaining_minutes v self :=
  mk (id self) (name self) (linked self) (link_url self) (image_url self) (starts_at self)
     (ends_at self) (allowed_channels self) (timed_drops self) (_cached_progress self)
     v (_cached_required_minutes self)
     (_cached_has_badge_or_emote self) (_cached_finished self) (_cached_claimed_drops self)
     (_cached_remaining_drops self).
Definition set_cached_required_minutes v self :=
  mk (id self) (name self) (linked self) (link_url self) (image_url self) (starts_at self)
     (ends_at self) (allowed_channels self) (timed_drops self) (_cached_progress self)
     (_cached_remaining_minutes self) v
     (_cached_has_badge_or_emote self) (_cached_finished self) (_cached_claimed_drops self)
     (_cached_remaining_drops self).
Definition set_cached_has_badge_or_emote v self :=
  mk (id self) (name self) (linked self) (link_url self) (image_url self) (starts_at self)
     (ends_at self) (allowed_channels self) (timed_drops self) (_cached_progress self)
     (_cached_remaining_minutes self) (_cached_required_minutes self)
     v (_cached_finished self) (_cached_claimed_drops self)
     (_cached_remaining_drops self).
Definition set_cached_finished v self :=
  mk (id self) (name self) (linked self) (link_url self) (image_url self) (starts_at self)
     (ends_at self) (allowed_channels self) (timed_drops self) (_cached_progress self)
     (_cached_remaining_minutes self) (_cached_required_minutes self)
     (_cached_has_badge_or_emote self) v (_cached_claimed_drops self)
     (_cached_remaining_drops self).
Definition set_cached_claimed_drops v self :=
  mk (id self) (name self) (linked self) (link_url self) (image_url self) (starts_at self)
     (ends_at self) (allowed_channels self) (timed_drops self) (_cached_progress self)
     (_cached_remaining_minutes self) (_cached_required_minutes self)
     (_cached_has_badge_or_emote self) (_cached_finished self) v
     (_cached_remaining_drops self).
Definition set_cached_remaining_drops v self :=
  mk (id self) (name self) (linked self) (link_url self) (image_url self) (starts_at self)
     (ends_at self) (allowed_channels self) (timed_drops self) (_cached_progress self)
     (_cached_remaining_minutes self) (_cached_required_minutes self)
     (_cached_has_badge_or_emote self) (_cached_finished self) (_cached_claimed_drops self)
     v.

(** [self.timed_drops.get(key)] *)
Fixpoint dict_get {V} (key : string) (items : list (string * V)) : option V :=
  match items with
  | [] => None
  | (k, v) :: rest => if decide (k = key) then Some v else dict_get key rest
  end.

(** The object stored under [key], changed in place *)
Definition dict_change {V} (key : string) (f : V → V) (items : list (string * V))
  : list (string * V) :=
  (λ '(k, v), if decide (k = key) then (k, f v) else (k, v)) <$> items.

(** Every object of the dict changed in place, in the order of the dict *)
Definition dict_change_all {V} (f : V → V) (items : list (string * V)) : list (string * V) :=
  (λ '(k, v), (k, f v)) <$> items.

(** [drops] *)
Definition drops (self : t) : list TimedDrop.t := (timed_drops self).*2.

(** [get_drop] *)
Definition get_drop (drop_id : string) (self : t) : option TimedDrop.t :=
  dict_get drop_id (timed_drops self).

(** [total_drops] *)
Definition total_drops (self : t) : nat := length (timed_drops self).

(** [active], [upcoming] and [expired] *)
Definition active (now : Z) (self : t) : bool :=
  bool_decide (starts_at self ≤ now < ends_at self)%Z.
Definition upcoming (now : Z) (self : t) : bool := bool_decide (now < starts_at self)%Z.
Definition expired (now : Z) (self : t) : bool := bool_decide (ends_at self ≤ now)%Z.

(** [time_triggers] *)
Definition time_triggers (self : t) : gset Z :=
  list_to_set ([starts_at self; ends_at self] ++
               concat ((λ d, [TimedDrop.starts_at d; TimedDrop.ends_at d]) <$> drops self)).

(** [has_badge_or_emote]: the value, and the campaign with its cache filled *)
Definition has_badge_or_emote (self : t) : bool * t :=
  match _cached_has_badge_or_emote self with
  | Some cached => (cached, self)
  | None =>
      let value :=
        existsb (λ drop, existsb (λ benefit, is_badge_or_emote (benefit_type benefit))
                                 (TimedDrop.benefits drop))
                (drops self) in
      (value, set_cached_has_badge_or_emote (Some value) self)
  end.

(** [eligible]: [or] reads [has_badge_or_emote] only when the account is
    not linked *)
Definition eligible (self : t) : bool * t :=
  if linked self then (true, self) else has_badge_or_emote self.

(** [finished] *)
Definition finished (self : t) : bool * t :=
  match _cached_finished self with
  | Some cached => (cached, self)
  | None =>
      let value :=
        forallb (λ d, TimedDrop.is_claimed d ||
                      bool_decide (TimedDrop.required_minutes d ≤ 0)%Z)
                (drops self) in
      (value, set_cached_finished (Some value) self)
  end.

(** [claimed_drops] *)
Definition claimed_drops (self : t) : nat * t :=
  match _cached_claimed_drops self with
  | Some cached => (cached, self)
  | None =>
      let value := length (filter (λ d, TimedDrop.is_claimed d = true) (drops self)) in
      (value, set_cached_claimed_drops (Some value) self)
  end.

(** [remaining_drops] *)
Definition remaining_drops (self : t) : nat * t :=
  match _cached_remaining_drops self with
  | Some cached => (cached, self)
  | None =>
      let value := length (filter (λ d, TimedDrop.is_claimed d = false) (drops self)) in
      (value, set_cached_remaining_drops (Some value) self)
  end.

(** [progress]: every drop is asked for its progress, which fills the
    drop's cache *)
Definition progress (self : t) : MeanProgress * t :=
  match _cached_progress self with
  | Some cached => (cached, self)
  | None =>
      if decide (total_drops self = 0) then
        (NoDrops, set_cached_progress (Some NoDrops) self)
      else
        let value := MeanOf ((λ d, (TimedDrop.progress d).1) <$> drops self) in
        let self :=
          set_timed_drops (dict_change_all (λ d, (TimedDrop.progress d).2) (timed_drops self))
                          self in
        (value, set_cached_progress (Some value) self)
  end.

(** [_on_minutes_changed] *)
Definition _on_minutes_changed (self : t) : t :=
  let self :=
    set_cached_remaining_minutes None
      (set_cached_required_minutes None (set_cached_progress None self)) in
  set_timed_drops
    (dict_change_all TimedDrop._on_total_minutes_changed (timed_drops self)) self.

(** [_base_can_earn(channel)] *)
Definition _base_can_earn (now : Z) (channel : option Channel.t) (self : t) : bool * t :=
  let '(is_eligible, self) := eligible self in
  if negb is_eligible then (false, self)
  else if negb (active now self) then (false, self)
  else
    match channel with
    | Some channel =>
        if decide (allowed_channels self ≠ []) then
          (existsb (λ allowed_channel,
                      bool_decide (Channel.id allowed_channel = Channel.id channel))
                   (allowed_channels self), self)
        else (true, self)
    | None => (true, self)
    end.

End DropsCampaign.

(** The methods of a drop that reach into its campaign.  The drop is the
    object stored under [key] in [timed_drops]; where a method is given
    [self], that is the object as it is when the call is made.  (A key that
    is not in the dict stands for no object: a call on it has nothing to
    work on and does nothing.) *)
Module Drop.

Definition St : Type := DropsCampaign.t * list GuiEvent.

Definition change (key : string) (f : TimedDrop.t → TimedDrop.t) : St → St :=
  λ '(campaign, gui),
    (DropsCampaign.set_timed_drops
       (DropsCampaign.dict_change key f (DropsCampaign.timed_drops campaign)) campaign,
     gui).

Definition notify (events : list GuiEvent) : St → St :=
  λ '(campaign, gui), (campaign, gui ++ events).

(** [display()] *)
Definition display (key : string) : St → St := notify [DisplayDrop key true false].

(** [TimedDrop._on_minutes_changed] *)
Definition _on_minutes_changed (key : string) : St → St :=
  λ st,
    let st := change key (λ d, TimedDrop.set_cached_remaining_minutes None
                                 (TimedDrop.set_cached_progress None d)) st in
    let st := (DropsCampaign._on_minutes_changed st.1, st.2) in
    notify [UpdateDrop key] st.

(** [update_minutes(minutes)] *)
Definition update_minutes (key : string) (minutes : Z) : St → St :=
  λ st,
    match DropsCampaign.get_drop key st.1 with
    | None => st
    | Some self =>
        if decide (minutes < 0)%Z then st
        else
          let st :=
            if decide (minutes ≤ TimedDrop.required_minutes self)%Z
            then change key (TimedDrop.set_current_minutes minutes) st
            else change key (TimedDrop.set_current_minutes (TimedDrop.required_minutes self)) st in
          display key (_on_minutes_changed key st)
    end.

(** [bump_minutes] *)
Definition bump_minutes (key : string) : St → St :=
  λ st,
    match DropsCampaign.get_drop key st.1 with
    | None => st
    | Some self =>
        let st :=
          if decide (TimedDrop.current_minutes self < TimedDrop.required_minutes self)%Z
          then _on_minutes_changed key
                 (change key (TimedDrop.set_current_minutes
                                (TimedDrop.current_minutes self + 1)%Z) st)
          else st in
        display key st
    end.

(** Reading [remaining_minutes] and [progress] of the drop *)
Definition remaining_minutes (key : string) : St → option Z * St :=
  λ st,
    match DropsCampaign.get_drop key st.1 with
    | None => (None, st)
    | Some self =>
        (Some (TimedDrop.remaining_minutes self).1,
         change key (λ d, (TimedDrop.remaining_minutes d).2) st)
    end.

Definition progress (key : string) : St → option Progress * St :=
  λ st,
    match DropsCampaign.get_drop key st.1 with
    | None => (None, st)
    | Some self =>
        (Some (TimedDrop.progress self).1, change key (λ d, (TimedDrop.progress d).2) st)
    end.

(** [DropsCampaign._on_claim]: the four caches named are reset, then every
    drop is told, which makes it forget [preconditions_met] and update its
    row in the GUI.  Modelled from the spec: [invalidate_cache] is in
    [utils], which is not among the sources; it is the invalidation hook of
    a memoised property, after which the property is computed again. *)
Definition _on_claim : St → St :=
  λ '(campaign, gui),
    let campaign :=
      DropsCampaign.set_cached_progress None
        (DropsCampaign.set_cached_remaining_drops None
           (DropsCampaign.set_cached_claimed_drops None
              (DropsCampaign.set_cached_finished None campaign))) in
    (DropsCampaign.set_timed_drops
       (DropsCampaign.dict_change_all (TimedDrop.set_preconditions_met None)
          (DropsCampaign.timed_drops campaign)) campaign,
     gui ++ (UpdateDrop <$> (DropsCampaign.timed_drops campaign).*1)).

(** [can_claim] *)
Definition can_claim (now : Z) (campaign : DropsCampaign.t) (self : TimedDrop.t) : bool :=
  bool_decide (is_Some (TimedDrop.claim_id self)) && negb (TimedDrop.is_claimed self) &&
  bool_decide (now < DropsCampaign.ends_at campaign + hours 24)%Z.

(** [_claim]: [request] is what the request to the server and the reading
    of its response come to, which is all that the rest of the method
    does. *)
Definition _claim (now : Z) (request : bool) (campaign : DropsCampaign.t) (self : TimedDrop.t)
  : bool :=
  if TimedDrop.is_claimed self then true
  else if negb (can_claim now campaign self) then false
  else request.

(** [TimedDrop.claim], with [BaseDrop.claim] inside *)
Definition claim (key : string) (now : Z) (request : bool) : St → bool * St :=
  λ st,
    match DropsCampaign.get_drop key st.1 with
    | None => (false, st)
    | Some self =>
        let outcome := _claim now request st.1 self in
        let st :=
          if outcome
          then _on_claim (change key (TimedDrop.set_is_claimed outcome) st)
          else st in
        let st :=
          if outcome
          then change key (λ d, TimedDrop.set_current_minutes (TimedDrop.required_minutes d) d) st
          else st in
        (outcome, st)
    end.

(** [preconditions_met]: [all] stops at the first precondition that is not
    claimed; a precondition that names no drop of the campaign raises
    [KeyError], and then nothing is stored. *)
Fixpoint all_claimed (campaign : DropsCampaign.t) (pids : list string) : result bool :=
  match pids with
  | [] => Returned true
  | pid :: rest =>
      match DropsCampaign.get_drop pid campaign with
      | None => Raised KeyError
      | Some drop => if TimedDrop.is_claimed drop then all_claimed campaign rest
                     else Returned false
      end
  end.

Definition preconditions_met (key : string) (self : TimedDrop.t) : M DropsCampaign.t bool :=
  λ campaign,
    match TimedDrop._preconditions_met self with
    | Some cached => (campaign, Returned cached)
    | None =>
        match all_claimed campaign (TimedDrop._precondition_drops self) with
        | Returned value =>
            (DropsCampaign.set_timed_drops
               (DropsCampaign.dict_change key (TimedDrop.set_preconditions_met (Some value))
                  (DropsCampaign.timed_drops campaign)) campaign,
             Returned value)
        | Raised e => (campaign, Raised e)
        end
    end.

(** [TimedDrop._base_earn_conditions]: [and] evaluates from the left, so
    the preconditions are looked at first *)
Definition _base_earn_conditions (key : string) (self : TimedDrop.t) : M DropsCampaign.t bool :=
  met ← preconditions_met key self;
  mret (met && negb (TimedDrop.is_claimed self) &&
        bool_decide (0 < TimedDrop.required_minutes self)%Z).

(** [_base_can_earn] *)
Definition _base_can_earn (now : Z) (key : string) (self : TimedDrop.t)
  : M DropsCampaign.t bool :=
  conditions ← _base_earn_conditions key self;
  mret (conditions &&
        bool_decide (TimedDrop.starts_at self ≤ now < TimedDrop.ends_at self)%Z).

(** [can_earn(channel)] *)
Definition can_earn (now : Z) (channel : option Channel.t) (key : string) (self : TimedDrop.t)
  : M DropsCampaign.t bool :=
  base ← _base_can_earn now key self;
  if base : bool then
    (λ campaign,
       let '(value, campaign) := DropsCampaign._base_can_earn now channel campaign in
       (campaign, Returned value)) : M DropsCampaign.t bool
  else mret false.

(** [can_earn_within(stamp)] *)
Definition can_earn_within (now stamp : Z) (key : string) (self : TimedDrop.t)
  : M DropsCampaign.t bool :=
  conditions ← _base_earn_conditions key self;
  mret (conditions && bool_decide (now < TimedDrop.ends_at self)%Z &&
        bool_decide (TimedDrop.starts_at self < stamp)%Z).

End Drop.

(** [any(f(drop) for drop in self.drops)]: the drops are taken in the order
    of the dict, each as it is when its turn comes; [any] stops at the first
    one for which [f] is true, and an exception ends it. *)
Fixpoint any_drop (f : string → TimedDrop.t → M DropsCampaign.t bool) (keys : list string)
  : M DropsCampaign.t bool :=
  match keys with
  | [] => mret false
  | key :: rest =>
      campaign ← get;
      match DropsCampaign.get_drop key campaign with
      | None => any_drop f rest
      | Some drop =>
          found ← f key drop;
          if found : bool then mret true else any_drop f rest
      end
  end.

(** [DropsCampaign.can_earn(channel)] *)
Definition campaign_can_earn (now : Z) (channel : option Channel.t) : M DropsCampaign.t bool :=
  λ campaign,
    let '(base, campaign) := DropsCampaign._base_can_earn now channel campaign in
    if base : bool
    then any_drop (Drop._base_can_earn now) (DropsCampaign.timed_drops campaign).*1 campaign
    else (campaign, Returned false).

(** [DropsCampaign.can_earn_within(stamp)] *)
Definition campaign_can_earn_within (now stamp : Z) : M DropsCampaign.t bool :=
  λ campaign,
    let '(is_eligible, campaign) := DropsCampaign.eligible campaign in
    if is_eligible && bool_decide (now < DropsCampaign.ends_at campaign)%Z &&
       bool_decide (DropsCampaign.starts_at campaign < stamp)%Z
    then any_drop (Drop.can_earn_within now stamp) (DropsCampaign.timed_drops campaign).*1
                  campaign
    else (campaign, Returned false).

(** ** Vocabulary of the inventory *)

(** What is done to a campaign and its drops from outside: the minutes
    reported, the claims and the properties read (a read can fill caches). *)
Inductive Call :=
  | UpdateMinutes (key : string) (minutes : Z)
  | BumpMinutes (key : string)
  | Claim (key : string) (now : Z) (request : bool)
  | ReadRemainingMinutes (key : string)
  | ReadProgress (key : string)
  | ReadCampaignProgress
  | ReadClaimedDrops
  | ReadRemainingDrops
  | ReadFinished
  | ReadCanEarn (now : Z) (channel : option Channel.t)
  | ReadCanEarnWithin (now stamp : Z).

Definition call (c : Call) (st : Drop.St) : Drop.St :=
  match c with
  | UpdateMinutes key minutes => Drop.update_minutes key minutes st
  | BumpMinutes key => Drop.bump_minutes key st
  | Claim key now request => (Drop.claim key now request st).2
  | ReadRemainingMinutes key => (Drop.remaining_minutes key st).2
  | ReadProgress key => (Drop.progress key st).2
  | ReadCampaignProgress => ((DropsCampaign.progress st.1).2, st.2)
  | ReadClaimedDrops => ((DropsCampaign.claimed_drops st.1).2, st.2)
  | ReadRemainingDrops => ((DropsCampaign.remaining_drops st.1).2, st.2)
  | ReadFinished => ((DropsCampaign.finished st.1).2, st.2)
  | ReadCanEarn now channel => ((campaign_can_earn now channel st.1).1, st.2)
  | ReadCanEarnWithin now stamp => ((campaign_can_earn_within now stamp st.1).1, st.2)
  end.

Definition calls (cs : list Call) (st : Drop.St) : Drop.St :=
  foldl (λ st c, call c st) st cs.

Definition is_claim (c : Call) : bool :=
  match c with
  | Claim _ _ _ => true
  | _ => false
  end.

(** A drop and a campaign as their [__init__] leave the caches *)
Definition drop_just_built (d : TimedDrop.t) : Prop :=
  TimedDrop._preconditions_met d = None ∧
  TimedDrop._cached_remaining_minutes d = None ∧
  TimedDrop._cached_total_required_minutes d = None ∧
  TimedDrop._cached_total_remaining_minutes d = None ∧
  TimedDrop._cached_progress d = None.

Definition just_built (c : DropsCampaign.t) : Prop :=
  Forall drop_just_built (DropsCampaign.drops c) ∧
  DropsCampaign._cached_progress c = None ∧
  DropsCampaign._cached_remaining_minutes c = None ∧
  DropsCampaign._cached_required_minutes c = None ∧
  DropsCampaign._cached_has_badge_or_emote c = None ∧
  DropsCampaign._cached_finished c = None ∧
  DropsCampaign._cached_claimed_drops c = None ∧
  DropsCampaign._cached_remaining_drops c = None.

(** What [progress] computes when nothing is cached *)
Definition progress_of (d : TimedDrop.t) : Progress :=
  (TimedDrop.progress (TimedDrop.set_cached_progress None d)).1.

Definition mean_progress_of (c : DropsCampaign.t) : MeanProgress :=
  if decide (DropsCampaign.total_drops c = 0) then NoDrops
  else MeanOf (progress_of <$> DropsCampaign.drops c).

(** The number of drops of the campaign that are claimed *)
Definition claimed_count (c : DropsCampaign.t) : nat :=
  length (filter (λ d, TimedDrop.is_claimed d = true) (DropsCampaign.drops c)).

(** Every drop is claimed or asks for no minutes *)
Definition nothing_left (c : DropsCampaign.t) : Prop :=
  Forall (λ d, TimedDrop.is_claimed d = true ∨ (TimedDrop.required_minutes d ≤ 0)%Z)
         (DropsCampaign.drops c).

(** What a fresh cache holds: nothing, or what the property would compute *)
Definition drop_minutes_fresh (d : TimedDrop.t) : Prop :=
  (∀ v, TimedDrop._cached_remaining_minutes d = Some v →
        v = (TimedDrop.required_minutes d - TimedDrop.current_minutes d)%Z) ∧
  (∀ p, TimedDrop._cached_progress d = Some p → p = progress_of d).

Definition minutes_fresh (c : DropsCampaign.t) : Prop :=
  Forall drop_minutes_fresh (DropsCampaign.drops c) ∧
  (∀ m, DropsCampaign._cached_progress c = Some m → m = mean_progress_of c).

Definition counts_fresh (c : DropsCampaign.t) : Prop :=
  (∀ n, DropsCampaign._cached_claimed_drops c = Some n → n = claimed_count c) ∧
  (∀ n, DropsCampaign._cached_remaining_drops c = Some n →
        n = DropsCampaign.total_drops c - claimed_count c) ∧
  (∀ b, DropsCampaign._cached_finished c = Some b → b = true ↔ nothing_left c).

Definition preconditions_fresh (c : DropsCampaign.t) : Prop :=
  ∀ key d v,
    DropsCampaign.get_drop key c = Some d →
    TimedDrop._preconditions_met d = Some v →
    Drop.all_claimed c (TimedDrop._precondition_drops d) = Returned v.

(** A campaign without what the earning checks memoise *)
Definition forget (c : DropsCampaign.t) : DropsCampaign.t :=
  DropsCampaign.set_cached_has_badge_or_emote None
    (DropsCampaign.set_timed_drops
       (DropsCampaign.dict_change_all (TimedDrop.set_preconditions_met None)
          (DropsCampaign.timed_drops c)) c).

(** The minutes of every drop lie between nothing and what is required *)
Definition minutes_bounded (c : DropsCampaign.t) : Prop :=
  ∀ key d, DropsCampaign.get_drop key c = Some d →
           (0 ≤ TimedDrop.current_minutes d ≤ TimedDrop.required_minutes d)%Z.

(** What [update_minutes] and [bump_minutes] do to the campaign when they
    set the minutes of a drop, and what a [claim] that succeeds does *)
Definition with_minutes (key : string) (minutes : Z) (c : DropsCampaign.t) : DropsCampaign.t :=
  (Drop._on_minutes_changed key
     (Drop.change key (TimedDrop.set_current_minutes minutes) (c, []))).1.

Definition with_claim (key : string) (c : DropsCampaign.t) : DropsCampaign.t :=
  (Drop.change key (λ d, TimedDrop.set_current_minutes (TimedDrop.required_minutes d) d)
     (Drop._on_claim (Drop.change key (TimedDrop.set_is_claimed true) (c, [])))).1.

(** What the counts and the preconditions of a campaign depend on, and
    what its minutes are *)
Definition claims_of (c : DropsCampaign.t)
  : list (string * bool * Z * list string) :=
  (λ '(k, d), (k, TimedDrop.is_claimed d, TimedDrop.required_minutes d,
               TimedDrop._precondition_drops d)) <$> DropsCampaign.timed_drops c.

Definition minutes_of (c : DropsCampaign.t) : list (string * Z * Z) :=
  (λ '(k, d), (k, TimedDrop.current_minutes d, TimedDrop.required_minutes d))
    <$> DropsCampaign.timed_drops c.

(** Two dicts with the same keys in the same order, the objects under each
    key being related *)
Definition related {V} (R : string → V → V → Prop) (items items' : list (string * V)) : Prop :=
  Forall2 (λ kv kv', kv'.1 = kv.1 ∧ R kv.1 kv.2 kv'.2) items items'.

(** What a drop holds besides its caches, as far as the checks read it *)
Definition data (d : TimedDrop.t) : Z * Z * bool * list string * option string :=
  (TimedDrop.current_minutes d, TimedDrop.required_minutes d, TimedDrop.is_claimed d,
   TimedDrop._precondition_drops d, TimedDrop.claim_id d).

(** The tasks a log shows to have been created *)
Definition is_task_created (e : Channel.Event) : bool :=
  match e with
  | Channel.TaskCreated _ => true
  | _ => false
  end.

Definition tasks_created (log : list Channel.Event) : nat :=
  length (filter (λ e, is_task_created e = true) log).

(** ** Scenarios *)

(** Concrete values for the constants and the environment, used where a
    statement is evaluated on an example. *)
Definition topic_a : WebsocketTopic := Topic "a".
Definition topic_b : WebsocketTopic := Topic "b".
Definition topic_c : WebsocketTopic := Topic "c".
Definition topic_d : WebsocketTopic := Topic "d".

(** One order in which a set may deliver its elements *)
Definition iteration_order : gset WebsocketTopic → list WebsocketTopic := elements.

Definition alphabet : string := "abcdefghijklmnopqrstuvwxyz".

(** A [json.loads] that rejects every payload *)
Definition no_payload : string → option JsonType := λ _, None.

(** [n] topics with distinct keys *)
Definition many (n : nat) : list WebsocketTopic := (λ i, Topic (pretty i)) <$> seq 0 n.

(** Every connection of the pool has got its socket. *)
Definition all_connected (self : WebsocketPool.t) : WebsocketPool.t :=
  WebsocketPool.mk (WebsocketPool._running self)
    ((λ ws, Websocket.set_ws (Some (Websocket._idx ws)) ws) <$> WebsocketPool.websockets self)
    (WebsocketPool._connection_count self).

(** The connection at place [i] of a pool is given socket [i]. *)
Definition socket_of_place : nat → Socket := λ i, i.

(** A started pool of at most one connection with room for two topics, after
    [add_topics([a])]: its connection has not got its socket yet. *)
Definition waiting_pool : WebsocketPool.t :=
  (WebsocketPool.add_topics 1 2 10000 iteration_order 0 [topic_a]
     (WebsocketPool.start socket_of_place WebsocketPool.__init__)).1.

(** A started pool whose only connection is connected and holds [a] *)
Definition single_pool : WebsocketPool.t :=
  all_connected
    (WebsocketPool.add_topics 20 50 10000 iteration_order 0 [topic_a]
       (WebsocketPool.start socket_of_place WebsocketPool.__init__)).1.

(** A pool that was given [a] before it was started: [start] has returned,
    so its connection holds socket 0 *)
Definition serving_pool : WebsocketPool.t :=
  WebsocketPool.start socket_of_place
    (WebsocketPool.add_topics 20 50 10000 iteration_order 0 [topic_a]
       WebsocketPool.__init__).1.

(** A pool that was never started, of at most two connections with room for
    two topics each: [a] and [c] were added first and fill the first
    connection, [b] and [d] were added next and fill the second. *)
Definition crowded_pool : WebsocketPool.t :=
  (WebsocketPool.add_topics 2 2 10000 iteration_order 0 [topic_b; topic_d]
     (WebsocketPool.add_topics 2 2 10000 iteration_order 0 [topic_a; topic_c]
        WebsocketPool.__init__).1).1.

(** A connected connection to which [a] was added, before its first sync *)
Definition pending_connection : Websocket.t :=
  (Websocket.add_topics 50 iteration_order {[topic_a]} (fresh_connection 10000 0 0)).2.

(** The same connection after the sync that subscribed it to [a] *)
Definition subscribed_connection : Websocket.t * World :=
  (Websocket._handle_topics alphabet iteration_order
     (pending_connection, calm_world "token")).1.


(** A connection one second into a heartbeat period of two seconds with an
    ack timeout of one second, no [PONG] received *)
Definition overdue_connection : Websocket.t * World :=
  (Websocket.steady_state 2000 1000 alphabet iteration_order no_payload (quiet 500 2)
     (fresh_connection 1000 0 0, calm_world "token")).1.

(** Frames a server sends *)
Definition pong_message : JsonType := JObject [("type", JString "PONG")].
Definition reconnect_message : JsonType := JObject [("type", JString "RECONNECT")].
Definition push_message (topic_key payload : string) : JsonType :=
  JObject [("type", JString "MESSAGE");
           ("data", JObject [("topic", JString topic_key);
                             ("message", JString payload)])].

(** The texts of these frames on the wire.  The payload of a push message
    is itself a JSON text, carried as a string. *)
Definition quoted (s : string) : string :=
  String (Ascii.ascii_of_nat 34) s +:+ String (Ascii.ascii_of_nat 34) "".
Definition object_text (fields : list (string * string)) : string :=
  "{" +:+ String.concat "," ((λ '(k, v), quoted k +:+ ":" +:+ v) <$> fields) +:+ "}".
Definition pong_text : string := object_text [("type", quoted "PONG")].
Definition reconnect_text : string := object_text [("type", quoted "RECONNECT")].
Definition push_text (topic_key payload : string) : string :=
  object_text [("type", quoted "MESSAGE");
               ("data", object_text [("topic", quoted topic_key);
                                     ("message", quoted payload)])].

(** A [json.loads] for the texts of the scenarios: it decodes them as
    [json.loads] does and takes everything else for no JSON. *)
Definition wire_loads (data : string) : option JsonType :=
  if decide (data = pong_text) then Some pong_message
  else if decide (data = reconnect_text) then Some reconnect_message
  else if decide (data = push_text "a" "1") then Some (push_message "a" "1")
  else if decide (data = "1") then Some (JInt 1)
  else None.

(** A poll in which the server closes the connection after a push message *)
Definition closing_poll : Poll :=
  mkPoll [TEXT (push_text "a" "1"); CLOSE; TEXT pong_text] 500.

(** A poll in which a [PONG] and a push message for [a] arrive *)
Definition answered_poll : Poll :=
  mkPoll [TEXT pong_text; TEXT (push_text "a" "1")] 500.



(** A poll in which a text that is no JSON arrives after a [PONG] *)
Definition garbled_poll : Poll :=
  mkPoll [TEXT pong_text; TEXT "<html>"] 500.

(** A campaign of two drops, the second of which waits for the first, as
    it is built: nothing cached, ten minutes watched on the first drop, which
    is ready to be claimed *)
Definition first_drop : TimedDrop.t :=
  TimedDrop.mk "first" "first" [] 0 1000 (Some "claim") false [] None 10 60
               None None None None.

Definition second_drop : TimedDrop.t :=
  TimedDrop.mk "second" "second" [] 0 1000 None false ["first"] None 0 120
               None None None None.

Definition campaign_of (drops : list (string * TimedDrop.t)) : DropsCampaign.t :=
  DropsCampaign.mk "campaign" "campaign" true "" "" 0 1000 [] drops
                   None None None None None None None.

Definition new_campaign : DropsCampaign.t :=
  campaign_of [("first", first_drop); ("second", second_drop)].

(** The same campaign with both drops claimed *)
Definition claimed_campaign : DropsCampaign.t :=
  campaign_of [("first", TimedDrop.set_is_claimed true first_drop);
               ("second", TimedDrop.set_is_claimed true second_drop)].

(** A streamer that is on no list *)
Definition some_channel : Channel.t :=
  Channel.mk 7 "streamer" None None None None false.

(** ** Tactics for the scenarios *)

(** Closes a goal [R x y] with a step [H : R x' y'] whose ends evaluate to
    the ends of the goal. *)
Ltac by_step H :=
  lazymatch type of H with
  | ?R ?x ?y =>
      lazymatch goal with
      | |- _ ?x' ?y' =>
          replace x' with x by (vm_compute; reflexivity);
          replace y' with y by (vm_compute; reflexivity);
          exact H
      end
  end.

(** One step [H] along a path of the reflexive-transitive closure *)
Ltac go H := eapply rtc_l; [exact H|].

(** The end of the path: the state reached evaluates to the goal's *)
Ltac arrive :=
  lazymatch goal with
  | |- rtc _ ?x ?y => replace y with x by (vm_compute; reflexivity); apply rtc_refl
  end.

(** * Proofs *)

(** * Properties of a single connection *)

Section ConnectionTopics.

Variable WS_TOPICS_LIMIT : nat.
Variable pop_order : gset WebsocketTopic → list WebsocketTopic.

Local Abbreviation ws_add := (Websocket.add_topics WS_TOPICS_LIMIT pop_order).
Local Abbreviation add_loop := (Websocket.add_topics_loop WS_TOPICS_LIMIT).

Lemma str_inj t1 t2 : str t1 = str t2 → t1 = t2.
Proof. destruct t1, t2; simpl; congruence. Qed.

Lemma add_topics_loop_keyed pending :
  ∀ tp changed,
    (∀ k v, tp !! k = Some v → str v = k) →
    ∀ k v, (add_loop pending tp changed).1.2 !! k = Some v → str v = k.
Proof.
  induction pending as [|topic rest IH]; intros tp changed Htp; simpl; [exact Htp|].
  case_decide; [|exact Htp].
  apply IH. intros k v. rewrite lookup_insert.
  case_decide; [intros [= <-]; done | apply Htp].
Qed.

Lemma add_topics_key_coherent topics_set self :
  key_coherent self → key_coherent (ws_add topics_set self).2.
Proof.
  intros Hself. unfold Websocket.add_topics.
  pose proof (add_topics_loop_keyed (pop_order topics_set)
                (Websocket.topics self) false Hself) as Hloop.
  destruct (add_loop _ _ _) as [[rest tp] changed]; simpl in *.
  destruct changed; [exact Hloop | exact Hself].
Qed.

Lemma remove_topics_lookup topics_set self k :
  Websocket.topics (Websocket.remove_topics topics_set self).2 !! k =
  if decide (k ∈ topics_set) then None else Websocket.topics self !! k.
Proof.
  unfold Websocket.remove_topics.
  case_decide as Hex; simpl.
  - case_decide as Hk; [|done].
    destruct (Websocket.topics self !! k) eqn:Hl; [|done].
    exfalso. assert (k ∈ topics_set ∩ dom (Websocket.topics self)) as Hin.
    { apply elem_of_intersection. split; [done|]. apply elem_of_dom; eauto. }
    rewrite Hex in Hin. set_solver.
  - case_decide as Hk.
    + destruct (decide (k ∈ dom (Websocket.topics self))) as [Hd|Hd].
      * apply lookup_foldr_delete. apply elem_of_elements. set_solver.
      * rewrite lookup_foldr_delete_not_elem_of.
        -- by apply not_elem_of_dom.
        -- rewrite elem_of_elements. set_solver.
    + apply lookup_foldr_delete_not_elem_of. rewrite elem_of_elements. set_solver.
Qed.

Lemma remove_topics_key_coherent topics_set self :
  key_coherent self → key_coherent (Websocket.remove_topics topics_set self).2.
Proof.
  intros Hself k v. rewrite remove_topics_lookup.
  case_decide; [done | apply Hself].
Qed.

Lemma init_key_coherent PING_TIMEOUT index now :
  key_coherent (Websocket.__init__ PING_TIMEOUT index now).
Proof. intros k v. simpl. by rewrite lookup_empty. Qed.

End ConnectionTopics.

Section ConnectionWire.

Variable PING_INTERVAL : Z.
Variable PING_TIMEOUT : Z.
Variable CHARS_ASCII : string.
Variable pop_order : gset WebsocketTopic → list WebsocketTopic.

Local Abbreviation send := (Websocket.send CHARS_ASCII).
Local Abbreviation _handle_ping :=
  (Websocket._handle_ping PING_INTERVAL PING_TIMEOUT CHARS_ASCII).
Local Abbreviation _handle_topics := (Websocket._handle_topics CHARS_ASCII pop_order).

Lemma string_of_list_ascii_length l :
  String.length (String.string_of_list_ascii l) = length l.
Proof. induction l; simpl; congruence. Qed.

Lemma create_nonce_length chars len w :
  String.length (create_nonce chars len w).1 = len.
Proof.
  unfold create_nonce; simpl.
  by rewrite string_of_list_ascii_length, length_map, length_seq.
Qed.

Lemma create_nonce_world chars len w :
  let w' := (create_nonce chars len w).2 in
  clock w' = clock w ∧ access_token w' = access_token w ∧
  transport_up w' = transport_up w ∧ entropy w' = entropy w ∧
  drawn w' = len + drawn w ∧ trace w' = trace w.
Proof. done. Qed.

(** What a call of [send] that returns has done. *)
Lemma send_returned message self w st' :
  send message (self, w) = (st', Returned tt) →
  ∃ sock type,
    Websocket._ws self = Some sock ∧
    json_get "type" message = Some type ∧
    transport_up w = true ∧
    st' = (self,
           if json_is "PING" type then emit (Sent sock message) w
           else emit (Sent sock (with_nonce CHARS_ASCII w message))
                     (create_nonce CHARS_ASCII 30 w).2).
Proof.
  unfold Websocket.send, with_nonce.
  pose proof (create_nonce_world CHARS_ASCII 30 w) as (_ & _ & Hup' & _).
  destruct (create_nonce CHARS_ASCII 30 w) as [nonce w1] eqn:Hnonce.
  destruct (Websocket._ws self) as [sock|]; [|done].
  destruct (json_get "type" message) as [type|]; [|done].
  destruct (json_is "PING" type) eqn:Hping; cbn [negb fst snd] in *.
  - destruct (transport_up w) eqn:Hup; [|done].
    intros [= <-]. exists sock, type. by rewrite Hping.
  - rewrite Hup'. destruct (transport_up w) eqn:Hup; [|done].
    intros [= <-]. exists sock, type. by rewrite Hping.
Qed.

(** A call of [send] that raises has written nothing. *)
Lemma send_raised message self w st' e :
  send message (self, w) = (st', Raised e) →
  st'.1 = self ∧ trace st'.2 = trace w.
Proof.
  unfold Websocket.send.
  pose proof (create_nonce_world CHARS_ASCII 30 w) as (_ & _ & _ & _ & _ & Htr).
  destruct (create_nonce CHARS_ASCII 30 w) as [nonce w1] eqn:Hnonce.
  destruct (Websocket._ws self) as [sock|]; [|by intros [= <-]].
  destruct (json_get "type" message) as [type|]; [|by intros [= <-]].
  destruct (json_is "PING" type) eqn:Hping; cbn [negb fst snd] in *.
  - destruct (transport_up w); [done | by intros [= <-]].
  - destruct (transport_up w1); [done | by intros [= <-]].
Qed.

(** [_handle_topics] with its sequencing written out. *)
Lemma _handle_topics_unfold self w :
  _handle_topics (self, w) =
  if negb (Websocket._topics_changed self) then ((self, w), Returned tt)
  else
    let self0 := Websocket.set_topics_changed false self in
    let current := Websocket.current_topics self in
    let removed := Websocket._submitted self ∖ current in
    let unlisten :=
      if decide (removed ≠ ∅) then
        match send (Websocket.control "UNLISTEN" (str <$> pop_order removed) (access_token w))
                   (self0, w) with
        | ((s, w1), Returned _) =>
            ((Websocket.set_submitted (Websocket._submitted s ∖ removed) s, w1),
             Returned tt)
        | (st1, Raised e) => (st1, Raised e)
        end
      else ((self0, w), Returned tt) in
    match unlisten with
    | ((self1, w1), Returned _) =>
        let added := current ∖ Websocket._submitted self1 in
        if decide (added ≠ ∅) then
          match send (Websocket.control "LISTEN" (str <$> pop_order added) (access_token w))
                     (self1, w1) with
          | ((s, w2), Returned _) =>
              ((Websocket.set_submitted (Websocket._submitted s ∪ added) s, w2),
               Returned tt)
          | (st2, Raised e) => (st2, Raised e)
          end
        else ((self1, w1), Returned tt)
    | (st1, Raised e) => (st1, Raised e)
    end.
Proof.
  unfold Websocket._handle_topics, mbind, M_bind, bind, get, modify, mret, M_ret, ret.
  cbn [fst snd].
  destruct (Websocket._topics_changed self); cbn [negb]; [|done].
  cbn zeta.
  unfold Websocket.current_topics, Websocket.set_topics_changed.
  cbn [Websocket._submitted Websocket.topics].
  destruct (decide (Websocket._submitted self ∖ map_img (Websocket.topics self) ≠ ∅)).
  - destruct (send _ _) as [[s w1] [[]|e]]; [|done].
    cbn [Websocket._submitted Websocket.set_submitted].
    destruct (decide _); [|done].
    by destruct (send _ _) as [[s2 w2] [[]|e]].
  - cbn [Websocket._submitted].
    destruct (decide _); [|done].
    by destruct (send _ _) as [[s2 w2] [[]|e]].
Qed.

Lemma send_self message st : (send message st).1.1 = st.1.
Proof.
  destruct st as [self w]. destruct (send message (self, w)) as [st' [[]|e]] eqn:Hs.
  - by apply send_returned in Hs as (? & ? & _ & _ & _ & ->).
  - by apply send_raised in Hs as [? _].
Qed.

Lemma send_control_returned type topics_list auth_token self w st' :
  type ≠ "PING" →
  send (Websocket.control type topics_list auth_token) (self, w) = (st', Returned tt) →
  ∃ sock,
    Websocket._ws self = Some sock ∧ transport_up w = true ∧
    st' = (self,
           emit (Sent sock (with_nonce CHARS_ASCII w
                              (Websocket.control type topics_list auth_token)))
                (create_nonce CHARS_ASCII 30 w).2).
Proof.
  intros Hne Hs. apply send_returned in Hs as (sock & ty & Hsock & Hty & Hup & ->).
  exists sock. split_and!; [done..|].
  assert (ty = JString type) as -> by (cbv in Hty; congruence).
  unfold json_is. by rewrite bool_decide_eq_false_2.
Qed.

Local Abbreviation unlisten_message := (unlisten_message pop_order).
Local Abbreviation listen_message := (listen_message pop_order).
Local Abbreviation sync_outcome := (sync_outcome CHARS_ASCII pop_order).

Lemma submitted_set_submitted x self :
  Websocket._submitted (Websocket.set_submitted x self) = x.
Proof. done. Qed.

Lemma set_submitted_same self :
  Websocket.set_submitted (Websocket._submitted self) self = self.
Proof. by destruct self. Qed.

Lemma _handle_topics_outcome self w :
  sync_outcome self w (_handle_topics (self, w)).1 (_handle_topics (self, w)).2.
Proof.
  rewrite _handle_topics_unfold.
  destruct (Websocket._topics_changed self) eqn:Hch; cbn [negb]; [|by constructor].
  cbn zeta. fold (sync_removed self). fold (unlisten_message self w).
  set (self0 := Websocket.set_topics_changed false self).
  assert (Websocket._submitted self0 = Websocket._submitted self) as Hsub0 by done.
  assert (Websocket._ws self0 = Websocket._ws self) as Hws0 by done.
  destruct (decide (sync_removed self ≠ ∅)) as [Hrem|Hrem].
  - destruct (send (unlisten_message self w) (self0, w)) as [[s w1] [[]|e]] eqn:Hs1.
    + apply send_control_returned in Hs1 as (sock & Hsock & Hup & Hst); [|done].
      apply pair_equal_spec in Hst as [-> ->].
      rewrite !submitted_set_submitted, Hsub0. fold (sync_added self). fold (listen_message self w).
      set (w1 := emit _ _). set (self1 := Websocket.set_submitted _ self0).
      destruct (decide (sync_added self ≠ ∅)) as [Hadd|Hadd].
      * destruct (send (listen_message self w) (self1, w1)) as [[s w2] [[]|e]] eqn:Hs2.
        -- apply send_control_returned in Hs2 as (sock' & Hsock' & Hup' & Hst); [|done].
           apply pair_equal_spec in Hst as [-> ->].
           assert (Websocket._ws self1 = Websocket._ws self) as Hws1 by done.
           assert (sock' = sock) as -> by congruence.
           eapply (sync_done _ _ _ _ self1 w1 _ _ sock); eauto.
           right. by split_and!.
        -- pose proof (send_raised _ _ _ _ _ Hs2) as [Hs Htr]. simpl in Hs, Htr. subst s.
           eapply (sync_listen_failed _ _ _ _ self1 w1 w2 sock); eauto.
      * eapply (sync_done _ _ _ _ self1 w1 _ _ sock); eauto.
        left. split; [|done]. by destruct (decide (sync_added self = ∅)).
    + pose proof (send_raised _ _ _ _ _ Hs1) as [Hs Htr]. simpl in Hs, Htr. subst s.
      by constructor.
  - assert (sync_removed self = ∅) as Hrem' by (by destruct (decide (sync_removed self = ∅))).
    assert (self0 = Websocket.set_submitted (Websocket._submitted self ∖ sync_removed self)
                      self0) as Hself0.
    { rewrite Hrem', difference_empty_L, <-Hsub0. by rewrite set_submitted_same. }
    rewrite Hsub0.
    assert (Websocket.current_topics self ∖ Websocket._submitted self = sync_added self)
      as -> by (unfold sync_added; by rewrite Hrem', difference_empty_L).
    fold (listen_message self w).
    destruct (decide (sync_added self ≠ ∅)) as [Hadd|Hadd].
    + destruct (send (listen_message self w) (self0, w)) as [[s w2] [[]|e]] eqn:Hs2.
      * apply send_control_returned in Hs2 as (sock' & Hsock' & Hup' & Hst); [|done].
        apply pair_equal_spec in Hst as [-> ->].
        eapply (sync_done _ _ _ _ self0 w _ _ sock'); eauto.
        right. by split_and!.
      * pose proof (send_raised _ _ _ _ _ Hs2) as [Hs Htr]. simpl in Hs, Htr. subst s.
        rewrite Hself0. eapply (sync_listen_failed _ _ _ _ _ w w2 0); eauto.
    + eapply (sync_done _ _ _ _ self0 w _ _ 0); eauto.
      left. split; [|done]. by destruct (decide (sync_added self = ∅)).
Qed.

(** The three ways a heartbeat check can go. *)
Lemma _handle_ping_cases self w :
  let now := clock w in
  let '((self', w'), r) := _handle_ping (self, w) in
  ((Websocket._next_ping self ≤ now)%Z ∧
   self' = Websocket.set_max_pong (now + PING_TIMEOUT)%Z
             (Websocket.set_next_ping (now + PING_INTERVAL)%Z self) ∧
   ((∃ sock, Websocket._ws self = Some sock ∧ r = Returned tt ∧
             w' = emit (Sent sock (JObject [("type", JString "PING")])) w) ∨
    (∃ e, r = Raised e ∧ trace w' = trace w))) ∨
  ((now < Websocket._next_ping self)%Z ∧ (Websocket._max_pong self ≤ now)%Z ∧
   self' = Websocket.set_reconnect_requested true (Websocket.set_next_ping now self) ∧
   w' = emit (ReconnectRequested (Websocket._idx self)) w ∧ r = Returned tt) ∨
  ((now < Websocket._next_ping self)%Z ∧ (now < Websocket._max_pong self)%Z ∧
   self' = self ∧ w' = w ∧ r = Returned tt).
Proof.
  cbn zeta. unfold Websocket._handle_ping.
  destruct (decide (Websocket._next_ping self ≤ clock w)%Z) as [Hping|Hping].
  - set (self1 := Websocket.set_max_pong _ _).
    destruct (send _ (self1, w)) as [[self' w'] [[]|e]] eqn:Hs.
    + apply send_returned in Hs as (sock & type & Hsock & Htype & Hup & Hst).
      apply pair_equal_spec in Hst as [-> ->].
      assert (type = JString "PING") as -> by (cbv in Htype; congruence).
      left. split_and!; [done..|]. left. by exists sock.
    + pose proof (send_raised _ _ _ _ _ Hs) as [Hself Htr]. simpl in Hself, Htr.
      left. split_and!; [done..|]. right. by exists e.
  - destruct (decide (Websocket._max_pong self ≤ clock w)%Z) as [Hpong|Hpong].
    + right; left. split_and!; [lia|done..].
    + right; right. split_and!; [lia|lia|done..].
Qed.

Lemma assoc_get_set key value fields :
  assoc_get key (assoc_set key value fields) = Some value.
Proof.
  induction fields as [|[k v] rest IH]; simpl.
  - by rewrite decide_True.
  - destruct (decide (k = key)) as [->|Hne]; simpl.
    + by rewrite decide_True.
    + by rewrite decide_False.
Qed.

Lemma nonce_from_length chars w position :
  String.length (nonce_from chars w position) = 30.
Proof.
  unfold nonce_from. by rewrite string_of_list_ascii_length, length_map, length_seq.
Qed.

Lemma with_nonce_nonce_from chars w message :
  with_nonce chars w message =
  json_set "nonce" (JString (nonce_from chars w (drawn w))) message.
Proof. done. Qed.

(** C7.  Every frame a heartbeat check writes is exactly
    [{"type": "PING"}], which has no nonce; the frames a subscription sync
    writes are its [UNLISTEN] and [LISTEN] messages, each carrying the access
    token the auth provider holds at that time and, under ["nonce"], thirty
    characters drawn from the random source for that message alone: the i-th
    message of the sync uses the i-th block of thirty draws not consumed
    before. *)
Theorem heartbeat_and_control_frames (self : Websocket.t) (w : World) :
  (∃ new,
     trace (_handle_ping (self, w)).1.2 = trace w ++ new ∧
     ∀ frame, frame ∈ frames_sent new →
       frame = JObject [("type", JString "PING")] ∧ json_get "nonce" frame = None) ∧
  (∃ messages,
     trace (_handle_topics (self, w)).1.2 =
       trace w ++
       match Websocket._ws self with
       | Some sock => control_events CHARS_ASCII sock w messages
       | None => []
       end ∧
     (Websocket._ws self = None → messages = []) ∧
     Forall (λ message,
               (message = unlisten_message self w ∨ message = listen_message self w) ∧
               auth_token_of message = Some (JString (access_token w)))
            messages) ∧
  (∀ type topics_list auth_token position,
     json_get "nonce"
       (json_set "nonce" (JString (nonce_from CHARS_ASCII w position))
                 (Websocket.control type topics_list auth_token)) =
       Some (JString (nonce_from CHARS_ASCII w position)) ∧
     String.length (nonce_from CHARS_ASCII w position) = 30).
Proof.
  split_and!.
  - pose proof (_handle_ping_cases self w) as Hc. cbn zeta in Hc.
    destruct (_handle_ping (self, w)) as [[self' w'] r]; simpl.
    destruct Hc as [(_ & _ & [(sock & _ & _ & ->)|(e & _ & Htr)])
                   |[(_ & _ & _ & -> & _)|(_ & _ & _ & -> & _)]].
    + eexists [_]; split; [done|]. simpl.
      intros frame ->%list_elem_of_singleton. done.
    + exists []. rewrite app_nil_r. split; [done|]. by intros ? ?%elem_of_nil.
    + eexists [_]; split; [done|]. by intros ? ?%elem_of_nil.
    + exists []. rewrite app_nil_r. split; [done|]. by intros ? ?%elem_of_nil.
  - pose proof (_handle_topics_outcome self w) as Hc.
    destruct (_handle_topics (self, w)) as [[self' w'] r]; simpl in *.
    assert (∀ m, (m = unlisten_message self w ∨ m = listen_message self w) →
                 (m = unlisten_message self w ∨ m = listen_message self w) ∧
                 auth_token_of m = Some (JString (access_token w))) as Hmsg.
    { intros m Hm. split; [done|]. by destruct Hm as [-> | ->]. }
    inversion Hc as [Hch|w'' e Hch Hrem Htr|self1 w1 self2 w2 sock Hch H1 Hs1 H2
                    |self1 w1 w2 sock e Hch H1 Hs1 Hadd Htr]; subst.
    + exists []. destruct (Websocket._ws _); by rewrite app_nil_r.
    + exists []. rewrite Htr. destruct (Websocket._ws self); by rewrite app_nil_r.
    + destruct H1 as [[Hrem ->]|(Hrem & Hsock & Hup & ->)];
        destruct H2 as [(Hadd & -> & _)|(Hadd & Hsock' & Hup' & -> & _)].
      * exists []. destruct (Websocket._ws self); by rewrite app_nil_r.
      * exists [listen_message self w]. rewrite Hsock'. split_and!; [|done|].
        -- done.
        -- constructor; [apply Hmsg; by right | constructor].
      * exists [unlisten_message self w]. rewrite Hsock. split_and!; [|done|].
        -- done.
        -- constructor; [apply Hmsg; by left | constructor].
      * exists [unlisten_message self w; listen_message self w].
        rewrite Hsock. split_and!; [|done|].
        -- symmetry. etransitivity; [apply (app_assoc (trace w) [_] [_]) | reflexivity].
        -- constructor; [apply Hmsg; by left|].
           constructor; [apply Hmsg; by right | constructor].
    + destruct H1 as [[Hrem ->]|(Hrem & Hsock & Hup & ->)].
      * exists []. rewrite Htr. destruct (Websocket._ws self); by rewrite app_nil_r.
      * exists [unlisten_message self w]. rewrite Hsock, Htr. split_and!; [|done|].
        -- done.
        -- constructor; [apply Hmsg; by left | constructor].
  - intros type topics_list auth_token position.
    split; [apply assoc_get_set | apply nonce_from_length].
Qed.

End ConnectionWire.

Section ConnectionSync.

Variable WS_TOPICS_LIMIT : nat.
Variable CHARS_ASCII : string.
Variable pop_order : gset WebsocketTopic → list WebsocketTopic.
Hypothesis pop_order_perm : ∀ s, pop_order s ≡ₚ elements s.

Local Abbreviation ws_add := (Websocket.add_topics WS_TOPICS_LIMIT pop_order).
Local Abbreviation _handle_topics := (Websocket._handle_topics CHARS_ASCII pop_order).

Lemma pop_order_singleton topic : pop_order {[topic]} = [topic].
Proof.
  apply Permutation_singleton_r. by rewrite pop_order_perm, elements_singleton.
Qed.




(** Adding one topic that is not assigned yet and removing it again gives
    the connection back, up to the changed flag. *)
Lemma add_remove_roundtrip self topic :
  str topic ∉ dom (Websocket.topics self) →
  let self' := (Websocket.remove_topics {[str topic]} (ws_add {[topic]} self).2).2 in
  self' = self ∨ self' = Websocket.set_topics_changed true self.
Proof.
  intros Hfresh. cbn zeta.
  unfold Websocket.add_topics. rewrite pop_order_singleton. simpl.
  case_decide as Hroom; simpl.
  - right. unfold Websocket.remove_topics. simpl.
    rewrite dom_insert_L.
    assert ({[str topic]} ∩ ({[str topic]} ∪ dom (Websocket.topics self))
            = ({[str topic]} : gset string)) as -> by set_solver.
    rewrite decide_False by set_solver.
    simpl. rewrite elements_singleton. simpl.
    rewrite delete_insert_id by (by apply not_elem_of_dom).
    by destruct self.
  - left. unfold Websocket.remove_topics.
    rewrite decide_True by set_solver. done.
Qed.

(** What a sync leaves alone. *)
Lemma _handle_topics_frame self w :
  let self' := (_handle_topics (self, w)).1.1 in
  Websocket.topics self' = Websocket.topics self ∧
  Websocket._ws self' = Websocket._ws self ∧
  Websocket._idx self' = Websocket._idx self ∧
  Websocket._reconnect_requested self' = Websocket._reconnect_requested self ∧
  Websocket._next_ping self' = Websocket._next_ping self ∧
  Websocket._max_pong self' = Websocket._max_pong self.
Proof.
  cbn zeta. pose proof (_handle_topics_outcome CHARS_ASCII pop_order self w) as Hc.
  destruct (_handle_topics (self, w)) as [[self' w'] r]; simpl in *.
  inversion Hc as [Hch|w'' e Hch Hrem Htr|self1 w1 self2 w2 sock Hch H1 Hs1 H2
                  |self1 w1 w2 sock e Hch H1 Hs1 Hadd Htr]; simplify_eq; try done.
  by destruct H2 as [(_ & _ & ->)|(_ & _ & _ & _ & ->)].
Qed.

(** A sync that finds the submitted set equal to the assigned topics writes
    nothing. *)
Lemma _handle_topics_in_sync self w :
  Websocket._submitted self = Websocket.current_topics self →
  (_handle_topics (self, w)).1.2 = w ∧ (_handle_topics (self, w)).2 = Returned tt.
Proof.
  intros Hsync. pose proof (_handle_topics_outcome CHARS_ASCII pop_order self w) as Hc.
  assert (sync_removed self = ∅) as Hrem0
    by (unfold sync_removed; rewrite Hsync; set_solver).
  assert (sync_added self = ∅) as Hadd0
    by (unfold sync_added; rewrite Hrem0, Hsync; set_solver).
  destruct (_handle_topics (self, w)) as [[self' w'] r]; simpl in *.
  inversion Hc as [Hch|w'' e Hch Hrem Htr|self1 w1 self2 w2 sock Hch H1 Hs1 H2
                  |self1 w1 w2 sock e Hch H1 Hs1 Hadd Htr]; simplify_eq; try done.
  destruct H1 as [[_ ->]|(? & _)]; [|done].
  by destruct H2 as [(_ & -> & _)|(? & _)].
Qed.

(** C6, as the code has it.  Adding a topic whose key is not assigned yet
    and removing it again before any sync leaves the topic map and the
    submitted set of the connection as they were (at most the changed flag
    is raised), so the next sync emits what the state before the pair
    already called for; when the submitted set was equal to the assigned
    topics, that is no [LISTEN] and no [UNLISTEN] at all. *)
Theorem add_then_remove_emits_nothing (self : Websocket.t) (topic : WebsocketTopic)
    (w : World) :
  str topic ∉ dom (Websocket.topics self) →
  let self' := (Websocket.remove_topics {[str topic]} (ws_add {[topic]} self).2).2 in
  (self' = self ∨ self' = Websocket.set_topics_changed true self) ∧
  (Websocket._submitted self = Websocket.current_topics self →
   trace (_handle_topics (self', w)).1.2 = trace w ∧
   (_handle_topics (self', w)).2 = Returned tt).
Proof.
  intros Hfresh self'. pose proof (add_remove_roundtrip self topic Hfresh) as Hshape.
  fold self' in Hshape. split; [done|].
  intros Hsync.
  assert (Websocket._submitted self' = Websocket.current_topics self') as Hsync'
    by (by destruct Hshape as [-> | ->]).
  by destruct (_handle_topics_in_sync self' w Hsync') as [-> ->].
Qed.

End ConnectionSync.

Section ConnectionLifecycle.

Variable PING_INTERVAL : Z.
Variable PING_TIMEOUT : Z.
Variable WS_TOPICS_LIMIT : nat.
Variable CHARS_ASCII : string.
Variable pop_order : gset WebsocketTopic → list WebsocketTopic.
Variable json_loads : string → option JsonType.
Hypothesis pop_order_perm : ∀ s, pop_order s ≡ₚ elements s.

Local Abbreviation ws_add := (Websocket.add_topics WS_TOPICS_LIMIT pop_order).
Local Abbreviation _handle_ping :=
  (Websocket._handle_ping PING_INTERVAL PING_TIMEOUT CHARS_ASCII).
Local Abbreviation _handle_topics := (Websocket._handle_topics CHARS_ASCII pop_order).
Local Abbreviation _handle_recv := (Websocket._handle_recv json_loads).
Local Abbreviation lifecycle :=
  (lifecycle PING_INTERVAL PING_TIMEOUT WS_TOPICS_LIMIT CHARS_ASCII pop_order json_loads).
Local Abbreviation listen_message := (listen_message pop_order).

(** [_handle_message] leaves the connection as it is; it creates at most
    one handler task, for the topic assigned under the key the message
    names, and then it returns. *)
Lemma _handle_message_self message self w :
  ∃ w' r,
    Websocket._handle_message json_loads message (self, w) = ((self, w'), r) ∧
    (w' = w ∨
     r = Returned tt ∧
     ∃ topic_key topic payload,
       topic_key_of message = Some topic_key ∧ topic_key ≠ "" ∧
       Websocket.topics self !! topic_key = Some topic ∧
       w' = emit (Dispatched topic payload) w).
Proof.
  unfold Websocket._handle_message, topic_key_of, json_get, mbind, M_bind, bind, lift, get.
  destruct (dict_get "data" message) as [data|e] eqn:Hdata; [|by eauto].
  destruct message as [| | | | | |fields]; try done. cbn in Hdata. simplify_eq.
  destruct (dict_get "topic" (default (JObject []) (assoc_get "data" fields)))
    as [topic_key|e] eqn:Htopic; [|by eauto].
  destruct (default (JObject []) (assoc_get "data" fields)) as [| | | | | |data];
    try done. cbn in Htopic. simplify_eq.
  destruct (truthy (assoc_get "topic" data)) eqn:Htrue; cbn [negb]; [|by eauto].
  destruct (assoc_get "topic" data) as [[| | | |topic_key| |]|]; cbn; try by eauto.
  cbn in Htrue. apply bool_decide_eq_true in Htrue.
  destruct (Websocket.topics self !! topic_key) as [topic|] eqn:Hlook; [|by eauto].
  destruct (default (JString "{}") (assoc_get "message" data)); cbn; try by eauto.
  destruct (json_loads s) as [msg_data|]; cbn; [|by eauto].
  do 2 eexists. split; [done|]. right. split; [done|]. eauto 10.
Qed.

Lemma process_messages_frame messages :
  ∀ self w,
    same_subscription self (Websocket.process_messages json_loads messages (self, w)).1.1.
Proof.
  induction messages as [|message rest IH]; intros self w; [done|].
  cbn [Websocket.process_messages]. unfold mbind, M_bind, bind, lift.
  destruct (dict_get "type" message) as [msg_type|e]; [|done].
  destruct (json_is "MESSAGE" _).
  { destruct (_handle_message_self message self w) as (w' & outcome & -> & _).
    destruct outcome; [apply IH|done]. }
  destruct (json_is "PONG" _).
  { unfold modify.
    by destruct (IH (Websocket.set_max_pong (Websocket._next_ping self) self) w)
      as (? & ? & ? & ?). }
  destruct (json_is "RESPONSE" _); [apply IH|].
  destruct (json_is "RECONNECT" _); [done|apply IH].
Qed.

Lemma _handle_recv_frame p self w :
  same_subscription self (_handle_recv p (self, w)).1.1.
Proof.
  unfold Websocket._handle_recv.
  destruct (Websocket._ws self); [|done].
  destruct (Websocket._gather_recv _ _ _); [|done].
  apply process_messages_frame.
Qed.

Lemma _handle_ping_frame self w :
  same_subscription self (_handle_ping (self, w)).1.1.
Proof.
  pose proof (_handle_ping_cases PING_INTERVAL PING_TIMEOUT CHARS_ASCII self w) as Hc.
  cbn zeta in Hc. destruct (_handle_ping (self, w)) as [[self' w'] r]; simpl.
  by destruct Hc as [(_ & -> & _)|[(_ & _ & -> & _)|(_ & _ & -> & _)]].
Qed.













Lemma type_of_control type topics_list auth_token nonce :
  json_get "type" (json_set "nonce" nonce (Websocket.control type topics_list auth_token)) =
  Some (JString type).
Proof. done. Qed.



Lemma key_coherent_topics self self' :
  Websocket.topics self' = Websocket.topics self → key_coherent self → key_coherent self'.
Proof. unfold key_coherent. by intros ->. Qed.

Lemma key_coherent_in_loop {A} (op : M (Websocket.t * World) A) st :
  Websocket.topics (op st).1.1 = Websocket.topics st.1 →
  key_coherent st.1 → key_coherent (in_loop op st).1.
Proof.
  intros Hsame Hinv. unfold in_loop.
  destruct (op st) as [[self' w'] [a|e]]; simpl in *; by apply (key_coherent_topics st.1).
Qed.

Lemma key_coherent_stop remove self :
  key_coherent self → key_coherent (Websocket.stop remove self).
Proof.
  intros Hself k v. unfold Websocket.stop, Websocket.teardown.
  repeat case_match; simpl; try apply Hself; by rewrite lookup_empty.
Qed.

Lemma lifecycle_key_coherent st st' :
  lifecycle st st' → key_coherent st.1 → key_coherent st'.1.
Proof.
  intros Hstep Hinv.
  destruct Hstep as [self w ts|self w ts|self w|self w Hws Htask|self w sock Hws
                    |st Hc|st Hc|st p Hc|self w Hc|self w remove|self w w']; simpl in *.
  - by apply add_topics_key_coherent.
  - by apply remove_topics_key_coherent.
  - apply (key_coherent_topics self); [|done].
    unfold Websocket.start_nowait. by repeat case_match.
  - done.
  - done.
  - apply key_coherent_in_loop; [|done]. destruct st. apply _handle_ping_frame.
  - apply key_coherent_in_loop; [|done]. destruct st.
    apply (_handle_topics_frame CHARS_ASCII pop_order).
  - apply key_coherent_in_loop; [|done]. destruct st. apply _handle_recv_frame.
  - done.
  - by apply key_coherent_stop.
  - done.
Qed.

(** C9.  The topic map of a connection is keyed by the string form of its
    values, [str(topics[k]) = k] for every key [k]: it is so in every state
    a connection reaches from its creation, and both [add_topics] and
    [remove_topics] of the connection keep it so. *)
Theorem topics_keyed_by_str :
  (∀ st,
     conn_reachable PING_INTERVAL PING_TIMEOUT WS_TOPICS_LIMIT CHARS_ASCII pop_order
                    json_loads st →
     ∀ k v, Websocket.topics st.1 !! k = Some v → str v = k) ∧
  (∀ self,
     key_coherent self →
     (∀ topics_set, key_coherent (ws_add topics_set self).2) ∧
     (∀ topics_set, key_coherent (Websocket.remove_topics topics_set self).2)).
Proof.
  split.
  - intros st (index & now & w & Hrtc).
    change (key_coherent st.1).
    assert (∀ st0 st, rtc lifecycle st0 st → key_coherent st0.1 → key_coherent st.1)
      as Hind.
    { induction 1 as [|st1 st2 st3 Hstep _ IH]; [done|].
      intros Hinit. by apply IH, (lifecycle_key_coherent st1). }
    apply (Hind _ _ Hrtc), init_key_coherent.
  - intros self Hself. split; intros topics_set.
    + by apply add_topics_key_coherent.
    + by apply remove_topics_key_coherent.
Qed.

End ConnectionLifecycle.

Section Heartbeat.

Variable PING_INTERVAL : Z.
Variable PING_TIMEOUT : Z.
Variable CHARS_ASCII : string.
Variable pop_order : gset WebsocketTopic → list WebsocketTopic.
Variable json_loads : string → option JsonType.

Local Abbreviation _handle_ping :=
  (Websocket._handle_ping PING_INTERVAL PING_TIMEOUT CHARS_ASCII).
Local Abbreviation _handle_topics := (Websocket._handle_topics CHARS_ASCII pop_order).
Local Abbreviation _handle_recv := (Websocket._handle_recv json_loads).
Local Abbreviation steady_state :=
  (Websocket.steady_state PING_INTERVAL PING_TIMEOUT CHARS_ASCII pop_order json_loads).

Lemma reconnect_requests_app events events' :
  reconnect_requests (events ++ events') =
  reconnect_requests events + reconnect_requests events'.
Proof. unfold reconnect_requests. by rewrite filter_app, length_app. Qed.

Lemma reconnect_requests_emit_sent sock frame w :
  reconnect_requests (trace (emit (Sent sock frame) w)) = reconnect_requests (trace w).
Proof.
  change (trace (emit ?e ?x)) with (trace x ++ [e]).
  rewrite reconnect_requests_app.
  change (reconnect_requests [Sent sock frame]) with 0. lia.
Qed.

Lemma reconnect_requests_emit_request idx w :
  reconnect_requests (trace (emit (ReconnectRequested idx) w)) =
  reconnect_requests (trace w) + 1.
Proof.
  change (trace (emit ?e ?x)) with (trace x ++ [e]).
  by rewrite reconnect_requests_app.
Qed.

(** A sync calls [request_reconnect] never. *)
Lemma _handle_topics_requests self w :
  reconnect_requests (trace (_handle_topics (self, w)).1.2) =
  reconnect_requests (trace w).
Proof.
  pose proof (_handle_topics_outcome CHARS_ASCII pop_order self w) as Ho.
  destruct (_handle_topics (self, w)) as [[self' w'] r]; simpl in *.
  assert (∀ sock w1,
            (sync_removed self = ∅ ∧ w1 = w ∨
             sync_removed self ≠ ∅ ∧ Websocket._ws self = Some sock ∧ transport_up w = true ∧
             w1 = emit (Sent sock (with_nonce CHARS_ASCII w
                                     (unlisten_message pop_order self w)))
                       (create_nonce CHARS_ASCII 30 w).2) →
            reconnect_requests (trace w1) = reconnect_requests (trace w)) as Hfirst.
  { intros sock w1 [[_ ->]|(_ & _ & _ & ->)]; [done|].
    by rewrite reconnect_requests_emit_sent. }
  inversion Ho as [Hch|w'' e Hch Hrem Htr|self1 w1 self2 w2 sock Hch Hu Hs1 Hl
                  |self1 w1 w2 sock e Hch Hu Hs1 Hadd Htr]; simplify_eq.
  - done.
  - by rewrite Htr.
  - rewrite <-(Hfirst _ _ Hu).
    destruct Hl as [(_ & -> & _)|(_ & _ & _ & -> & _)]; [done|].
    by rewrite reconnect_requests_emit_sent.
  - by rewrite Htr, (Hfirst _ _ Hu).
Qed.

(** A poll during which nothing arrives only lets time pass. *)
Lemma _handle_recv_quiet p self w :
  inbound p = [] →
  Websocket.connected self = true →
  _handle_recv p (self, w) = ((self, advance (elapsed p) w), Returned tt).
Proof.
  intros Hquiet Hconn. unfold Websocket._handle_recv, Websocket.connected in *.
  destruct (Websocket._ws self); [|done]. by rewrite Hquiet.
Qed.

Lemma steady_state_left polls st :
  Websocket._reconnect_requested st.1 = true →
  steady_state polls st = (st, Returned Websocket.LoopLeft).
Proof. intros Hflag. destruct polls; simpl; by rewrite Hflag. Qed.

(** A heartbeat check that finds the next [PING] due sends it (or fails in
    the attempt) and requests nothing. *)
Lemma _handle_ping_due self w :
  (Websocket._next_ping self ≤ clock w)%Z →
  reconnect_requests (trace (_handle_ping (self, w)).1.2) = reconnect_requests (trace w).
Proof.
  intros Hdue.
  pose proof (_handle_ping_cases PING_INTERVAL PING_TIMEOUT CHARS_ASCII self w) as Hc.
  cbn zeta in Hc. destruct (_handle_ping (self, w)) as [[self1 w1] r1]. cbn [fst snd].
  destruct Hc as [(_ & _ & [(sock & _ & _ & ->)|(e & _ & ->)])|[(? & _)|(? & _)]];
    [|done|lia..].
  apply reconnect_requests_emit_sent.
Qed.

(** C4, as the code has it.  When the heartbeat-ack deadline has passed
    without a [PONG] and the next heartbeat is not due yet, the next
    heartbeat check requests reconnect; with no inbound frames that is the
    only request, because the steady-state loop is left and no later check
    runs; and a check repeated on the connection at that time or later
    requests nothing, because the request made the next [PING] due. *)
Theorem heartbeat_timeout_reconnects_once (self : Websocket.t) (w : World)
    (polls : list Poll) :
  Websocket.connected self = true →
  Websocket._reconnect_requested self = false →
  (Websocket._max_pong self ≤ clock w < Websocket._next_ping self)%Z →
  polls ≠ [] →
  Forall (λ p, inbound p = []) polls →
  let st' := (steady_state polls (self, w)).1 in
  Websocket._reconnect_requested st'.1 = true ∧
  reconnect_requests (trace st'.2) = reconnect_requests (trace w) + 1 ∧
  (∀ more, steady_state more st' = (st', Returned Websocket.LoopLeft)) ∧
  (∀ later, (clock w ≤ clock later)%Z →
     reconnect_requests (trace (_handle_ping ((_handle_ping (self, w)).1.1, later)).1.2) =
       reconnect_requests (trace later)).
Proof.
  intros Hconn Hflag [Hpong Hping] Hne Hquiet.
  destruct polls as [|p rest]; [done|]. apply Forall_cons in Hquiet as [Hp _].
  cbn zeta.
  assert (Websocket._reconnect_requested (steady_state (p :: rest) (self, w)).1.1 = true ∧
          reconnect_requests (trace (steady_state (p :: rest) (self, w)).1.2) =
            reconnect_requests (trace w) + 1) as [Hflag' Hcount]; [|split_and!; [done..| |]].
  2:{ intros more; by apply steady_state_left. }
  2:{ intros later Hlater. apply _handle_ping_due.
      pose proof (_handle_ping_cases PING_INTERVAL PING_TIMEOUT CHARS_ASCII self w) as Hc.
      cbn zeta in Hc. destruct (_handle_ping (self, w)) as [[self1 w1] r1]. cbn [fst snd].
      destruct Hc as [(? & _)|[(_ & _ & -> & _)|(_ & ? & _)]]; [lia| |lia].
      done. }
  simpl. rewrite Hflag. unfold mbind, M_bind, bind.
  pose proof (_handle_ping_cases PING_INTERVAL PING_TIMEOUT CHARS_ASCII self w) as Hc.
  cbn zeta in Hc. destruct (_handle_ping (self, w)) as [[self1 w1] r1].
  destruct Hc as [(? & _)|[(_ & _ & -> & -> & ->)|(_ & ? & _)]]; [lia| |lia].
  set (self1 := Websocket.set_reconnect_requested true _).
  set (w1 := emit _ w).
  pose proof (_handle_topics_frame CHARS_ASCII pop_order self1 w1)
    as (_ & Hws & _ & Hfl & _).
  pose proof (_handle_topics_requests self1 w1) as Hreq.
  destruct (_handle_topics (self1, w1)) as [[self2 w2] [[]|e]]; cbn [fst snd] in *.
  - rewrite _handle_recv_quiet; [|done|].
    + rewrite steady_state_left by (cbn [fst]; by rewrite Hfl). cbn [fst snd].
      split; [by rewrite Hfl|].
      change (trace (advance _ w2)) with (trace w2).
      rewrite Hreq. apply reconnect_requests_emit_request.
    + unfold Websocket.connected in *. by rewrite Hws.
  - split; [by rewrite Hfl|]. rewrite Hreq. apply reconnect_requests_emit_request.
Qed.

(** When the heartbeat interval does not exceed the ack timeout, the
    heartbeat deadline is never later than the ack deadline, so a check that
    finds the ack deadline passed sends the next [PING] instead. *)
Lemma no_timeout_within_interval polls :
  (PING_INTERVAL ≤ PING_TIMEOUT)%Z →
  Forall (λ p, inbound p = []) polls →
  ∀ self w,
    (Websocket._next_ping self ≤ Websocket._max_pong self)%Z →
    Websocket._reconnect_requested self = false →
    let st' := (steady_state polls (self, w)).1 in
    Websocket._reconnect_requested st'.1 = false ∧
    reconnect_requests (trace st'.2) = reconnect_requests (trace w).
Proof.
  intros Hconst Hquiet. induction Hquiet as [|p rest Hp _ IH]; intros self w Hdead Hflag.
  - simpl. by rewrite Hflag.
  - simpl. rewrite Hflag. unfold mbind, M_bind, bind.
    pose proof (_handle_ping_cases PING_INTERVAL PING_TIMEOUT CHARS_ASCII self w) as Hc.
    cbn zeta in Hc. destruct (_handle_ping (self, w)) as [[self1 w1] r1].
    assert (Websocket._reconnect_requested self1 = false ∧
            (Websocket._next_ping self1 ≤ Websocket._max_pong self1)%Z ∧
            reconnect_requests (trace w1) = reconnect_requests (trace w))
      as (Hflag1 & Hdead1 & Hreq1).
    { destruct Hc as [(_ & -> & [(sock & _ & _ & ->)|(e & _ & Htr)])
                     |[(? & ? & _)|(_ & _ & -> & -> & _)]].
      - rewrite reconnect_requests_emit_sent. split_and!; [done| simpl; lia | done].
      - rewrite Htr. split_and!; [done| simpl; lia | done].
      - lia.
      - done. }
    destruct r1 as [[]|e]; [|done].
    pose proof (_handle_topics_frame CHARS_ASCII pop_order self1 w1)
      as (_ & Hws & _ & Hfl & Hnp & Hmp).
    pose proof (_handle_topics_requests self1 w1) as Hreq.
    destruct (_handle_topics (self1, w1)) as [[self2 w2] [[]|e]]; simpl in *;
      [|split; congruence].
    unfold Websocket._handle_recv. rewrite Hp.
    destruct (Websocket._ws self2); simpl; [|split; congruence].
    destruct (IH self2 (advance (elapsed p) w2)) as [IH1 IH2]; [lia|congruence|].
    cbn zeta in IH1, IH2. rewrite IH1, IH2. split; [done|].
    change (trace (advance _ w2)) with (trace w2). congruence.
Qed.

End Heartbeat.

(** * Properties of the pool *)

Section PoolLifecycle.

Variable WS_TOPICS_LIMIT : nat.

(** C8.  [remove_topics] of the empty set returns at once: the pool is what
    it was, connection list and connection counter included, and no task is
    created. *)
Theorem remove_nothing_changes_nothing (self : WebsocketPool.t) :
  WebsocketPool.remove_topics WS_TOPICS_LIMIT [] self = (self, Returned []) ∧
  length (WebsocketPool.websockets
            (WebsocketPool.remove_topics WS_TOPICS_LIMIT [] self).1) =
    length (WebsocketPool.websockets self) ∧
  WebsocketPool.connection_count
    (WebsocketPool.remove_topics WS_TOPICS_LIMIT [] self).1 =
    WebsocketPool.connection_count self.
Proof. done. Qed.

Lemma stop_idx remove ws : Websocket._idx (Websocket.stop remove ws) = Websocket._idx ws.
Proof. unfold Websocket.stop. by repeat case_match. Qed.

Lemma stop_closed remove ws : Websocket._closed (Websocket.stop remove ws) = true.
Proof. unfold Websocket.stop. by repeat case_match. Qed.

Lemma start_nowait_idx ws :
  Websocket._idx (Websocket.start_nowait ws) = Websocket._idx ws.
Proof. unfold Websocket.start_nowait. by repeat case_match. Qed.

Lemma start_idx websocket ws :
  Websocket._idx (Websocket.start websocket ws) = Websocket._idx ws.
Proof. unfold Websocket.start, Websocket.start_nowait. by repeat case_match. Qed.

(** What [stop] makes of a connection at rest: it ends closed, without task
    and without socket, with nothing submitted; its topics are gone if
    [remove] is set, unless it was closed already, in which case nothing is
    done to it. *)
Lemma stop_at_rest remove ws :
  at_rest ws →
  let stopped := Websocket.stop remove ws in
  Websocket._closed stopped = true ∧
  Websocket._handle_task stopped = None ∧
  Websocket._ws stopped = None ∧
  Websocket._submitted stopped = ∅ ∧
  Websocket.topics stopped =
    (if remove && negb (Websocket._closed ws) then ∅ else Websocket.topics ws) ∧
  at_rest stopped.
Proof.
  intros (Hsocket & Hclosed & Hsubmitted). cbn zeta.
  unfold Websocket.stop, Websocket.connected, at_rest in *.
  destruct ws as [idx [sock|] [] requested changed next_ping max_pong [task|] tp sub];
    cbn in *;
    try (destruct (Hclosed eq_refl) as [? ?]; simplify_eq);
    try (specialize (Hsocket ltac:(eauto)); simplify_eq);
    try (rewrite (Hsubmitted eq_refl));
    destruct remove; cbn; split_and!; try done; by intros [? [=]].
Qed.

(** What [start] makes of a connection that was stopped: a new task, which
    has cleared [_closed] and [_topics_changed] and holds the socket it was
    given. *)
Lemma start_stopped websocket ws :
  Websocket._handle_task ws = None →
  Websocket._ws ws = None →
  Websocket._submitted ws = ∅ →
  let started := Websocket.start websocket ws in
  Websocket._handle_task started = Some Websocket.Running ∧
  Websocket._ws started = Some websocket ∧
  Websocket._closed started = false ∧
  Websocket._reconnect_requested started = false ∧
  Websocket._topics_changed started = false ∧
  Websocket._submitted started = ∅ ∧
  Websocket.topics started = Websocket.topics ws ∧
  at_rest started.
Proof.
  intros Htask Hws Hsub. cbn zeta.
  unfold Websocket.start, Websocket.start_nowait, Websocket.connected, at_rest.
  rewrite Htask. cbn. rewrite Hws. cbn. by split_and!.
Qed.

(** C10.  [stop] clears the running flag and the connection counter and
    stops every connection where it stands in the list, which keeps its
    length and its connections whatever [clear_topics] is: each connection
    ends closed, without lifecycle task and without socket, with nothing
    submitted, and with its topics unless [clear_topics] is set.  A [start]
    after it finds them all: when it returns, each has a new lifecycle task
    that has cleared [_closed] and holds a socket, and the topics are those
    [stop] left.  (Connections are taken at rest, as they are between two
    calls of [start] and [stop].) *)
Theorem stop_keeps_the_connections (clear_topics : bool) (sockets : nat → Socket)
    (self : WebsocketPool.t) :
  let stopped := WebsocketPool.stop clear_topics self in
  let restarted := WebsocketPool.start sockets stopped in
  (WebsocketPool.running stopped = false ∧
   WebsocketPool.connection_count stopped = 0 ∧
   length (WebsocketPool.websockets stopped) = length (WebsocketPool.websockets self) ∧
   Websocket._idx <$> WebsocketPool.websockets stopped =
     Websocket._idx <$> WebsocketPool.websockets self ∧
   Forall (λ ws, Websocket._closed ws = true) (WebsocketPool.websockets stopped) ∧
   WebsocketPool.running restarted = true ∧
   length (WebsocketPool.websockets restarted) = length (WebsocketPool.websockets self) ∧
   Websocket._idx <$> WebsocketPool.websockets restarted =
     Websocket._idx <$> WebsocketPool.websockets self) ∧
  (Forall at_rest (WebsocketPool.websockets self) →
   (∀ i ws,
      WebsocketPool.websockets self !! i = Some ws →
      ∃ ws',
        WebsocketPool.websockets stopped !! i = Some ws' ∧
        Websocket._handle_task ws' = None ∧
        Websocket._ws ws' = None ∧
        Websocket._submitted ws' = ∅ ∧
        Websocket.topics ws' =
          (if clear_topics && negb (Websocket._closed ws) then ∅ else Websocket.topics ws) ∧
        at_rest ws') ∧
   (∀ i ws',
      WebsocketPool.websockets stopped !! i = Some ws' →
      ∃ ws'',
        WebsocketPool.websockets restarted !! i = Some ws'' ∧
        Websocket._handle_task ws'' = Some Websocket.Running ∧
        Websocket._ws ws'' = Some (sockets i) ∧
        Websocket._closed ws'' = false ∧
        Websocket._submitted ws'' = ∅ ∧
        Websocket.topics ws'' = Websocket.topics ws' ∧
        at_rest ws'')).
Proof.
  cbn zeta. unfold WebsocketPool.start, WebsocketPool.stop; cbn. split.
  - split_and!; try done.
    + by rewrite length_fmap.
    + rewrite <-list_fmap_compose. apply list_fmap_ext. intros ? ws _. apply stop_idx.
    + apply Forall_fmap, Forall_true. intros ws. apply stop_closed.
    + by rewrite length_imap, length_fmap.
    + rewrite fmap_imap, imap_fmap.
      apply list_eq. intros i. rewrite list_lookup_imap, list_lookup_fmap.
      destruct (WebsocketPool.websockets self !! i) as [ws|]; [|done]. cbn.
      by rewrite start_idx, stop_idx.
  - intros Hrest.
    assert (∀ i ws, WebsocketPool.websockets self !! i = Some ws → at_rest ws) as Hat.
    { intros i ws Hi. by eapply Forall_lookup_1 in Hrest. }
    split.
    + intros i ws Hi. exists (Websocket.stop clear_topics ws).
      rewrite list_lookup_fmap, Hi. split; [done|].
      by destruct (stop_at_rest clear_topics ws (Hat i ws Hi)) as (_ & ? & ? & ? & ? & ?).
    + intros i ws' Hi'. rewrite list_lookup_fmap in Hi'.
      destruct (WebsocketPool.websockets self !! i) as [ws|] eqn:Hi; [|done].
      cbn in Hi'. simplify_eq.
      destruct (stop_at_rest clear_topics ws (Hat i ws Hi)) as (_ & Htask & Hws & Hsub & _).
      exists (Websocket.start (sockets i) (Websocket.stop clear_topics ws)).
      rewrite list_lookup_imap, list_lookup_fmap, Hi. split; [done|].
      by destruct (start_stopped (sockets i) _ Htask Hws Hsub)
        as (? & ? & ? & _ & _ & ? & ? & ?).
Qed.

End PoolLifecycle.

Section Counting.

Variable WS_TOPICS_LIMIT : nat.

(** *** Keys and counts *)

Lemma elem_of_keys_of k topics_set : k ∈ keys_of topics_set ↔ Topic k ∈ topics_set.
Proof.
  unfold keys_of. rewrite elem_of_map. split.
  - intros ([k'] & -> & Hin). done.
  - intros Hin. by exists (Topic k).
Qed.

Lemma keys_of_empty : keys_of ∅ = ∅.
Proof. unfold keys_of. set_solver. Qed.

Lemma keys_of_union s1 s2 : keys_of (s1 ∪ s2) = keys_of s1 ∪ keys_of s2.
Proof. unfold keys_of. set_solver. Qed.

Lemma keys_of_disjoint s1 s2 : s1 ## s2 → keys_of s1 ## keys_of s2.
Proof.
  intros Hd k H1%elem_of_keys_of H2%elem_of_keys_of. by apply (Hd (Topic k)).
Qed.

Lemma keys_of_size s : size (keys_of s) = size s.
Proof.
  unfold keys_of, set_map. rewrite size_list_to_set.
  - by rewrite length_fmap.
  - apply NoDup_fmap_2; [intros t1 t2; apply str_inj | apply NoDup_elements].
Qed.

Lemma keys_of_nonempty s : s ≠ ∅ → keys_of s ≠ ∅.
Proof.
  intros Hne Hk. apply Hne. apply leibniz_equiv, size_empty_iff.
  rewrite <-keys_of_size, Hk. apply size_empty.
Qed.

Lemma count_holding_cons k ws wss :
  count_holding k (ws :: wss) =
  (if decide (k ∈ dom (Websocket.topics ws)) then 1 else 0) + count_holding k wss.
Proof. unfold count_holding. rewrite filter_cons. by case_decide. Qed.

Lemma count_holding_app k wss1 wss2 :
  count_holding k (wss1 ++ wss2) = count_holding k wss1 + count_holding k wss2.
Proof. unfold count_holding. by rewrite filter_app, length_app. Qed.

Lemma assigned_keys_cons ws wss :
  assigned_keys (ws :: wss) = dom (Websocket.topics ws) ∪ assigned_keys wss.
Proof. done. Qed.

Lemma assigned_keys_app wss1 wss2 :
  assigned_keys (wss1 ++ wss2) = assigned_keys wss1 ∪ assigned_keys wss2.
Proof. unfold assigned_keys. by rewrite fmap_app, union_list_app_L. Qed.

Lemma elem_of_assigned_keys k wss : k ∈ assigned_keys wss ↔ 0 < count_holding k wss.
Proof.
  induction wss as [|ws wss IH].
  - unfold assigned_keys, count_holding; simpl. split; [set_solver|lia].
  - rewrite assigned_keys_cons, count_holding_cons, elem_of_union, IH.
    case_decide; split; try lia; tauto.
Qed.

Lemma disjoint_keys_count wss : disjoint_keys wss ↔ ∀ k, count_holding k wss ≤ 1.
Proof.
  induction wss as [|ws wss IH]; simpl.
  - split; [intros _ k; unfold count_holding; simpl; lia | done].
  - rewrite IH. split.
    + intros [Hd Hc] k. rewrite count_holding_cons. specialize (Hc k).
      case_decide as Hk; [|lia].
      assert (¬ 0 < count_holding k wss); [|lia].
      rewrite <-elem_of_assigned_keys. set_solver.
    + intros Hc. split.
      * intros k Hk Hin%elem_of_assigned_keys. specialize (Hc k).
        rewrite count_holding_cons, decide_True in Hc by done. lia.
      * intros k. specialize (Hc k). rewrite count_holding_cons in Hc. lia.
Qed.

Lemma count_holding_perm k wss wss' :
  wss ≡ₚ wss' → count_holding k wss = count_holding k wss'.
Proof. intros Hp. unfold count_holding. by rewrite Hp. Qed.

Lemma disjoint_keys_perm wss wss' : wss ≡ₚ wss' → disjoint_keys wss → disjoint_keys wss'.
Proof.
  intros Hp. rewrite !disjoint_keys_count. intros Hc k.
  by rewrite <-(count_holding_perm k _ _ Hp).
Qed.

Lemma disjoint_keys_app wss1 wss2 :
  disjoint_keys (wss1 ++ wss2) ↔
  disjoint_keys wss1 ∧ disjoint_keys wss2 ∧ assigned_keys wss1 ## assigned_keys wss2.
Proof.
  induction wss1 as [|ws wss1 IH]; simpl.
  - unfold assigned_keys at 1; simpl. split; [intros ?; split_and!; [done..|set_solver]|tauto].
  - rewrite IH, assigned_keys_app, !assigned_keys_cons. set_solver.
Qed.

Lemma assigned_keys_perm wss wss' : wss ≡ₚ wss' → assigned_keys wss = assigned_keys wss'.
Proof.
  intros Hp. apply set_eq. intros k. rewrite !elem_of_assigned_keys.
  by rewrite (count_holding_perm k _ _ Hp).
Qed.

Lemma total_topics_cons ws wss :
  WebsocketPool.total_topics (ws :: wss) =
  size (Websocket.topics ws) + WebsocketPool.total_topics wss.
Proof. done. Qed.

Lemma total_topics_app wss1 wss2 :
  WebsocketPool.total_topics (wss1 ++ wss2) =
  WebsocketPool.total_topics wss1 + WebsocketPool.total_topics wss2.
Proof.
  induction wss1 as [|ws wss1 IH]; [done|].
  simpl. rewrite !total_topics_cons, IH. lia.
Qed.

Lemma total_topics_perm wss wss' :
  wss ≡ₚ wss' → WebsocketPool.total_topics wss = WebsocketPool.total_topics wss'.
Proof.
  induction 1 as [|ws wss1 wss2 _ IH|ws1 ws2 wss|wss1 wss2 wss3 _ IH1 _ IH2];
    rewrite ?total_topics_cons; lia.
Qed.

(** With no key held twice, the topics of the pool are as many as its keys. *)
Lemma total_topics_assigned wss :
  disjoint_keys wss → WebsocketPool.total_topics wss = size (assigned_keys wss).
Proof.
  induction wss as [|ws wss IH]; simpl; [done|].
  intros [Hd Hrest]. rewrite total_topics_cons, assigned_keys_cons, IH by done.
  by rewrite size_union, size_dom.
Qed.

Lemma total_topics_capacity wss :
  Forall (λ ws, size (Websocket.topics ws) ≤ WS_TOPICS_LIMIT) wss →
  WebsocketPool.total_topics wss ≤ length wss * WS_TOPICS_LIMIT.
Proof.
  induction 1 as [|ws wss Hws _ IH]; [done|].
  rewrite total_topics_cons. simpl. lia.
Qed.

Lemma total_topics_full wss :
  Forall (λ ws, WS_TOPICS_LIMIT ≤ size (Websocket.topics ws)) wss →
  length wss * WS_TOPICS_LIMIT ≤ WebsocketPool.total_topics wss.
Proof.
  induction 1 as [|ws wss Hws _ IH]; [done|].
  rewrite total_topics_cons. simpl. lia.
Qed.

End Counting.

Section Placement.

Variable WS_TOPICS_LIMIT : nat.
Variable pop_order : gset WebsocketTopic → list WebsocketTopic.
Hypothesis pop_order_perm : ∀ s, pop_order s ≡ₚ elements s.

Local Abbreviation ws_add := (Websocket.add_topics WS_TOPICS_LIMIT pop_order).
Local Abbreviation add_loop := (Websocket.add_topics_loop WS_TOPICS_LIMIT).

(** *** Filling one connection *)

Lemma add_topics_loop_spec pending :
  ∀ tp changed,
    NoDup pending →
    (∀ t, t ∈ pending → tp !! str t = None) →
    ∃ placed,
      pending = placed ++ (add_loop pending tp changed).1.1 ∧
      dom (add_loop pending tp changed).1.2 = dom tp ∪ list_to_set (str <$> placed) ∧
      tp ⊆ (add_loop pending tp changed).1.2 ∧
      size (add_loop pending tp changed).1.2 = size tp + length placed ∧
      ((add_loop pending tp changed).1.1 = [] ∨
       WS_TOPICS_LIMIT ≤ size (add_loop pending tp changed).1.2) ∧
      (size tp ≤ WS_TOPICS_LIMIT →
       size (add_loop pending tp changed).1.2 ≤ WS_TOPICS_LIMIT) ∧
      ((add_loop pending tp changed).2 = false → placed = []).
Proof.
  induction pending as [|topic rest IH]; intros tp changed Hnd Hfresh; simpl.
  - exists []. split_and!; try done; [set_solver | by left].
  - case_decide as Hroom; simpl.
    + apply NoDup_cons in Hnd as [Hnotin Hnd].
      assert (tp !! str topic = None) as Hnone by (apply Hfresh; set_solver).
      destruct (IH (<[str topic:=topic]> tp) true Hnd) as
        (placed & Hsplit & Hdom & Hsub & Hsize & Hend & Hcap & Hch).
      { intros t Ht. rewrite lookup_insert_ne; [apply Hfresh; set_solver|].
        intros Heq%str_inj. by subst. }
      exists (topic :: placed). split_and!.
      * simpl. by rewrite <-Hsplit.
      * rewrite Hdom, dom_insert_L. simpl. set_solver.
      * etransitivity; [|exact Hsub]. by apply insert_subseteq.
      * rewrite Hsize, map_size_insert_None by done. simpl. lia.
      * done.
      * intros Hle. apply Hcap. rewrite map_size_insert_None by done. lia.
      * intros Hfalse. exfalso. clear -Hfalse.
        revert Hfalse. generalize (<[str topic:=topic]> tp).
        induction rest as [|t rest IHrest]; intros m; simpl; [done|].
        case_decide; [apply IHrest|done].
    + exists []. split_and!; try done; [set_solver | right; lia].
Qed.

Lemma add_topics_spec topics_set ws :
  keys_of topics_set ## dom (Websocket.topics ws) →
  ∃ placed,
    topics_set = placed ∪ (ws_add topics_set ws).1 ∧
    placed ## (ws_add topics_set ws).1 ∧
    dom (Websocket.topics (ws_add topics_set ws).2) =
      dom (Websocket.topics ws) ∪ keys_of placed ∧
    Websocket.topics ws ⊆ Websocket.topics (ws_add topics_set ws).2 ∧
    size (Websocket.topics (ws_add topics_set ws).2) =
      size (Websocket.topics ws) + size placed ∧
    ((ws_add topics_set ws).1 = ∅ ∨
     WS_TOPICS_LIMIT ≤ size (Websocket.topics (ws_add topics_set ws).2)) ∧
    (size (Websocket.topics ws) ≤ WS_TOPICS_LIMIT →
     size (Websocket.topics (ws_add topics_set ws).2) ≤ WS_TOPICS_LIMIT) ∧
    Websocket._ws (ws_add topics_set ws).2 = Websocket._ws ws ∧
    Websocket._idx (ws_add topics_set ws).2 = Websocket._idx ws.
Proof.
  intros Hfresh.
  assert (NoDup (pop_order topics_set)) as Hnd
    by (rewrite pop_order_perm; apply NoDup_elements).
  destruct (add_topics_loop_spec (pop_order topics_set) (Websocket.topics ws) false Hnd)
    as (placed & Hsplit & Hdom & Hsub & Hsize & Hend & Hcap & Hch).
  { intros t Ht. apply not_elem_of_dom. intros Hin.
    apply (Hfresh (str t)); [|done].
    apply elem_of_keys_of. destruct t. simpl.
    by rewrite pop_order_perm, elem_of_elements in Ht. }
  unfold Websocket.add_topics.
  destruct (add_loop (pop_order topics_set) (Websocket.topics ws) false)
    as [[rest tp] changed] eqn:Hloop; simpl in *.
  rewrite Hsplit in Hnd. apply NoDup_app in Hnd as (Hnd1 & Hdisj & Hnd2).
  assert (list_to_set (str <$> placed) = keys_of (list_to_set placed)) as Hkeys.
  { unfold keys_of. apply set_eq. intros k.
    rewrite elem_of_list_to_set, list_elem_of_fmap, elem_of_map.
    by setoid_rewrite elem_of_list_to_set. }
  exists (list_to_set placed). split_and!.
  - apply set_eq. intros t.
    rewrite <-(elem_of_elements topics_set), <-pop_order_perm, Hsplit. set_solver.
  - intros t Ht1%elem_of_list_to_set Ht2%elem_of_list_to_set. by apply (Hdisj t).
  - destruct changed; simpl; [by rewrite Hdom, Hkeys|].
    rewrite (Hch eq_refl). simpl. rewrite keys_of_empty. set_solver.
  - by destruct changed.
  - rewrite size_list_to_set by done.
    destruct changed; simpl; [done|]. rewrite (Hch eq_refl). simpl. lia.
  - destruct Hend as [-> | Hfull]; [left; set_solver|].
    destruct changed; simpl; [by right|].
    right. rewrite (Hch eq_refl) in Hsize. simpl in Hsize. lia.
  - by destruct changed.
  - by destruct changed.
  - by destruct changed.
Qed.

Lemma keys_of_mono s1 s2 : s1 ⊆ s2 → keys_of s1 ⊆ keys_of s2.
Proof. intros Hs k. rewrite !elem_of_keys_of. apply Hs. Qed.

(** *** The two loops of the pool's [add_topics] *)

Local Abbreviation fill_existing := (WebsocketPool.fill_existing WS_TOPICS_LIMIT pop_order).

Lemma fill_existing_spec wss :
  ∀ topics_set,
    keys_of topics_set ## assigned_keys wss →
    ∃ placed,
      let '(wss', rest, returned) := fill_existing wss topics_set in
      topics_set = placed ∪ rest ∧ placed ## rest ∧
      length wss' = length wss ∧
      assigned_keys wss' = assigned_keys wss ∪ keys_of placed ∧
      (disjoint_keys wss → disjoint_keys wss') ∧
      (Forall key_coherent wss → Forall key_coherent wss') ∧
      (Forall (λ ws, size (Websocket.topics ws) ≤ WS_TOPICS_LIMIT) wss →
       Forall (λ ws, size (Websocket.topics ws) ≤ WS_TOPICS_LIMIT) wss') ∧
      WebsocketPool.total_topics wss' = WebsocketPool.total_topics wss + size placed ∧
      Forall2 grown wss wss' ∧
      (returned = true → rest = ∅) ∧
      (returned = false → topics_set ≠ ∅ →
       rest ≠ ∅ ∧
       Forall2 (λ ws ws',
                  (Websocket.connected ws = true →
                   WS_TOPICS_LIMIT ≤ size (Websocket.topics ws')) ∧
                  (Websocket.connected ws = false → ws' = ws)) wss wss').
Proof.
  induction wss as [|ws wss IH]; intros topics_set Hfresh.
  - exists ∅. simpl. rewrite keys_of_empty. split_and!; try done; set_solver.
  - rewrite assigned_keys_cons in Hfresh. cbn [WebsocketPool.fill_existing].
    destruct (Websocket.connected ws &&
              bool_decide (size (Websocket.topics ws) < WS_TOPICS_LIMIT)) eqn:Hcond.
    + apply andb_true_iff in Hcond as [Hconn Hroom%bool_decide_eq_true].
      destruct (add_topics_spec topics_set ws) as
        (ph & Hsplit & Hdisj & Hdom & Hsub & Hsize & Hend & Hcap & Hws & Hidx);
        [set_solver|].
      destruct (ws_add topics_set ws) as [ts1 ws1] eqn:Hadd; simpl in *.
      assert (keys_of ph ⊆ keys_of topics_set) as Hph
        by (apply keys_of_mono; set_solver).
      assert (keys_of ts1 ⊆ keys_of topics_set) as Hts1
        by (apply keys_of_mono; set_solver).
      assert (key_coherent ws → key_coherent ws1) as Hcoh.
      { intros Hc. pose proof (add_topics_key_coherent WS_TOPICS_LIMIT pop_order
                                 topics_set ws Hc) as Hc1. by rewrite Hadd in Hc1. }
      destruct (decide (ts1 = ∅)) as [Hempty|Hnonempty].
      * exists ph. split_and!; try done.
        -- rewrite !assigned_keys_cons, Hdom. set_solver.
        -- simpl. rewrite Hdom. intros [Hd Hrest]. split; [set_solver|done].
        -- intros [Hc Hrest]%Forall_cons. constructor; [by apply Hcoh | done].
        -- intros [Hc Hrest]%Forall_cons. constructor; [by apply Hcap | done].
        -- rewrite !total_topics_cons, Hsize. lia.
        -- constructor; [done|]. apply Forall_Forall2_diag, Forall_true. by intros ?.
      * destruct (IH ts1) as [pl Hpl]; [set_solver|].
        destruct (fill_existing wss ts1) as [[wss' rest] returned].
        destruct Hpl as (Hsplit' & Hdisj' & Hlen & Hassigned & Hdk & Hck & Hcapk
                         & Htotal & Hgrown & Hret & Hnot).
        assert (keys_of ph ## keys_of pl) as Hphl
          by (apply keys_of_disjoint; set_solver).
        assert (keys_of pl ⊆ keys_of ts1) as Hpl1
          by (apply keys_of_mono; set_solver).
        exists (ph ∪ pl). split_and!.
        -- set_solver.
        -- set_solver.
        -- simpl. lia.
        -- rewrite !assigned_keys_cons, Hassigned, Hdom, keys_of_union. set_solver.
        -- simpl. rewrite Hdom, Hassigned. intros [Hd Hrest].
           split; [set_solver | by apply Hdk].
        -- intros [Hc Hrest]%Forall_cons. constructor; [by apply Hcoh | by apply Hck].
        -- intros [Hc Hrest]%Forall_cons. constructor; [by apply Hcap | by apply Hcapk].
        -- rewrite !total_topics_cons, Htotal, Hsize, size_union by set_solver. lia.
        -- by constructor.
        -- done.
        -- intros Hfalse _. destruct (Hnot Hfalse Hnonempty) as [Hrest Hfull].
           split; [done|]. constructor; [|done].
           split; [|congruence].
           intros _. destruct Hend as [? | ?]; [done | done].
    + destruct (IH topics_set) as [pl Hpl]; [set_solver|].
      destruct (fill_existing wss topics_set) as [[wss' rest] returned].
      destruct Hpl as (Hsplit' & Hdisj' & Hlen & Hassigned & Hdk & Hck & Hcapk
                       & Htotal & Hgrown & Hret & Hnot).
      assert (keys_of pl ⊆ keys_of topics_set) as Hpl1
        by (apply keys_of_mono; set_solver).
      exists pl. split_and!; try done.
      * simpl. lia.
      * rewrite !assigned_keys_cons, Hassigned. set_solver.
      * simpl. rewrite Hassigned. intros [Hd Hrest]. split; [set_solver | by apply Hdk].
      * intros [Hc Hrest]%Forall_cons. constructor; [done | by apply Hck].
      * intros [Hc Hrest]%Forall_cons. constructor; [done | by apply Hcapk].
      * rewrite !total_topics_cons, Htotal. lia.
      * by constructor.
      * intros Hfalse Hne. destruct (Hnot Hfalse Hne) as [Hrest Hfull].
        split; [done|]. constructor; [|done].
        split; [|done]. intros Hconn. rewrite Hconn in Hcond. simpl in Hcond.
        apply bool_decide_eq_false in Hcond. lia.
Qed.

Variable PING_TIMEOUT : Z.

Local Abbreviation create_new :=
  (WebsocketPool.create_new WS_TOPICS_LIMIT PING_TIMEOUT pop_order).

Lemma create_new_spec now indices :
  ∀ self topics_set,
    ∃ placed news,
      let '(self', rest, returned) := create_new now indices self topics_set in
      WebsocketPool.websockets self' = WebsocketPool.websockets self ++ news ∧
      WebsocketPool._running self' = WebsocketPool._running self ∧
      WebsocketPool._connection_count self' =
        WebsocketPool._connection_count self + length news ∧
      topics_set = placed ∪ rest ∧ placed ## rest ∧
      assigned_keys news = keys_of placed ∧
      disjoint_keys news ∧
      Forall key_coherent news ∧
      Forall (λ ws, size (Websocket.topics ws) ≤ WS_TOPICS_LIMIT) news ∧
      WebsocketPool.total_topics news = size placed ∧
      length news ≤ length indices ∧
      Websocket._idx <$> news = take (length news) indices ∧
      (returned = true → rest = ∅) ∧
      (returned = false → topics_set ≠ ∅ →
       rest ≠ ∅ ∧ length news = length indices ∧
       Forall (λ ws, size (Websocket.topics ws) = WS_TOPICS_LIMIT) news) ∧
      (topics_set ≠ ∅ → 0 < WS_TOPICS_LIMIT →
       Forall (λ ws, 0 < size (Websocket.topics ws)) news).
Proof.
  induction indices as [|ws_idx indices IH]; intros self topics_set.
  - exists ∅, []. simpl. rewrite keys_of_empty, app_nil_r.
    split_and!; try done; set_solver.
  - cbn [WebsocketPool.create_new].
    set (ws0 := if WebsocketPool.running self
                then Websocket.start_nowait (Websocket.__init__ PING_TIMEOUT ws_idx now)
                else Websocket.__init__ PING_TIMEOUT ws_idx now).
    assert (Websocket.topics ws0 = ∅ ∧ Websocket._idx ws0 = ws_idx) as [Hempty0 Hidx0]
      by (unfold ws0; by destruct (WebsocketPool.running self)).
    assert (key_coherent ws0) as Hcoh0.
    { intros k v. rewrite Hempty0. by rewrite lookup_empty. }
    destruct (add_topics_spec topics_set ws0) as
      (ph & Hsplit & Hdisj & Hdom & Hsub & Hsize & Hend & Hcap & Hws & Hidx).
    { rewrite Hempty0, dom_empty_L. set_solver. }
    pose proof (add_topics_key_coherent WS_TOPICS_LIMIT pop_order topics_set ws0 Hcoh0)
      as Hcoh1.
    destruct (ws_add topics_set ws0) as [ts1 ws1] eqn:Hadd.
    cbn [fst snd] in *.
    cbn [WebsocketPool._increment_connections WebsocketPool.websockets
         WebsocketPool._running WebsocketPool._connection_count].
    rewrite removelast_last.
    rewrite Hempty0, dom_empty_L, map_size_empty in *.
    assert (dom (Websocket.topics ws1) = keys_of ph) as Hdom1 by set_solver.
    assert (size (Websocket.topics ws1) ≤ WS_TOPICS_LIMIT) as Hcap1 by (apply Hcap; lia).
    destruct (decide (ts1 = ∅)) as [Hnone|Hsome].
    + exists ph, [ws1]. cbn [WebsocketPool.websockets WebsocketPool._running
                             WebsocketPool._connection_count].
      split_and!; try done.
      * unfold assigned_keys; simpl. set_solver.
      * by constructor.
      * by constructor.
      * rewrite total_topics_cons. unfold WebsocketPool.total_topics; simpl. lia.
      * simpl. lia.
      * simpl. by rewrite Hidx, Hidx0, take_0.
      * intros Hne _. constructor; [|done]. rewrite Hsize.
        assert (size ph ≠ 0); [|lia].
        intros Hz%size_empty_iff%leibniz_equiv. apply Hne.
        rewrite Hsplit, Hz, Hnone. by rewrite union_empty_r_L.
    + set (self1 := WebsocketPool.mk _ _ _).
      destruct (IH self1 ts1) as (pl & news & Hspec).
      destruct (create_new now indices self1 ts1) as [[self' rest] returned].
      destruct Hspec as (Hwss & Hrun & Hcount & Hsplit' & Hdisj' & Hassigned & Hdk & Hck
                         & Hcapk & Htotal & Hlen & Hidxs & Hret & Hnot & Hpos).
      exists (ph ∪ pl), (ws1 :: news).
      assert (keys_of ph ## keys_of pl) as Hphl by (apply keys_of_disjoint; set_solver).
      split_and!.
      * rewrite Hwss. unfold self1; simpl. by rewrite <-app_assoc.
      * by rewrite Hrun.
      * rewrite Hcount. unfold self1; simpl. lia.
      * set_solver.
      * set_solver.
      * rewrite assigned_keys_cons, Hassigned, Hdom1, keys_of_union. done.
      * simpl. rewrite Hdom1, Hassigned. done.
      * by constructor.
      * by constructor.
      * rewrite total_topics_cons, Htotal, Hsize, size_union by set_solver. lia.
      * simpl. lia.
      * by rewrite fmap_cons, Hidx, Hidx0, Hidxs.
      * done.
      * intros Hfalse _. destruct (Hnot Hfalse Hsome) as (Hrest & Hlen' & Hfull).
        split_and!; [done | simpl; lia |].
        constructor; [|done]. destruct Hend as [?|?]; [done|lia].
      * intros _ Hlimit. constructor; [|by apply Hpos].
        destruct Hend as [?|?]; [done|lia].
Qed.

(** *** The pool's [add_topics] *)

Variable MAX_WEBSOCKETS : nat.

Local Abbreviation pool_add :=
  (WebsocketPool.add_topics MAX_WEBSOCKETS WS_TOPICS_LIMIT PING_TIMEOUT pop_order).

Lemma current_topics_key ws t :
  key_coherent ws → t ∈ Websocket.current_topics ws ↔ str t ∈ dom (Websocket.topics ws).
Proof.
  intros Hcoh. unfold Websocket.current_topics. rewrite elem_of_map_img, elem_of_dom. split.
  - intros [k Hk]. rewrite <-(Hcoh _ _ Hk) in Hk. eauto.
  - intros [v Hv]. exists (str t). pose proof (Hcoh _ _ Hv) as ->%str_inj. done.
Qed.

Lemma existing_topics_keys wss t :
  Forall key_coherent wss →
  t ∈ ⋃ (Websocket.current_topics <$> wss) ↔ str t ∈ assigned_keys wss.
Proof.
  induction 1 as [|ws wss Hws _ IH]; [unfold assigned_keys; simpl; set_solver|].
  rewrite assigned_keys_cons, fmap_cons. simpl.
  rewrite !elem_of_union, IH, current_topics_key by done. done.
Qed.

Lemma pool_add_topics_spec now topics self :
  Forall key_coherent (WebsocketPool.websockets self) →
  disjoint_keys (WebsocketPool.websockets self) →
  ∃ placed rest wss' news,
    WebsocketPool.websockets (pool_add now topics self).1 = wss' ++ news ∧
    WebsocketPool._running (pool_add now topics self).1 = WebsocketPool._running self ∧
    WebsocketPool._connection_count (pool_add now topics self).1 =
      WebsocketPool._connection_count self + length news ∧
    Forall2 grown (WebsocketPool.websockets self) wss' ∧
    placed ## rest ∧
    (∀ t, t ∈ topics →
          str t ∈ assigned_keys (WebsocketPool.websockets self) ∨ t ∈ placed ∨ t ∈ rest) ∧
    (∀ t, t ∈ placed ∪ rest → t ∈ topics) ∧
    assigned_keys (WebsocketPool.websockets (pool_add now topics self).1) =
      assigned_keys (WebsocketPool.websockets self) ∪ keys_of placed ∧
    keys_of rest ## assigned_keys (WebsocketPool.websockets (pool_add now topics self).1) ∧
    Forall key_coherent (WebsocketPool.websockets (pool_add now topics self).1) ∧
    disjoint_keys (WebsocketPool.websockets (pool_add now topics self).1) ∧
    (Forall (λ ws, size (Websocket.topics ws) ≤ WS_TOPICS_LIMIT)
            (WebsocketPool.websockets self) →
     Forall (λ ws, size (Websocket.topics ws) ≤ WS_TOPICS_LIMIT)
            (WebsocketPool.websockets (pool_add now topics self).1)) ∧
    WebsocketPool.total_topics (WebsocketPool.websockets (pool_add now topics self).1) =
      WebsocketPool.total_topics (WebsocketPool.websockets self) + size placed ∧
    length news ≤ MAX_WEBSOCKETS - length (WebsocketPool.websockets self) ∧
    Websocket._idx <$> news =
      take (length news)
           (seq (length (WebsocketPool.websockets self))
                (MAX_WEBSOCKETS - length (WebsocketPool.websockets self))) ∧
    (0 < WS_TOPICS_LIMIT → Forall (λ ws, 0 < size (Websocket.topics ws)) news) ∧
    (news = [] ∨
     Forall2 (λ ws ws',
                (Websocket.connected ws = true →
                 WS_TOPICS_LIMIT ≤ size (Websocket.topics ws')) ∧
                (Websocket.connected ws = false → ws' = ws))
             (WebsocketPool.websockets self) wss') ∧
    ((pool_add now topics self).2 = Returned tt ∧ rest = ∅ ∨
     (pool_add now topics self).2 = Raised MinerException ∧ rest ≠ ∅ ∧
     length news = MAX_WEBSOCKETS - length (WebsocketPool.websockets self) ∧
     Forall (λ ws, size (Websocket.topics ws) = WS_TOPICS_LIMIT) news ∧
     Forall2 (λ ws ws',
                (Websocket.connected ws = true →
                 WS_TOPICS_LIMIT ≤ size (Websocket.topics ws')) ∧
                (Websocket.connected ws = false → ws' = ws))
             (WebsocketPool.websockets self) wss').
Proof.
  intros Hcoh Hdk.
  assert (Forall2 grown (WebsocketPool.websockets self) (WebsocketPool.websockets self))
    as Hrefl by (apply Forall_Forall2_diag, Forall_true; by intros ?).
  assert (WebsocketPool.mk (WebsocketPool._running self) (WebsocketPool.websockets self)
            (WebsocketPool._connection_count self) = self) as Hself by (by destruct self).
  unfold WebsocketPool.add_topics.
  destruct (decide (list_to_set topics = (∅ : gset WebsocketTopic))) as [Hnone|Hsome].
  { exists ∅, ∅, (WebsocketPool.websockets self), []. simpl.
    rewrite keys_of_empty, app_nil_r, union_empty_r_L.
    split_and!; try done; try (by left); try lia; try (by constructor).
    - intros t Ht. exfalso.
      assert (t ∈ (list_to_set topics : gset WebsocketTopic)) as Hin
        by (by apply elem_of_list_to_set).
      rewrite Hnone in Hin. by apply not_elem_of_empty in Hin.
    - by rewrite union_empty_r_L. }
  set (existing_topics := ⋃ (Websocket.current_topics <$> WebsocketPool.websockets self)).
  set (topics_set := list_to_set topics ∖ existing_topics).
  assert (keys_of topics_set ## assigned_keys (WebsocketPool.websockets self)) as Hfresh.
  { intros k Hk%elem_of_keys_of Hin.
    apply elem_of_difference in Hk as [_ Hk]. apply Hk.
    by apply existing_topics_keys. }
  assert (∀ t, t ∈ topics →
               str t ∈ assigned_keys (WebsocketPool.websockets self) ∨ t ∈ topics_set)
    as Hcover.
  { intros t Ht. destruct (decide (t ∈ existing_topics)) as [Hex|Hex].
    - left. by apply existing_topics_keys.
    - right. unfold topics_set. set_solver. }
  assert (∀ t, t ∈ topics_set → t ∈ topics) as Hfrom
    by (intros t; unfold topics_set; set_solver).
  destruct (decide (topics_set = ∅)) as [Hnone2|Hsome2].
  { exists ∅, ∅, (WebsocketPool.websockets self), []. simpl.
    rewrite keys_of_empty, app_nil_r, union_empty_r_L.
    split_and!; try done; try (by left); try lia; try (by constructor).
    - intros t Ht. destruct (Hcover t Ht) as [?|Hin]; [by left|].
      rewrite Hnone2 in Hin. by apply not_elem_of_empty in Hin.
    - by rewrite union_empty_r_L. }
  destruct (fill_existing_spec (WebsocketPool.websockets self) topics_set Hfresh)
    as [p1 Hfill].
  destruct (fill_existing (WebsocketPool.websockets self) topics_set)
    as [[wss' ts1] returned].
  destruct Hfill as (Hsplit1 & Hdisj1 & Hlen1 & Hassigned1 & Hdk1 & Hck1 & Hcap1 & Htotal1
                     & Hgrown1 & Hret1 & Hnot1).
  assert (keys_of p1 ⊆ keys_of topics_set) as Hp1 by (apply keys_of_mono; set_solver).
  assert (keys_of ts1 ⊆ keys_of topics_set) as Hts1 by (apply keys_of_mono; set_solver).
  assert (keys_of p1 ## keys_of ts1) as Hp1ts1 by (by apply keys_of_disjoint).
  destruct returned.
  { exists p1, ∅, wss', []. simpl. rewrite (Hret1 eq_refl), union_empty_r_L in Hsplit1.
    subst p1. rewrite keys_of_empty, app_nil_r, union_empty_r_L.
    split_and!; try done; try (by left); try (by auto); try lia; try (by constructor).
    intros t Ht. destruct (Hcover t Ht) as [?|?]; auto. }
  destruct (Hnot1 eq_refl Hsome2) as [Hrest1 Hfull1].
  cbn [WebsocketPool.websockets WebsocketPool._running WebsocketPool._connection_count].
  set (self1 := WebsocketPool.mk _ wss' _).
  destruct (create_new_spec now (seq (length wss') (MAX_WEBSOCKETS - length wss'))
              self1 ts1) as (p2 & news & Hnew).
  destruct (create_new now _ self1 ts1) as [[self' rest] returned].
  destruct Hnew as (Hwss & Hrun & Hcount & Hsplit2 & Hdisj2 & Hassigned2 & Hdk2 & Hck2
                    & Hcapk2 & Htotal2 & Hlen2 & Hidxs & Hret2 & Hnot2 & Hpos2).
  rewrite length_seq in Hlen2. rewrite Hlen1 in *.
  assert (keys_of p2 ⊆ keys_of ts1) as Hp2 by (apply keys_of_mono; set_solver).
  assert (keys_of rest ⊆ keys_of ts1) as Hrest by (apply keys_of_mono; set_solver).
  assert (keys_of p2 ## keys_of rest) as Hp2rest by (by apply keys_of_disjoint).
  assert (WebsocketPool.websockets self' = wss' ++ news) as Hwss' by done.
  assert (assigned_keys (wss' ++ news) =
          assigned_keys (WebsocketPool.websockets self) ∪ keys_of (p1 ∪ p2)) as Hassigned.
  { rewrite assigned_keys_app, Hassigned1, Hassigned2, keys_of_union.
    by rewrite (assoc_L (∪)). }
  assert (disjoint_keys (wss' ++ news)) as Hdisjoint.
  { apply disjoint_keys_app. split_and!; [by apply Hdk1 | done |].
    rewrite Hassigned1, Hassigned2. clear -Hfresh Hp2 Hts1 Hp1ts1. set_solver. }
  exists (p1 ∪ p2), rest, wss', news.
  assert ((if returned then (self', Returned ()) else (self', Raised MinerException)).1
          = self') as Hfst by (by destruct returned).
  rewrite Hfst, Hwss'.
  split_and!; try done.
  - clear -Hsplit1 Hdisj1 Hsplit2 Hdisj2. set_solver.
  - intros t Ht. destruct (Hcover t Ht) as [?|Hin]; [by left|]. right.
    clear -Hin Hsplit1 Hsplit2. set_solver.
  - intros t Ht. apply Hfrom. clear -Ht Hsplit1 Hsplit2. set_solver.
  - rewrite Hassigned, keys_of_union.
    clear -Hfresh Hrest Hts1 Hp1ts1 Hp2rest. set_solver.
  - apply Forall_app. split; [by apply Hck1 | done].
  - intros Hcap. apply Forall_app. split; [by apply Hcap1 | done].
  - rewrite total_topics_app, Htotal1, Htotal2, size_union; [lia|].
    clear -Hsplit2 Hdisj1. set_solver.
  - intros Hlimit. by apply Hpos2.
  - by right.
  - destruct returned; simpl.
    + left. split; [done | by apply Hret2].
    + right. destruct (Hnot2 eq_refl Hrest1) as (Hne & Hlen' & Hfull).
      rewrite length_seq in Hlen'. by split_and!.
Qed.

End Placement.

Section PoolAdd.

Variable MAX_WEBSOCKETS : nat.
Variable WS_TOPICS_LIMIT : nat.
Variable PING_TIMEOUT : Z.
Variable pop_order : gset WebsocketTopic → list WebsocketTopic.
Hypothesis pop_order_perm : ∀ s, pop_order s ≡ₚ elements s.

Local Abbreviation pool_add :=
  (WebsocketPool.add_topics MAX_WEBSOCKETS WS_TOPICS_LIMIT PING_TIMEOUT pop_order).
Local Abbreviation pool_inv := (pool_inv MAX_WEBSOCKETS WS_TOPICS_LIMIT).

Lemma add_topics_outcomes now topics self :
  (pool_add now topics self).2 = Returned tt ∨
  (pool_add now topics self).2 = Raised MinerException.
Proof.
  unfold WebsocketPool.add_topics. repeat case_match; simpl; auto.
Qed.

Lemma pool_add_inv now topics self : pool_inv self → pool_inv (pool_add now topics self).1.
Proof.
  intros [Hcoh Hcap Huniq Hbound].
  assert (disjoint_keys (WebsocketPool.websockets self)) as Hdk
    by exact (proj2 (disjoint_keys_count _) Huniq).
  destruct (pool_add_topics_spec WS_TOPICS_LIMIT pop_order pop_order_perm PING_TIMEOUT
              MAX_WEBSOCKETS now topics self Hcoh Hdk)
    as (placed & rest & wss' & news & Hwss & _ & _ & Hgrown & _ & _ & _ & _ & _ & Hcoh'
        & Hdk' & Hcap' & _ & Hlen & _).
  split; [done | by apply Hcap' | exact (proj1 (disjoint_keys_count _) Hdk') |].
  rewrite Hwss, length_app. apply Forall2_length in Hgrown. lia.
Qed.

(** What [add_topics] placed stays where it was put: a key assigned before
    the call is assigned after it, to the connection at the same position. *)
Lemma pool_add_keeps now topics self i ws :
  pool_inv self →
  WebsocketPool.websockets self !! i = Some ws →
  ∃ ws', WebsocketPool.websockets (pool_add now topics self).1 !! i = Some ws' ∧
         Websocket.topics ws ⊆ Websocket.topics ws'.
Proof.
  intros [Hcoh Hcap Huniq Hbound] Hi.
  assert (disjoint_keys (WebsocketPool.websockets self)) as Hdk
    by exact (proj2 (disjoint_keys_count _) Huniq).
  destruct (pool_add_topics_spec WS_TOPICS_LIMIT pop_order pop_order_perm PING_TIMEOUT
              MAX_WEBSOCKETS now topics self Hcoh Hdk)
    as (placed & rest & wss' & news & Hwss & _ & _ & Hgrown & _).
  destruct (Forall2_lookup_l _ _ _ _ _ Hgrown Hi) as (ws' & Hi' & Hsub & _).
  exists ws'. split; [|done]. rewrite Hwss. by apply lookup_app_l_Some.
Qed.

(** C5.  When [add_topics] is given more distinct topics than
    [MAX_WEBSOCKETS * WS_TOPICS_LIMIT], it raises [MinerException]; the pool
    it leaves behind holds at most that many topics, still has every topic
    where it was before the call, has [MAX_WEBSOCKETS] connections, and each
    connection the call created is filled to the limit: what was placed
    before the error stays placed. *)
Theorem capacity_exceeded_raises (now : Z) (topics : list WebsocketTopic)
    (self : WebsocketPool.t) :
  pool_inv self →
  MAX_WEBSOCKETS * WS_TOPICS_LIMIT < size (list_to_set topics : gset WebsocketTopic) →
  let outcome := pool_add now topics self in
  outcome.2 = Raised MinerException ∧
  pool_inv outcome.1 ∧
  WebsocketPool.total_topics (WebsocketPool.websockets outcome.1) ≤
    MAX_WEBSOCKETS * WS_TOPICS_LIMIT ∧
  (∀ i ws, WebsocketPool.websockets self !! i = Some ws →
           ∃ ws', WebsocketPool.websockets outcome.1 !! i = Some ws' ∧
                  Websocket.topics ws ⊆ Websocket.topics ws') ∧
  length (WebsocketPool.websockets outcome.1) = MAX_WEBSOCKETS ∧
  (∀ i ws', length (WebsocketPool.websockets self) ≤ i →
            WebsocketPool.websockets outcome.1 !! i = Some ws' →
            size (Websocket.topics ws') = WS_TOPICS_LIMIT).
Proof.
  intros Hinv Hmany outcome.
  pose proof (pool_add_inv now topics self Hinv) as Hinv'. fold outcome in Hinv'.
  assert (WebsocketPool.total_topics (WebsocketPool.websockets outcome.1) ≤
          MAX_WEBSOCKETS * WS_TOPICS_LIMIT) as Htotal.
  { destruct Hinv' as [_ Hcap' _ Hbound'].
    etransitivity; [by apply total_topics_capacity|].
    by apply Nat.mul_le_mono_r. }
  destruct Hinv as [Hcoh Hcap Huniq Hbound].
  assert (disjoint_keys (WebsocketPool.websockets self)) as Hdk
    by exact (proj2 (disjoint_keys_count _) Huniq).
  destruct (pool_add_topics_spec WS_TOPICS_LIMIT pop_order pop_order_perm PING_TIMEOUT
              MAX_WEBSOCKETS now topics self Hcoh Hdk)
    as (placed & rest & wss' & news & Hwss & _ & _ & Hgrown & Hdisj & Hcover & _
        & Hassigned & _ & _ & Hdk' & _ & _ & _ & _ & _ & _ & Hout).
  fold outcome in Hwss, Hassigned, Hdk', Hout.
  destruct Hout as [[_ Hnone]|(Hraised & _ & Hlen & Hfull & _)].
  - (* everything placed: more keys than the pool can hold *)
    exfalso. subst rest.
    assert (keys_of (list_to_set topics) ⊆
            assigned_keys (WebsocketPool.websockets outcome.1)) as Hall.
    { intros k Hk%elem_of_keys_of%elem_of_list_to_set. rewrite Hassigned.
      destruct (Hcover _ Hk) as [?|[?|?%not_elem_of_empty]]; [set_solver| |done].
      apply elem_of_union_r. by apply elem_of_keys_of. }
    apply subseteq_size in Hall.
    rewrite keys_of_size, <-total_topics_assigned in Hall by done. lia.
  - split_and!; try done.
    + intros i ws Hi.
      destruct (Forall2_lookup_l _ _ _ _ _ Hgrown Hi) as (ws' & Hi' & Hsub & _).
      exists ws'. split; [|done]. rewrite Hwss. by apply lookup_app_l_Some.
    + rewrite Hwss, length_app, Hlen. apply Forall2_length in Hgrown. lia.
    + intros i ws' Hi Hlook. rewrite Hwss in Hlook.
      apply Forall2_length in Hgrown.
      rewrite lookup_app_r in Hlook by lia.
      by apply (Forall_lookup_1 _ _ _ _ Hfull Hlook).
Qed.

End PoolAdd.

Section Removal.

(** *** Removing keys from the connections *)

Lemma remove_topics_spec topics_set ws :
  dom (Websocket.topics (Websocket.remove_topics topics_set ws).2) =
    dom (Websocket.topics ws) ∖ topics_set ∧
  (Websocket.remove_topics topics_set ws).1 = topics_set ∖ dom (Websocket.topics ws) ∧
  shrunk ws (Websocket.remove_topics topics_set ws).2.
Proof.
  split_and!.
  - apply set_eq. intros k. rewrite elem_of_difference, !elem_of_dom.
    rewrite remove_topics_lookup. case_decide; [|tauto].
    split; [by intros [? ?] | tauto].
  - unfold Websocket.remove_topics. case_decide as Hex; simpl; set_solver.
  - split_and!.
    + apply map_subseteq_spec. intros k v. rewrite remove_topics_lookup.
      by case_decide.
    + unfold Websocket.remove_topics. by case_decide.
    + unfold Websocket.remove_topics. by case_decide.
Qed.

Lemma remove_each_spec wss :
  ∀ topics_set,
    Forall2 shrunk wss (WebsocketPool.remove_each wss topics_set) ∧
    (disjoint_keys wss →
     assigned_keys (WebsocketPool.remove_each wss topics_set) =
       assigned_keys wss ∖ topics_set).
Proof.
  induction wss as [|ws wss IH]; intros topics_set; simpl.
  - split; [constructor|]. intros _. unfold assigned_keys; simpl. set_solver.
  - destruct (remove_topics_spec topics_set ws) as (Hdom & Hleft & Hshrunk).
    destruct (Websocket.remove_topics topics_set ws) as [ts1 ws1]; simpl in *.
    destruct (IH ts1) as [Hall Hassigned]. split; [by constructor|].
    intros [Hd Hrest]. rewrite !assigned_keys_cons, Hdom, Hassigned by done.
    subst ts1. set_solver.
Qed.

(** Whatever only shrinks the topic maps keeps the invariant. *)
Lemma shrunk_count k wss wss' :
  Forall2 shrunk wss wss' → count_holding k wss' ≤ count_holding k wss.
Proof.
  induction 1 as [|ws ws' wss wss' (Hsub & _) _ IH]; [done|].
  rewrite !count_holding_cons.
  apply subseteq_dom in Hsub. repeat case_decide; try lia. set_solver.
Qed.

Lemma key_coherent_subseteq ws ws' :
  Websocket.topics ws' ⊆ Websocket.topics ws → key_coherent ws → key_coherent ws'.
Proof.
  intros Hsub Hcoh k v Hk. apply Hcoh. by eapply lookup_weaken.
Qed.

Lemma fewer_topics_pool_inv MAX_WEBSOCKETS WS_TOPICS_LIMIT running self wss' count :
  Forall2 (λ ws ws', Websocket.topics ws' ⊆ Websocket.topics ws)
          (WebsocketPool.websockets self) wss' →
  pool_inv MAX_WEBSOCKETS WS_TOPICS_LIMIT self →
  pool_inv MAX_WEBSOCKETS WS_TOPICS_LIMIT (WebsocketPool.mk running wss' count).
Proof.
  intros Hall [Hcoh Hcap Huniq Hbound]. split; simpl.
  - clear -Hall Hcoh. induction Hall as [|ws ws' wss wss'' Hsub _ IH]; [done|].
    apply Forall_cons in Hcoh as [Hc Hrest].
    constructor; [by eapply key_coherent_subseteq | by apply IH].
  - clear -Hall Hcap. induction Hall as [|ws ws' wss wss'' Hsub _ IH]; [done|].
    apply Forall_cons in Hcap as [Hc Hrest].
    constructor; [|by apply IH].
    apply map_subseteq_size in Hsub. lia.
  - intros k. etransitivity; [|exact (Huniq k)].
    clear -Hall. induction Hall as [|ws ws' wss wss'' Hsub _ IH]; [done|].
    rewrite !count_holding_cons.
    apply subseteq_dom in Hsub. repeat case_decide; try lia. set_solver.
  - by rewrite <-(Forall2_length _ _ _ Hall).
Qed.

Lemma shrunk_pool_inv MAX_WEBSOCKETS WS_TOPICS_LIMIT running self wss' count :
  Forall2 shrunk (WebsocketPool.websockets self) wss' →
  pool_inv MAX_WEBSOCKETS WS_TOPICS_LIMIT self →
  pool_inv MAX_WEBSOCKETS WS_TOPICS_LIMIT (WebsocketPool.mk running wss' count).
Proof.
  intros Hall. apply fewer_topics_pool_inv.
  eapply Forall2_impl; [exact Hall|]. by intros ws ws' (? & _).
Qed.

(** *** Sorting and evicting *)

Lemma insert_by_perm {A} (key : A → nat) x l :
  WebsocketPool.insert_by key x l ≡ₚ x :: l.
Proof.
  induction l as [|y l IH]; simpl; [done|].
  case_decide; [done|]. by rewrite IH, Permutation_swap.
Qed.

Lemma sorted_perm {A} (l : list A) key : WebsocketPool.sorted l key ≡ₚ l.
Proof.
  induction l as [|x l IH]; simpl; [done|].
  unfold WebsocketPool.sorted in *. simpl. by rewrite insert_by_perm, IH.
Qed.

Lemma insert_by_sorted {A} (key : A → nat) x l :
  StronglySorted (λ a b, key a ≤ key b) l →
  StronglySorted (λ a b, key a ≤ key b) (WebsocketPool.insert_by key x l).
Proof.
  induction 1 as [|y l Hsorted IH Hall]; simpl.
  - repeat constructor.
  - case_decide as Hle.
    + constructor; [by constructor|].
      constructor; [done|]. eapply Forall_impl; [exact Hall|]. simpl. lia.
    + constructor; [done|].
      rewrite insert_by_perm. constructor; [lia | done].
Qed.

Lemma sorted_sorted {A} (l : list A) key :
  StronglySorted (λ a b, key a ≤ key b) (WebsocketPool.sorted l key).
Proof.
  induction l as [|x l IH]; simpl; [constructor|].
  by apply insert_by_sorted.
Qed.

Lemma sorted_take_drop {A} (key : A → nat) l n e s :
  StronglySorted (λ a b, key a ≤ key b) l →
  e ∈ take n l → s ∈ drop n l → key e ≤ key s.
Proof.
  intros Hsorted. revert n. induction Hsorted as [|y l _ IH Hall]; intros n.
  - by rewrite take_nil; intros ?%elem_of_nil.
  - destruct n as [|n]; simpl; [by intros ?%elem_of_nil|].
    intros [->|He]%elem_of_cons Hs; [|by eapply IH].
    apply list_elem_of_lookup in Hs as [i Hi]. rewrite lookup_drop in Hi.
    by apply (Forall_lookup_1 _ _ _ _ Hall Hi).
Qed.

Lemma list_remove_perm `{EqDecision A} (x : A) l : x ∈ l → l ≡ₚ x :: WebsocketPool.list_remove x l.
Proof.
  induction l as [|y l IH]; simpl; [by intros ?%elem_of_nil|].
  intros Hin. case_decide as Heq; [by subst|].
  apply elem_of_cons in Hin as [->|Hin]; [done|].
  by rewrite (IH Hin) at 1; rewrite Permutation_swap.
Qed.

Lemma list_remove_sublist `{EqDecision A} (x : A) l :
  WebsocketPool.list_remove x l `sublist_of` l.
Proof.
  induction l as [|y l IH]; simpl; [done|].
  case_decide; [by apply sublist_cons | by apply sublist_skip].
Qed.

Lemma evict_spec sorted_websockets required_websockets :
  ∀ self recycled_topics spawned,
    sorted_websockets ⊆+ WebsocketPool.websockets self →
    let evicted :=
      take (length sorted_websockets - required_websockets) sorted_websockets in
    let '(self', recycled', spawned') :=
      WebsocketPool.evict sorted_websockets required_websockets self recycled_topics
                          spawned in
    WebsocketPool.websockets self ≡ₚ evicted ++ WebsocketPool.websockets self' ∧
    WebsocketPool.websockets self' `sublist_of` WebsocketPool.websockets self ∧
    recycled' = recycled_topics ++ concat (WebsocketPool.topic_values <$> evicted) ∧
    spawned' = spawned ++ ((λ ws, WebsocketPool.StopTask ws true) <$> evicted) ∧
    WebsocketPool._running self' = WebsocketPool._running self ∧
    WebsocketPool._connection_count self' =
      WebsocketPool._connection_count self - length evicted.
Proof.
  induction sorted_websockets as [|ws rest IH]; intros self recycled_topics spawned Hsub.
  - simpl. rewrite !app_nil_r. split_and!; try done. lia.
  - cbn [WebsocketPool.evict]. case_decide as Hmore.
    + assert (length (ws :: rest) - required_websockets =
              S (length rest - required_websockets)) as -> by (simpl in *; lia).
      assert (ws ∈ WebsocketPool.websockets self) as Hin.
      { eapply elem_of_submseteq; [|exact Hsub]. by left. }
      pose proof (list_remove_perm ws _ Hin) as Hperm.
      set (self1 := WebsocketPool._decrement_connections _).
      assert (rest ⊆+ WebsocketPool.websockets self1) as Hsub1.
      { simpl. apply (submseteq_app_inv_l _ _ [ws]). simpl. by rewrite <-Hperm. }
      specialize (IH self1 (recycled_topics ++ WebsocketPool.topic_values ws)
                     (spawned ++ [WebsocketPool.StopTask ws true]) Hsub1).
      cbn zeta in *.
      destruct (WebsocketPool.evict rest required_websockets self1 _ _)
        as [[self' recycled'] spawned'].
      destruct IH as (Hp & Hs & Hr & Hsp & Hrun & Hcount).
      cbn [take fmap list_fmap concat length].
      split_and!.
      * rewrite Hperm at 1. simpl. by rewrite <-Hp.
      * etransitivity; [exact Hs|]. simpl. apply list_remove_sublist.
      * rewrite Hr, <-app_assoc. done.
      * rewrite Hsp, <-app_assoc. done.
      * by rewrite Hrun.
      * rewrite Hcount. simpl. lia.
    + assert (length (ws :: rest) - required_websockets = 0) as -> by (simpl in *; lia).
      simpl. rewrite !app_nil_r. split_and!; try done. lia.
Qed.

Lemma ceil_div_bounds total capacity :
  0 < capacity →
  total ≤ ceil_div total capacity * capacity ∧
  ∀ n, total ≤ n * capacity → ceil_div total capacity ≤ n.
Proof.
  intros Hpos. unfold ceil_div. split.
  - pose proof (Nat.mul_succ_div_gt (total + capacity - 1) capacity). nia.
  - intros n Hn.
    assert ((total + capacity - 1) / capacity < S n); [|lia].
    apply Nat.Div0.div_lt_upper_bound; nia.
Qed.

Lemma run_spawned_stops MAX_WEBSOCKETS WS_TOPICS_LIMIT PING_TIMEOUT pop_order now
    (evicted : list Websocket.t) rest self :
  run_spawned MAX_WEBSOCKETS WS_TOPICS_LIMIT PING_TIMEOUT pop_order now
    (((λ ws, WebsocketPool.StopTask ws true) <$> evicted) ++ rest) self =
  run_spawned MAX_WEBSOCKETS WS_TOPICS_LIMIT PING_TIMEOUT pop_order now rest self.
Proof. induction evicted as [|ws evicted IH]; simpl; done. Qed.

(** The values of a coherent topic map are the topics of its keys. *)
Lemma topic_values_keys ws :
  key_coherent ws →
  keys_of (list_to_set (WebsocketPool.topic_values ws)) = dom (Websocket.topics ws).
Proof.
  intros Hcoh. apply set_eq. intros k.
  rewrite elem_of_keys_of, elem_of_list_to_set, elem_of_dom.
  unfold WebsocketPool.topic_values. rewrite list_elem_of_fmap. split.
  - intros ([k' v] & Hv & Hin%elem_of_map_to_list). simpl in *. subst v.
    pose proof (Hcoh _ _ Hin) as Hk. simpl in Hk. subst k'. eauto.
  - intros [v Hv]. exists (k, v). split; [|by apply elem_of_map_to_list].
    pose proof (Hcoh _ _ Hv) as Hk. destruct v. simpl in *. by subst.
Qed.

Lemma topic_values_length ws :
  length (WebsocketPool.topic_values ws) = size (Websocket.topics ws).
Proof.
  unfold WebsocketPool.topic_values. by rewrite length_fmap, length_map_to_list.
Qed.

Lemma recycled_keys evicted :
  Forall key_coherent evicted →
  keys_of (list_to_set (concat (WebsocketPool.topic_values <$> evicted))) =
  assigned_keys evicted.
Proof.
  induction 1 as [|ws evicted Hws _ IH].
  - simpl. by rewrite keys_of_empty.
  - rewrite fmap_cons. cbn [concat].
    rewrite list_to_set_app_L, keys_of_union, IH, topic_values_keys by done.
    by rewrite assigned_keys_cons.
Qed.

Lemma recycled_length evicted :
  length (concat (WebsocketPool.topic_values <$> evicted)) =
  WebsocketPool.total_topics evicted.
Proof.
  induction evicted as [|ws evicted IH]; [done|].
  rewrite fmap_cons. cbn [concat].
  by rewrite length_app, IH, topic_values_length, total_topics_cons.
Qed.

(** *** Consolidation *)

Lemma split_pool_inv MAX_WEBSOCKETS WS_TOPICS_LIMIT running self evicted wss' count :
  WebsocketPool.websockets self ≡ₚ evicted ++ wss' →
  pool_inv MAX_WEBSOCKETS WS_TOPICS_LIMIT self →
  pool_inv MAX_WEBSOCKETS WS_TOPICS_LIMIT (WebsocketPool.mk running wss' count).
Proof.
  intros Hperm [Hcoh Hcap Huniq Hbound]. split; simpl.
  - rewrite Hperm in Hcoh. by apply Forall_app in Hcoh as [_ ?].
  - rewrite Hperm in Hcap. by apply Forall_app in Hcap as [_ ?].
  - intros k. specialize (Huniq k).
    rewrite (count_holding_perm k _ _ Hperm), count_holding_app in Huniq. lia.
  - apply Permutation_length in Hperm. rewrite length_app in Hperm. lia.
Qed.

(** What [_optimize_pool] does when it consolidates. *)
Lemma _optimize_pool_spec WS_TOPICS_LIMIT self :
  let wss := WebsocketPool.websockets self in
  let required := ceil_div (WebsocketPool.total_topics wss) WS_TOPICS_LIMIT in
  let evicted :=
    take (length wss - required)
         (WebsocketPool.sorted wss (λ ws, size (Websocket.topics ws))) in
  let recycled := concat (WebsocketPool.topic_values <$> evicted) in
  0 < WS_TOPICS_LIMIT →
  2 ≤ length wss →
  Forall (λ ws, size (Websocket.topics ws) ≤ WS_TOPICS_LIMIT) wss →
  wss ≡ₚ evicted ++
         WebsocketPool.websockets (WebsocketPool._optimize_pool WS_TOPICS_LIMIT self).1 ∧
  WebsocketPool.websockets (WebsocketPool._optimize_pool WS_TOPICS_LIMIT self).1
    `sublist_of` wss ∧
  length (WebsocketPool.websockets (WebsocketPool._optimize_pool WS_TOPICS_LIMIT self).1)
    = required ∧
  WebsocketPool._running (WebsocketPool._optimize_pool WS_TOPICS_LIMIT self).1 =
    WebsocketPool._running self ∧
  WebsocketPool._connection_count (WebsocketPool._optimize_pool WS_TOPICS_LIMIT self).1 =
    WebsocketPool._connection_count self - length evicted ∧
  (WebsocketPool._optimize_pool WS_TOPICS_LIMIT self).2 =
    Returned (((λ ws, WebsocketPool.StopTask ws true) <$> evicted) ++
              if decide (recycled ≠ []) then [WebsocketPool.AddTopicsTask recycled]
              else []).
Proof.
  intros wss required evicted recycled Hpos Hlen Hcap.
  assert (required ≤ length wss) as Hreq.
  { apply ceil_div_bounds; [done|]. by apply total_topics_capacity. }
  unfold WebsocketPool._optimize_pool. fold wss.
  rewrite decide_False by lia.
  rewrite decide_False by lia.
  fold (ceil_div (WebsocketPool.total_topics wss) WS_TOPICS_LIMIT). fold required.
  case_decide as Hmore.
  - pose proof (evict_spec (WebsocketPool.sorted wss (λ ws, size (Websocket.topics ws)))
                  required self [] []) as Hev.
    rewrite (Permutation_length (sorted_perm _ _)) in Hev. cbn zeta in Hev.
    fold evicted in Hev.
    destruct (WebsocketPool.evict _ required self [] []) as [[self' recycled'] spawned'].
    destruct Hev as (Hp & Hs & Hr & Hsp & Hrun & Hcount).
    { apply Permutation_submseteq, sorted_perm. }
    simpl in Hr, Hsp. subst recycled' spawned'. fold recycled.
    assert (length evicted = length wss - required) as Hev.
    { unfold evicted. rewrite length_take, (Permutation_length (sorted_perm _ _)). lia. }
    assert (length (WebsocketPool.websockets self') = required) as Hlen'.
    { apply Permutation_length in Hp. rewrite length_app in Hp. fold wss in Hp. lia. }
    case_decide; simpl; split_and!; try done. by rewrite app_nil_r.
  - assert (evicted = []) as Hnone.
    { unfold evicted. replace (length wss - required) with 0 by lia. done. }
    unfold recycled. rewrite Hnone. simpl. fold wss.
    split_and!; try done; lia.
Qed.

Lemma _optimize_pool_perm WS_TOPICS_LIMIT self :
  ∃ evicted,
    WebsocketPool.websockets self ≡ₚ
    evicted ++ WebsocketPool.websockets (WebsocketPool._optimize_pool WS_TOPICS_LIMIT self).1.
Proof.
  unfold WebsocketPool._optimize_pool.
  repeat case_decide; try (by exists []).
  pose proof (evict_spec
                (WebsocketPool.sorted (WebsocketPool.websockets self)
                                      (λ ws, size (Websocket.topics ws)))
                ((WebsocketPool.total_topics (WebsocketPool.websockets self) +
                  WS_TOPICS_LIMIT - 1) / WS_TOPICS_LIMIT) self [] []) as Hev.
  cbn zeta in Hev.
  destruct (WebsocketPool.evict _ _ self [] []) as [[self' recycled'] spawned'].
  destruct Hev as (Hp & _); [apply Permutation_submseteq, sorted_perm|].
  eexists. by case_decide.
Qed.

Lemma pool_remove_inv MAX_WEBSOCKETS WS_TOPICS_LIMIT topics self :
  pool_inv MAX_WEBSOCKETS WS_TOPICS_LIMIT self →
  pool_inv MAX_WEBSOCKETS WS_TOPICS_LIMIT
           (WebsocketPool.remove_topics WS_TOPICS_LIMIT topics self).1.
Proof.
  intros Hinv. unfold WebsocketPool.remove_topics.
  case_decide; [done|].
  set (self1 := WebsocketPool.mk _ _ _).
  assert (pool_inv MAX_WEBSOCKETS WS_TOPICS_LIMIT self1) as Hinv1.
  { apply (shrunk_pool_inv _ _ _ self); [|done]. apply remove_each_spec. }
  destruct (_optimize_pool_perm WS_TOPICS_LIMIT self1) as [evicted Hperm].
  pose proof (split_pool_inv _ _
                (WebsocketPool._running (WebsocketPool._optimize_pool WS_TOPICS_LIMIT self1).1)
                _ _ _
                (WebsocketPool._connection_count
                   (WebsocketPool._optimize_pool WS_TOPICS_LIMIT self1).1)
                Hperm Hinv1) as Hinv2.
  by destruct (WebsocketPool._optimize_pool WS_TOPICS_LIMIT self1).1.
Qed.

End Removal.

Section Consolidation.

Variable MAX_WEBSOCKETS : nat.
Variable WS_TOPICS_LIMIT : nat.
Variable PING_TIMEOUT : Z.
Variable pop_order : gset WebsocketTopic → list WebsocketTopic.
Hypothesis pop_order_perm : ∀ s, pop_order s ≡ₚ elements s.

Local Abbreviation pool_add :=
  (WebsocketPool.add_topics MAX_WEBSOCKETS WS_TOPICS_LIMIT PING_TIMEOUT pop_order).
Local Abbreviation pool_inv := (pool_inv MAX_WEBSOCKETS WS_TOPICS_LIMIT).

Lemma count_by_assigned k wss :
  disjoint_keys wss →
  count_holding k wss = if decide (k ∈ assigned_keys wss) then 1 else 0.
Proof.
  intros Hdk. pose proof (proj1 (disjoint_keys_count wss) Hdk k) as Hd.
  pose proof (elem_of_assigned_keys k wss) as Hin.
  case_decide as Hk; [apply Hin in Hk; lia|].
  destruct (count_holding k wss); [done|]. exfalso. apply Hk, Hin. lia.
Qed.

Lemma total_topics_positive wss :
  wss ≠ [] → Forall (λ ws, 0 < size (Websocket.topics ws)) wss →
  0 < WebsocketPool.total_topics wss.
Proof.
  intros Hne Hall. destruct Hall as [|ws wss Hws _]; [done|].
  rewrite total_topics_cons. lia.
Qed.

(** When all connections are connected and their free room suffices,
    [add_topics] places every topic on the connections that exist. *)
Lemma add_topics_fits now topics self :
  pool_inv self →
  0 < WS_TOPICS_LIMIT →
  Forall (λ ws, Websocket.connected ws = true) (WebsocketPool.websockets self) →
  keys_of (list_to_set topics) ## assigned_keys (WebsocketPool.websockets self) →
  WebsocketPool.total_topics (WebsocketPool.websockets self) +
    size (list_to_set topics : gset WebsocketTopic) ≤
    length (WebsocketPool.websockets self) * WS_TOPICS_LIMIT →
  (pool_add now topics self).2 = Returned tt ∧
  Forall2 grown (WebsocketPool.websockets self)
          (WebsocketPool.websockets (pool_add now topics self).1) ∧
  assigned_keys (WebsocketPool.websockets (pool_add now topics self).1) =
    assigned_keys (WebsocketPool.websockets self) ∪ keys_of (list_to_set topics) ∧
  disjoint_keys (WebsocketPool.websockets (pool_add now topics self).1).
Proof.
  intros [Hcoh Hcap Huniq Hbound] Hpos Hconn Hfresh Hroom.
  assert (disjoint_keys (WebsocketPool.websockets self)) as Hdk
    by exact (proj2 (disjoint_keys_count _) Huniq).
  destruct (pool_add_topics_spec WS_TOPICS_LIMIT pop_order pop_order_perm PING_TIMEOUT
              MAX_WEBSOCKETS now topics self Hcoh Hdk)
    as (placed & rest & wss' & news & Hwss & _ & _ & Hgrown & Hdisj & Hcover & Hfrom
        & Hassigned & _ & _ & Hdk' & _ & Htotal & _ & _ & Hpositive & Hnews & Hout).
  assert (size placed + size rest ≤ size (list_to_set topics : gset WebsocketTopic))
    as Hsizes.
  { rewrite <-size_union by done. apply subseteq_size.
    intros t Ht. apply elem_of_list_to_set. by apply Hfrom. }
  assert (length wss' = length (WebsocketPool.websockets self)) as Hlen
    by (symmetry; by eapply Forall2_length).
  assert (Forall2 (λ ws ws',
                     (Websocket.connected ws = true →
                      WS_TOPICS_LIMIT ≤ size (Websocket.topics ws')) ∧
                     (Websocket.connected ws = false → ws' = ws))
                  (WebsocketPool.websockets self) wss' →
          length wss' * WS_TOPICS_LIMIT ≤ WebsocketPool.total_topics wss') as Hfull.
  { intros Hall. apply total_topics_full.
    clear -Hall Hconn. induction Hall as [|ws ws' wss wss'' [Hc _] _ IH]; [done|].
    apply Forall_cons in Hconn as [Hws Hrest].
    constructor; [by apply Hc | by apply IH]. }
  rewrite Hwss, total_topics_app in Htotal.
  assert (news = []) as ->.
  { destruct Hnews as [?|Hall]; [done|]. specialize (Hfull Hall).
    destruct news as [|ws news]; [done|]. exfalso.
    pose proof (total_topics_positive (ws :: news) ltac:(done) (Hpositive Hpos)). nia. }
  rewrite app_nil_r in Hwss.
  destruct Hout as [[Hret Hrest]|(_ & Hrest & _ & _ & Hall)].
  - subst rest. rewrite Hwss. split_and!; try done.
    + rewrite Hwss in Hassigned. rewrite Hassigned. apply set_eq. intros k.
      rewrite !elem_of_union. split; [|intros [?|Hk]].
      * intros [?|Hk%elem_of_keys_of]; [by left|]. right.
        apply elem_of_keys_of, elem_of_list_to_set, Hfrom. set_solver.
      * by left.
      * apply elem_of_keys_of, elem_of_list_to_set in Hk.
        destruct (Hcover _ Hk) as [?|[?|?%not_elem_of_empty]]; [by left| |done].
        right. by apply elem_of_keys_of.
    + by rewrite <-Hwss.
  - exfalso. specialize (Hfull Hall).
    assert (size rest ≠ 0) by (by intros ?%size_empty_iff%leibniz_equiv).
    unfold WebsocketPool.total_topics in Htotal at 2. simpl in Htotal. nia.
Qed.

Lemma shrunk_connected wss wss' :
  Forall2 shrunk wss wss' →
  Forall (λ ws, Websocket.connected ws = true) wss →
  Forall (λ ws, Websocket.connected ws = true) wss'.
Proof.
  induction 1 as [|ws ws' wss wss' (_ & Hws & _) _ IH]; [done|].
  intros [Hc Hrest]%Forall_cons. constructor; [|by apply IH].
  unfold Websocket.connected in *. by rewrite Hws.
Qed.

(** C2, as the code has it.  For a pool of at least two connections, all of
    them connected, [remove_topics] of a non-empty set of keys followed by
    the follow-up task it created leaves [ceil(total / WS_TOPICS_LIMIT)]
    connections, where [total] counts the topics left after the removal:
    the connections in excess, taken from the front of the list sorted by
    topic count, are detached and handed to a stop task each, the others
    stay in their order, and every key that was held after the removal is
    held by exactly one of them afterwards. *)
Theorem consolidation_settles (now : Z) (topics : list string) (self : WebsocketPool.t) :
  pool_inv self →
  0 < WS_TOPICS_LIMIT →
  2 ≤ length (WebsocketPool.websockets self) →
  Forall (λ ws, Websocket.connected ws = true) (WebsocketPool.websockets self) →
  (list_to_set topics : gset string) ≠ ∅ →
  let removed := WebsocketPool.remove_each (WebsocketPool.websockets self)
                                           (list_to_set topics) in
  let required := ceil_div (WebsocketPool.total_topics removed) WS_TOPICS_LIMIT in
  let evicted :=
    take (length removed - required)
         (WebsocketPool.sorted removed (λ ws, size (Websocket.topics ws))) in
  let outcome := WebsocketPool.remove_topics WS_TOPICS_LIMIT topics self in
  let settled :=
    remove_topics_settled MAX_WEBSOCKETS WS_TOPICS_LIMIT PING_TIMEOUT pop_order
                          now topics self in
  assigned_keys removed =
    assigned_keys (WebsocketPool.websockets self) ∖ list_to_set topics ∧
  removed ≡ₚ evicted ++ WebsocketPool.websockets outcome.1 ∧
  WebsocketPool.websockets outcome.1 `sublist_of` removed ∧
  length (WebsocketPool.websockets outcome.1) = required ∧
  (∀ e s, e ∈ evicted → s ∈ WebsocketPool.websockets outcome.1 →
          size (Websocket.topics e) ≤ size (Websocket.topics s)) ∧
  (∃ spawned, outcome.2 = Returned spawned ∧
              ∀ e, e ∈ evicted → WebsocketPool.StopTask e true ∈ spawned) ∧
  settled.2 = Returned tt ∧
  length (WebsocketPool.websockets settled.1) = required ∧
  Forall2 grown (WebsocketPool.websockets outcome.1) (WebsocketPool.websockets settled.1) ∧
  (∀ k, count_holding k (WebsocketPool.websockets settled.1) = count_holding k removed).
Proof.
  intros Hinv Hpos Hlen Hconn Hne removed required evicted outcome settled.
  set (self1 := WebsocketPool.mk (WebsocketPool._running self) removed
                                 (WebsocketPool._connection_count self)).
  destruct (remove_each_spec (WebsocketPool.websockets self) (list_to_set topics))
    as [Hshrunk Hassigned]. fold removed in Hshrunk, Hassigned.
  assert (pool_inv self1) as Hinv1 by (by apply (shrunk_pool_inv _ _ _ self)).
  assert (Forall (λ ws, Websocket.connected ws = true) removed) as Hconn1
    by (by eapply shrunk_connected).
  assert (length removed = length (WebsocketPool.websockets self)) as Hlen1
    by (symmetry; by eapply Forall2_length).
  assert (outcome = WebsocketPool._optimize_pool WS_TOPICS_LIMIT self1) as Hresult.
  { unfold outcome, WebsocketPool.remove_topics. by rewrite decide_False. }
  assert (settled =
          match outcome.2 with
          | Returned spawned =>
              run_spawned MAX_WEBSOCKETS WS_TOPICS_LIMIT PING_TIMEOUT pop_order now
                          spawned outcome.1
          | Raised e => (outcome.1, Raised e)
          end) as Hsettled.
  { unfold settled, remove_topics_settled, mbind, M_bind, bind. fold outcome.
    by destruct outcome as [? [?|?]]. }
  pose proof Hinv1 as [Hcoh1 Hcap1 Huniq1 Hbound1].
  cbn [WebsocketPool.websockets self1] in Hcoh1, Hcap1, Huniq1, Hbound1.
  assert (disjoint_keys removed) as Hdk1 by exact (proj2 (disjoint_keys_count _) Huniq1).
  destruct (_optimize_pool_spec WS_TOPICS_LIMIT self1 Hpos)
    as (Hperm & Hsub & Hlen' & Hrun & Hcount & Hret);
    [simpl; lia | done |].
  cbn [WebsocketPool.websockets self1] in Hperm, Hsub, Hlen', Hret.
  fold required evicted in Hperm, Hsub, Hlen', Hret. rewrite <-Hresult in *.
  set (survivors := WebsocketPool.websockets outcome.1) in *.
  set (recycled := concat (WebsocketPool.topic_values <$> evicted)) in *.
  (* the two parts of the pool after the removal *)
  assert (Forall key_coherent evicted ∧ Forall key_coherent survivors) as [Hcoh_e Hcoh_s]
    by (rewrite Hperm in Hcoh1; by apply Forall_app in Hcoh1).
  assert (Forall (λ ws, Websocket.connected ws = true) survivors) as Hconn_s
    by (rewrite Hperm in Hconn1; by apply Forall_app in Hconn1 as [_ ?]).
  pose proof (disjoint_keys_perm _ _ Hperm Hdk1) as Hdk.
  apply disjoint_keys_app in Hdk as (Hdk_e & Hdk_s & Hdisj).
  assert (pool_inv outcome.1) as Hinv_r.
  { pose proof (split_pool_inv MAX_WEBSOCKETS WS_TOPICS_LIMIT
                  (WebsocketPool._running outcome.1) self1 evicted survivors
                  (WebsocketPool._connection_count outcome.1) Hperm Hinv1) as Hr.
    unfold survivors in Hr. by destruct outcome.1. }
  assert (WebsocketPool.total_topics removed =
          WebsocketPool.total_topics evicted + WebsocketPool.total_topics survivors)
    as Htotal by (by rewrite (total_topics_perm _ _ Hperm), total_topics_app).
  assert (WebsocketPool.total_topics removed ≤ required * WS_TOPICS_LIMIT) as Hceil
    by (by apply ceil_div_bounds).
  assert (∀ k, count_holding k removed =
               if decide (k ∈ assigned_keys evicted ∪ assigned_keys survivors)
               then 1 else 0) as Hcount_removed.
  { intros k. rewrite (count_by_assigned k removed Hdk1).
    by rewrite (assigned_keys_perm _ _ Hperm), assigned_keys_app. }
  split_and!; try done.
  - by apply Hassigned, disjoint_keys_count, Hinv.
  - intros e s He Hs.
    apply (sorted_take_drop (λ ws, size (Websocket.topics ws))
             (WebsocketPool.sorted removed (λ ws, size (Websocket.topics ws)))
             (length removed - required)); [apply sorted_sorted|done|].
    assert (survivors ≡ₚ drop (length removed - required)
                            (WebsocketPool.sorted removed
                               (λ ws, size (Websocket.topics ws)))) as Hdrop.
    { apply (Permutation_app_inv_l evicted). rewrite <-Hperm.
      unfold evicted. by rewrite take_drop, sorted_perm. }
    by rewrite <-Hdrop.
  - eexists. split; [exact Hret|]. intros e He.
    apply elem_of_app. left. apply list_elem_of_fmap. by exists e.
  - rewrite Hsettled, Hret, run_spawned_stops.
    case_decide as Hrec; [|done]. cbn [run_spawned]. unfold mbind, M_bind, bind.
    destruct (add_topics_fits now recycled outcome.1 Hinv_r Hpos Hconn_s) as (Hok & _).
    { unfold recycled. by rewrite recycled_keys. }
    { fold survivors. rewrite Hlen'.
      rewrite <-keys_of_size. unfold recycled.
      rewrite recycled_keys, <-total_topics_assigned by done. lia. }
    destruct (pool_add now recycled outcome.1) as [p r]. simpl in Hok. by subst r.
  - rewrite Hsettled, Hret, run_spawned_stops.
    case_decide as Hrec; [|done]. cbn [run_spawned]. unfold mbind, M_bind, bind.
    destruct (add_topics_fits now recycled outcome.1 Hinv_r Hpos Hconn_s)
      as (Hok & Hgrown & _).
    { unfold recycled. by rewrite recycled_keys. }
    { fold survivors. rewrite Hlen'.
      rewrite <-keys_of_size. unfold recycled.
      rewrite recycled_keys, <-total_topics_assigned by done. lia. }
    destruct (pool_add now recycled outcome.1) as [p r]. simpl in *. subst r. simpl.
    rewrite <-(Forall2_length _ _ _ Hgrown). done.
  - rewrite Hsettled, Hret, run_spawned_stops.
    case_decide as Hrec; [|apply Forall_Forall2_diag, Forall_true; by intros ?].
    cbn [run_spawned]. unfold mbind, M_bind, bind.
    destruct (add_topics_fits now recycled outcome.1 Hinv_r Hpos Hconn_s)
      as (Hok & Hgrown & _).
    { unfold recycled. by rewrite recycled_keys. }
    { fold survivors. rewrite Hlen'.
      rewrite <-keys_of_size. unfold recycled.
      rewrite recycled_keys, <-total_topics_assigned by done. lia. }
    destruct (pool_add now recycled outcome.1) as [p r]. simpl in *. by subst r.
  - intros k. rewrite Hcount_removed, Hsettled, Hret, run_spawned_stops.
    case_decide as Hrec.
    + cbn [run_spawned]. unfold mbind, M_bind, bind.
      destruct (add_topics_fits now recycled outcome.1 Hinv_r Hpos Hconn_s)
        as (Hok & Hgrown & Hkeys & Hdk').
      { unfold recycled. by rewrite recycled_keys. }
      { fold survivors. rewrite Hlen'.
        rewrite <-keys_of_size. unfold recycled.
        rewrite recycled_keys, <-total_topics_assigned by done. lia. }
      destruct (pool_add now recycled outcome.1) as [p r]. simpl in *. subst r. simpl.
      rewrite (count_by_assigned k _ Hdk'), Hkeys. unfold recycled.
      rewrite recycled_keys by done. fold survivors.
      by rewrite (comm_L (∪) (assigned_keys survivors)).
    + simpl. fold survivors. rewrite (count_by_assigned k _ Hdk_s).
      assert (assigned_keys evicted = ∅) as ->; [|by rewrite union_empty_l_L].
      rewrite <-(recycled_keys evicted Hcoh_e). fold recycled.
      assert (recycled = []) as -> by (by destruct (decide (recycled = []))).
      simpl. by rewrite keys_of_empty.
Qed.

End Consolidation.

Section Reachable.

Variable MAX_WEBSOCKETS : nat.
Variable WS_TOPICS_LIMIT : nat.
Variable PING_TIMEOUT : Z.
Variable pop_order : gset WebsocketTopic → list WebsocketTopic.
Hypothesis pop_order_perm : ∀ s, pop_order s ≡ₚ elements s.

Local Abbreviation pool_add :=
  (WebsocketPool.add_topics MAX_WEBSOCKETS WS_TOPICS_LIMIT PING_TIMEOUT pop_order).
Local Abbreviation pool_inv := (pool_inv MAX_WEBSOCKETS WS_TOPICS_LIMIT).
Local Abbreviation pool_step :=
  (pool_step MAX_WEBSOCKETS WS_TOPICS_LIMIT PING_TIMEOUT pop_order).
Local Abbreviation pool_reachable :=
  (pool_reachable MAX_WEBSOCKETS WS_TOPICS_LIMIT PING_TIMEOUT pop_order).

Lemma stop_topics remove ws :
  Websocket.topics (Websocket.stop remove ws) ⊆ Websocket.topics ws.
Proof.
  unfold Websocket.stop. repeat case_match; simpl; try done; apply map_empty_subseteq.
Qed.

Lemma start_nowait_topics ws :
  Websocket.topics (Websocket.start_nowait ws) = Websocket.topics ws.
Proof. unfold Websocket.start_nowait. by repeat case_match. Qed.

Lemma start_topics websocket ws :
  Websocket.topics (Websocket.start websocket ws) = Websocket.topics ws.
Proof. unfold Websocket.start, Websocket.start_nowait. by repeat case_match. Qed.

Lemma pool_step_inv l l' : pool_step l l' → pool_inv (pool l) → pool_inv (pool l').
Proof.
  intros Hstep Hinv.
  destruct Hstep as [l now topics|l topics|l now before topics after _|l sockets
                    |l clear_topics
                    |l wss' Hsame]; simpl.
  - by apply pool_add_inv.
  - by apply pool_remove_inv.
  - by apply pool_add_inv.
  - apply (fewer_topics_pool_inv _ _ _ (pool l)); [|done].
    apply Forall2_same_length_lookup_2; [by rewrite length_imap|].
    intros i ws ws' Hi Hi'. rewrite list_lookup_imap, Hi in Hi'. cbn in Hi'. simplify_eq.
    by rewrite start_topics.
  - apply (fewer_topics_pool_inv _ _ _ (pool l)); [|done].
    apply Forall2_fmap_r, Forall_Forall2_diag, Forall_true.
    intros ws. unfold compose. apply stop_topics.
  - apply (fewer_topics_pool_inv _ _ _ (pool l)); [|done].
    eapply Forall2_impl; [exact Hsame|]. by intros ws ws' ->.
Qed.

Lemma init_pool_inv : pool_inv WebsocketPool.__init__.
Proof.
  split; simpl; [constructor | constructor | | lia].
  intros k. unfold count_holding. simpl. lia.
Qed.

Lemma pool_reachable_inv l : pool_reachable l → pool_inv (pool l).
Proof.
  unfold pool_reachable.
  assert (∀ l0, rtc pool_step l0 l → pool_inv (pool l0) → pool_inv (pool l)) as Hrtc.
  { induction 1 as [|l1 l2 l3 Hstep _ IH]; [done|].
    intros Hinv. by apply IH, (pool_step_inv l1). }
  intros Hreach. apply (Hrtc _ Hreach). apply init_pool_inv.
Qed.

(** A call of [add_topics] that returns has placed every topic it was given
    on exactly one connection. *)
Lemma add_topics_returned now topics self :
  pool_inv self →
  (pool_add now topics self).2 = Returned tt →
  ∀ t, t ∈ topics →
       count_holding (str t) (WebsocketPool.websockets (pool_add now topics self).1) = 1.
Proof.
  intros Hinv Hret t Ht.
  pose proof (pool_add_inv MAX_WEBSOCKETS WS_TOPICS_LIMIT PING_TIMEOUT pop_order
                pop_order_perm now topics self Hinv) as [_ _ Huniq' _].
  destruct Hinv as [Hcoh Hcap Huniq Hbound].
  assert (disjoint_keys (WebsocketPool.websockets self)) as Hdk
    by exact (proj2 (disjoint_keys_count _) Huniq).
  destruct (pool_add_topics_spec WS_TOPICS_LIMIT pop_order pop_order_perm PING_TIMEOUT
              MAX_WEBSOCKETS now topics self Hcoh Hdk)
    as (placed & rest & wss' & news & _ & _ & _ & _ & _ & Hcover & _
        & Hassigned & _ & _ & _ & _ & _ & _ & _ & _ & _ & Hout).
  destruct Hout as [[_ ->]|(Hraised & _)]; [|congruence].
  assert (str t ∈ assigned_keys
            (WebsocketPool.websockets (pool_add now topics self).1)) as Hin.
  { rewrite Hassigned.
    destruct (Hcover _ Ht) as [?|[?|?%not_elem_of_empty]]; [set_solver| |done].
    apply elem_of_union_r, elem_of_keys_of. by destruct t. }
  apply elem_of_assigned_keys in Hin. specialize (Huniq' (str t)). lia.
Qed.

(** With every connection that has room connected, [add_topics] raises only
    when the topics assigned and the topics given together exceed what the
    pool can hold. *)
Lemma add_topics_returns now topics self :
  pool_inv self →
  room_is_connected WS_TOPICS_LIMIT self →
  size (assigned_keys (WebsocketPool.websockets self) ∪ keys_of (list_to_set topics)) ≤
    MAX_WEBSOCKETS * WS_TOPICS_LIMIT →
  (pool_add now topics self).2 = Returned tt.
Proof.
  intros [Hcoh Hcap Huniq Hbound] Hroom Hfits.
  assert (disjoint_keys (WebsocketPool.websockets self)) as Hdk
    by exact (proj2 (disjoint_keys_count _) Huniq).
  destruct (pool_add_topics_spec WS_TOPICS_LIMIT pop_order pop_order_perm PING_TIMEOUT
              MAX_WEBSOCKETS now topics self Hcoh Hdk)
    as (placed & rest & wss' & news & Hwss & _ & _ & Hgrown & Hdisj & _ & Hfrom
        & Hassigned & Hfresh & _ & Hdk' & _ & _ & _ & _ & _ & _ & Hout).
  destruct Hout as [[Hret _]|(_ & Hrest & Hlen & Hfull & Hall)]; [done|]. exfalso.
  assert (length wss' = length (WebsocketPool.websockets self)) as Hlen'
    by (symmetry; by eapply Forall2_length).
  assert (length wss' * WS_TOPICS_LIMIT ≤ WebsocketPool.total_topics wss') as Hfull'.
  { apply total_topics_full. unfold room_is_connected in Hroom.
    clear -Hall Hroom. induction Hall as [|ws ws' wss wss'' [Hc Hn] _ IH]; [done|].
    apply Forall_cons in Hroom as [Hws Hrest].
    constructor; [|by apply IH].
    destruct (Websocket.connected ws) eqn:Hconn; [by apply Hc|].
    rewrite (Hn eq_refl).
    destruct (decide (size (Websocket.topics ws) < WS_TOPICS_LIMIT)) as [Hlt|]; [|lia].
    by specialize (Hws Hlt). }
  assert (length news * WS_TOPICS_LIMIT ≤ WebsocketPool.total_topics news) as Hfull''.
  { apply total_topics_full. eapply Forall_impl; [exact Hfull|]. simpl. lia. }
  pose proof (total_topics_assigned _ Hdk') as Htotal.
  rewrite Hwss, total_topics_app in Htotal.
  assert (keys_of rest ⊆ keys_of (list_to_set topics)) as Hrest'.
  { apply keys_of_mono. intros t Ht. apply elem_of_list_to_set, Hfrom. set_solver. }
  assert (keys_of placed ⊆ keys_of (list_to_set topics)) as Hplaced'.
  { apply keys_of_mono. intros t Ht. apply elem_of_list_to_set, Hfrom. set_solver. }
  assert (size (assigned_keys (wss' ++ news)) + size (keys_of rest) ≤
          size (assigned_keys (WebsocketPool.websockets self) ∪
                keys_of (list_to_set topics))) as Hsize.
  { rewrite <-Hwss. rewrite <-size_union by (symmetry; exact Hfresh).
    apply subseteq_size. rewrite Hassigned.
    clear -Hrest' Hplaced'. set_solver. }
  assert (size (keys_of rest) ≠ 0).
  { rewrite keys_of_size. by intros ?%size_empty_iff%leibniz_equiv. }
  nia.
Qed.

(** C1, as the code has it.  In every state the pool reaches through calls
    of [add_topics] and [remove_topics], the follow-up tasks they create,
    [start], [stop] and the connections' own progress, no key is held by two
    connections.  A call of [add_topics] in such a state keeps it so; when
    the call returns, every topic passed to it is held by exactly one
    connection; and it does return when every connection that still has
    room is connected and the keys assigned together with the keys passed
    are at most [MAX_WEBSOCKETS * WS_TOPICS_LIMIT]. *)
Theorem topics_are_placed_once (l : Loop) :
  pool_reachable l →
  (∀ k, count_holding k (WebsocketPool.websockets (pool l)) ≤ 1) ∧
  ∀ now topics,
    let outcome := pool_add now topics (pool l) in
    (∀ k, count_holding k (WebsocketPool.websockets outcome.1) ≤ 1) ∧
    (outcome.2 = Returned tt →
     ∀ t, t ∈ topics → count_holding (str t) (WebsocketPool.websockets outcome.1) = 1) ∧
    (room_is_connected WS_TOPICS_LIMIT (pool l) →
     size (assigned_keys (WebsocketPool.websockets (pool l)) ∪
           keys_of (list_to_set topics)) ≤ MAX_WEBSOCKETS * WS_TOPICS_LIMIT →
     outcome.2 = Returned tt).
Proof.
  intros Hinv%pool_reachable_inv. split; [apply Hinv|].
  intros now topics outcome. split_and!.
  - by apply pool_add_inv.
  - by apply add_topics_returned.
  - by apply add_topics_returns.
Qed.

End Reachable.

Section Scenarios.

Lemma iteration_order_perm s : iteration_order s ≡ₚ elements s.
Proof. done. Qed.

Lemma waiting_pool_reachable :
  pool_reachable 1 2 10000 iteration_order (mkLoop waiting_pool []).
Proof.
  unfold pool_reachable.
  eapply rtc_l; [apply (ps_start _ _ _ _ _ socket_of_place)|].
  eapply rtc_l; [apply (ps_add_topics _ _ _ _ _ 0 [topic_a])|].
  apply rtc_refl.
Qed.

(** C1 fails as stated: a started pool of one connection with room for two
    topics holds [a]; its connection is still connecting when [add_topics]
    is called with [b].  The connection has room, one more connection is not
    allowed, the two topics are within [1 * 2], and yet the call raises and
    [b] is held by no connection. *)
Lemma unconnected_room_is_passed_over :
  pool_reachable 1 2 10000 iteration_order (mkLoop waiting_pool []) ∧
  size (assigned_keys (WebsocketPool.websockets waiting_pool) ∪
        keys_of (list_to_set [topic_b])) = 2 ∧
  (WebsocketPool.add_topics 1 2 10000 iteration_order 0 [topic_b] waiting_pool).2 =
    Raised MinerException ∧
  count_holding (str topic_b)
    (WebsocketPool.websockets
       (WebsocketPool.add_topics 1 2 10000 iteration_order 0 [topic_b] waiting_pool).1) = 0.
Proof. split; [exact waiting_pool_reachable|]. by vm_compute. Qed.

(** C1 at the pool of the example once its connection is connected: the
    pool is reachable, the connection with room is connected, two keys fit
    [1 * 2], and [add_topics([b])] returns with [b] held exactly once. *)
Lemma topics_are_placed_once_witness :
  pool_reachable 1 2 10000 iteration_order (mkLoop (all_connected waiting_pool) []) ∧
  (WebsocketPool.add_topics 1 2 10000 iteration_order 0 [topic_b]
     (all_connected waiting_pool)).2 = Returned tt ∧
  count_holding (str topic_b)
    (WebsocketPool.websockets
       (WebsocketPool.add_topics 1 2 10000 iteration_order 0 [topic_b]
          (all_connected waiting_pool)).1) = 1.
Proof.
  assert (pool_reachable 1 2 10000 iteration_order (mkLoop (all_connected waiting_pool) []))
    as Hreach.
  { eapply rtc_r; [exact waiting_pool_reachable|].
    apply (ps_connections _ _ _ _ (mkLoop waiting_pool [])
             (WebsocketPool.websockets (all_connected waiting_pool))).
    by repeat constructor. }
  split; [exact Hreach|].
  destruct (topics_are_placed_once 1 2 10000 iteration_order iteration_order_perm _ Hreach)
    as [_ Hadd].
  destruct (Hadd 0%Z [topic_b]) as (_ & Hone & Hreturns).
  assert ((WebsocketPool.add_topics 1 2 10000 iteration_order 0 [topic_b]
             (all_connected waiting_pool)).2 = Returned tt) as Hret.
  { apply Hreturns.
    - by repeat constructor.
    - by vm_compute. }
  split; [exact Hret|].
  apply (Hone Hret). apply list_elem_of_singleton. reflexivity.
Defined.

Lemma single_pool_reachable :
  pool_reachable 20 50 10000 iteration_order (mkLoop single_pool []).
Proof.
  set (before := (WebsocketPool.add_topics 20 50 10000 iteration_order 0 [topic_a]
                    (WebsocketPool.start socket_of_place WebsocketPool.__init__)).1).
  assert (pool_reachable 20 50 10000 iteration_order (mkLoop before [])) as Hbefore.
  { unfold pool_reachable.
    eapply rtc_l; [apply (ps_start _ _ _ _ _ socket_of_place)|].
    eapply rtc_l; [apply (ps_add_topics _ _ _ _ _ 0 [topic_a])|].
    apply rtc_refl. }
  eapply rtc_r; [exact Hbefore|].
  assert (same_topics (WebsocketPool.websockets before)
                      (WebsocketPool.websockets single_pool)) as Hsame
    by (by repeat constructor).
  pose proof (ps_connections 20 50 10000 iteration_order (mkLoop before []) _ Hsame)
    as Hstep.
  by_step Hstep.
Qed.

Lemma crowded_pool_reachable :
  pool_reachable 2 2 10000 iteration_order (mkLoop crowded_pool []).
Proof.
  unfold pool_reachable.
  go (ps_add_topics 2 2 10000 iteration_order (mkLoop WebsocketPool.__init__ []) 0
        [topic_a; topic_c]).
  eapply rtc_l; [|apply rtc_refl].
  exact (ps_add_topics 2 2 10000 iteration_order _ 0 [topic_b; topic_d]).
Qed.

Lemma connected_crowded_pool_reachable :
  pool_reachable 2 2 10000 iteration_order (mkLoop (all_connected crowded_pool) []).
Proof.
  eapply rtc_r; [exact crowded_pool_reachable|].
  apply (ps_connections _ _ _ _ (mkLoop crowded_pool [])
           (WebsocketPool.websockets (all_connected crowded_pool))).
  by repeat constructor.
Qed.

(** C2 fails as stated, in two ways.  A pool whose only connection holds
    [a] keeps that connection when [a] is removed, although no topic is left
    and [ceil(0 / 50) = 0].  And in a pool of two connections that are not
    connected, holding [a, c] and [b, d], the removal of [a] and [b] leaves
    two topics, for which one connection of capacity two is enough; the
    first connection is detached, but its topic [c] is not placed on the
    survivor, which is not connected: a new connection is created for it and
    the pool has two connections again. *)
Lemma consolidation_misses_the_minimum :
  (pool_reachable 20 50 10000 iteration_order (mkLoop single_pool []) ∧
   let settled := remove_topics_settled 20 50 10000 iteration_order 0 ["a"] single_pool in
   settled.2 = Returned tt ∧
   WebsocketPool.total_topics (WebsocketPool.websockets settled.1) = 0 ∧
   ceil_div 0 50 = 0 ∧
   length (WebsocketPool.websockets settled.1) = 1) ∧
  (pool_reachable 2 2 10000 iteration_order (mkLoop crowded_pool []) ∧
   (λ ws, (Websocket.connected ws, dom (Websocket.topics ws))) <$>
     WebsocketPool.websockets crowded_pool =
     [(false, {["a"; "c"]}); (false, {["b"; "d"]})] ∧
   let settled :=
     remove_topics_settled 2 2 10000 iteration_order 0 ["a"; "b"] crowded_pool in
   settled.2 = Returned tt ∧
   WebsocketPool.total_topics (WebsocketPool.websockets settled.1) = 2 ∧
   ceil_div 2 2 = 1 ∧
   length (WebsocketPool.websockets settled.1) = 2).
Proof.
  split; (split; [|by vm_compute]).
  - exact single_pool_reachable.
  - exact crowded_pool_reachable.
Qed.

(** C2 at a pool of two connected connections holding [a, c] and [b, d]:
    after the removal of [a] and [b] and the follow-up task one connection
    is left. *)
Lemma consolidation_settles_witness :
  pool_inv 2 2 (all_connected crowded_pool) ∧
  2 ≤ length (WebsocketPool.websockets (all_connected crowded_pool)) ∧
  Forall (λ ws, Websocket.connected ws = true)
         (WebsocketPool.websockets (all_connected crowded_pool)) ∧
  (list_to_set ["a"; "b"] : gset string) ≠ ∅ ∧
  (remove_topics_settled 2 2 10000 iteration_order 0 ["a"; "b"]
     (all_connected crowded_pool)).2 = Returned tt ∧
  length (WebsocketPool.websockets
            (remove_topics_settled 2 2 10000 iteration_order 0 ["a"; "b"]
               (all_connected crowded_pool)).1) = 1.
Proof.
  assert (pool_inv 2 2 (all_connected crowded_pool)) as Hinv
    by exact (pool_reachable_inv 2 2 10000 iteration_order iteration_order_perm _
                connected_crowded_pool_reachable).
  assert (2 ≤ length (WebsocketPool.websockets (all_connected crowded_pool))) as Hlen
    by (by vm_compute).
  assert (Forall (λ ws, Websocket.connected ws = true)
                 (WebsocketPool.websockets (all_connected crowded_pool))) as Hconn
    by (by repeat constructor).
  assert ((list_to_set ["a"; "b"] : gset string) ≠ ∅) as Hne.
  { intros Hempty. apply (not_elem_of_empty (C:=gset string) "a").
    rewrite <-Hempty. apply elem_of_list_to_set, list_elem_of_here. }
  split_and!; [done..| |];
    destruct (consolidation_settles 2 2 10000 iteration_order iteration_order_perm 0
                ["a"; "b"] (all_connected crowded_pool) Hinv (Nat.lt_0_succ 1) Hlen Hconn Hne)
      as (_ & _ & _ & _ & _ & _ & Hret & Hcount & _).
  - exact Hret.
  - exact Hcount.
Defined.

Lemma pending_connection_reachable :
  rtc (lifecycle 1000 10000 50 alphabet iteration_order no_payload)
      (Websocket.__init__ 10000 0 0, calm_world "token")
      (pending_connection, calm_world "token").
Proof.
  set (w := calm_world "token").
  set (self0 := Websocket.__init__ 10000 0 0).
  go (lc_connected 1000 10000 50 alphabet iteration_order no_payload self0 w 0 eq_refl).
  set (self1 := Websocket.set_reconnect_requested false _).
  go (lc_add_topics 1000 10000 50 alphabet iteration_order no_payload self1 w {[topic_a]}).
  arrive.
Qed.

Lemma subscribed_connection_reachable :
  conn_reachable 1000 10000 50 alphabet iteration_order no_payload subscribed_connection.
Proof.
  exists 0, 0%Z, (calm_world "token").
  etransitivity; [exact pending_connection_reachable|].
  go (lc_handle_topics 1000 10000 50 alphabet iteration_order no_payload
        (pending_connection, calm_world "token") eq_refl).
  arrive.
Qed.



(** C4 fails as stated: with a heartbeat interval of one second and an ack
    timeout of one second, a connection that receives nothing for 2.5
    seconds, polled every half second, sends a [PING] at 0, 1 and 2 seconds
    and requests no reconnect; nor does the heartbeat check made at 2.5
    seconds.  The check looks at the heartbeat deadline first, and each
    [PING] moves both deadlines on. *)
Lemma equal_interval_and_timeout_never_reconnect :
  let st :=
    (Websocket.steady_state 1000 1000 alphabet iteration_order no_payload (quiet 500 5)
       (fresh_connection 1000 0 0, calm_world "token")).1 in
  clock st.2 = 2500%Z ∧
  trace st.2 = replicate 3 (Sent 0 (JObject [("type", JString "PING")])) ∧
  reconnect_requests (trace st.2) = 0 ∧
  reconnect_requests (trace (Websocket._handle_ping 1000 1000 alphabet st).1.2) = 0.
Proof. by vm_compute. Qed.

(** C4 at a connection with a heartbeat interval of two seconds and an ack
    timeout of one second, one second after its [PING] and without a
    [PONG]: the polls that follow request reconnect once. *)
Lemma heartbeat_timeout_reconnects_once_witness :
  Websocket.connected overdue_connection.1 = true ∧
  (Websocket._max_pong overdue_connection.1 ≤ clock overdue_connection.2
   < Websocket._next_ping overdue_connection.1)%Z ∧
  reconnect_requests
    (trace (Websocket.steady_state 2000 1000 alphabet iteration_order no_payload
              (quiet 500 3) (overdue_connection.1, overdue_connection.2)).1.2) =
    reconnect_requests (trace overdue_connection.2) + 1.
Proof.
  assert (Websocket.connected overdue_connection.1 = true) as Hconn
    by (vm_compute; reflexivity).
  assert (Websocket._max_pong overdue_connection.1 ≤ clock overdue_connection.2
          < Websocket._next_ping overdue_connection.1)%Z as Hdue
    by (vm_compute; split; [discriminate|reflexivity]).
  split; [exact Hconn|]. split; [exact Hdue|].
  refine (proj1 (proj2 (heartbeat_timeout_reconnects_once 2000 1000 alphabet
                          iteration_order no_payload overdue_connection.1
                          overdue_connection.2 (quiet 500 3) Hconn _ Hdue _ _))).
  - vm_compute; reflexivity.
  - discriminate.
  - by repeat constructor.
Defined.

Lemma many_size n : size (list_to_set (many n) : gset WebsocketTopic) = n.
Proof.
  rewrite size_list_to_set.
  - unfold many. by rewrite length_fmap, length_seq.
  - unfold many. apply NoDup_fmap_2; [|apply NoDup_seq].
    intros i j Heq. injection Heq as Heq. by apply (inj pretty).
Qed.

(** C5 with [MAX_WEBSOCKETS = 20] and [WS_TOPICS_LIMIT = 50]: adding 1001
    distinct topics to a new pool raises, and at most 1000 are placed. *)
Lemma capacity_exceeded_raises_witness :
  pool_inv 20 50 WebsocketPool.__init__ ∧
  20 * 50 < size (list_to_set (many 1001) : gset WebsocketTopic) ∧
  (WebsocketPool.add_topics 20 50 10000 iteration_order 0 (many 1001)
     WebsocketPool.__init__).2 = Raised MinerException ∧
  WebsocketPool.total_topics
    (WebsocketPool.websockets
       (WebsocketPool.add_topics 20 50 10000 iteration_order 0 (many 1001)
          WebsocketPool.__init__).1) ≤ 1000.
Proof.
  assert (20 * 50 < size (list_to_set (many 1001) : gset WebsocketTopic)) as Hmany
    by (rewrite many_size; lia).
  split_and!; [apply init_pool_inv|exact Hmany| |];
    destruct (capacity_exceeded_raises 20 50 10000 iteration_order iteration_order_perm 0
                (many 1001) WebsocketPool.__init__ (init_pool_inv 20 50) Hmany)
      as (Hraised & _ & Htotal & _).
  - exact Hraised.
  - exact Htotal.
Defined.

(** C6 fails as stated, in two ways.  On a connection to which [a] was added
    and not submitted yet, adding [b] and removing it again is followed by a
    sync that sends a [LISTEN] (for [a]).  And on a connection subscribed to
    [a] with nothing pending, adding [a] and removing it again is followed
    by a sync that sends an [UNLISTEN]: the second addition changes nothing,
    the removal takes the topic away. *)
Lemma toggle_does_not_silence_the_sync :
  (let toggled :=
     (Websocket.remove_topics {[str topic_b]}
        (Websocket.add_topics 50 iteration_order {[topic_b]} pending_connection).2).2 in
   (json_get "type" <$>
      frames_sent (trace (Websocket._handle_topics alphabet iteration_order
                            (toggled, calm_world "token")).1.2)) =
     [Some (JString "LISTEN")]) ∧
  (let toggled :=
     (Websocket.remove_topics {[str topic_a]}
        (Websocket.add_topics 50 iteration_order {[topic_a]} subscribed_connection.1).2).2 in
   Websocket._submitted subscribed_connection.1 =
     Websocket.current_topics subscribed_connection.1 ∧
   Websocket._topics_changed subscribed_connection.1 = false ∧
   (json_get "type" <$>
      frames_sent (trace (Websocket._handle_topics alphabet iteration_order
                            (toggled, calm_world "token")).1.2)) =
     [Some (JString "UNLISTEN")]).
Proof. by vm_compute. Qed.

(** C6 at the connection subscribed to [a]: adding [b] and removing it
    again is followed by a sync that writes nothing. *)
Lemma add_then_remove_emits_nothing_witness :
  (str topic_b ∉ dom (Websocket.topics subscribed_connection.1)) ∧
  Websocket._submitted subscribed_connection.1 =
    Websocket.current_topics subscribed_connection.1 ∧
  trace (Websocket._handle_topics alphabet iteration_order
           ((Websocket.remove_topics {[str topic_b]}
               (Websocket.add_topics 50 iteration_order {[topic_b]}
                  subscribed_connection.1).2).2,
            subscribed_connection.2)).1.2 =
    trace subscribed_connection.2.
Proof.
  assert (str topic_b ∉ dom (Websocket.topics subscribed_connection.1)) as Hfresh.
  { apply not_elem_of_dom. vm_compute. reflexivity. }
  assert (Websocket._submitted subscribed_connection.1 =
          Websocket.current_topics subscribed_connection.1) as Hsync
    by (vm_compute; reflexivity).
  split_and!; [exact Hfresh|exact Hsync|].
  exact (proj1 (proj2 (add_then_remove_emits_nothing 50 alphabet iteration_order
                         iteration_order_perm subscribed_connection.1 topic_b
                         subscribed_connection.2 Hfresh) Hsync)).
Defined.

(** C9 at the connection subscribed to [a], and after adding [b] to it *)
Lemma topics_keyed_by_str_witness :
  conn_reachable 1000 10000 50 alphabet iteration_order no_payload subscribed_connection ∧
  key_coherent subscribed_connection.1 ∧
  key_coherent
    (Websocket.add_topics 50 iteration_order {[topic_b]} subscribed_connection.1).2.
Proof.
  destruct (topics_keyed_by_str 1000 10000 50 alphabet iteration_order no_payload)
    as [Hreach Hkeep].
  pose proof (Hreach _ subscribed_connection_reachable) as Hcoh.
  split_and!; [exact subscribed_connection_reachable|exact Hcoh|].
  exact (proj1 (Hkeep _ Hcoh) {[topic_b]}).
Defined.

End Scenarios.

(** * Further properties of a connection *)

Section Receiving.

Variable PING_INTERVAL : Z.
Variable PING_TIMEOUT : Z.
Variable CHARS_ASCII : string.
Variable pop_order : gset WebsocketTopic → list WebsocketTopic.
Variable json_loads : string → option JsonType.

Local Abbreviation _handle_ping :=
  (Websocket._handle_ping PING_INTERVAL PING_TIMEOUT CHARS_ASCII).
Local Abbreviation _handle_topics := (Websocket._handle_topics CHARS_ASCII pop_order).
Local Abbreviation _handle_recv := (Websocket._handle_recv json_loads).
Local Abbreviation process_messages := (Websocket.process_messages json_loads).
Local Abbreviation steady_state :=
  (Websocket.steady_state PING_INTERVAL PING_TIMEOUT CHARS_ASCII pop_order json_loads).
Local Abbreviation _gather_recv := (Websocket._gather_recv json_loads).
Local Abbreviation text_of := (text_of json_loads).
Local Abbreviation decodes := (decodes json_loads).

Lemma _gather_recv_open frames :
  ∀ messages,
    Forall (λ frame, ends_session frame = false) frames →
    Forall (λ frame, decodes frame = true) frames →
    _gather_recv frames messages = Returned (messages ++ omap text_of frames).
Proof.
  induction frames as [|frame frames IH]; intros messages Hopen Hjson; simpl.
  - by rewrite app_nil_r.
  - apply Forall_cons in Hopen as [Hframe Hopen].
    apply Forall_cons in Hjson as [Hdecodes Hjson].
    destruct frame as [data| | | | |]; try done; simpl; [|by rewrite IH..].
    cbn in Hdecodes. apply bool_decide_eq_true in Hdecodes as [message Hmessage].
    rewrite Hmessage, IH by done. by rewrite <-app_assoc.
Qed.

Lemma _gather_recv_closed before frame after :
  ∀ messages,
    Forall (λ frame, ends_session frame = false) before →
    Forall (λ frame, decodes frame = true) before →
    ends_session frame = true →
    ∃ received,
      _gather_recv (before ++ frame :: after) messages =
        Raised (WebsocketClosed received) ∧
      (frame = CLOSE → received = true) ∧
      (frame = CLOSED → received = false).
Proof.
  induction before as [|first before IH]; intros messages Hopen Hjson Hends; simpl.
  - destruct frame; try done; eexists; (split; [done|]); by split.
  - apply Forall_cons in Hopen as [Hfirst Hopen].
    apply Forall_cons in Hjson as [Hdecodes Hjson].
    destruct first as [data| | | | |]; try done; simpl; [|by apply IH..].
    cbn in Hdecodes. apply bool_decide_eq_true in Hdecodes as [message Hmessage].
    rewrite Hmessage. by apply IH.
Qed.

Lemma _gather_recv_garbled before data after :
  ∀ messages,
    Forall (λ frame, ends_session frame = false) before →
    Forall (λ frame, decodes frame = true) before →
    json_loads data = None →
    _gather_recv (before ++ TEXT data :: after) messages = Raised JSONDecodeError.
Proof.
  induction before as [|first before IH]; intros messages Hopen Hjson Hdata; simpl.
  - by rewrite Hdata.
  - apply Forall_cons in Hopen as [Hfirst Hopen].
    apply Forall_cons in Hjson as [Hdecodes Hjson].
    destruct first as [first| | | | |]; try done; simpl; [|by apply IH..].
    cbn in Hdecodes. apply bool_decide_eq_true in Hdecodes as [message Hmessage].
    rewrite Hmessage. by apply IH.
Qed.

(** What [_gather_recv] returns, when it returns: the decoded text frames,
    in their order *)
Lemma _gather_recv_returned frames :
  ∀ acc messages,
    _gather_recv frames acc = Returned messages →
    messages = acc ++ omap text_of frames.
Proof.
  induction frames as [|frame frames IH]; intros acc messages Hreturned; simpl in *.
  - injection Hreturned as <-. by rewrite app_nil_r.
  - destruct frame as [data| | | | |]; try done; simpl; [|by apply IH..].
    destruct (json_loads data) as [message|]; [|done].
    rewrite (IH _ _ Hreturned). by rewrite <-app_assoc.
Qed.

(** On frames none of which ends the session it returns, or a text frame
    was no JSON. *)
Lemma _gather_recv_cases frames acc :
  Forall (λ frame, ends_session frame = false) frames →
  _gather_recv frames acc = Returned (acc ++ omap text_of frames) ∨
  _gather_recv frames acc = Raised JSONDecodeError.
Proof.
  revert acc. induction frames as [|frame frames IH]; intros acc Hopen; simpl.
  - left. by rewrite app_nil_r.
  - apply Forall_cons in Hopen as [Hframe Hopen].
    destruct frame as [data| | | | |]; try done; simpl; [|by apply IH..].
    destruct (json_loads data) as [message|]; [|by right].
    destruct (IH (acc ++ [message]) Hopen) as [->| ->]; [left|by right].
    by rewrite <-app_assoc.
Qed.

(** X1.  A poll in which a frame of type [CLOSE], [CLOSED] or [ERROR]
    arrives raises [WebsocketClosed] out of [_handle_recv], with
    [received=True] for [CLOSE] and [received=False] for [CLOSED]; a poll
    in which a text frame that is no JSON arrives raises the error of
    [json.loads].  Either way the text frames that arrived before it in
    the same poll are not processed: the connection is what it was and
    nothing is dispatched or requested.  A poll without such a frame
    processes its text frames in their order and skips the others. *)
Theorem close_frame_discards_the_batch (p : Poll) (self : Websocket.t) (w : World) :
  Websocket.connected self = true →
  (∀ before frame after,
     inbound p = before ++ frame :: after →
     Forall (λ frame, ends_session frame = false) before →
     Forall (λ frame, decodes frame = true) before →
     ends_session frame = true →
     ∃ received,
       _handle_recv p (self, w) =
         ((self, advance (elapsed p) w), Raised (WebsocketClosed received)) ∧
       (frame = CLOSE → received = true) ∧
       (frame = CLOSED → received = false)) ∧
  (∀ before data after,
     inbound p = before ++ TEXT data :: after →
     Forall (λ frame, ends_session frame = false) before →
     Forall (λ frame, decodes frame = true) before →
     json_loads data = None →
     _handle_recv p (self, w) = ((self, advance (elapsed p) w), Raised JSONDecodeError)) ∧
  (Forall (λ frame, ends_session frame = false) (inbound p) →
   Forall (λ frame, decodes frame = true) (inbound p) →
   _handle_recv p (self, w) =
     process_messages (omap text_of (inbound p)) (self, advance (elapsed p) w)).
Proof.
  intros Hconn. unfold Websocket._handle_recv, Websocket.connected in *.
  destruct (Websocket._ws self) as [sock|]; [|done]. split_and!.
  - intros before frame after -> Hopen Hjson Hends.
    destruct (_gather_recv_closed before frame after [] Hopen Hjson Hends)
      as (received & -> & Hclose & Hclosed).
    by exists received.
  - intros before data after -> Hopen Hjson Hdata.
    by rewrite (_gather_recv_garbled before data after [] Hopen Hjson Hdata).
  - intros Hopen Hjson. by rewrite (_gather_recv_open _ [] Hopen Hjson).
Qed.

Lemma has_type_exclusive type type' message :
  has_type type message = true → type ≠ type' → has_type type' message = false.
Proof.
  unfold has_type, json_is.
  destruct (default (JString "") (json_get "type" message)); try done.
  intros ->%bool_decide_eq_true Hne. by apply bool_decide_eq_false.
Qed.

(** The four ways one iteration of the message loop can go, by the type of
    the message, when the message is an object; on any other value the
    loop raises. *)
Lemma process_messages_cons message rest st :
  is_object message = true →
  process_messages (message :: rest) st =
  if has_type "MESSAGE" message then
    (Websocket._handle_message json_loads message;; process_messages rest) st
  else if has_type "PONG" message then
    (modify (λ '(self, w),
               (Websocket.set_max_pong (Websocket._next_ping self) self, w));;
     process_messages rest) st
  else if has_type "RECONNECT" message && negb (has_type "RESPONSE" message) then
    Websocket.request_reconnect st
  else process_messages rest st.
Proof.
  intros Hobject. destruct message as [| | | | | |fields]; try done.
  cbn [Websocket.process_messages]. unfold has_type, json_get.
  unfold mbind at 1, M_bind at 1, bind at 1, lift at 1. cbn [dict_get].
  destruct (json_is "MESSAGE" _); [done|].
  destruct (json_is "PONG" _); [done|].
  destruct (json_is "RESPONSE" _) eqn:Hresponse; [by rewrite andb_false_r|].
  rewrite andb_true_r. by destruct (json_is "RECONNECT" _).
Qed.

Lemma process_messages_cons_raise message rest st :
  is_object message = false →
  process_messages (message :: rest) st = (st, Raised AttributeError).
Proof. intros Hother. by destruct message. Qed.

Lemma well_formed_object message : well_formed message = true → is_object message = true.
Proof. unfold well_formed. by intros [? _]%andb_true_iff. Qed.

Lemma process_messages_cons_other message rest st :
  is_object message = true →
  has_type "MESSAGE" message = false →
  has_type "PONG" message = false →
  has_type "RECONNECT" message = false →
  process_messages (message :: rest) st = process_messages rest st.
Proof. intros Ho H1 H2 H3. by rewrite process_messages_cons, H1, H2, H3. Qed.

Lemma process_messages_cons_reconnect message rest st :
  is_object message = true →
  has_type "RECONNECT" message = true →
  process_messages (message :: rest) st = Websocket.request_reconnect st.
Proof.
  intros Ho Htype. rewrite process_messages_cons by done.
  rewrite (has_type_exclusive "RECONNECT" "MESSAGE"), (has_type_exclusive "RECONNECT" "PONG"),
    (has_type_exclusive "RECONNECT" "RESPONSE"), Htype by done.
  done.
Qed.

(** What [_handle_message] does with a well-formed message: it returns,
    after at most one dispatch, to the topic assigned under the key the
    message names. *)
Lemma _handle_message_dispatch message self w :
  well_formed message = true →
  has_type "MESSAGE" message = true →
  ∃ w',
    Websocket._handle_message json_loads message (self, w) = ((self, w'), Returned tt) ∧
    (w' = w ∨
     ∃ topic_key topic payload,
       topic_key_of message = Some topic_key ∧ topic_key ≠ "" ∧
       Websocket.topics self !! topic_key = Some topic ∧
       w' = emit (Dispatched topic payload) w).
Proof.
  intros Hformed Htype.
  destruct (_handle_message_self json_loads message self w)
    as (w' & outcome & Heq & Hcases).
  exists w'. split; [|by destruct Hcases as [?|[_ ?]]; auto].
  rewrite Heq. f_equal.
  clear Hcases.
  revert Heq. unfold well_formed in Hformed. rewrite Htype in Hformed.
  apply andb_true_iff in Hformed as [Hobject Hdata]. cbn [negb orb] in Hdata.
  destruct message as [| | | | | |fields]; try done.
  unfold Websocket._handle_message, mbind, M_bind, bind, lift, get, json_get in *.
  cbn [dict_get].
  destruct (assoc_get "data" fields) as [data|]; cbn [default from_option id absent_or] in *.
  2:{ cbn. by intros [= _ <-]. }
  apply andb_true_iff in Hdata as [[Hdict Htopic]%andb_true_iff Hpayload].
  destruct data as [| | | | | |entries]; try done. cbn [dict_get json_get] in *.
  destruct (assoc_get "topic" entries) as [topic_key|]; cbn [absent_or] in Htopic.
  2:{ cbn. by intros [= _ <-]. }
  destruct topic_key as [| | | |topic_key| |]; try done.
  destruct (truthy (Some (JString topic_key))); cbn [negb]; [|by intros [= _ <-]].
  cbn [Websocket.topics_get].
  destruct (Websocket.topics self !! topic_key) as [topic|]; [|by intros [= _ <-]].
  destruct (assoc_get "message" entries) as [payload|];
    cbn [default from_option id absent_or] in *.
  - destruct payload as [| | | |payload| |]; try done.
    destruct (json_loads payload); cbn; by intros [= _ <-].
  - destruct (json_loads "{}"); cbn; by intros [= _ <-].
Qed.

(** A batch of well-formed messages without a [RECONNECT] changes nothing
    of the connection but the ack deadline, which a [PONG] moves to the
    heartbeat deadline. *)
Lemma process_messages_no_reconnect messages :
  ∀ self w,
    Forall (λ message, well_formed message = true ∧ has_type "RECONNECT" message = false)
           messages →
    ∃ w',
      process_messages messages (self, w) =
        ((if existsb (has_type "PONG") messages
          then Websocket.set_max_pong (Websocket._next_ping self) self
          else self, w'), Returned tt) ∧
      clock w' = clock w ∧
      reconnect_requests (trace w') = reconnect_requests (trace w).
Proof.
  induction messages as [|message rest IH]; intros self w Hnone.
  - by exists w.
  - apply Forall_cons in Hnone as [[Hformed Hmessage] Hnone].
    rewrite process_messages_cons, Hmessage by (by apply well_formed_object).
    cbn [existsb andb].
    destruct (has_type "MESSAGE" message) eqn:Hm.
    + rewrite (has_type_exclusive "MESSAGE" "PONG") by done. cbn [orb].
      unfold mbind, M_bind, bind.
      destruct (_handle_message_dispatch message self w Hformed Hm) as (w1 & -> & Hw1).
      destruct (IH self w1 Hnone) as (w' & -> & Hclock & Hreq).
      exists w'. split; [done|].
      destruct Hw1 as [->|(k & topic & payload & _ & _ & _ & ->)]; [done|].
      split; [done|]. rewrite Hreq.
      change (trace (emit ?e ?x)) with (trace x ++ [e]).
      by rewrite reconnect_requests_app, Nat.add_0_r.
    + destruct (has_type "PONG" message) eqn:Hp; cbn [orb].
      * unfold mbind, M_bind, bind, modify.
        destruct (IH (Websocket.set_max_pong (Websocket._next_ping self) self) w Hnone)
          as (w' & -> & Hclock & Hreq).
        exists w'. split; [|done]. by destruct (existsb _ rest).
      * apply IH, Hnone.
Qed.

(** A heartbeat check on a connection whose ack deadline is not before its
    heartbeat deadline requests nothing. *)
Lemma _handle_ping_armed self w :
  (Websocket._next_ping self ≤ Websocket._max_pong self)%Z →
  reconnect_requests (trace (_handle_ping (self, w)).1.2) = reconnect_requests (trace w) ∧
  Websocket._reconnect_requested (_handle_ping (self, w)).1.1 =
    Websocket._reconnect_requested self.
Proof.
  intros Harmed.
  pose proof (_handle_ping_cases PING_INTERVAL PING_TIMEOUT CHARS_ASCII self w) as Hc.
  cbn zeta in Hc. destruct (_handle_ping (self, w)) as [[self1 w1] r1]. cbn [fst snd].
  destruct Hc as [(_ & -> & [(sock & _ & _ & ->)|(e & _ & ->)])
                 |[(? & ? & _)|(_ & _ & -> & -> & _)]]; [| |lia|]; try done.
  split; [|done]. apply reconnect_requests_emit_sent.
Qed.

(** After a poll in which a [PONG] arrived and no [RECONNECT], the ack
    deadline is the heartbeat deadline. *)
Lemma _handle_recv_pong (p : Poll) (self : Websocket.t) (w : World) :
  Websocket.connected self = true →
  Forall (λ frame, ends_session frame = false) (inbound p) →
  Forall (λ frame, decodes frame = true) (inbound p) →
  Forall (λ message, well_formed message = true ∧ has_type "RECONNECT" message = false)
         (omap text_of (inbound p)) →
  Exists (λ message, has_type "PONG" message = true) (omap text_of (inbound p)) →
  let st := (_handle_recv p (self, w)).1 in
  (_handle_recv p (self, w)).2 = Returned tt ∧
  st.1 = Websocket.set_max_pong (Websocket._next_ping self) self ∧
  reconnect_requests (trace st.2) = reconnect_requests (trace w) ∧
  ∀ later,
    reconnect_requests (trace (_handle_ping (st.1, later)).1.2) =
      reconnect_requests (trace later) ∧
    Websocket._reconnect_requested (_handle_ping (st.1, later)).1.1 =
      Websocket._reconnect_requested self.
Proof.
  intros Hconn Hopen Hjson Hformed Hpong. cbn zeta.
  unfold Websocket._handle_recv, Websocket.connected in *.
  destruct (Websocket._ws self) as [sock|] eqn:Hsock; [|done].
  rewrite (_gather_recv_open _ [] Hopen Hjson). cbn [app].
  destruct (process_messages_no_reconnect (omap text_of (inbound p)) self
              (advance (elapsed p) w) Hformed) as (w' & -> & _ & Hreq).
  assert (existsb (has_type "PONG") (omap text_of (inbound p)) = true) as ->.
  { apply existsb_exists. apply Exists_exists in Hpong as (message & Hin & Htype).
    exists message. split; [by apply list_elem_of_In|done]. }
  cbn [fst snd]. split_and!; [done..|].
  intros later.
  by destruct (_handle_ping_armed
                 (Websocket.set_max_pong (Websocket._next_ping self) self) later).
Qed.

(** X2.  A [PONG] calls the pending timeout off.  After a poll without a
    closing frame and without a [RECONNECT] message in which a [PONG]
    arrived, the ack deadline equals the heartbeat deadline, which the poll
    did not move; so the next heartbeat check, whenever it runs, requests no
    reconnect: it sends the next [PING] when that is due and does nothing
    before.  (The text frames of the poll are JSON, and well-formed.) *)
Theorem pong_disarms_the_timeout (p : Poll) (self : Websocket.t) (w : World) :
  Websocket.connected self = true →
  Forall (λ frame, ends_session frame = false) (inbound p) →
  Forall (λ frame, decodes frame = true) (inbound p) →
  Forall (λ message, well_formed message = true ∧ has_type "RECONNECT" message = false)
         (omap text_of (inbound p)) →
  Exists (λ message, has_type "PONG" message = true) (omap text_of (inbound p)) →
  let st := (_handle_recv p (self, w)).1 in
  (_handle_recv p (self, w)).2 = Returned tt ∧
  st.1 = Websocket.set_max_pong (Websocket._next_ping self) self ∧
  reconnect_requests (trace st.2) = reconnect_requests (trace w) ∧
  ∀ later,
    reconnect_requests (trace (_handle_ping (st.1, later)).1.2) =
      reconnect_requests (trace later) ∧
    Websocket._reconnect_requested (_handle_ping (st.1, later)).1.1 =
      Websocket._reconnect_requested self.
Proof. apply _handle_recv_pong. Qed.

(** X3.  A [RECONNECT] message ends the batch: the messages before it are
    processed, [request_reconnect] is called once, raising the flag that
    ends the steady-state loop and making the next [PING] due, and the
    messages after it in the same poll are dropped, whatever they are. *)
Theorem reconnect_message_ends_the_batch (before after : list JsonType)
    (message : JsonType) (self : Websocket.t) (w : World) :
  Forall (λ message, well_formed message = true ∧ has_type "RECONNECT" message = false)
         before →
  well_formed message = true →
  has_type "RECONNECT" message = true →
  let st := (process_messages before (self, w)).1 in
  process_messages (before ++ message :: after) (self, w) =
    ((Websocket.set_reconnect_requested true (Websocket.set_next_ping (clock w) st.1),
      emit (ReconnectRequested (Websocket._idx self)) st.2),
     Returned tt) ∧
  reconnect_requests (trace st.2) = reconnect_requests (trace w) ∧
  process_messages (before ++ message :: after) (self, w) =
    process_messages (before ++ [message]) (self, w).
Proof.
  intros Hbefore Hformed%well_formed_object Htype. cbn zeta.
  assert (∀ after',
            process_messages (before ++ message :: after') (self, w) =
            ((Websocket.set_reconnect_requested true
                (Websocket.set_next_ping (clock w) (process_messages before (self, w)).1.1),
              emit (ReconnectRequested (Websocket._idx self))
                   (process_messages before (self, w)).1.2),
             Returned tt) ∧
            reconnect_requests (trace (process_messages before (self, w)).1.2) =
              reconnect_requests (trace w)) as Hany.
  { intros after'. revert self w.
    induction before as [|first before IH]; intros self w.
    - cbn [app]. by rewrite process_messages_cons_reconnect.
    - apply Forall_cons in Hbefore as [[Hfirst_formed Hfirst] Hbefore].
      specialize (IH Hbefore).
      cbn [app]. rewrite !process_messages_cons, Hfirst by (by apply well_formed_object).
      cbn [andb].
      destruct (has_type "MESSAGE" first) eqn:Hm.
      + unfold mbind, M_bind, bind.
        destruct (_handle_message_dispatch first self w Hfirst_formed Hm) as (w1 & -> & Hw1).
        destruct (IH self w1) as [-> Hreq]. rewrite Hreq.
        destruct Hw1 as [->|(k & topic & payload & _ & _ & _ & ->)]; [done|].
        split; [done|].
        change (trace (emit ?e ?x)) with (trace x ++ [e]).
        by rewrite reconnect_requests_app, Nat.add_0_r.
      + destruct (has_type "PONG" first) eqn:Hp.
        * unfold mbind, M_bind, bind, modify.
          by destruct (IH (Websocket.set_max_pong (Websocket._next_ping self) self) w)
            as [-> ->].
        * apply IH. }
  split_and!; [apply (Hany after)|apply (Hany [])|].
  by rewrite (proj1 (Hany after)), (proj1 (Hany [])).
Qed.

(** The events a batch of messages can cause *)
Lemma process_messages_events messages :
  ∀ self w,
    ∃ new,
      trace (process_messages messages (self, w)).1.2 = trace w ++ new ∧
      ∀ e, e ∈ new →
        e = ReconnectRequested (Websocket._idx self) ∨
        ∃ message topic_key topic payload,
          message ∈ messages ∧
          has_type "MESSAGE" message = true ∧
          topic_key_of message = Some topic_key ∧ topic_key ≠ "" ∧
          Websocket.topics self !! topic_key = Some topic ∧
          e = Dispatched topic payload.
Proof.
  induction messages as [|message rest IH]; intros self w.
  { exists []. split; [by rewrite app_nil_r|by intros ? ?%elem_of_nil]. }
  assert (∀ self' w',
            Websocket.topics self' = Websocket.topics self →
            Websocket._idx self' = Websocket._idx self →
            ∃ new,
              trace (process_messages rest (self', w')).1.2 = trace w' ++ new ∧
              ∀ e, e ∈ new →
                e = ReconnectRequested (Websocket._idx self) ∨
                ∃ message' topic_key topic payload,
                  message' ∈ message :: rest ∧
                  has_type "MESSAGE" message' = true ∧
                  topic_key_of message' = Some topic_key ∧ topic_key ≠ "" ∧
                  Websocket.topics self !! topic_key = Some topic ∧
                  e = Dispatched topic payload) as Hrest.
  { intros self' w' Htopics Hidx. destruct (IH self' w') as (new & Hnew & Hfrom).
    exists new. split; [done|]. intros e He.
    destruct (Hfrom e He) as [->|(m & k & topic & payload & Hin & ? & ? & ? & ? & ?)].
    - left. by rewrite Hidx.
    - right. exists m, k, topic, payload. rewrite <-Htopics.
      split_and!; try done. by apply list_elem_of_further. }
  destruct (is_object message) eqn:Hobject.
  2:{ rewrite process_messages_cons_raise by done.
      exists []. split; [by rewrite app_nil_r|by intros ? ?%elem_of_nil]. }
  rewrite process_messages_cons by done.
  destruct (has_type "MESSAGE" message) eqn:Hm.
  - unfold mbind, M_bind, bind.
    destruct (_handle_message_self json_loads message self w)
      as (w1 & outcome & -> & Hw1).
    assert (∃ first, trace w1 = trace w ++ first ∧
                     ∀ e, e ∈ first →
                       ∃ topic_key topic payload,
                         topic_key_of message = Some topic_key ∧ topic_key ≠ "" ∧
                         Websocket.topics self !! topic_key = Some topic ∧
                         e = Dispatched topic payload) as (first & Hfirst & Hfrom).
    { destruct Hw1 as [->|(_ & k & topic & payload & ? & ? & ? & ->)].
      - exists []. split; [by rewrite app_nil_r|by intros ? ?%elem_of_nil].
      - exists [Dispatched topic payload]. split; [done|].
        intros e ->%list_elem_of_singleton. eauto 10. }
    assert (∀ e, e ∈ first →
              e = ReconnectRequested (Websocket._idx self) ∨
              ∃ message' topic_key topic payload,
                message' ∈ message :: rest ∧
                has_type "MESSAGE" message' = true ∧
                topic_key_of message' = Some topic_key ∧ topic_key ≠ "" ∧
                Websocket.topics self !! topic_key = Some topic ∧
                e = Dispatched topic payload) as Hfrom'.
    { intros e He. destruct (Hfrom e He) as (k & topic & payload & ? & ? & ? & ?).
      right. exists message, k, topic, payload. split_and!; try done.
      apply list_elem_of_here. }
    destruct outcome as [[]|e]; cbn [fst snd].
    + destruct (Hrest self w1 eq_refl eq_refl) as (new & -> & Hnew).
      exists (first ++ new). rewrite Hfirst, app_assoc. split; [done|].
      intros e [?|?]%elem_of_app; auto.
    + by exists first.
  - destruct (has_type "PONG" message).
    + unfold mbind, M_bind, bind, modify.
      apply (Hrest (Websocket.set_max_pong (Websocket._next_ping self) self) w); done.
    + destruct (has_type "RECONNECT" message && negb (has_type "RESPONSE" message)).
      * exists [ReconnectRequested (Websocket._idx self)]. split; [done|].
        intros e ->%list_elem_of_singleton. by left.
      * by apply Hrest.
Qed.

(** The events a poll can cause *)
Lemma _handle_recv_events (p : Poll) (self : Websocket.t) (w : World) :
  let st := (_handle_recv p (self, w)).1 in
  same_subscription self st.1 ∧
  ∃ new,
    trace st.2 = trace w ++ new ∧
    ∀ e, e ∈ new →
      e = ReconnectRequested (Websocket._idx self) ∨
      ∃ data message topic_key topic payload,
        TEXT data ∈ inbound p ∧
        json_loads data = Some message ∧
        has_type "MESSAGE" message = true ∧
        topic_key_of message = Some topic_key ∧ topic_key ≠ "" ∧
        Websocket.topics self !! topic_key = Some topic ∧
        e = Dispatched topic payload.
Proof.
  cbn zeta. split; [apply (_handle_recv_frame json_loads)|].
  unfold Websocket._handle_recv.
  destruct (Websocket._ws self) as [sock|];
    [|exists []; split; [by rewrite app_nil_r|by intros ? ?%elem_of_nil]].
  destruct (_gather_recv (inbound p) []) as [messages|e] eqn:Hgather;
    [|exists []; split; [by rewrite app_nil_r|by intros ? ?%elem_of_nil]].
  apply _gather_recv_returned in Hgather. cbn [app] in Hgather. subst messages.
  destruct (process_messages_events (omap text_of (inbound p)) self
              (advance (elapsed p) w)) as (new & Hnew & Hfrom).
  exists new. split; [exact Hnew|].
  intros e He. destruct (Hfrom e He) as [->|(m & k & topic & payload & Hin & ? & ? & ? & ? & ?)].
  - by left.
  - right. apply list_elem_of_omap in Hin as (frame & Hframe & Htext).
    destruct frame as [data| | | | |]; try done.
    exists data, m, k, topic, payload. by split_and!.
Qed.

(** X4.  What a poll can do.  Receiving never sends a frame and never
    changes the topics, the submitted set or the socket of the connection.
    The only events it causes are the dispatch of a payload to the handler
    of a topic that is assigned at that time, under the non-empty key that a
    [MESSAGE] frame of the poll names, and a reconnect request: a message
    for a key that is not assigned, or was removed, reaches no handler. *)
Theorem messages_reach_assigned_topics_only (p : Poll) (self : Websocket.t) (w : World) :
  Forall (λ message, well_formed message = true) (omap text_of (inbound p)) →
  let st := (_handle_recv p (self, w)).1 in
  same_subscription self st.1 ∧
  ∃ new,
    trace st.2 = trace w ++ new ∧
    ∀ e, e ∈ new →
      e = ReconnectRequested (Websocket._idx self) ∨
      ∃ data message topic_key topic payload,
        TEXT data ∈ inbound p ∧
        json_loads data = Some message ∧
        has_type "MESSAGE" message = true ∧
        topic_key_of message = Some topic_key ∧ topic_key ≠ "" ∧
        Websocket.topics self !! topic_key = Some topic ∧
        e = Dispatched topic payload.
Proof. intros _. apply _handle_recv_events. Qed.

(** A poll without a closing frame and without a [RECONNECT] message
    requests no reconnect, also when it ends in an error. *)
Lemma _handle_recv_no_reconnect (p : Poll) (self : Websocket.t) (w : World) :
  Forall (λ frame, ends_session frame = false) (inbound p) →
  Forall (λ message, well_formed message = true ∧ has_type "RECONNECT" message = false)
         (omap text_of (inbound p)) →
  let st := (_handle_recv p (self, w)).1 in
  Websocket._reconnect_requested st.1 = Websocket._reconnect_requested self ∧
  reconnect_requests (trace st.2) = reconnect_requests (trace w) ∧
  ((_handle_recv p (self, w)).2 = Returned tt →
   Websocket.connected self = true ∧
   Forall (λ frame, decodes frame = true) (inbound p)).
Proof.
  intros Hopen Hformed. cbn zeta. unfold Websocket._handle_recv, Websocket.connected.
  destruct (Websocket._ws self) as [sock|]; [|done].
  destruct (_gather_recv_cases (inbound p) [] Hopen) as [Hgather|Hgather];
    rewrite Hgather; [|done].
  cbn [app].
  destruct (process_messages_no_reconnect (omap text_of (inbound p)) self
              (advance (elapsed p) w) Hformed) as (w' & -> & _ & Hreq).
  cbn [fst snd]. split_and!; [by destruct (existsb _ _)|done|].
  intros _. split; [done|].
  clear -Hgather Hopen. revert Hgather. generalize (@nil JsonType).
  induction (inbound p) as [|frame frames IH]; intros acc Hgather; [done|].
  apply Forall_cons in Hopen as [Hframe Hopen].
  destruct frame as [data| | | | |]; try done; cbn in *;
    try (constructor; [done|by eapply IH]).
  destruct (json_loads data) as [message|] eqn:Hdata; [|done].
  constructor; [cbn; rewrite Hdata; by apply bool_decide_eq_true_2|].
  eapply IH; [done|]. rewrite Hgather. by rewrite <-app_assoc.
Qed.

(** X5.  A connection whose [PING]s are answered is never reconnected by
    the heartbeat.  When the ack deadline of a connection is not before its
    heartbeat deadline and every poll delivers a [PONG], no closing frame
    and no [RECONNECT] message, the steady-state loop requests no reconnect,
    however long it runs and whatever the interval and the timeout are. *)
Theorem answered_pings_never_reconnect (polls : list Poll) :
  Forall (λ p,
            Forall (λ frame, ends_session frame = false) (inbound p) ∧
            Forall (λ message,
                      well_formed message = true ∧ has_type "RECONNECT" message = false)
                   (omap text_of (inbound p)) ∧
            Exists (λ message, has_type "PONG" message = true) (omap text_of (inbound p)))
         polls →
  ∀ self w,
    (Websocket._next_ping self ≤ Websocket._max_pong self)%Z →
    Websocket._reconnect_requested self = false →
    let st := (steady_state polls (self, w)).1 in
    Websocket._reconnect_requested st.1 = false ∧
    reconnect_requests (trace st.2) = reconnect_requests (trace w).
Proof.
  induction 1 as [|p rest (Hopen & Hformed & Hpong) _ IH]; intros self w Harmed Hflag.
  - simpl. by rewrite Hflag.
  - cbn zeta. simpl. rewrite Hflag. unfold mbind, M_bind, bind.
    destruct (_handle_ping_armed self w Harmed) as [Hreq1 Hflag1].
    destruct (_handle_ping (self, w)) as [[self1 w1] [[]|e]]; cbn [fst snd] in *;
      [|split; congruence].
    pose proof (_handle_topics_frame CHARS_ASCII pop_order self1 w1)
      as (_ & Hws & _ & Hfl & _).
    pose proof (_handle_topics_requests CHARS_ASCII pop_order self1 w1) as Hreq2.
    destruct (_handle_topics (self1, w1)) as [[self2 w2] [[]|e]]; cbn [fst snd] in *;
      [|split; congruence].
    destruct (_handle_recv_no_reconnect p self2 w2 Hopen Hformed) as (Hfl3 & Hreq3 & Hret).
    cbn zeta in Hfl3, Hreq3.
    destruct (_handle_recv p (self2, w2)) as [[self3 w3] [[]|e]] eqn:Hrecv;
      cbn [fst snd] in *; [|split; congruence].
    destruct (Hret eq_refl) as [Hconn Hjson].
    destruct (_handle_recv_pong p self2 w2 Hconn Hopen Hjson Hformed Hpong)
      as (_ & Hself & _ & _).
    rewrite Hrecv in Hself. cbn in Hself. subst self3.
    destruct (IH (Websocket.set_max_pong (Websocket._next_ping self2) self2) w3)
      as [IH1 IH2]; [simpl; lia|simpl; congruence|].
    cbn zeta in IH1, IH2. split; [done|]. congruence.
Qed.

Lemma untouched_refl self : untouched_by_the_loop self self.
Proof. done. Qed.

Lemma untouched_trans self1 self2 self3 :
  untouched_by_the_loop self1 self2 → untouched_by_the_loop self2 self3 →
  untouched_by_the_loop self1 self3.
Proof.
  intros (? & ? & ? & ? & ?) (? & ? & ? & ? & ?). split_and!; congruence.
Qed.

Lemma _handle_ping_untouched self w :
  untouched_by_the_loop self (_handle_ping (self, w)).1.1.
Proof.
  pose proof (_handle_ping_cases PING_INTERVAL PING_TIMEOUT CHARS_ASCII self w) as Hc.
  cbn zeta in Hc. destruct (_handle_ping (self, w)) as [[self' w'] r]; simpl.
  by destruct Hc as [(_ & -> & _)|[(_ & _ & -> & _)|(_ & _ & -> & _)]].
Qed.

Lemma _handle_topics_untouched self w :
  untouched_by_the_loop self (_handle_topics (self, w)).1.1.
Proof.
  pose proof (_handle_topics_outcome CHARS_ASCII pop_order self w) as Hc.
  destruct Hc as [Hch|w'' e Hch Hrem Htr|self1 w1 self2 w2 sock Hch H1 Hs1 H2
                 |self1 w1 w2 sock e Hch H1 Hs1 Hadd Htr]; try done.
  - subst self1. by destruct H2 as [(_ & _ & ->)|(_ & _ & _ & _ & ->)].
  - by subst self1.
Qed.

Lemma process_messages_untouched messages :
  ∀ self w, untouched_by_the_loop self (process_messages messages (self, w)).1.1.
Proof.
  induction messages as [|message rest IH]; intros self w; [done|].
  destruct (is_object message) eqn:Hobject;
    [|by rewrite process_messages_cons_raise].
  rewrite process_messages_cons by done.
  destruct (has_type "MESSAGE" message).
  { unfold mbind, M_bind, bind.
    destruct (_handle_message_self json_loads message self w) as (w1 & outcome & -> & _).
    destruct outcome; [apply IH|done]. }
  destruct (has_type "PONG" message).
  { unfold mbind, M_bind, bind, modify.
    apply (untouched_trans _ (Websocket.set_max_pong (Websocket._next_ping self) self));
      [done|apply IH]. }
  destruct (_ && _); [done|apply IH].
Qed.

Lemma _handle_recv_untouched p self w :
  untouched_by_the_loop self (_handle_recv p (self, w)).1.1.
Proof.
  unfold Websocket._handle_recv.
  destruct (Websocket._ws self); [|done].
  destruct (_gather_recv _ _); [|done].
  apply process_messages_untouched.
Qed.

Lemma steady_state_untouched polls :
  ∀ self w, untouched_by_the_loop self (steady_state polls (self, w)).1.1.
Proof.
  induction polls as [|p rest IH]; intros self w; simpl.
  - by destruct (Websocket._reconnect_requested self).
  - destruct (Websocket._reconnect_requested self); [done|].
    unfold mbind, M_bind, bind.
    pose proof (_handle_ping_untouched self w) as H1.
    destruct (_handle_ping (self, w)) as [[self1 w1] [[]|e]]; [|done].
    pose proof (_handle_topics_untouched self1 w1) as H2.
    destruct (_handle_topics (self1, w1)) as [[self2 w2] [[]|e]];
      [|by apply (untouched_trans _ self1)].
    pose proof (_handle_recv_untouched p self2 w2) as H3.
    destruct (_handle_recv p (self2, w2)) as [[self3 w3] [[]|e]]; cbn [fst snd] in *.
    + apply (untouched_trans _ self3); [|apply IH].
      apply (untouched_trans _ self2); [|done]. by apply (untouched_trans _ self1).
    + apply (untouched_trans _ self2); [|done]. by apply (untouched_trans _ self1).
Qed.

(** X9.  How a socket generation ends.  While the scripted polls last and
    nothing ends the loop, the connection stays connected to its socket.
    Otherwise the [finally] block has run, whatever ended the loop: the
    connection has no socket, nothing is submitted and the topics are marked
    changed for the next socket.  The lifecycle task exits only when the
    loop was ended by [WebsocketClosed] with [received=False] while the
    connection was closed by [stop]; in every other case, also after a
    [CLOSE] frame from the server that arrives while the connection is being
    stopped, it goes on to reconnect.  The topics are the same throughout. *)
Theorem generation_outcomes (websocket : Socket) (polls : list Poll)
    (self : Websocket.t) (w : World) :
  let connected :=
    Websocket.set_reconnect_requested false (Websocket.set_ws (Some websocket) self) in
  let loop := steady_state polls (connected, w) in
  let after :=
    Websocket.generation PING_INTERVAL PING_TIMEOUT CHARS_ASCII pop_order json_loads
                         websocket polls (self, w) in
  Websocket.topics after.1.1 = Websocket.topics self ∧
  Websocket._closed after.1.1 = Websocket._closed self ∧
  (after.2 = Websocket.StillConnected ↔ loop.2 = Returned Websocket.LoopPending) ∧
  (after.2 = Websocket.StillConnected →
   after.1 = loop.1 ∧ Websocket._ws after.1.1 = Some websocket) ∧
  (after.2 ≠ Websocket.StillConnected →
   torn_down after.1.1 ∧ after.1.2 = loop.1.2) ∧
  (after.2 = Websocket.Exit ↔
   loop.2 = Raised (WebsocketClosed false) ∧ Websocket._closed self = true).
Proof.
  cbn zeta. unfold Websocket.generation.
  pose proof (steady_state_untouched polls
                (Websocket.set_reconnect_requested false
                   (Websocket.set_ws (Some websocket) self)) w)
    as (Htopics & Hws & Hclosed & _).
  destruct (steady_state polls _) as [[self' w'] r]; cbn [fst snd] in *.
  destruct r as [[]|e]; cbn [fst snd].
  - split_and!; try done; naive_solver.
  - split_and!; try done; naive_solver.
  - destruct e as [| | | | | | | |received]; cbn [fst snd];
      try (split_and!; try done; naive_solver).
    destruct received; cbn [fst snd].
    + split_and!; try done; naive_solver.
    + change (Websocket._closed (Websocket.teardown self'))
        with (Websocket._closed self').
      rewrite Hclosed. cbn.
      destruct (Websocket._closed self) eqn:Hc; cbn [fst snd];
        split_and!; try done; naive_solver.
Qed.

Lemma send_ping self w sock :
  Websocket._ws self = Some sock →
  transport_up w = true →
  Websocket.send CHARS_ASCII (JObject [("type", JString "PING")]) (self, w) =
  ((self, emit (Sent sock (JObject [("type", JString "PING")])) w), Returned tt).
Proof.
  intros Hsock Hup. unfold Websocket.send. rewrite Hsock.
  change (json_get "type" (JObject [("type", JString "PING")]))
    with (Some (JString "PING")).
  cbn [json_is]. rewrite bool_decide_eq_true_2 by done. cbn [negb]. by rewrite Hup.
Qed.

Lemma _handle_ping_extends self w :
  ∃ new, trace (_handle_ping (self, w)).1.2 = trace w ++ new.
Proof.
  pose proof (_handle_ping_cases PING_INTERVAL PING_TIMEOUT CHARS_ASCII self w) as Hc.
  cbn zeta in Hc. destruct (_handle_ping (self, w)) as [[self1 w1] r1]. cbn [fst snd].
  destruct Hc as [(_ & _ & [(sock & _ & _ & ->)|(e & _ & ->)])
                 |[(_ & _ & _ & -> & _)|(_ & _ & _ & -> & _)]].
  - by eexists [_].
  - exists []. by rewrite app_nil_r.
  - by eexists [_].
  - exists []. by rewrite app_nil_r.
Qed.

Lemma _handle_topics_extends self w :
  ∃ new, trace (_handle_topics (self, w)).1.2 = trace w ++ new.
Proof.
  pose proof (_handle_topics_outcome CHARS_ASCII pop_order self w) as Hc.
  assert (∀ sock w1,
            (sync_removed self = ∅ ∧ w1 = w ∨
             sync_removed self ≠ ∅ ∧ Websocket._ws self = Some sock ∧ transport_up w = true ∧
             w1 = emit (Sent sock (with_nonce CHARS_ASCII w
                                     (unlisten_message pop_order self w)))
                       (create_nonce CHARS_ASCII 30 w).2) →
            ∃ new, trace w1 = trace w ++ new) as Hfirst.
  { intros sock w1 [[_ ->]|(_ & _ & _ & ->)].
    - exists []. by rewrite app_nil_r.
    - by eexists [_]. }
  destruct Hc as [Hch|w'' e Hch Hrem Htr|self1 w1 self2 w2 sock Hch H1 Hs1 H2
                 |self1 w1 w2 sock e Hch H1 Hs1 Hadd Htr]; cbn [fst snd].
  - exists []. by rewrite app_nil_r.
  - exists []. by rewrite app_nil_r.
  - destruct (Hfirst _ _ H1) as [new1 Hnew1].
    destruct H2 as [(_ & -> & _)|(_ & _ & _ & -> & _)]; [by exists new1|].
    exists (new1 ++ [Sent sock (with_nonce CHARS_ASCII w1 (listen_message pop_order self w))]).
    change (trace (emit ?e ?x)) with (trace x ++ [e]).
    change (trace (create_nonce CHARS_ASCII 30 w1).2) with (trace w1).
    by rewrite Hnew1, app_assoc.
  - destruct (Hfirst _ _ H1) as [new1 Hnew1]. exists new1. by rewrite Htr.
Qed.

Lemma steady_state_extends polls :
  ∀ self w, ∃ new, trace (steady_state polls (self, w)).1.2 = trace w ++ new.
Proof.
  induction polls as [|p rest IH]; intros self w; simpl.
  - destruct (Websocket._reconnect_requested self); exists []; by rewrite app_nil_r.
  - destruct (Websocket._reconnect_requested self); [exists []; by rewrite app_nil_r|].
    unfold mbind, M_bind, bind.
    destruct (_handle_ping_extends self w) as [new1 H1].
    destruct (_handle_ping (self, w)) as [[self1 w1] [[]|e]]; cbn [fst snd] in *;
      [|by exists new1].
    destruct (_handle_topics_extends self1 w1) as [new2 H2].
    destruct (_handle_topics (self1, w1)) as [[self2 w2] [[]|e]]; cbn [fst snd] in *;
      [|exists (new1 ++ new2); by rewrite H2, H1, app_assoc].
    destruct (_handle_recv_events p self2 w2) as (_ & new3 & H3 & _).
    destruct (_handle_recv p (self2, w2)) as [[self3 w3] [[]|e]]; cbn [fst snd] in *.
    + destruct (IH self3 w3) as [new4 H4].
      exists (new1 ++ new2 ++ new3 ++ new4).
      rewrite H4, H3, H2, H1. by rewrite <-!app_assoc.
    + exists (new1 ++ new2 ++ new3). rewrite H3, H2, H1. by rewrite <-!app_assoc.
Qed.

(** X15.  A socket generation that finds the heartbeat due starts with a
    [PING].  When the heartbeat deadline of the connection has passed at the
    time a socket is attached and the link works, the first frame written to
    the socket is [{"type": "PING"}], before any subscription message.  That
    is the case on the first socket of a connection, whose heartbeat
    deadline is the time of its creation, and on the socket that follows a
    call of [request_reconnect], which sets the heartbeat deadline to the
    time of the call. *)
Theorem socket_generation_starts_with_a_ping (websocket : Socket) (p : Poll)
    (polls : list Poll) (later : World) :
  transport_up later = true →
  let first_frame self :=
    ∃ rest,
      trace (Websocket.generation PING_INTERVAL PING_TIMEOUT CHARS_ASCII pop_order
               json_loads websocket (p :: polls) (self, later)).1.2 =
      trace later ++ Sent websocket (JObject [("type", JString "PING")]) :: rest in
  (∀ self, (Websocket._next_ping self ≤ clock later)%Z → first_frame self) ∧
  (∀ index now, (now ≤ clock later)%Z →
                first_frame (Websocket.__init__ PING_TIMEOUT index now)) ∧
  (∀ self w, (clock w ≤ clock later)%Z →
             first_frame (Websocket.teardown (Websocket.request_reconnect (self, w)).1.1)).
Proof.
  intros Hup first_frame.
  assert (∀ self, (Websocket._next_ping self ≤ clock later)%Z → first_frame self) as Hany.
  { intros self Hdue. unfold first_frame, Websocket.generation.
    set (self0 := Websocket.set_reconnect_requested false
                    (Websocket.set_ws (Some websocket) self)).
    assert (∃ rest,
              trace (steady_state (p :: polls) (self0, later)).1.2 =
              trace later ++ Sent websocket (JObject [("type", JString "PING")]) :: rest)
      as [rest Hrest].
    { simpl. unfold mbind, M_bind, bind.
      unfold Websocket._handle_ping at 1. rewrite decide_True by done.
      rewrite (send_ping _ _ websocket) by done.
      set (self1 := Websocket.set_max_pong _ _).
      set (w1 := emit _ later).
      destruct (_handle_topics_extends self1 w1) as [new2 H2].
      destruct (_handle_topics (self1, w1)) as [[self2 w2] [[]|e]]; cbn [fst snd] in *;
        [|exists new2; rewrite H2; unfold w1;
          change (trace (emit ?e ?x)) with (trace x ++ [e]); by rewrite <-app_assoc].
      destruct (_handle_recv_events p self2 w2) as (_ & new3 & H3 & _).
      destruct (_handle_recv p (self2, w2)) as [[self3 w3] [[]|e]]; cbn [fst snd] in *.
      - destruct (steady_state_extends polls self3 w3) as [new4 H4].
        exists (new2 ++ new3 ++ new4). rewrite H4, H3, H2.
        unfold w1. change (trace (emit ?e ?x)) with (trace x ++ [e]).
        by rewrite <-!app_assoc.
      - exists (new2 ++ new3). rewrite H3, H2.
        unfold w1. change (trace (emit ?e ?x)) with (trace x ++ [e]).
        by rewrite <-!app_assoc. }
    exists rest. rewrite <-Hrest.
    destruct (steady_state (p :: polls) (self0, later)) as [[self' w'] r].
    by repeat case_match. }
  split_and!; [done| |].
  - intros index now Hnow. by apply Hany.
  - intros self w Hclock. by apply Hany.
Qed.

End Receiving.

Section Syncing.

Variable CHARS_ASCII : string.
Variable pop_order : gset WebsocketTopic → list WebsocketTopic.

Local Abbreviation _handle_topics := (Websocket._handle_topics CHARS_ASCII pop_order).

(** X6.  A sync settles the subscription.  Without the changed flag
    [_handle_topics] does nothing, whatever the two sets are.  With the flag
    set, a sync that returns leaves the submitted set equal to the topics
    assigned, keeps the topics and clears the flag, so that a second sync
    right after it does nothing. *)
Theorem sync_settles (self : Websocket.t) (w : World) :
  (Websocket._topics_changed self = false →
   _handle_topics (self, w) = ((self, w), Returned tt)) ∧
  (Websocket._topics_changed self = true →
   (_handle_topics (self, w)).2 = Returned tt →
   let self' := (_handle_topics (self, w)).1.1 in
   Websocket._submitted self' = Websocket.current_topics self ∧
   Websocket.topics self' = Websocket.topics self ∧
   Websocket._topics_changed self' = false ∧
   ∀ w', _handle_topics (self', w') = ((self', w'), Returned tt)).
Proof.
  assert (∀ self0 w0, Websocket._topics_changed self0 = false →
                      _handle_topics (self0, w0) = ((self0, w0), Returned tt)) as Hidle.
  { intros self0 w0 Hflag. rewrite _handle_topics_unfold. by rewrite Hflag. }
  split; [apply Hidle|].
  intros Hflag Hret. cbn zeta.
  assert (∀ st r,
            sync_outcome CHARS_ASCII pop_order self w st r → r = Returned tt →
            Websocket._submitted st.1 = Websocket.current_topics self ∧
            Websocket.topics st.1 = Websocket.topics self ∧
            Websocket._topics_changed st.1 = false) as Hgen.
  { intros st r Hc Hr.
    destruct Hc as [Hch|w'' e Hch Hrem Htr|self1 w1 self2 w2 sock Hch H1 Hs1 H2
                   |self1 w1 w2 sock e Hch H1 Hs1 Hadd Htr]; try congruence.
    subst self1.
    destruct H2 as [(Hadd & _ & ->)|(Hadd & _ & _ & _ & ->)]; cbn.
    - split; [|done]. unfold sync_added, sync_removed in *.
      revert Hadd. generalize (Websocket.current_topics self) (Websocket._submitted self).
      clear. intros current submitted Hadd. apply set_eq. intros t.
      destruct (decide (t ∈ submitted)), (decide (t ∈ current)); set_solver.
    - split; [|done]. unfold sync_added, sync_removed in *.
      generalize (Websocket.current_topics self) (Websocket._submitted self).
      clear. intros current submitted. apply set_eq. intros t.
      destruct (decide (t ∈ submitted)), (decide (t ∈ current)); set_solver. }
  destruct (Hgen _ _ (_handle_topics_outcome CHARS_ASCII pop_order self w) Hret)
    as (Hsub & Htopics & Hflag').
  split_and!; [done..|]. intros w0. by apply Hidle.
Qed.

End Syncing.

Section Stopping.

(** X7.  [stop] is final.  A connection that [stop] has closed is not
    touched by a second [stop]: not even its topics are cleared when the
    second call asks for it and the first did not.  The first [stop] of a
    connection that is not closed closes it, leaves it without a lifecycle
    task and, if it had one, without a socket, and with nothing submitted
    if it had a socket; it clears the topics and marks them changed when
    [remove] is given and keeps the topics otherwise. *)
Theorem stop_is_final (remove remove' : bool) (self : Websocket.t) :
  let stopped := Websocket.stop remove self in
  Websocket.stop remove' stopped = stopped ∧
  (Websocket._closed self = true → stopped = self) ∧
  (Websocket._closed self = false →
   Websocket._closed stopped = true ∧
   Websocket._handle_task stopped = None ∧
   (is_Some (Websocket._handle_task self) →
    Websocket._ws stopped = None ∧
    Websocket._submitted stopped =
      (if Websocket.connected self then ∅ else Websocket._submitted self)) ∧
   (Websocket._handle_task self = None →
    Websocket._ws stopped = Websocket._ws self ∧
    Websocket._submitted stopped = Websocket._submitted self) ∧
   Websocket.topics stopped = (if remove then ∅ else Websocket.topics self) ∧
   (remove = true → Websocket._topics_changed stopped = true)).
Proof.
  cbn zeta. destruct self as [idx ws closed requested changed next_ping max_pong task tp sub].
  unfold Websocket.stop, Websocket.connected, Websocket.teardown.
  destruct closed; cbn; [by split_and!|].
  split; [by destruct task, ws, remove|].
  split; [done|]. intros _.
  destruct task as [task|], ws as [sock|], remove; cbn;
    repeat split; try done; try (by intros [? ?]).
Qed.

End Stopping.

Section Filling.

Variable WS_TOPICS_LIMIT : nat.
Variable pop_order : gset WebsocketTopic → list WebsocketTopic.
Hypothesis pop_order_perm : ∀ s, pop_order s ≡ₚ elements s.

Local Abbreviation ws_add := (Websocket.add_topics WS_TOPICS_LIMIT pop_order).

Lemma list_to_set_pop_order (s : gset WebsocketTopic) : list_to_set (pop_order s) = s.
Proof.
  apply set_eq. intros t. rewrite elem_of_list_to_set, pop_order_perm.
  apply elem_of_elements.
Qed.

(** X8.  A connection takes what fits.  Given topics whose keys it does not
    hold yet, [add_topics] of a connection within its limit takes as many of
    them as it has room for and leaves the others in the caller's set: the
    connection ends with [min(limit, held + given)] topics, none of the
    topics it held is replaced, and every topic given is either held
    afterwards or left over, never both.  A connection that is full, or an
    empty set, changes nothing: not even the changed flag. *)
Theorem add_topics_takes_what_fits (topics_set : gset WebsocketTopic)
    (self : Websocket.t) :
  keys_of topics_set ## dom (Websocket.topics self) →
  size (Websocket.topics self) ≤ WS_TOPICS_LIMIT →
  let left_over := (ws_add topics_set self).1 in
  let self' := (ws_add topics_set self).2 in
  size (Websocket.topics self') =
    WS_TOPICS_LIMIT `min` (size (Websocket.topics self) + size topics_set) ∧
  size left_over =
    size topics_set - (WS_TOPICS_LIMIT - size (Websocket.topics self)) ∧
  left_over ⊆ topics_set ∧
  Websocket.topics self ⊆ Websocket.topics self' ∧
  dom (Websocket.topics self') =
    dom (Websocket.topics self) ∪ keys_of (topics_set ∖ left_over) ∧
  (size (Websocket.topics self) = WS_TOPICS_LIMIT ∨ topics_set = ∅ →
   ws_add topics_set self = (topics_set, self)).
Proof.
  intros Hfresh Hroom. cbn zeta.
  destruct (add_topics_spec WS_TOPICS_LIMIT pop_order pop_order_perm topics_set self Hfresh)
    as (placed & Hsplit & Hdisj & Hdom & Hsub & Hsize & Hend & Hcap & _).
  specialize (Hcap Hroom).
  assert (size topics_set = size placed + size (ws_add topics_set self).1) as Hcount.
  { rewrite Hsplit at 1. by apply size_union. }
  assert (topics_set ∖ (ws_add topics_set self).1 = placed) as Hplaced.
  { rewrite Hsplit at 1. clear -Hdisj. set_solver. }
  split_and!.
  - destruct Hend as [Hnone|Hfull].
    + rewrite Hnone, size_empty in Hcount. lia.
    + lia.
  - destruct Hend as [Hnone|Hfull].
    + rewrite Hnone, size_empty in Hcount |- *. lia.
    + lia.
  - rewrite Hsplit at 2. clear. set_solver.
  - done.
  - by rewrite Hplaced.
  - intros Hnothing. unfold Websocket.add_topics.
    assert (Websocket.add_topics_loop WS_TOPICS_LIMIT (pop_order topics_set)
              (Websocket.topics self) false =
            (pop_order topics_set, Websocket.topics self, false)) as ->.
    { destruct Hnothing as [Hfull| ->].
      - destruct (pop_order topics_set) as [|t rest]; [done|].
        cbn. rewrite decide_False by lia. done.
      - assert (pop_order ∅ = []) as ->; [|done].
        apply Permutation_nil_r. rewrite pop_order_perm. by rewrite elements_empty. }
    by rewrite list_to_set_pop_order.
Qed.

End Filling.

Section Resubscription.

Variable PING_INTERVAL : Z.
Variable PING_TIMEOUT : Z.
Variable WS_TOPICS_LIMIT : nat.
Variable CHARS_ASCII : string.
Variable pop_order : gset WebsocketTopic → list WebsocketTopic.
Variable json_loads : string → option JsonType.
Hypothesis pop_order_perm : ∀ s, pop_order s ≡ₚ elements s.

Local Abbreviation _handle_ping :=
  (Websocket._handle_ping PING_INTERVAL PING_TIMEOUT CHARS_ASCII).
Local Abbreviation _handle_topics := (Websocket._handle_topics CHARS_ASCII pop_order).
Local Abbreviation _handle_recv := (Websocket._handle_recv json_loads).
Local Abbreviation steady_state :=
  (Websocket.steady_state PING_INTERVAL PING_TIMEOUT CHARS_ASCII pop_order json_loads).
Local Abbreviation generation :=
  (Websocket.generation PING_INTERVAL PING_TIMEOUT CHARS_ASCII pop_order json_loads).
Local Abbreviation lifecycle :=
  (lifecycle PING_INTERVAL PING_TIMEOUT WS_TOPICS_LIMIT CHARS_ASCII pop_order json_loads).






End Resubscription.

(** * Further properties of the pool *)

Section PoolLimits.

Variable MAX_WEBSOCKETS : nat.
Variable WS_TOPICS_LIMIT : nat.
Variable PING_TIMEOUT : Z.
Variable pop_order : gset WebsocketTopic → list WebsocketTopic.
Hypothesis pop_order_perm : ∀ s, pop_order s ≡ₚ elements s.

Local Abbreviation pool_add :=
  (WebsocketPool.add_topics MAX_WEBSOCKETS WS_TOPICS_LIMIT PING_TIMEOUT pop_order).
Local Abbreviation pool_inv := (pool_inv MAX_WEBSOCKETS WS_TOPICS_LIMIT).
Local Abbreviation pool_step :=
  (pool_step MAX_WEBSOCKETS WS_TOPICS_LIMIT PING_TIMEOUT pop_order).
Local Abbreviation pool_reachable :=
  (pool_reachable MAX_WEBSOCKETS WS_TOPICS_LIMIT PING_TIMEOUT pop_order).

(** X10.  The limits are kept.  In every state the pool reaches there are
    at most [MAX_WEBSOCKETS] connections and none holds more than
    [WS_TOPICS_LIMIT] topics, so the pool never holds more than
    [MAX_WEBSOCKETS * WS_TOPICS_LIMIT] topics; and the topics counted over
    the connections are as many as the keys assigned, none being counted
    twice. *)
Theorem pool_limits_are_kept (l : Loop) :
  pool_reachable l →
  length (WebsocketPool.websockets (pool l)) ≤ MAX_WEBSOCKETS ∧
  Forall (λ ws, size (Websocket.topics ws) ≤ WS_TOPICS_LIMIT)
         (WebsocketPool.websockets (pool l)) ∧
  WebsocketPool.total_topics (WebsocketPool.websockets (pool l)) ≤
    MAX_WEBSOCKETS * WS_TOPICS_LIMIT ∧
  WebsocketPool.total_topics (WebsocketPool.websockets (pool l)) =
    size (assigned_keys (WebsocketPool.websockets (pool l))).
Proof.
  intros Hreach.
  destruct (pool_reachable_inv _ _ _ _ pop_order_perm l Hreach) as [_ Hcap Huniq Hbound].
  split_and!; [done..| |].
  - etransitivity; [by apply total_topics_capacity|]. by apply Nat.mul_le_mono_r.
  - apply total_topics_assigned. exact (proj2 (disjoint_keys_count _) Huniq).
Qed.

Lemma _optimize_pool_count self :
  ∃ evicted,
    WebsocketPool.websockets self ≡ₚ
      evicted ++ WebsocketPool.websockets (WebsocketPool._optimize_pool WS_TOPICS_LIMIT self).1 ∧
    WebsocketPool._connection_count (WebsocketPool._optimize_pool WS_TOPICS_LIMIT self).1 =
      WebsocketPool._connection_count self - length evicted.
Proof.
  unfold WebsocketPool._optimize_pool.
  repeat case_decide; try (exists []; split; [done|simpl; lia]).
  pose proof (evict_spec
                (WebsocketPool.sorted (WebsocketPool.websockets self)
                                      (λ ws, size (Websocket.topics ws)))
                ((WebsocketPool.total_topics (WebsocketPool.websockets self) +
                  WS_TOPICS_LIMIT - 1) / WS_TOPICS_LIMIT) self [] []) as Hev.
  cbn zeta in Hev.
  destruct (WebsocketPool.evict _ _ self [] []) as [[self' recycled'] spawned'].
  destruct Hev as (Hp & _ & _ & _ & _ & Hcount); [apply Permutation_submseteq, sorted_perm|].
  eexists. by case_decide.
Qed.

Lemma remove_each_length wss :
  ∀ topics_set, length (WebsocketPool.remove_each wss topics_set) = length wss.
Proof.
  intros topics_set. symmetry. eapply Forall2_length, remove_each_spec.
Qed.

Lemma pool_step_count l l' :
  pool_step l l' →
  pool_inv (pool l) →
  WebsocketPool.connection_count (pool l) ≤ length (WebsocketPool.websockets (pool l)) →
  WebsocketPool.connection_count (pool l') ≤ length (WebsocketPool.websockets (pool l')) ∧
  (WebsocketPool.connection_count (pool l) = length (WebsocketPool.websockets (pool l)) →
   WebsocketPool.connection_count (pool l') = length (WebsocketPool.websockets (pool l')) ∨
   ∃ clear_topics, pool l' = WebsocketPool.stop clear_topics (pool l)).
Proof.
  intros Hstep Hinv Hle. unfold WebsocketPool.connection_count in *.
  assert (∀ now topics,
            ∃ n, length (WebsocketPool.websockets (pool_add now topics (pool l)).1) =
                   length (WebsocketPool.websockets (pool l)) + n ∧
                 WebsocketPool._connection_count (pool_add now topics (pool l)).1 =
                   WebsocketPool._connection_count (pool l) + n) as Hadd.
  { intros now topics. destruct Hinv as [Hcoh _ Huniq _].
    destruct (pool_add_topics_spec WS_TOPICS_LIMIT pop_order pop_order_perm PING_TIMEOUT
                MAX_WEBSOCKETS now topics (pool l) Hcoh
                (proj2 (disjoint_keys_count _) Huniq))
      as (placed & rest & wss' & news & Hwss & _ & Hcount & Hgrown & _).
    exists (length news). rewrite Hwss, length_app, Hcount.
    apply Forall2_length in Hgrown. lia. }
  destruct Hstep as [l now topics|l topics|l now before topics after _|l sockets
                    |l clear_topics
                    |l wss' Hsame]; cbn [pool].
  - destruct (Hadd now topics) as (n & -> & ->). split; [lia|]. intros ?. left. lia.
  - unfold WebsocketPool.remove_topics. case_decide; [split; [done|by left]|].
    set (self1 := WebsocketPool.mk _ _ _).
    destruct (_optimize_pool_count self1) as (evicted & Hperm & ->).
    apply Permutation_length in Hperm. rewrite length_app in Hperm.
    cbn in Hperm. rewrite remove_each_length in Hperm. cbn.
    split; [lia|]. intros ?. left. lia.
  - destruct (Hadd now topics) as (n & -> & ->). split; [lia|]. intros ?. left. lia.
  - cbn. rewrite length_imap. split; [done|by left].
  - cbn. split; [lia|]. intros _. right. by exists clear_topics.
  - cbn. apply Forall2_length in Hsame. rewrite <-Hsame. split; [done|by left].
Qed.

(** X11.  The connection counter follows the list until the pool is
    stopped.  In every state the pool reaches, [connection_count] is at most
    the number of connections in the list.  Every step other than [stop]
    that starts with the two equal ends with the two equal: [add_topics]
    counts each connection it appends and consolidation each connection it
    detaches.  [stop] sets the counter to zero and keeps the connections,
    and [start] does not count them again. *)
Theorem connection_count_follows_the_list (l : Loop) :
  pool_reachable l →
  WebsocketPool.connection_count (pool l) ≤ length (WebsocketPool.websockets (pool l)) ∧
  (∀ l',
     pool_step l l' →
     WebsocketPool.connection_count (pool l) = length (WebsocketPool.websockets (pool l)) →
     WebsocketPool.connection_count (pool l') =
       length (WebsocketPool.websockets (pool l')) ∨
     ∃ clear_topics, pool l' = WebsocketPool.stop clear_topics (pool l)) ∧
  (∀ clear_topics sockets,
     let restarted :=
       WebsocketPool.start sockets (WebsocketPool.stop clear_topics (pool l)) in
     WebsocketPool.connection_count restarted = 0 ∧
     length (WebsocketPool.websockets restarted) =
       length (WebsocketPool.websockets (pool l))).
Proof.
  intros Hreach.
  assert (WebsocketPool.connection_count (pool l) ≤
          length (WebsocketPool.websockets (pool l))) as Hle.
  { assert (∀ l0 l1, rtc pool_step l0 l1 →
                     pool_inv (pool l0) →
                     WebsocketPool.connection_count (pool l0) ≤
                       length (WebsocketPool.websockets (pool l0)) →
                     WebsocketPool.connection_count (pool l1) ≤
                       length (WebsocketPool.websockets (pool l1))) as Hind.
    { induction 1 as [|l0 l1 l2 Hstep _ IH]; [done|]. intros Hinv0 Hle0.
      apply IH.
      - by apply (pool_step_inv MAX_WEBSOCKETS WS_TOPICS_LIMIT PING_TIMEOUT pop_order
                     pop_order_perm l0).
      - by apply (pool_step_count l0). }
    apply (Hind _ _ Hreach); [apply init_pool_inv|done]. }
  split_and!; [done| |].
  - intros l' Hstep.
    apply (pool_step_count l l' Hstep); [|done].
    by apply (pool_reachable_inv MAX_WEBSOCKETS WS_TOPICS_LIMIT PING_TIMEOUT pop_order
                pop_order_perm).
  - intros clear_topics sockets. cbn. by rewrite length_imap, length_fmap.
Qed.

(** X12.  Adding what is assigned changes nothing.  [add_topics] with topics
    whose keys are all assigned already returns at once and leaves the pool
    as it is: no connection is created or marked changed.  So a call of
    [add_topics] that returned can be repeated with the same topics, at any
    later time, without effect. *)
Theorem add_topics_again_changes_nothing (now now' : Z) (topics : list WebsocketTopic)
    (self : WebsocketPool.t) :
  pool_inv self →
  ((∀ t, t ∈ topics → str t ∈ assigned_keys (WebsocketPool.websockets self)) →
   pool_add now topics self = (self, Returned tt)) ∧
  ((pool_add now topics self).2 = Returned tt →
   pool_add now' topics (pool_add now topics self).1 =
     ((pool_add now topics self).1, Returned tt)).
Proof.
  assert (∀ at_time pool0,
            pool_inv pool0 →
            (∀ t, t ∈ topics → str t ∈ assigned_keys (WebsocketPool.websockets pool0)) →
            pool_add at_time topics pool0 = (pool0, Returned tt)) as Hheld.
  { intros at_time pool0 [Hcoh _ _ _] Hall. unfold WebsocketPool.add_topics.
    case_decide; [done|]. rewrite decide_True; [done|].
    apply set_eq. intros t. split; [|by intros ?%not_elem_of_empty].
    intros [Hin Hnot]%elem_of_difference. exfalso. apply Hnot.
    apply existing_topics_keys; [done|]. apply Hall. by apply elem_of_list_to_set in Hin. }
  intros Hinv. split; [by apply Hheld|].
  intros Hret. apply Hheld.
  - by apply pool_add_inv.
  - intros t Hin. apply elem_of_assigned_keys.
    rewrite (add_topics_returned MAX_WEBSOCKETS WS_TOPICS_LIMIT PING_TIMEOUT pop_order
               pop_order_perm now topics self Hinv Hret t Hin). lia.
Qed.

(** X13.  [remove_topics] loses nothing it was not asked to remove.  After
    [remove_topics], before the follow-up task runs, every key that was
    assigned and is not among those removed is either still assigned in the
    pool or among the topics handed to the [add_topics] task, and never
    both; no other key is; there is at most one such task; the connections
    left in the pool are connections it had, with topics taken away only;
    and the result keeps the invariant of the pool. *)
Theorem remove_topics_loses_nothing (topics : list string) (self : WebsocketPool.t) :
  pool_inv self →
  0 < WS_TOPICS_LIMIT →
  let out := WebsocketPool.remove_topics WS_TOPICS_LIMIT topics self in
  let recycled := concat (add_tasks out.2) in
  (∃ spawned, out.2 = Returned spawned) ∧
  assigned_keys (WebsocketPool.websockets out.1) ∪ keys_of (list_to_set recycled) =
    assigned_keys (WebsocketPool.websockets self) ∖ list_to_set topics ∧
  assigned_keys (WebsocketPool.websockets out.1) ## keys_of (list_to_set recycled) ∧
  length (add_tasks out.2) ≤ 1 ∧
  (∀ ws', ws' ∈ WebsocketPool.websockets out.1 →
          ∃ ws, ws ∈ WebsocketPool.websockets self ∧ shrunk ws ws') ∧
  pool_inv out.1.
Proof.
  intros Hinv Hpos. cbn zeta.
  pose proof (pool_remove_inv MAX_WEBSOCKETS WS_TOPICS_LIMIT topics self Hinv) as Hinv'.
  revert Hinv'. unfold WebsocketPool.remove_topics.
  destruct (decide ((list_to_set topics : gset string) = ∅)) as [Hempty|Hne];
    cbn [fst snd]; intros Hinv'.
  { rewrite Hempty. cbn. rewrite keys_of_empty.
    split_and!; [by eexists|clear; set_solver|clear; set_solver|lia| |done].
    intros ws' Hin. exists ws'. by split. }
  set (removed := WebsocketPool.remove_each (WebsocketPool.websockets self)
                                            (list_to_set topics)) in *.
  set (self1 := WebsocketPool.mk (WebsocketPool._running self) removed
                                 (WebsocketPool._connection_count self)) in *.
  destruct (remove_each_spec (WebsocketPool.websockets self) (list_to_set topics))
    as [Hshrunk Hassigned]; fold removed in Hshrunk, Hassigned.
  destruct Hinv as [Hcoh Hcap Huniq Hbound].
  assert (disjoint_keys (WebsocketPool.websockets self)) as Hdk
    by exact (proj2 (disjoint_keys_count _) Huniq).
  specialize (Hassigned Hdk).
  assert (pool_inv self1) as [Hcoh1 Hcap1 Huniq1 Hbound1]
    by (by apply (shrunk_pool_inv _ _ _ self)).
  assert (disjoint_keys removed) as Hdk1
    by exact (proj2 (disjoint_keys_count _) Huniq1).
  assert (∀ ws', ws' ∈ removed →
                 ∃ ws, ws ∈ WebsocketPool.websockets self ∧ shrunk ws ws') as Hfrom.
  { intros ws' Hin.
    destruct (proj1 (list_elem_of_lookup _ _) Hin) as [i Hi].
    destruct (Forall2_lookup_r _ _ _ _ _ Hshrunk Hi) as (ws & Hlook & Hs).
    exists ws. split; [|done]. by eapply list_elem_of_lookup_2. }
  destruct (decide (length removed < 2)) as [Hfew|Hmany].
  { revert Hinv'. unfold WebsocketPool._optimize_pool.
    rewrite decide_True by done. cbn. intros Hinv'. rewrite keys_of_empty.
    fold (assigned_keys removed).
    split_and!; [by eexists| |clear; set_solver|lia|done|done].
    rewrite Hassigned. clear. set_solver. }
  assert (2 ≤ length (WebsocketPool.websockets self1)) as Hlen by (cbn; lia).
  pose proof (_optimize_pool_spec WS_TOPICS_LIMIT self1 Hpos Hlen Hcap1)
    as (Hperm & _ & _ & _ & _ & Hres).
  cbn [WebsocketPool.websockets self1] in Hperm, Hres.
  set (evicted := take _ _) in *.
  set (survivors :=
         WebsocketPool.websockets (WebsocketPool._optimize_pool WS_TOPICS_LIMIT self1).1)
    in *.
  assert (Forall key_coherent evicted) as Hcohe.
  { apply Forall_forall. intros ws Hin.
    apply (proj1 (Forall_forall _ _) Hcoh1). cbn. rewrite Hperm.
    apply elem_of_app. by left. }
  pose proof (recycled_keys evicted Hcohe) as Hkeys.
  pose proof (disjoint_keys_perm _ _ Hperm Hdk1) as Hdk2.
  apply disjoint_keys_app in Hdk2 as (_ & _ & Hdisj).
  pose proof (assigned_keys_perm _ _ Hperm) as Hsplit.
  rewrite assigned_keys_app in Hsplit.
  assert (concat (add_tasks (WebsocketPool._optimize_pool WS_TOPICS_LIMIT self1).2) =
          concat (WebsocketPool.topic_values <$> evicted) ∧
          length (add_tasks (WebsocketPool._optimize_pool WS_TOPICS_LIMIT self1).2) ≤ 1)
    as [Hrecycled Hone].
  { rewrite Hres. cbn [add_tasks]. rewrite omap_app.
    assert (omap (λ s, match s with
                       | WebsocketPool.AddTopicsTask topics => Some topics
                       | _ => None
                       end)
                 ((λ ws, WebsocketPool.StopTask ws true) <$> evicted) = []) as ->
      by (clear; induction evicted; [done|by cbn]).
    destruct (decide (concat (WebsocketPool.topic_values <$> evicted) ≠ []))
      as [Hr|Hr]; cbn.
    - rewrite app_nil_r. split; [done|lia].
    - split; [|lia]. symmetry. by apply dec_stable. }
  split_and!.
  - rewrite Hres. by eexists.
  - rewrite Hrecycled, Hkeys, <-Hassigned, Hsplit. clear. set_solver.
  - rewrite Hrecycled, Hkeys. clear -Hdisj. set_solver.
  - done.
  - intros ws' Hin. apply Hfrom. rewrite Hperm. apply elem_of_app. by right.
  - done.
Qed.

(** X14.  A new connection is numbered by its place in the list.  The
    connections [add_topics] creates are appended to the list, the ones that
    were there keep their place and their index, and each new one gets as
    index its position in the list.  So a pool whose connections are
    numbered [0, 1, 2, ...] in the order of the list stays so under
    [add_topics], [start] and [stop]. *)
Theorem new_connections_are_numbered_in_order (now : Z) (topics : list WebsocketTopic)
    (self : WebsocketPool.t) :
  pool_inv self →
  let before := WebsocketPool.websockets self in
  let after := WebsocketPool.websockets (pool_add now topics self).1 in
  length before ≤ length after ∧
  take (length before) (Websocket._idx <$> after) = Websocket._idx <$> before ∧
  drop (length before) (Websocket._idx <$> after) =
    seq (length before) (length after - length before) ∧
  (Websocket._idx <$> before = seq 0 (length before) →
   Websocket._idx <$> after = seq 0 (length after) ∧
   ∀ clear_topics sockets,
     Websocket._idx <$> WebsocketPool.websockets
                          (WebsocketPool.stop clear_topics (pool_add now topics self).1) =
       seq 0 (length after) ∧
     Websocket._idx <$> WebsocketPool.websockets
                          (WebsocketPool.start sockets (pool_add now topics self).1) =
       seq 0 (length after)).
Proof.
  intros [Hcoh _ Huniq _]. cbn zeta.
  destruct (pool_add_topics_spec WS_TOPICS_LIMIT pop_order pop_order_perm PING_TIMEOUT
              MAX_WEBSOCKETS now topics self Hcoh
              (proj2 (disjoint_keys_count _) Huniq))
    as (placed & rest & wss' & news & Hwss & _ & _ & Hgrown & _ & _ & _ & _ & _ & _ & _
        & _ & _ & Hfew & Hidx & _).
  rewrite Hwss.
  assert (Websocket._idx <$> wss' = Websocket._idx <$> WebsocketPool.websockets self)
    as Hsame.
  { clear -Hgrown. induction Hgrown as [|ws ws' wss wss' (_ & _ & Hi) _ IH]; [done|].
    cbn. by rewrite Hi, IH. }
  pose proof (Forall2_length _ _ _ Hgrown) as Hlen.
  assert (Websocket._idx <$> news =
          seq (length (WebsocketPool.websockets self)) (length news)) as Hnews.
  { rewrite Hidx, take_seq. f_equal. lia. }
  rewrite fmap_app, length_app, Hsame, Hnews, <-Hlen.
  assert (length (Websocket._idx <$> WebsocketPool.websockets self) =
          length (WebsocketPool.websockets self)) as Hl by apply length_fmap.
  split_and!.
  - lia.
  - rewrite take_app_length'; [done|]. by rewrite Hl, Hlen.
  - rewrite drop_app_length'; [|by rewrite Hl, Hlen]. f_equal. lia.
  - intros Hordered. rewrite Hordered, Hlen.
    assert (seq 0 (length wss') ++ seq (length wss') (length news) =
            seq 0 (length wss' + length news)) as Hseq by (by rewrite seq_app).
    split; [done|]. intros clear_topics sockets. cbn. rewrite Hwss.
    rewrite <-list_fmap_compose.
    rewrite (list_fmap_ext (Websocket._idx ∘ Websocket.stop clear_topics) Websocket._idx
               (wss' ++ news)) by (intros i ws _; apply stop_idx).
    assert (Websocket._idx <$> imap (λ i, Websocket.start (sockets i)) (wss' ++ news) =
            Websocket._idx <$> wss' ++ news) as ->.
    { apply list_eq. intros i. rewrite list_lookup_fmap, list_lookup_imap, list_lookup_fmap.
      destruct ((wss' ++ news) !! i) as [ws|]; [|done]. cbn. by rewrite start_idx. }
    rewrite fmap_app, Hsame, Hnews, Hordered, Hlen. by split.
Qed.

End PoolLimits.

Section MoreScenarios.


(** C10 at the pool whose connection holds [a] and socket 0: stopped with
    the topics kept, the connection is still first in the list, closed,
    without task and socket; started again, it has a running task, socket 0
    and [a]. *)
Lemma stop_keeps_the_connections_witness :
  Forall at_rest (WebsocketPool.websockets serving_pool) ∧
  (∃ ws,
     WebsocketPool.websockets serving_pool !! 0 = Some ws ∧
     Websocket._ws ws = Some 0 ∧
     Websocket._handle_task ws = Some Websocket.Running ∧
     dom (Websocket.topics ws) = {["a"]}) ∧
  (∃ ws',
     WebsocketPool.websockets (WebsocketPool.stop false serving_pool) !! 0 = Some ws' ∧
     Websocket._handle_task ws' = None ∧
     Websocket._ws ws' = None ∧
     Websocket._submitted ws' = ∅) ∧
  (∃ ws'',
     WebsocketPool.websockets
       (WebsocketPool.start socket_of_place (WebsocketPool.stop false serving_pool)) !! 0 =
       Some ws'' ∧
     Websocket._handle_task ws'' = Some Websocket.Running ∧
     Websocket._ws ws'' = Some 0 ∧
     Websocket._closed ws'' = false).
Proof.
  assert (Forall at_rest (WebsocketPool.websockets serving_pool)) as Hrest.
  { repeat constructor; vm_compute; try done. }
  destruct (proj2 (stop_keeps_the_connections false socket_of_place serving_pool) Hrest)
    as [Hstopped Hrestarted].
  assert (∃ ws,
            WebsocketPool.websockets serving_pool !! 0 = Some ws ∧
            Websocket._ws ws = Some 0 ∧
            Websocket._handle_task ws = Some Websocket.Running ∧
            dom (Websocket.topics ws) = {["a"]}) as (ws & Hfirst & Hws & Htask & Htopics).
  { eexists. split; [reflexivity|]. split_and!; vm_compute; reflexivity. }
  destruct (Hstopped 0 ws Hfirst) as (ws' & Hfirst' & Htask' & Hws' & Hsub' & _).
  destruct (Hrestarted 0 ws' Hfirst') as (ws'' & Hfirst'' & Htask'' & Hws'' & Hclosed'' & _).
  split_and!; [exact Hrest|by exists ws|by exists ws'|by exists ws''].
Defined.

(** X1 at the connection subscribed to [a]: a poll delivers a push message
    for [a], then [CLOSE], then a [PONG]; [_handle_recv] raises
    [WebsocketClosed(received=True)] and the connection is as before.  A
    poll that delivers a [PONG] and then a page of HTML raises the error of
    [json.loads], and the [PONG] is lost. *)
Lemma close_frame_discards_the_batch_witness :
  Websocket.connected subscribed_connection.1 = true ∧
  (∃ received,
     Websocket._handle_recv wire_loads closing_poll
       (subscribed_connection.1, subscribed_connection.2) =
       ((subscribed_connection.1, advance 500 subscribed_connection.2),
        Raised (WebsocketClosed received)) ∧
     received = true) ∧
  Websocket._handle_recv wire_loads garbled_poll
    (subscribed_connection.1, subscribed_connection.2) =
    ((subscribed_connection.1, advance 500 subscribed_connection.2),
     Raised JSONDecodeError).
Proof.
  assert (Websocket.connected subscribed_connection.1 = true) as Hconn
    by (vm_compute; reflexivity).
  split; [exact Hconn|]. split.
  - destruct (proj1 (close_frame_discards_the_batch wire_loads closing_poll
                       subscribed_connection.1 subscribed_connection.2 Hconn)
                    [TEXT (push_text "a" "1")] CLOSE [TEXT pong_text] eq_refl
                    ltac:(by repeat constructor)
                    ltac:(repeat constructor; vm_compute; reflexivity) eq_refl)
      as (received & Hrecv & Hclose & _).
    exists received. split; [exact Hrecv|]. by apply Hclose.
  - exact (proj1 (proj2 (close_frame_discards_the_batch wire_loads garbled_poll
                           subscribed_connection.1 subscribed_connection.2 Hconn))
                 [TEXT pong_text] "<html>" [] eq_refl
                 ltac:(by repeat constructor)
                 ltac:(repeat constructor; vm_compute; reflexivity)
                 ltac:(vm_compute; reflexivity)).
Defined.

(** X2 at the connection whose ack deadline has passed: a [PONG] arrives,
    and the heartbeat check that follows requests nothing. *)
Lemma pong_disarms_the_timeout_witness :
  Websocket.connected overdue_connection.1 = true ∧
  Forall (λ frame, decodes wire_loads frame = true) (inbound answered_poll) ∧
  Exists (λ message, has_type "PONG" message = true)
         (omap (text_of wire_loads) (inbound answered_poll)) ∧
  Websocket._max_pong
    (Websocket._handle_recv wire_loads answered_poll
       (overdue_connection.1, overdue_connection.2)).1.1 =
    Websocket._next_ping overdue_connection.1 ∧
  reconnect_requests
    (trace (Websocket._handle_ping 2000 1000 alphabet
              ((Websocket._handle_recv wire_loads answered_poll
                  (overdue_connection.1, overdue_connection.2)).1.1,
               overdue_connection.2)).1.2) =
    reconnect_requests (trace overdue_connection.2).
Proof.
  assert (Websocket.connected overdue_connection.1 = true) as Hconn
    by (vm_compute; reflexivity).
  assert (Forall (λ frame, decodes wire_loads frame = true) (inbound answered_poll))
    as Hjson by (repeat constructor; vm_compute; reflexivity).
  assert (Exists (λ message, has_type "PONG" message = true)
                 (omap (text_of wire_loads) (inbound answered_poll))) as Hpong
    by (apply Exists_cons_hd; vm_compute; reflexivity).
  destruct (pong_disarms_the_timeout 2000 1000 alphabet wire_loads answered_poll
              overdue_connection.1 overdue_connection.2 Hconn
              ltac:(by repeat constructor) Hjson
              ltac:(repeat constructor; vm_compute; reflexivity) Hpong)
    as (_ & Hself & _ & Hlater).
  split_and!; [exact Hconn|exact Hjson|exact Hpong| |].
  - cbn zeta in Hself. by rewrite Hself.
  - exact (proj1 (Hlater overdue_connection.2)).
Defined.

(** X3 on a batch of a [PONG], a [RECONNECT] and a push message: the
    reconnect is requested and the push message is dropped. *)
Lemma reconnect_message_ends_the_batch_witness :
  has_type "RECONNECT" reconnect_message = true ∧
  Websocket.process_messages wire_loads
    ([pong_message] ++ reconnect_message :: [push_message "a" "1"])
    (subscribed_connection.1, subscribed_connection.2) =
  Websocket.process_messages wire_loads ([pong_message] ++ [reconnect_message])
    (subscribed_connection.1, subscribed_connection.2).
Proof.
  split; [reflexivity|].
  exact (proj2 (proj2 (reconnect_message_ends_the_batch wire_loads [pong_message]
                         [push_message "a" "1"] reconnect_message
                         subscribed_connection.1 subscribed_connection.2
                         ltac:(by repeat constructor) eq_refl eq_refl))).
Defined.

(** X4 at the connection subscribed to [a], on a poll with a [PONG] and a
    push message for [a] *)
Lemma messages_reach_assigned_topics_only_witness :
  Forall (λ message, well_formed message = true)
         (omap (text_of wire_loads) (inbound answered_poll)) ∧
  same_subscription subscribed_connection.1
    (Websocket._handle_recv wire_loads answered_poll
       (subscribed_connection.1, subscribed_connection.2)).1.1.
Proof.
  assert (Forall (λ message, well_formed message = true)
                 (omap (text_of wire_loads) (inbound answered_poll))) as Hformed
    by (repeat constructor; vm_compute; reflexivity).
  split; [exact Hformed|].
  exact (proj1 (messages_reach_assigned_topics_only wire_loads answered_poll
                  subscribed_connection.1 subscribed_connection.2 Hformed)).
Defined.

(** X5 with a heartbeat every second and an ack timeout of one second, on
    three polls that each deliver a [PONG] *)
Lemma answered_pings_never_reconnect_witness :
  reconnect_requests
    (trace (Websocket.steady_state 1000 1000 alphabet iteration_order wire_loads
              (replicate 3 answered_poll)
              (fresh_connection 1000 0 0, calm_world "token")).1.2) =
  reconnect_requests (trace (calm_world "token")).
Proof.
  refine (proj2 (answered_pings_never_reconnect 1000 1000 alphabet iteration_order
                   wire_loads (replicate 3 answered_poll) _
                   (fresh_connection 1000 0 0) (calm_world "token") _ eq_refl)).
  - repeat constructor.
  - vm_compute. discriminate.
Defined.

(** X8 at a new connection with room for fifty topics, given [a] *)
Lemma add_topics_takes_what_fits_witness :
  keys_of {[topic_a]} ## dom (Websocket.topics (fresh_connection 10000 0 0)) ∧
  size (Websocket.topics
          (Websocket.add_topics 50 iteration_order {[topic_a]}
             (fresh_connection 10000 0 0)).2) =
    50 `min` (size (Websocket.topics (fresh_connection 10000 0 0)) +
              size ({[topic_a]} : gset WebsocketTopic)).
Proof.
  assert (keys_of {[topic_a]} ## dom (Websocket.topics (fresh_connection 10000 0 0)))
    as Hfresh.
  { cbn. rewrite dom_empty_L. apply disjoint_empty_r. }
  split; [exact Hfresh|].
  exact (proj1 (add_topics_takes_what_fits 50 iteration_order iteration_order_perm
                  {[topic_a]} (fresh_connection 10000 0 0) Hfresh
                  ltac:(vm_compute; lia))).
Defined.

(** X15 on a new connection whose socket is attached at the time of its
    creation *)
Lemma socket_generation_starts_with_a_ping_witness :
  transport_up (calm_world "token") = true ∧
  ∃ rest,
    trace (Websocket.generation 2000 1000 alphabet iteration_order wire_loads 0
             [answered_poll] (Websocket.__init__ 1000 0 0, calm_world "token")).1.2 =
    trace (calm_world "token") ++ Sent 0 (JObject [("type", JString "PING")]) :: rest.
Proof.
  split; [reflexivity|].
  exact (proj1 (proj2 (socket_generation_starts_with_a_ping 2000 1000 alphabet
                         iteration_order wire_loads 0 answered_poll []
                         (calm_world "token") eq_refl))
               0 0%Z ltac:(reflexivity)).
Defined.

(** X10 at the pool of two full connections *)
Lemma pool_limits_are_kept_witness :
  pool_reachable 2 2 10000 iteration_order (mkLoop crowded_pool []) ∧
  WebsocketPool.total_topics (WebsocketPool.websockets crowded_pool) ≤ 2 * 2.
Proof.
  split; [exact crowded_pool_reachable|].
  exact (proj1 (proj2 (proj2 (pool_limits_are_kept 2 2 10000 iteration_order
                                iteration_order_perm (mkLoop crowded_pool [])
                                crowded_pool_reachable)))).
Defined.

(** X11 at the pool of two full connections *)
Lemma connection_count_follows_the_list_witness :
  pool_reachable 2 2 10000 iteration_order (mkLoop crowded_pool []) ∧
  WebsocketPool.connection_count crowded_pool ≤
    length (WebsocketPool.websockets crowded_pool).
Proof.
  split; [exact crowded_pool_reachable|].
  exact (proj1 (connection_count_follows_the_list 2 2 10000 iteration_order
                  iteration_order_perm (mkLoop crowded_pool [])
                  crowded_pool_reachable)).
Defined.

Lemma crowded_pool_inv : pool_inv 2 2 crowded_pool.
Proof.
  exact (pool_reachable_inv 2 2 10000 iteration_order iteration_order_perm _
           crowded_pool_reachable).
Qed.

(** X12 at the pool of two full connections, adding [a] and [d] again *)
Lemma add_topics_again_changes_nothing_witness :
  pool_inv 2 2 crowded_pool ∧
  (∀ t, t ∈ [topic_a; topic_d] →
        str t ∈ assigned_keys (WebsocketPool.websockets crowded_pool)) ∧
  WebsocketPool.add_topics 2 2 10000 iteration_order 7 [topic_a; topic_d] crowded_pool =
    (crowded_pool, Returned tt).
Proof.
  assert (∀ t, t ∈ [topic_a; topic_d] →
               str t ∈ assigned_keys (WebsocketPool.websockets crowded_pool)) as Hheld.
  { intros t Hin. apply elem_of_assigned_keys.
    apply elem_of_cons in Hin as [->|Hin]; [by vm_compute|].
    apply list_elem_of_singleton in Hin as ->. by vm_compute. }
  split_and!; [exact crowded_pool_inv|exact Hheld|].
  exact (proj1 (add_topics_again_changes_nothing 2 2 10000 iteration_order
                  iteration_order_perm 7 7 [topic_a; topic_d] crowded_pool
                  crowded_pool_inv) Hheld).
Defined.

(** X13 at the pool of two full connections, removing [a] and [b]: [c] goes
    to the follow-up task and [d] stays. *)
Lemma remove_topics_loses_nothing_witness :
  pool_inv 2 2 crowded_pool ∧
  assigned_keys
    (WebsocketPool.websockets (WebsocketPool.remove_topics 2 ["a"; "b"] crowded_pool).1) ∪
  keys_of (list_to_set
             (concat (add_tasks (WebsocketPool.remove_topics 2 ["a"; "b"] crowded_pool).2))) =
  assigned_keys (WebsocketPool.websockets crowded_pool) ∖ list_to_set ["a"; "b"].
Proof.
  split; [exact crowded_pool_inv|].
  exact (proj1 (proj2 (remove_topics_loses_nothing 2 2 ["a"; "b"] crowded_pool
                         crowded_pool_inv (Nat.lt_0_succ 1)))).
Defined.

(** X14 when a second connection is created for [b] and [d] *)
Lemma new_connections_are_numbered_in_order_witness :
  pool_inv 2 2 WebsocketPool.__init__ ∧
  Websocket._idx <$>
    WebsocketPool.websockets
      (WebsocketPool.add_topics 2 2 10000 iteration_order 0
         [topic_a; topic_b; topic_c] WebsocketPool.__init__).1 =
  seq 0 (length (WebsocketPool.websockets
                   (WebsocketPool.add_topics 2 2 10000 iteration_order 0
                      [topic_a; topic_b; topic_c] WebsocketPool.__init__).1)).
Proof.
  split; [apply init_pool_inv|].
  exact (proj1 (proj2 (proj2 (proj2 (new_connections_are_numbered_in_order 2 2 10000
                                       iteration_order iteration_order_perm 0
                                       [topic_a; topic_b; topic_c] WebsocketPool.__init__
                                       (init_pool_inv 2 2)))) eq_refl)).
Defined.

End MoreScenarios.

(** * Channels *)

Section ChannelStatus.

Implicit Types (self : Channel.t) (log : list Channel.Event).

(** X16.  A channel has exactly one status.  Whatever its stream and its
    pending task are, exactly one of [online], [pending_online] and
    [offline] is true; and only an online channel has viewers, a game or
    drops enabled. *)
Theorem channel_has_one_status self :
  (Channel.online self = true ∧ Channel.pending_online self = false ∧
   Channel.offline self = false) ∨
  (Channel.online self = false ∧ Channel.pending_online self = true ∧
   Channel.offline self = false ∧ Channel.viewers self = None ∧
   Channel.game self = None ∧ Channel.drops_enabled self = false) ∨
  (Channel.online self = false ∧ Channel.pending_online self = false ∧
   Channel.offline self = true ∧ Channel.viewers self = None ∧
   Channel.game self = None ∧ Channel.drops_enabled self = false).
Proof.
  destruct self as [? ? ? ? [stream|] [task|] ?]; cbv -[app]; auto 10.
Qed.

(** X17.  [set_offline] always ends offline.  Afterwards the channel is
    offline whatever it was; a pending task is cancelled; the owner is told
    of the change exactly when the channel was online, and the row is
    redrawn by the channel itself exactly when it was only pending; nothing
    else of the channel changes, and a second call does nothing at all. *)
Theorem set_offline_ends_offline self log :
  let after := (Channel.set_offline (self, log)).1 in
  (Channel.set_offline (self, log)).2 = Returned tt ∧
  Channel.offline after.1 = true ∧
  after.1 = Channel.set_stream None (Channel.set_pending_stream_up None self) ∧
  after.2 = log
    ++ (if decide (is_Some (Channel._pending_stream_up self))
        then [Channel.TaskCancelled (Channel.id self)] else [])
    ++ (if Channel.online self
        then [Channel.ChannelUpdate (Channel.id self) (Channel._stream self) None]
        else if Channel.pending_online self
             then [Channel.Displayed (Channel.id self) false] else []) ∧
  (Channel.set_offline after).1 = after.
Proof.
  destruct self as [? ? ? ? [stream|] [task|] ?]; cbv -[app];
    rewrite <-?app_assoc, ?app_nil_r; done.
Qed.

(** Repeating [check_online] *)
Lemma check_online_pending self log :
  is_Some (Channel._pending_stream_up self) →
  Channel.check_online (self, log) = ((self, log), Returned tt).
Proof. intros [task Htask]. destruct self; cbn in *. by subst. Qed.

Lemma check_online_sets_pending self log :
  is_Some (Channel._pending_stream_up (Channel.check_online (self, log)).1.1).
Proof. destruct self as [? ? ? ? ? [task|] ?]; cbn; eauto. Qed.

Lemma tasks_created_app log more :
  tasks_created (log ++ more) = (tasks_created log + tasks_created more)%nat.
Proof. unfold tasks_created. by rewrite filter_app, length_app. Qed.

(** X18.  [check_online] keeps one task.  However often it is called in a
    row, the state is the one the first call left: a task is pending, a new
    one was created (and the row redrawn) only if none was pending before,
    and the stream is untouched, so that an offline channel is now pending
    and an online one is still online. *)
Theorem check_online_keeps_one_task self log (n : nat) :
  let once := (Channel.check_online (self, log)).1 in
  let after := Nat.iter (S n) (λ st, (Channel.check_online st).1) (self, log) in
  after = once ∧
  is_Some (Channel._pending_stream_up after.1) ∧
  after.1 = Channel.set_pending_stream_up (Some Channel.OnlineDelay) self ∧
  after.2 = log
    ++ (if decide (Channel._pending_stream_up self = None)
        then [Channel.TaskCreated (Channel.id self); Channel.Displayed (Channel.id self) false]
        else []) ∧
  tasks_created after.2 =
    (tasks_created log +
     if decide (Channel._pending_stream_up self = None) then 1 else 0)%nat ∧
  Channel.online after.1 = Channel.online self ∧
  (Channel.offline self = true → Channel.pending_online after.1 = true).
Proof.
  intros once after.
  assert (after = once) as ->.
  { subst after once. induction n as [|n IH]; [done|].
    rewrite Nat.iter_succ, IH.
    destruct (Channel.check_online (self, log)).1 as [self' log'] eqn:Hfirst.
    rewrite check_online_pending; [done|].
    pose proof (check_online_sets_pending self log) as Hp. by rewrite Hfirst in Hp. }
  subst once.
  destruct self as [? ? ? ? [stream|] [[]|] ?]; cbv -[app tasks_created Nat.add];
    rewrite <-?app_assoc, ?app_nil_r, ?tasks_created_app; split_and!; eauto.
Qed.

(** X19.  Removing a channel cancels what is pending.  [remove] leaves no
    pending task behind, cancels the one there was, takes the row out of
    the list exactly once, and leaves the stream as it is: a channel that
    was pending is offline afterwards. *)
Theorem remove_cancels_the_pending_task self log :
  let after := (Channel.remove (self, log)).1 in
  after.1 = Channel.set_pending_stream_up None self ∧
  after.2 = log
    ++ (if decide (is_Some (Channel._pending_stream_up self))
        then [Channel.TaskCancelled (Channel.id self)] else [])
    ++ [Channel.Removed (Channel.id self)] ∧
  Channel.pending_online after.1 = false ∧
  Channel.online after.1 = Channel.online self ∧
  (Channel.pending_online self = true → Channel.offline after.1 = true).
Proof.
  destruct self as [? ? ? ? [stream|] [task|] ?]; cbv -[app];
    rewrite <-?app_assoc; done.
Qed.

End ChannelStatus.

(** * Drops and their minutes *)

Section Minutes.

Implicit Types (c : DropsCampaign.t) (d : TimedDrop.t) (gui : list GuiEvent) (st : Drop.St).

Lemma dict_get_change {V} key (f : V → V) items k :
  DropsCampaign.dict_get k (DropsCampaign.dict_change key f items)
  = (if decide (k = key) then f else id) <$> DropsCampaign.dict_get k items.
Proof.
  induction items as [|[k' v] items IH]; [done|]. cbn.
  destruct (decide (k' = key)) as [->|Hk']; cbn.
  - destruct (decide (key = k)) as [<-|Hk]; [by rewrite decide_True|done].
  - destruct (decide (k' = k)) as [<-|Hk]; [by rewrite decide_False|done].
Qed.

Lemma dict_get_change_all {V} (f : V → V) items k :
  DropsCampaign.dict_get k (DropsCampaign.dict_change_all f items)
  = f <$> DropsCampaign.dict_get k items.
Proof.
  induction items as [|[k' v] items IH]; [done|]. cbn.
  by destruct (decide (k' = k)).
Qed.

Lemma dict_change_keys {V} key (f : V → V) items :
  (DropsCampaign.dict_change key f items).*1 = items.*1.
Proof.
  unfold DropsCampaign.dict_change. rewrite <-list_fmap_compose.
  apply list_fmap_ext. intros ? [k v] ?. cbn. by destruct (decide (k = key)).
Qed.

Lemma dict_change_all_keys {V} (f : V → V) items :
  (DropsCampaign.dict_change_all f items).*1 = items.*1.
Proof.
  unfold DropsCampaign.dict_change_all. rewrite <-list_fmap_compose.
  apply list_fmap_ext. by intros ? [k v] ?.
Qed.

Lemma dict_change_all_values {V} (f : V → V) items :
  (DropsCampaign.dict_change_all f items).*2 = f <$> items.*2.
Proof.
  unfold DropsCampaign.dict_change_all. rewrite <-!list_fmap_compose.
  apply list_fmap_ext. by intros ? [k v] ?.
Qed.

Lemma dict_get_elem_of {V} key (v : V) items :
  DropsCampaign.dict_get key items = Some v → (key, v) ∈ items.
Proof.
  induction items as [|[k' v'] items IH]; [done|]. cbn.
  destruct (decide (k' = key)) as [->|]; [intros [= ->]; left|right; auto].
Qed.

(** The drop under a key after the steps of [update_minutes] and
    [bump_minutes] *)
Lemma get_drop_change key f st k :
  DropsCampaign.get_drop k (Drop.change key f st).1
  = (if decide (k = key) then f else id) <$> DropsCampaign.get_drop k st.1.
Proof. destruct st as [c gui]. apply dict_get_change. Qed.

Lemma get_drop_campaign_minutes_changed c k :
  DropsCampaign.get_drop k (DropsCampaign._on_minutes_changed c)
  = TimedDrop._on_total_minutes_changed <$> DropsCampaign.get_drop k c.
Proof. apply dict_get_change_all. Qed.

Lemma get_drop_on_minutes_changed key st k :
  DropsCampaign.get_drop k (Drop._on_minutes_changed key st).1
  = (λ d, TimedDrop._on_total_minutes_changed
            (if decide (k = key)
             then TimedDrop.set_cached_remaining_minutes None
                    (TimedDrop.set_cached_progress None d)
             else d)) <$> DropsCampaign.get_drop k st.1.
Proof.
  destruct st as [c gui].
  change (Drop._on_minutes_changed key (c, gui)).1
    with (DropsCampaign._on_minutes_changed
            (Drop.change key (λ d, TimedDrop.set_cached_remaining_minutes None
                                     (TimedDrop.set_cached_progress None d)) (c, gui)).1).
  rewrite get_drop_campaign_minutes_changed, get_drop_change, <-option_fmap_compose.
  apply option_fmap_ext. intros d. cbn. by destruct (decide (k = key)).
Qed.

Lemma gui_on_minutes_changed key st :
  (Drop._on_minutes_changed key st).2 = st.2 ++ [UpdateDrop key].
Proof. by destruct st as [c gui]. Qed.

(** X20.  [update_minutes] clamps.  A negative report is ignored
    altogether; any other report sets the minutes of the drop to the
    report, or to the required minutes if the report is above them.  No
    other drop's minutes change, and the GUI is told once of the update and
    once to display. *)
Theorem update_minutes_clamps key minutes c gui d :
  DropsCampaign.get_drop key c = Some d →
  let after := Drop.update_minutes key minutes (c, gui) in
  if decide (minutes < 0)%Z then after = (c, gui)
  else
    (∃ d', DropsCampaign.get_drop key after.1 = Some d' ∧
           TimedDrop.current_minutes d' = (minutes `min` TimedDrop.required_minutes d)%Z ∧
           TimedDrop.required_minutes d' = TimedDrop.required_minutes d ∧
           TimedDrop.is_claimed d' = TimedDrop.is_claimed d) ∧
    (∀ k o, k ≠ key → DropsCampaign.get_drop k c = Some o →
            ∃ o', DropsCampaign.get_drop k after.1 = Some o' ∧
                  TimedDrop.current_minutes o' = TimedDrop.current_minutes o ∧
                  TimedDrop.required_minutes o' = TimedDrop.required_minutes o ∧
                  TimedDrop.is_claimed o' = TimedDrop.is_claimed o) ∧
    after.2 = gui ++ [UpdateDrop key; DisplayDrop key true false].
Proof.
  intros Hd after. subst after. unfold Drop.update_minutes. cbn [fst]. rewrite Hd.
  destruct (decide (minutes < 0)%Z) as [|Hpos]; [done|].
  set (st := if decide (minutes ≤ TimedDrop.required_minutes d)%Z then _ else _).
  assert (∃ m, st = Drop.change key (TimedDrop.set_current_minutes m) (c, gui) ∧
               m = (minutes `min` TimedDrop.required_minutes d)%Z) as (m & -> & Hm).
  { subst st. destruct (decide (minutes ≤ TimedDrop.required_minutes d)%Z);
      eexists; (split; [done|lia]). }
  split_and!.
  - eexists. split.
    { unfold Drop.display, Drop.notify.
      destruct (Drop._on_minutes_changed _ _) as [c' gui'] eqn:Hc'. cbn [fst].
      change c' with (c', gui').1. rewrite <-Hc'.
      rewrite get_drop_on_minutes_changed, get_drop_change. cbn [fst]. rewrite Hd.
      cbn. rewrite !decide_True by done. done. }
    cbn. done.
  - intros k o Hk Ho. eexists. split.
    { unfold Drop.display, Drop.notify.
      destruct (Drop._on_minutes_changed _ _) as [c' gui'] eqn:Hc'. cbn [fst].
      change c' with (c', gui').1. rewrite <-Hc'.
      rewrite get_drop_on_minutes_changed, get_drop_change. cbn [fst]. rewrite Ho.
      cbn. rewrite !decide_False by done. done. }
    cbn. done.
  - unfold Drop.display, Drop.notify.
    destruct (Drop._on_minutes_changed _ _) as [c' gui'] eqn:Hc'. cbn [snd].
    change gui' with (c', gui').2. rewrite <-Hc', gui_on_minutes_changed.
    cbn. by rewrite <-app_assoc.
Qed.

(** What the calls come to *)
Lemma update_minutes_campaign key minutes c gui :
  (Drop.update_minutes key minutes (c, gui)).1
  = match DropsCampaign.get_drop key c with
    | Some d =>
        if decide (minutes < 0)%Z then c
        else with_minutes key (minutes `min` TimedDrop.required_minutes d)%Z c
    | None => c
    end.
Proof.
  unfold Drop.update_minutes. cbn [fst].
  destruct (DropsCampaign.get_drop key c) as [d|]; [|done].
  destruct (decide (minutes < 0)%Z); [done|].
  destruct (decide (minutes ≤ TimedDrop.required_minutes d)%Z).
  - by rewrite Z.min_l by lia.
  - by rewrite Z.min_r by lia.
Qed.

Lemma bump_minutes_campaign key c gui :
  (Drop.bump_minutes key (c, gui)).1
  = match DropsCampaign.get_drop key c with
    | Some d =>
        if decide (TimedDrop.current_minutes d < TimedDrop.required_minutes d)%Z
        then with_minutes key (TimedDrop.current_minutes d + 1)%Z c
        else c
    | None => c
    end.
Proof.
  unfold Drop.bump_minutes. cbn [fst].
  destruct (DropsCampaign.get_drop key c) as [d|]; [|done].
  by destruct (decide (TimedDrop.current_minutes d < TimedDrop.required_minutes d)%Z).
Qed.

Lemma claim_campaign key now request c gui :
  (Drop.claim key now request (c, gui)).2.1
  = match DropsCampaign.get_drop key c with
    | Some d => if Drop._claim now request c d then with_claim key c else c
    | None => c
    end.
Proof.
  unfold Drop.claim. cbn [fst].
  destruct (DropsCampaign.get_drop key c) as [d|]; [|done].
  by destruct (Drop._claim now request c d).
Qed.

Lemma get_drop_with_minutes key minutes c k :
  DropsCampaign.get_drop k (with_minutes key minutes c)
  = (λ d, TimedDrop._on_total_minutes_changed
            (if decide (k = key)
             then TimedDrop.set_cached_remaining_minutes None
                    (TimedDrop.set_cached_progress None
                       (TimedDrop.set_current_minutes minutes d))
             else d)) <$> DropsCampaign.get_drop k c.
Proof.
  unfold with_minutes. rewrite get_drop_on_minutes_changed, get_drop_change.
  cbn [fst]. rewrite <-option_fmap_compose. apply option_fmap_ext.
  intros d. cbn. by destruct (decide (k = key)).
Qed.

(** X21.  [bump_minutes] saturates.  Bumping a drop [n] times adds [n]
    minutes but never goes past the required minutes; a drop that already
    holds its required minutes, or more, is only displayed again. *)
Theorem bump_minutes_saturates key c gui d (n : nat) :
  DropsCampaign.get_drop key c = Some d →
  ∃ d',
    DropsCampaign.get_drop key (Nat.iter n (Drop.bump_minutes key) (c, gui)).1 = Some d' ∧
    TimedDrop.required_minutes d' = TimedDrop.required_minutes d ∧
    TimedDrop.is_claimed d' = TimedDrop.is_claimed d ∧
    TimedDrop.current_minutes d'
    = (if decide (TimedDrop.current_minutes d ≤ TimedDrop.required_minutes d)%Z
       then (TimedDrop.current_minutes d + Z.of_nat n) `min` TimedDrop.required_minutes d
       else TimedDrop.current_minutes d)%Z.
Proof.
  intros Hd. induction n as [|n (d' & Hd' & Hreq & Hclaimed & Hcur)].
  { exists d. split_and!; try done. case_decide; lia. }
  rewrite Nat.iter_succ.
  destruct (Nat.iter n (Drop.bump_minutes key) (c, gui)) as [c' gui'].
  cbn [fst] in Hd'. rewrite bump_minutes_campaign, Hd'.
  destruct (decide (TimedDrop.current_minutes d' < TimedDrop.required_minutes d')%Z).
  - rewrite get_drop_with_minutes, Hd'. cbn. rewrite decide_True by done.
    eexists. split; [done|]. cbn. split_and!; try done.
    rewrite Hcur. repeat case_decide; lia.
  - exists d'. split_and!; try done. rewrite Hcur. repeat case_decide; lia.
Qed.

End Minutes.

(** * What the calls on a campaign keep *)

Section Calls.

Implicit Types (c : DropsCampaign.t) (d : TimedDrop.t) (gui : list GuiEvent) (st : Drop.St).

(** An invariant kept by every step is kept by [any] over the drops *)
Lemma any_drop_inv (Inv : DropsCampaign.t → Prop) f keys c :
  (∀ key d c, Inv c → DropsCampaign.get_drop key c = Some d → Inv (f key d c).1) →
  Inv c → Inv (any_drop f keys c).1.
Proof.
  intros Hstep. revert c. induction keys as [|key keys IH]; intros c Hinv; [done|].
  cbn. unfold mbind, M_bind, bind, get. cbn.
  destruct (DropsCampaign.get_drop key c) as [d|] eqn:Hd; [|by apply IH].
  pose proof (Hstep key d c Hinv Hd) as Hinv'.
  destruct (f key d c) as [c' [[]|e]]; cbn in *; [done| |done].
  by apply IH.
Qed.

Lemma _base_earn_conditions_campaign key d c :
  (Drop._base_earn_conditions key d c).1 = (Drop.preconditions_met key d c).1.
Proof.
  unfold Drop._base_earn_conditions, mbind, M_bind, bind.
  by destruct (Drop.preconditions_met key d c) as [c' [v|e]].
Qed.

Lemma _base_can_earn_campaign now key d c :
  (Drop._base_can_earn now key d c).1 = (Drop.preconditions_met key d c).1.
Proof.
  unfold Drop._base_can_earn, mbind, M_bind, bind.
  rewrite <-_base_earn_conditions_campaign.
  by destruct (Drop._base_earn_conditions key d c) as [c' [v|e]].
Qed.

Lemma can_earn_within_campaign now stamp key d c :
  (Drop.can_earn_within now stamp key d c).1 = (Drop.preconditions_met key d c).1.
Proof.
  unfold Drop.can_earn_within, mbind, M_bind, bind.
  rewrite <-_base_earn_conditions_campaign.
  by destruct (Drop._base_earn_conditions key d c) as [c' [v|e]].
Qed.

Lemma campaign_base_can_earn_campaign now channel c :
  (DropsCampaign._base_can_earn now channel c).2 = (DropsCampaign.eligible c).2.
Proof.
  unfold DropsCampaign._base_can_earn.
  destruct (DropsCampaign.eligible c) as [[] c']; cbn; [|done].
  destruct (DropsCampaign.active now c'); cbn; [|done].
  destruct channel; [|done]. by case_decide.
Qed.

(** An invariant kept by the elementary steps is kept by every call *)
Lemma call_inv (Inv : DropsCampaign.t → Prop) op c gui :
  (∀ key minutes c d,
     Inv c → DropsCampaign.get_drop key c = Some d →
     (minutes ≤ TimedDrop.required_minutes d)%Z →
     ((0 ≤ TimedDrop.current_minutes d ≤ TimedDrop.required_minutes d)%Z → (0 ≤ minutes)%Z) →
     Inv (with_minutes key minutes c)) →
  (∀ key c d, is_claim op = true → Inv c → DropsCampaign.get_drop key c = Some d →
              Inv (with_claim key c)) →
  (∀ key c gui, Inv c → Inv (Drop.remaining_minutes key (c, gui)).2.1) →
  (∀ key c gui, Inv c → Inv (Drop.progress key (c, gui)).2.1) →
  (∀ c, Inv c → Inv (DropsCampaign.progress c).2) →
  (∀ c, Inv c → Inv (DropsCampaign.claimed_drops c).2) →
  (∀ c, Inv c → Inv (DropsCampaign.remaining_drops c).2) →
  (∀ c, Inv c → Inv (DropsCampaign.finished c).2) →
  (∀ c, Inv c → Inv (DropsCampaign.eligible c).2) →
  (∀ key d c, Inv c → DropsCampaign.get_drop key c = Some d →
              Inv (Drop.preconditions_met key d c).1) →
  Inv c → Inv (call op (c, gui)).1.
Proof.
  intros Hminutes Hclaim Hremaining Hprogress Hmean Hclaimed Hleft Hfinished Heligible Hmet Hinv.
  destruct op as [key minutes|key|key now request|key|key| | | | |now channel|now stamp];
    cbn [call fst snd]; auto.
  - rewrite update_minutes_campaign.
    destruct (DropsCampaign.get_drop key c) as [d|] eqn:Hd; [|done].
    case_decide; [done|]. eapply Hminutes; eauto; lia.
  - rewrite bump_minutes_campaign.
    destruct (DropsCampaign.get_drop key c) as [d|] eqn:Hd; [|done].
    case_decide; [|done]. eapply Hminutes; eauto; lia.
  - rewrite claim_campaign.
    destruct (DropsCampaign.get_drop key c) as [d|] eqn:Hd; [|done].
    destruct (Drop._claim now request c d); [|done]. eapply Hclaim; eauto.
  - unfold campaign_can_earn.
    pose proof (campaign_base_can_earn_campaign now channel c) as Hc'.
    destruct (DropsCampaign._base_can_earn now channel c) as [[] c']; cbn in Hc'; subst c';
      cbn; [|by apply Heligible].
    apply any_drop_inv; [|by apply Heligible].
    intros k d c' ? ?. rewrite _base_can_earn_campaign. by apply Hmet.
  - unfold campaign_can_earn_within.
    destruct (DropsCampaign.eligible c) as [b c'] eqn:Hc'.
    assert (Inv c') by (change c' with (b, c').2; rewrite <-Hc'; by apply Heligible).
    destruct (_ && _); [|done].
    apply any_drop_inv; [|done].
    intros k d c'' ? ?. rewrite can_earn_within_campaign. by apply Hmet.
Qed.

Lemma calls_snoc cs op st : calls (cs ++ [op]) st = call op (calls cs st).
Proof. unfold calls. by rewrite foldl_app. Qed.

(** Dicts changed in place *)
Lemma related_refl {V} (R : string → V → V → Prop) items :
  (∀ k v, R k v v) → related R items items.
Proof. intros HR. apply Forall_Forall2_diag, Forall_forall. by intros [k v] _. Qed.

Lemma related_trans {V} (R R' R'' : string → V → V → Prop) l l' l'' :
  (∀ k u v w, R k u v → R' k v w → R'' k u w) →
  related R l l' → related R' l' l'' → related R'' l l''.
Proof.
  intros HR H. revert l''. induction H as [|[k u] [k' v] l l' [Hk Huv] H IH];
    intros l'' H'; inversion H' as [|? [k'' w] ? ? [Hk' Hvw]]; simplify_eq/=; [constructor|].
  constructor; [|by apply IH]. split; [done|]. cbn. eauto.
Qed.

Lemma related_weaken {V} (R R' : string → V → V → Prop) l l' :
  (∀ k u v, R k u v → R' k u v) → related R l l' → related R' l l'.
Proof.
  intros HR H. eapply Forall2_impl; [exact H|]. intros [k u] [k' v] [? ?]. eauto.
Qed.

Lemma related_dict_change {V} (R : string → V → V → Prop) key f items :
  (∀ k v, R k v (if decide (k = key) then f v else v)) →
  related R items (DropsCampaign.dict_change key f items).
Proof.
  intros HR. induction items as [|[k v] items IH]; [constructor|].
  constructor; [|done]. cbn. specialize (HR k v). by destruct (decide (k = key)).
Qed.

Lemma related_dict_change_all {V} (R : string → V → V → Prop) f items :
  (∀ k v, R k v (f v)) → related R items (DropsCampaign.dict_change_all f items).
Proof.
  intros HR. induction items as [|[k v] items IH]; [constructor|].
  constructor; [|done]. cbn. auto.
Qed.

Lemma related_get {V} (R : string → V → V → Prop) items items' k :
  related R items items' →
  option_Forall2 (R k) (DropsCampaign.dict_get k items) (DropsCampaign.dict_get k items').
Proof.
  induction 1 as [|[k1 v] [k' v'] l l' [Hk HR] H IH]; [constructor|].
  cbn in *. subst k'. destruct (decide (k1 = k)) as [->|]; [by constructor|done].
Qed.

Lemma related_fmap {V A} (R : string → V → V → Prop) (g : string * V → A) items items' :
  (∀ k v v', R k v v' → g (k, v) = g (k, v')) →
  related R items items' → g <$> items = g <$> items'.
Proof.
  intros Hg. induction 1 as [|[k v] [k' v'] l l' [Hk HR] H IH]; [done|].
  cbn in *. subst k'. f_equal; auto.
Qed.

Lemma related_keys {V} (R : string → V → V → Prop) items items' :
  related R items items' → items'.*1 = items.*1.
Proof.
  induction 1 as [|[k v] [k' v'] l l' [Hk HR] H IH]; [done|]. cbn in *. by f_equal.
Qed.

Lemma dict_change_absent {V} key (f : V → V) items :
  DropsCampaign.dict_get key items = None → DropsCampaign.dict_change key f items = items.
Proof.
  induction items as [|[k v] items IH]; [done|]. cbn.
  destruct (decide (k = key)); [done|]. intros ?. f_equal. by apply IH.
Qed.

Ltac related_by_induction :=
  cbn;
  match goal with
  | |- related _ ?l _ =>
      generalize l; let l' := fresh "l" in let k := fresh "k" in let d := fresh "d" in
      let IH := fresh "IH" in
      intros l'; induction l' as [|[k d] l' IH]; cbn;
      [constructor|constructor; [|exact IH]; cbn; repeat (case_decide; cbn); done]
  end.

(** What each step does to the drops *)
Lemma step_with_minutes key minutes c :
  related (λ k d d',
             d' = TimedDrop._on_total_minutes_changed
                    (if decide (k = key)
                     then TimedDrop.set_cached_remaining_minutes None
                            (TimedDrop.set_cached_progress None
                               (TimedDrop.set_current_minutes minutes d))
                     else d))
          (DropsCampaign.timed_drops c) (DropsCampaign.timed_drops (with_minutes key minutes c)).
Proof.
  unfold with_minutes, Drop._on_minutes_changed, Drop.change, Drop.notify,
    DropsCampaign._on_minutes_changed. related_by_induction.
Qed.

Lemma step_with_claim key c :
  related (λ k d d',
             d' = (if decide (k = key)
                   then λ d, TimedDrop.set_current_minutes (TimedDrop.required_minutes d) d
                   else id)
                    (TimedDrop.set_preconditions_met None
                       (if decide (k = key) then TimedDrop.set_is_claimed true d else d)))
          (DropsCampaign.timed_drops c) (DropsCampaign.timed_drops (with_claim key c)).
Proof. unfold with_claim, Drop._on_claim, Drop.change. related_by_induction. Qed.

Lemma step_remaining_minutes key c gui :
  related (λ k d d', d' = if decide (k = key) then (TimedDrop.remaining_minutes d).2 else d)
          (DropsCampaign.timed_drops c)
          (DropsCampaign.timed_drops (Drop.remaining_minutes key (c, gui)).2.1).
Proof.
  unfold Drop.remaining_minutes. cbn [fst].
  destruct (DropsCampaign.get_drop key c) as [d|] eqn:Hd; cbn [fst snd].
  - unfold Drop.change. related_by_induction.
  - rewrite <-(dict_change_absent key (λ d, (TimedDrop.remaining_minutes d).2)
                 (DropsCampaign.timed_drops c)) at 2 by done.
    related_by_induction.
Qed.

Lemma step_progress key c gui :
  related (λ k d d', d' = if decide (k = key) then (TimedDrop.progress d).2 else d)
          (DropsCampaign.timed_drops c)
          (DropsCampaign.timed_drops (Drop.progress key (c, gui)).2.1).
Proof.
  unfold Drop.progress. cbn [fst].
  destruct (DropsCampaign.get_drop key c) as [d|] eqn:Hd; cbn [fst snd].
  - unfold Drop.change. related_by_induction.
  - rewrite <-(dict_change_absent key (λ d, (TimedDrop.progress d).2)
                 (DropsCampaign.timed_drops c)) at 2 by done.
    related_by_induction.
Qed.

Lemma step_campaign_progress c :
  related (λ k d d', d' = d ∨
                     DropsCampaign._cached_progress c = None ∧ d' = (TimedDrop.progress d).2)
          (DropsCampaign.timed_drops c)
          (DropsCampaign.timed_drops (DropsCampaign.progress c).2).
Proof.
  unfold DropsCampaign.progress.
  destruct (DropsCampaign._cached_progress c) eqn:Hcache; cbn [snd].
  { apply related_refl. auto. }
  case_decide; cbn [snd]; [apply related_refl; auto|].
  cbn. apply related_dict_change_all. auto.
Qed.

Lemma step_preconditions_met key d c :
  related (λ k d0 d',
             d' = d0 ∨
             k = key ∧ TimedDrop._preconditions_met d = None ∧
             ∃ v, Drop.all_claimed c (TimedDrop._precondition_drops d) = Returned v ∧
                  d' = TimedDrop.set_preconditions_met (Some v) d0)
          (DropsCampaign.timed_drops c)
          (DropsCampaign.timed_drops (Drop.preconditions_met key d c).1).
Proof.
  unfold Drop.preconditions_met.
  destruct (TimedDrop._preconditions_met d) eqn:Hcache; cbn [fst].
  { apply related_refl. auto. }
  destruct (Drop.all_claimed c _) as [v|e] eqn:Hall; cbn [fst].
  2:{ apply related_refl. auto. }
  cbn. apply related_dict_change. intros k d0. case_decide; eauto 10.
Qed.

Lemma step_unchanged (R : string → TimedDrop.t → TimedDrop.t → Prop) c c' :
  (∀ k d, R k d d) → DropsCampaign.timed_drops c' = DropsCampaign.timed_drops c →
  related R (DropsCampaign.timed_drops c) (DropsCampaign.timed_drops c').
Proof. intros HR ->. by apply related_refl. Qed.

Lemma timed_drops_claimed_drops c :
  DropsCampaign.timed_drops (DropsCampaign.claimed_drops c).2 = DropsCampaign.timed_drops c.
Proof. unfold DropsCampaign.claimed_drops. by destruct (DropsCampaign._cached_claimed_drops c). Qed.

Lemma timed_drops_remaining_drops c :
  DropsCampaign.timed_drops (DropsCampaign.remaining_drops c).2 = DropsCampaign.timed_drops c.
Proof.
  unfold DropsCampaign.remaining_drops. by destruct (DropsCampaign._cached_remaining_drops c).
Qed.

Lemma timed_drops_finished c :
  DropsCampaign.timed_drops (DropsCampaign.finished c).2 = DropsCampaign.timed_drops c.
Proof. unfold DropsCampaign.finished. by destruct (DropsCampaign._cached_finished c). Qed.

Lemma timed_drops_eligible c :
  DropsCampaign.timed_drops (DropsCampaign.eligible c).2 = DropsCampaign.timed_drops c.
Proof.
  unfold DropsCampaign.eligible, DropsCampaign.has_badge_or_emote.
  destruct (DropsCampaign.linked c); [done|].
  by destruct (DropsCampaign._cached_has_badge_or_emote c).
Qed.

(** The reads leave the data of every drop as it is *)
Lemma read_keeps_data c c' :
  (∃ key gui, c' = (Drop.remaining_minutes key (c, gui)).2.1) ∨
  (∃ key gui, c' = (Drop.progress key (c, gui)).2.1) ∨
  c' = (DropsCampaign.progress c).2 ∨
  c' = (DropsCampaign.claimed_drops c).2 ∨
  c' = (DropsCampaign.remaining_drops c).2 ∨
  c' = (DropsCampaign.finished c).2 ∨
  c' = (DropsCampaign.eligible c).2 ∨
  (∃ key d, c' = (Drop.preconditions_met key d c).1) →
  related (λ _ d d', data d' = data d)
          (DropsCampaign.timed_drops c) (DropsCampaign.timed_drops c').
Proof.
  intros [(key & gui & ->)|[(key & gui & ->)|[->|[->|[->|[->|[->|(key & d & ->)]]]]]]].
  - eapply related_weaken; [|apply step_remaining_minutes].
    intros k d d' ->. case_decide; [|done].
    unfold TimedDrop.remaining_minutes.
    by destruct (TimedDrop._cached_remaining_minutes d).
  - eapply related_weaken; [|apply step_progress].
    intros k d d' ->. case_decide; [|done].
    unfold TimedDrop.progress. by destruct (TimedDrop._cached_progress d).
  - eapply related_weaken; [|apply step_campaign_progress].
    intros k d d' [->|[_ ->]]; [done|].
    unfold TimedDrop.progress. by destruct (TimedDrop._cached_progress d).
  - apply step_unchanged; [done|apply timed_drops_claimed_drops].
  - apply step_unchanged; [done|apply timed_drops_remaining_drops].
  - apply step_unchanged; [done|apply timed_drops_finished].
  - apply step_unchanged; [done|apply timed_drops_eligible].
  - eapply related_weaken; [|apply step_preconditions_met].
    intros k d0 d' [->|(_ & _ & v & _ & ->)]; done.
Qed.

Lemma option_Forall2_trans {A} (R R' R'' : A → A → Prop) x y z :
  (∀ u v w, R u v → R' v w → R'' u w) →
  option_Forall2 R x y → option_Forall2 R' y z → option_Forall2 R'' x z.
Proof. intros HR H1 H2. destruct H1; inversion H2; constructor; eauto. Qed.

(** X22.  Calls never add, remove or unclaim a drop, and they keep the
    minutes in range.  After any sequence of minute reports, bumps, claims
    and reads, the campaign holds the same keys in the same order; every
    drop asks for the minutes it asked for, a drop that was claimed is
    still claimed, and a drop whose minutes were between nothing and the
    required minutes still has them there. *)
Theorem calls_keep_the_drops cs c gui :
  let after := (calls cs (c, gui)).1 in
  (DropsCampaign.timed_drops after).*1 = (DropsCampaign.timed_drops c).*1 ∧
  ∀ key d,
    DropsCampaign.get_drop key c = Some d →
    ∃ d', DropsCampaign.get_drop key after = Some d' ∧
          TimedDrop.required_minutes d' = TimedDrop.required_minutes d ∧
          TimedDrop._precondition_drops d' = TimedDrop._precondition_drops d ∧
          (TimedDrop.is_claimed d = true → TimedDrop.is_claimed d' = true) ∧
          ((0 ≤ TimedDrop.current_minutes d ≤ TimedDrop.required_minutes d)%Z →
           (0 ≤ TimedDrop.current_minutes d' ≤ TimedDrop.required_minutes d')%Z).
Proof.
  set (R := λ d d' : TimedDrop.t,
         TimedDrop.required_minutes d' = TimedDrop.required_minutes d ∧
         TimedDrop._precondition_drops d' = TimedDrop._precondition_drops d ∧
         (TimedDrop.is_claimed d = true → TimedDrop.is_claimed d' = true) ∧
         ((0 ≤ TimedDrop.current_minutes d ≤ TimedDrop.required_minutes d)%Z →
          (0 ≤ TimedDrop.current_minutes d' ≤ TimedDrop.required_minutes d')%Z)).
  set (Inv := λ c' : DropsCampaign.t,
         (DropsCampaign.timed_drops c').*1 = (DropsCampaign.timed_drops c).*1 ∧
         ∀ k, option_Forall2 R (DropsCampaign.get_drop k c) (DropsCampaign.get_drop k c')).
  assert (HRtrans : ∀ u v w, R u v → R v w → R u w).
  { intros u v w (? & ? & ? & ?) (? & ? & ? & ?). unfold R. split_and!; try congruence; auto. }
  assert (Hstep : ∀ (Q : string → TimedDrop.t → TimedDrop.t → Prop) c1 c2,
             Inv c1 →
             related Q (DropsCampaign.timed_drops c1) (DropsCampaign.timed_drops c2) →
             (∀ k d d', DropsCampaign.get_drop k c1 = Some d → Q k d d' → R d d') →
             Inv c2).
  { intros Q c1 c2 [Hkeys Hget] Hrel HQ. split.
    { by rewrite (related_keys _ _ _ Hrel). }
    intros k. eapply option_Forall2_trans; [exact HRtrans|apply Hget|].
    pose proof (related_get _ _ _ k Hrel) as Hk. unfold DropsCampaign.get_drop in *.
    inversion Hk as [d d' Hdd' Hd1 Hd2|]; constructor. by eapply HQ. }
  assert (Hread : ∀ c1 c2,
             Inv c1 →
             related (λ _ d d', data d' = data d)
                     (DropsCampaign.timed_drops c1) (DropsCampaign.timed_drops c2) →
             Inv c2).
  { intros c1 c2 Hinv Hrel. eapply Hstep; [done..|].
    intros k d d' _ [=]. unfold R. split_and!; try done; congruence. }
  assert (Hall : Inv (calls cs (c, gui)).1).
  { induction cs as [|op cs IH] using rev_ind.
    { split; [done|]. intros k. cbn. destruct (DropsCampaign.get_drop k c); constructor.
      unfold R. auto. }
    rewrite calls_snoc. destruct (calls cs (c, gui)) as [c' gui'].
    apply call_inv; [..|exact IH]; clear IH c' gui'.
    - intros key minutes c1 d Hinv Hd Hle Hpos.
      eapply Hstep; [done|apply step_with_minutes|].
      intros k d0 d' Hd0 ->. unfold R. case_decide; [|done]. simplify_eq/=.
      split_and!; try done. lia.
    - intros key c1 d _ Hinv Hd.
      eapply Hstep; [done|apply step_with_claim|].
      intros k d0 d' Hd0 ->. unfold R. case_decide; [|done]. simplify_eq/=.
      split_and!; try done. lia.
    - intros key c1 gui1 Hinv. eapply Hread; [done|]. apply read_keeps_data. eauto 10.
    - intros key c1 gui1 Hinv. eapply Hread; [done|]. apply read_keeps_data. eauto 10.
    - intros c1 Hinv. eapply Hread; [done|]. apply read_keeps_data. eauto 10.
    - intros c1 Hinv. eapply Hread; [done|]. apply read_keeps_data. eauto 10.
    - intros c1 Hinv. eapply Hread; [done|]. apply read_keeps_data. eauto 10.
    - intros c1 Hinv. eapply Hread; [done|]. apply read_keeps_data. eauto 10.
    - intros c1 Hinv. eapply Hread; [done|]. apply read_keeps_data. eauto 10.
    - intros key d c1 Hinv Hd. eapply Hread; [done|]. apply read_keeps_data.
      do 7 right. eauto. }
  destruct Hall as [Hkeys Hget]. split; [done|].
  intros key d Hd. specialize (Hget key). rewrite Hd in Hget.
  inversion Hget as [? d' HR|]; simplify_eq. exists d'. split; [done|]. apply HR.
Qed.

(** ** The caches of the minutes *)

Lemma just_built_minutes_fresh c : just_built c → minutes_fresh c.
Proof.
  intros (Hdrops & Hprogress & _). split; [|by rewrite Hprogress].
  eapply Forall_impl; [exact Hdrops|].
  intros d (_ & Hremaining & _ & _ & Hcached). split; intros ?; by rewrite ?Hremaining, ?Hcached.
Qed.

Lemma related_drops_Forall (P : TimedDrop.t → Prop) Q c c' :
  related Q (DropsCampaign.timed_drops c) (DropsCampaign.timed_drops c') →
  (∀ k d d', Q k d d' → P d → P d') →
  Forall P (DropsCampaign.drops c) → Forall P (DropsCampaign.drops c').
Proof.
  unfold DropsCampaign.drops. intros Hrel HQ.
  induction Hrel as [|[k d] [k' d'] l l' [Hk Hdd'] H IH]; [done|].
  cbn. intros [HP Hl]%Forall_cons. constructor; eauto.
Qed.

Lemma related_drops_fmap {A} (g : TimedDrop.t → A) Q c c' :
  related Q (DropsCampaign.timed_drops c) (DropsCampaign.timed_drops c') →
  (∀ k d d', Q k d d' → g d' = g d) →
  g <$> DropsCampaign.drops c' = g <$> DropsCampaign.drops c.
Proof.
  unfold DropsCampaign.drops. intros Hrel HQ.
  induction Hrel as [|[k d] [k' d'] l l' [Hk Hdd'] H IH]; [done|].
  cbn in *. f_equal; eauto.
Qed.

Lemma related_total_drops Q c c' :
  related Q (DropsCampaign.timed_drops c) (DropsCampaign.timed_drops c') →
  DropsCampaign.total_drops c' = DropsCampaign.total_drops c.
Proof. intros Hrel. unfold DropsCampaign.total_drops. symmetry. by eapply Forall2_length. Qed.

Lemma related_mean_progress Q c c' :
  related Q (DropsCampaign.timed_drops c) (DropsCampaign.timed_drops c') →
  (∀ k d d', Q k d d' → progress_of d' = progress_of d) →
  mean_progress_of c' = mean_progress_of c.
Proof.
  intros Hrel HQ. unfold mean_progress_of.
  by rewrite (related_total_drops _ _ _ Hrel), (related_drops_fmap progress_of _ _ _ Hrel HQ).
Qed.

(** A step that keeps the caches of the drops fresh and the campaign's
    progress cached as it was, or not at all *)
Lemma minutes_fresh_step Q c c' :
  related Q (DropsCampaign.timed_drops c) (DropsCampaign.timed_drops c') →
  (∀ k d d', Q k d d' → drop_minutes_fresh d → drop_minutes_fresh d') →
  (DropsCampaign._cached_progress c' = None ∨
   DropsCampaign._cached_progress c' = DropsCampaign._cached_progress c ∧
   ∀ k d d', Q k d d' → progress_of d' = progress_of d) →
  minutes_fresh c → minutes_fresh c'.
Proof.
  intros Hrel Hfresh Hcache [Hdrops Hmean]. split.
  { by eapply related_drops_Forall. }
  intros m Hm. destruct Hcache as [Hnone|[Hsame Hprogress]]; [congruence|].
  rewrite Hsame in Hm. rewrite (Hmean m Hm). symmetry. by eapply related_mean_progress.
Qed.

Lemma progress_fresh d :
  drop_minutes_fresh d →
  (TimedDrop.progress d).1 = progress_of d ∧
  (TimedDrop.remaining_minutes d).1
  = (TimedDrop.required_minutes d - TimedDrop.current_minutes d)%Z ∧
  drop_minutes_fresh (TimedDrop.progress d).2 ∧
  drop_minutes_fresh (TimedDrop.remaining_minutes d).2 ∧
  progress_of (TimedDrop.progress d).2 = progress_of d ∧
  progress_of (TimedDrop.remaining_minutes d).2 = progress_of d.
Proof.
  intros Hfresh. pose proof Hfresh as [Hremaining Hprogress].
  unfold TimedDrop.progress, TimedDrop.remaining_minutes.
  destruct (TimedDrop._cached_progress d) as [p|] eqn:Hp,
    (TimedDrop._cached_remaining_minutes d) as [v|] eqn:Hv; cbn [fst snd].
  - split_and!; auto.
  - split_and!; auto. split; cbn; [by intros ? [= <-]|by rewrite Hp].
  - split_and!; auto. split; cbn; [by rewrite Hv|by intros ? [= <-]].
  - split_and!; auto.
    + split; cbn; [by rewrite Hv|by intros ? [= <-]].
    + split; cbn; [by intros ? [= <-]|by rewrite Hp].
Qed.

Lemma cached_progress_unchanged c :
  (∀ c', c' = (DropsCampaign.claimed_drops c).2 ∨ c' = (DropsCampaign.remaining_drops c).2 ∨
         c' = (DropsCampaign.finished c).2 ∨ c' = (DropsCampaign.eligible c).2 →
         DropsCampaign._cached_progress c' = DropsCampaign._cached_progress c) ∧
  (∀ key d, DropsCampaign._cached_progress (Drop.preconditions_met key d c).1
            = DropsCampaign._cached_progress c) ∧
  (∀ key gui, DropsCampaign._cached_progress (Drop.remaining_minutes key (c, gui)).2.1
              = DropsCampaign._cached_progress c) ∧
  (∀ key gui, DropsCampaign._cached_progress (Drop.progress key (c, gui)).2.1
              = DropsCampaign._cached_progress c).
Proof.
  split_and!.
  - intros c' [->|[->|[->| ->]]].
    + unfold DropsCampaign.claimed_drops. by destruct (DropsCampaign._cached_claimed_drops c).
    + unfold DropsCampaign.remaining_drops.
      by destruct (DropsCampaign._cached_remaining_drops c).
    + unfold DropsCampaign.finished. by destruct (DropsCampaign._cached_finished c).
    + unfold DropsCampaign.eligible, DropsCampaign.has_badge_or_emote.
      destruct (DropsCampaign.linked c); [done|].
      by destruct (DropsCampaign._cached_has_badge_or_emote c).
  - intros key d. unfold Drop.preconditions_met.
    destruct (TimedDrop._preconditions_met d); [done|].
    by destruct (Drop.all_claimed c _).
  - intros key gui. unfold Drop.remaining_minutes. cbn.
    by destruct (DropsCampaign.get_drop key c).
  - intros key gui. unfold Drop.progress. cbn.
    by destruct (DropsCampaign.get_drop key c).
Qed.

Lemma minutes_fresh_unchanged c c' :
  DropsCampaign.timed_drops c' = DropsCampaign.timed_drops c →
  DropsCampaign._cached_progress c' = DropsCampaign._cached_progress c →
  minutes_fresh c → minutes_fresh c'.
Proof.
  unfold minutes_fresh, mean_progress_of, DropsCampaign.drops, DropsCampaign.total_drops.
  by intros -> ->.
Qed.

Lemma minutes_fresh_call op c gui :
  is_claim op = false → minutes_fresh c → minutes_fresh (call op (c, gui)).1.
Proof.
  intros Hop. apply call_inv; clear c gui.
  - intros key minutes c d Hfresh _ _ _. revert Hfresh.
    eapply minutes_fresh_step; [apply step_with_minutes| |by left].
    intros k d0 d' -> [Hremaining Hprogress]. case_decide; [done|].
    split; intros v; cbn; [apply Hremaining|apply Hprogress].
  - congruence.
  - intros key c gui. pose proof (cached_progress_unchanged c) as (_ & _ & Hsame & _).
    eapply minutes_fresh_step; [apply step_remaining_minutes| |right; split; [apply Hsame|]].
    + intros k d d' -> Hd. case_decide; [|done]. by apply progress_fresh.
    + intros k d d' ->. case_decide; [|done]. unfold TimedDrop.remaining_minutes.
      by destruct (TimedDrop._cached_remaining_minutes d).
  - intros key c gui. pose proof (cached_progress_unchanged c) as (_ & _ & _ & Hsame).
    eapply minutes_fresh_step; [apply step_progress| |right; split; [apply Hsame|]].
    + intros k d d' -> Hd. case_decide; [|done]. by apply progress_fresh.
    + intros k d d' ->. case_decide; [|done]. unfold TimedDrop.progress.
      by destruct (TimedDrop._cached_progress d).
  - intros c [Hdrops Hmean].
    assert (Hkept : ∀ d d', d' = d ∨ DropsCampaign._cached_progress c = None ∧
                                      d' = (TimedDrop.progress d).2 →
                            progress_of d' = progress_of d).
    { intros d d' [->|[_ ->]]; [done|]. unfold TimedDrop.progress.
      by destruct (TimedDrop._cached_progress d). }
    split.
    { eapply related_drops_Forall; [apply step_campaign_progress| |done].
      intros k d d' [->|[_ ->]] Hd; [done|]. by apply progress_fresh. }
    intros m.
    rewrite (related_mean_progress _ _ _ (step_campaign_progress c)) by (intros ? ? ?; apply Hkept).
    unfold DropsCampaign.progress.
    destruct (DropsCampaign._cached_progress c) as [m'|] eqn:Hm'; cbn [snd].
    { rewrite Hm'. apply Hmean. }
    unfold mean_progress_of. case_decide; cbn; intros [= <-]; [done|].
    f_equal. apply list_eq_Forall2, Forall2_fmap, Forall_Forall2_diag.
    eapply Forall_impl; [exact Hdrops|]. intros d Hd. by apply progress_fresh.
  - intros c. pose proof (cached_progress_unchanged c) as (Hsame & _).
    apply minutes_fresh_unchanged; [apply timed_drops_claimed_drops|apply Hsame; auto 10].
  - intros c. pose proof (cached_progress_unchanged c) as (Hsame & _).
    apply minutes_fresh_unchanged; [apply timed_drops_remaining_drops|apply Hsame; auto 10].
  - intros c. pose proof (cached_progress_unchanged c) as (Hsame & _).
    apply minutes_fresh_unchanged; [apply timed_drops_finished|apply Hsame; auto 10].
  - intros c. pose proof (cached_progress_unchanged c) as (Hsame & _).
    apply minutes_fresh_unchanged; [apply timed_drops_eligible|apply Hsame; auto 10].
  - intros key d c Hfresh _. revert Hfresh.
    pose proof (cached_progress_unchanged c) as (_ & Hsame & _).
    eapply minutes_fresh_step; [apply step_preconditions_met| |right; split; [apply Hsame|]].
    + intros k d0 d' [->|(_ & _ & v & _ & ->)]; [done|]. intros [Hremaining Hprogress].
      split; intros ?; cbn; [apply Hremaining|apply Hprogress].
    + by intros k d0 d' [->|(_ & _ & v & _ & ->)].
Qed.

(** X23.  The minute caches never go stale.  Start from a campaign as it
    is built and let any sequence of minute reports, bumps and reads run,
    without a claim.  Then every drop's [remaining_minutes] is what is
    required less what is there, its [progress] is what is computed from
    the minutes it holds now, and the progress of the campaign is the mean
    over the drops as they are now. *)
Theorem minute_caches_stay_fresh cs c gui :
  just_built c →
  Forall (λ op, is_claim op = false) cs →
  let after := calls cs (c, gui) in
  (DropsCampaign.progress after.1).1 = mean_progress_of after.1 ∧
  ∀ key d,
    DropsCampaign.get_drop key after.1 = Some d →
    (Drop.remaining_minutes key after).1
    = Some (TimedDrop.required_minutes d - TimedDrop.current_minutes d)%Z ∧
    (Drop.progress key after).1 = Some (progress_of d).
Proof.
  intros Hbuilt Hcs after.
  assert (Hfresh : minutes_fresh after.1).
  { subst after. revert Hcs. induction cs as [|op cs IH] using rev_ind; intros Hcs.
    { by apply just_built_minutes_fresh. }
    apply Forall_app in Hcs as [Hcs Hop]. apply Forall_cons in Hop as [Hop _].
    rewrite calls_snoc. destruct (calls cs (c, gui)) as [c' gui'].
    apply minutes_fresh_call; auto. }
  destruct after as [c' gui']. cbn [fst] in *. destruct Hfresh as [Hdrops Hmean]. split.
  - unfold DropsCampaign.progress.
    destruct (DropsCampaign._cached_progress c') as [m|] eqn:Hm; cbn [fst]; [by apply Hmean|].
    unfold mean_progress_of. case_decide; [done|]. cbn. f_equal.
    apply list_eq_Forall2, Forall2_fmap, Forall_Forall2_diag.
    eapply Forall_impl; [exact Hdrops|]. intros d Hd. by apply progress_fresh.
  - intros key d Hd.
    assert (drop_minutes_fresh d) as Hfresh.
    { eapply Forall_forall in Hdrops; [done|].
      apply dict_get_elem_of in Hd. unfold DropsCampaign.drops.
      apply (list_elem_of_fmap_2 snd) in Hd. exact Hd. }
    unfold Drop.remaining_minutes, Drop.progress. cbn [fst]. rewrite Hd. cbn [fst].
    split; f_equal; by apply progress_fresh.
Qed.

(** ** The caches of the counts *)

Lemma related_counts Q c c' :
  related Q (DropsCampaign.timed_drops c) (DropsCampaign.timed_drops c') →
  (∀ k d d', Q k d d' → TimedDrop.is_claimed d' = TimedDrop.is_claimed d ∧
                        TimedDrop.required_minutes d' = TimedDrop.required_minutes d) →
  claimed_count c' = claimed_count c ∧
  DropsCampaign.total_drops c' = DropsCampaign.total_drops c ∧
  (nothing_left c' ↔ nothing_left c).
Proof.
  intros Hrel HQ.
  unfold claimed_count, nothing_left, DropsCampaign.total_drops, DropsCampaign.drops.
  induction Hrel as [|[k d] [k' d'] l l' [Hk Hdd'] H IH]; [done|].
  destruct IH as (IH1 & IH2 & IH3). destruct (HQ _ _ _ Hdd') as [Hc Hr]. cbn in *.
  rewrite !Forall_cons, Hc, Hr, IH3. split_and!; [|by f_equal|done].
  destruct (TimedDrop.is_claimed d); repeat case_decide; try done; cbn; by f_equal.
Qed.

Lemma remaining_count c :
  length (filter (λ d, TimedDrop.is_claimed d = false) (DropsCampaign.drops c))
  = DropsCampaign.total_drops c - claimed_count c.
Proof.
  unfold claimed_count, DropsCampaign.total_drops, DropsCampaign.drops.
  rewrite <-(length_fmap snd (DropsCampaign.timed_drops c)).
  induction ((DropsCampaign.timed_drops c).*2) as [|d l IH]; [done|].
  rewrite !filter_cons. cbn [length].
  pose proof (length_filter (λ d, TimedDrop.is_claimed d = true) l).
  destruct (TimedDrop.is_claimed d); repeat case_decide; try done; cbn; lia.
Qed.

Lemma finished_value c :
  forallb (λ d, TimedDrop.is_claimed d || bool_decide (TimedDrop.required_minutes d ≤ 0)%Z)
          (DropsCampaign.drops c) = true ↔ nothing_left c.
Proof.
  unfold nothing_left. rewrite forallb_forall, Forall_forall.
  split; intros H d Hd.
  - apply list_elem_of_In, H in Hd. apply orb_true_iff in Hd as [?|?%bool_decide_eq_true]; auto.
  - apply list_elem_of_In, H in Hd. apply orb_true_iff.
    destruct Hd; [by left|right]. by apply bool_decide_eq_true.
Qed.

Lemma counts_fresh_step Q c c' :
  related Q (DropsCampaign.timed_drops c) (DropsCampaign.timed_drops c') →
  (∀ k d d', Q k d d' → TimedDrop.is_claimed d' = TimedDrop.is_claimed d ∧
                        TimedDrop.required_minutes d' = TimedDrop.required_minutes d) →
  DropsCampaign._cached_claimed_drops c' = DropsCampaign._cached_claimed_drops c →
  DropsCampaign._cached_remaining_drops c' = DropsCampaign._cached_remaining_drops c →
  DropsCampaign._cached_finished c' = DropsCampaign._cached_finished c →
  counts_fresh c → counts_fresh c'.
Proof.
  intros Hrel HQ H1 H2 H3 (Hclaimed & Hremaining & Hfinished).
  destruct (related_counts _ _ _ Hrel HQ) as (E1 & E2 & E3).
  unfold counts_fresh. rewrite H1, H2, H3, E1, E2. split_and!; [done..|].
  intros b Hb. by rewrite E3, <-(Hfinished b Hb).
Qed.

Lemma count_caches_unchanged c :
  let same c' := DropsCampaign._cached_claimed_drops c' = DropsCampaign._cached_claimed_drops c ∧
                 DropsCampaign._cached_remaining_drops c'
                 = DropsCampaign._cached_remaining_drops c ∧
                 DropsCampaign._cached_finished c' = DropsCampaign._cached_finished c in
  (∀ key minutes, same (with_minutes key minutes c)) ∧
  (∀ key gui, same (Drop.remaining_minutes key (c, gui)).2.1) ∧
  (∀ key gui, same (Drop.progress key (c, gui)).2.1) ∧
  same (DropsCampaign.progress c).2 ∧
  same (DropsCampaign.eligible c).2 ∧
  (∀ key d, same (Drop.preconditions_met key d c).1).
Proof.
  intros same. subst same. cbn beta.
  repeat split; intros;
    unfold Drop.remaining_minutes, Drop.progress, DropsCampaign.progress,
      DropsCampaign.eligible, DropsCampaign.has_badge_or_emote, Drop.preconditions_met;
    cbn; repeat case_match; done.
Qed.

Lemma counts_fresh_call op c gui : counts_fresh c → counts_fresh (call op (c, gui)).1.
Proof.
  apply call_inv; clear c gui.
  - intros key minutes c d Hfresh _ _ _. revert Hfresh.
    pose proof (count_caches_unchanged c) as (Hsame & _). specialize (Hsame key minutes).
    destruct Hsame as (H1 & H2 & H3).
    eapply counts_fresh_step; [apply step_with_minutes| |done..].
    intros k d0 d' ->. by case_decide.
  - intros key c d _ _ _. split_and!; done.
  - intros key c gui.
    pose proof (count_caches_unchanged c) as (_ & Hsame & _). specialize (Hsame key gui).
    destruct Hsame as (H1 & H2 & H3).
    eapply counts_fresh_step; [apply read_keeps_data; eauto 10| |done..].
    by intros k d d' [=].
  - intros key c gui.
    pose proof (count_caches_unchanged c) as (_ & _ & Hsame & _). specialize (Hsame key gui).
    destruct Hsame as (H1 & H2 & H3).
    eapply counts_fresh_step; [apply read_keeps_data; eauto 10| |done..].
    by intros k d d' [=].
  - intros c.
    pose proof (count_caches_unchanged c) as (_ & _ & _ & Hsame & _).
    destruct Hsame as (H1 & H2 & H3).
    eapply counts_fresh_step; [apply read_keeps_data; eauto 10| |done..].
    by intros k d d' [=].
  - intros c Hfresh. pose proof Hfresh as (Hclaimed & Hremaining & Hfinished).
    unfold DropsCampaign.claimed_drops.
    destruct (DropsCampaign._cached_claimed_drops c) eqn:Hcache; cbn [snd]; [done|].
    split_and!; [by intros ? [= <-]|done..].
  - intros c Hfresh. pose proof Hfresh as (Hclaimed & Hremaining & Hfinished).
    unfold DropsCampaign.remaining_drops.
    destruct (DropsCampaign._cached_remaining_drops c) eqn:Hcache; cbn [snd]; [done|].
    split_and!; [done| |done]. intros ? [= <-]. exact (remaining_count c).
  - intros c Hfresh. pose proof Hfresh as (Hclaimed & Hremaining & Hfinished).
    unfold DropsCampaign.finished.
    destruct (DropsCampaign._cached_finished c) eqn:Hcache; cbn [snd]; [done|].
    split_and!; [done..|]. intros ? [= <-]. exact (finished_value c).
  - intros c.
    pose proof (count_caches_unchanged c) as (_ & _ & _ & _ & Hsame & _).
    destruct Hsame as (H1 & H2 & H3).
    eapply counts_fresh_step; [apply read_keeps_data; eauto 10| |done..].
    by intros k d d' [=].
  - intros key d c Hfresh _. revert Hfresh.
    pose proof (count_caches_unchanged c) as (_ & _ & _ & _ & _ & Hsame).
    specialize (Hsame key d). destruct Hsame as (H1 & H2 & H3).
    eapply counts_fresh_step; [apply read_keeps_data; do 7 right; eauto| |done..].
    by intros k d0 d' [=].
Qed.

(** X24.  The counts never go stale.  Start from a campaign as it is built
    and let any sequence of minute reports, bumps, claims and reads run.
    Then [claimed_drops] is the number of drops that are claimed now,
    [claimed_drops] and [remaining_drops] add up to [total_drops], and
    [finished] is true exactly when every drop is claimed or asks for no
    minutes. *)
Theorem count_caches_stay_fresh cs c gui :
  just_built c →
  let after := (calls cs (c, gui)).1 in
  (DropsCampaign.claimed_drops after).1 = claimed_count after ∧
  (DropsCampaign.claimed_drops after).1 + (DropsCampaign.remaining_drops after).1
  = DropsCampaign.total_drops after ∧
  ((DropsCampaign.finished after).1 = true ↔ nothing_left after).
Proof.
  intros Hbuilt after.
  assert (Hfresh : counts_fresh after).
  { subst after. induction cs as [|op cs IH] using rev_ind.
    { destruct Hbuilt as (_ & _ & _ & _ & _ & H1 & H2 & H3).
      split_and!; intros ?; cbn; by rewrite ?H1, ?H2, ?H3. }
    rewrite calls_snoc. destruct (calls cs (c, gui)) as [c' gui'].
    by apply counts_fresh_call. }
  destruct Hfresh as (Hclaimed & Hremaining & Hfinished).
  assert (claimed_count after ≤ DropsCampaign.total_drops after).
  { unfold claimed_count, DropsCampaign.total_drops, DropsCampaign.drops.
    rewrite <-(length_fmap snd (DropsCampaign.timed_drops after)). apply length_filter. }
  assert ((DropsCampaign.claimed_drops after).1 = claimed_count after) as Hc.
  { unfold DropsCampaign.claimed_drops.
    destruct (DropsCampaign._cached_claimed_drops after) eqn:?; cbn; auto. }
  assert ((DropsCampaign.remaining_drops after).1
          = DropsCampaign.total_drops after - claimed_count after) as Hr.
  { unfold DropsCampaign.remaining_drops.
    destruct (DropsCampaign._cached_remaining_drops after) eqn:?; cbn; auto.
    apply remaining_count. }
  split_and!; [done|lia|].
  unfold DropsCampaign.finished.
  destruct (DropsCampaign._cached_finished after) eqn:?; cbn; auto. apply finished_value.
Qed.

(** ** What is memoised about the preconditions *)

Lemma all_claimed_related c c' pids :
  (∀ k, option_Forall2 (λ d d', TimedDrop.is_claimed d' = TimedDrop.is_claimed d)
                       (DropsCampaign.get_drop k c) (DropsCampaign.get_drop k c')) →
  Drop.all_claimed c' pids = Drop.all_claimed c pids.
Proof.
  intros Hrel. induction pids as [|pid pids IH]; [done|]. cbn.
  destruct (Hrel pid) as [d d' Hclaimed|]; [|done]. by rewrite Hclaimed, IH.
Qed.

Lemma preconditions_fresh_step Q c c' :
  related Q (DropsCampaign.timed_drops c) (DropsCampaign.timed_drops c') →
  (∀ k d d',
     DropsCampaign.get_drop k c = Some d → Q k d d' →
     TimedDrop.is_claimed d' = TimedDrop.is_claimed d ∧
     TimedDrop._precondition_drops d' = TimedDrop._precondition_drops d ∧
     (TimedDrop._preconditions_met d' = TimedDrop._preconditions_met d ∨
      ∃ v, TimedDrop._preconditions_met d' = Some v ∧
           Drop.all_claimed c (TimedDrop._precondition_drops d) = Returned v)) →
  preconditions_fresh c → preconditions_fresh c'.
Proof.
  intros Hrel HQ Hfresh key d' v Hd' Hv.
  assert (Hget : ∀ k, option_Forall2 (λ d d', DropsCampaign.get_drop k c = Some d ∧ Q k d d')
                        (DropsCampaign.get_drop k c) (DropsCampaign.get_drop k c')).
  { intros k. pose proof (related_get _ _ _ k Hrel) as Hk. unfold DropsCampaign.get_drop.
    inversion Hk; constructor; auto. }
  rewrite (all_claimed_related c c').
  2:{ intros k. destruct (Hget k) as [d0 d0' [H0 HQ0]|]; constructor.
      by apply (HQ k d0 d0'). }
  pose proof (Hget key) as Hkey. rewrite Hd' in Hkey.
  inversion Hkey as [d ? Hpair Heq|]; simplify_eq. destruct Hpair as [_ Hdd'].
  symmetry in Heq. rename Heq into Hd.
  destruct (HQ key d d' Hd Hdd') as (_ & -> & [Hsame|(v' & Hv' & Hall)]).
  - rewrite Hsame in Hv. by eapply Hfresh.
  - congruence.
Qed.

Lemma preconditions_fresh_read c c' :
  related (λ _ d d', data d' = data d ∧
                     TimedDrop._preconditions_met d' = TimedDrop._preconditions_met d)
          (DropsCampaign.timed_drops c) (DropsCampaign.timed_drops c') →
  preconditions_fresh c → preconditions_fresh c'.
Proof.
  intros Hrel. eapply preconditions_fresh_step; [exact Hrel|].
  intros k d d' _ [[=] ?]. auto.
Qed.

Lemma preconditions_fresh_call op c gui :
  preconditions_fresh c → preconditions_fresh (call op (c, gui)).1.
Proof.
  apply call_inv; clear c gui.
  - intros key minutes c d Hfresh _ _ _. revert Hfresh.
    eapply preconditions_fresh_step; [apply step_with_minutes|].
    intros k d0 d' _ ->. case_decide; auto.
  - intros key c d _ _ _ k d' v Hd' Hv.
    pose proof (related_get _ _ _ k (step_with_claim key c)) as Hk.
    unfold DropsCampaign.get_drop in Hd'. rewrite Hd' in Hk.
    inversion Hk as [d0 ? Heq|]; simplify_eq. by case_decide.
  - intros key c gui. apply preconditions_fresh_read.
    eapply related_weaken; [|apply step_remaining_minutes].
    intros k d d' ->. case_decide; [|done]. unfold TimedDrop.remaining_minutes.
    by destruct (TimedDrop._cached_remaining_minutes d).
  - intros key c gui. apply preconditions_fresh_read.
    eapply related_weaken; [|apply step_progress].
    intros k d d' ->. case_decide; [|done]. unfold TimedDrop.progress.
    by destruct (TimedDrop._cached_progress d).
  - intros c. apply preconditions_fresh_read.
    eapply related_weaken; [|apply step_campaign_progress].
    intros k d d' [->|[_ ->]]; [done|]. unfold TimedDrop.progress.
    by destruct (TimedDrop._cached_progress d).
  - intros c. apply preconditions_fresh_read.
    apply step_unchanged; [done|apply timed_drops_claimed_drops].
  - intros c. apply preconditions_fresh_read.
    apply step_unchanged; [done|apply timed_drops_remaining_drops].
  - intros c. apply preconditions_fresh_read.
    apply step_unchanged; [done|apply timed_drops_finished].
  - intros c. apply preconditions_fresh_read.
    apply step_unchanged; [done|apply timed_drops_eligible].
  - intros key d c Hfresh Hd. revert Hfresh.
    eapply preconditions_fresh_step; [apply step_preconditions_met|].
    intros k d0 d' Hd0 [->|(-> & Hnone & v & Hall & ->)]; [auto|].
    simplify_eq. cbn. eauto 10.
Qed.

(** X25.  What is memoised about the preconditions never goes stale.
    Start from a campaign as it is built and let any sequence of minute
    reports, bumps, claims and reads run.  Then [preconditions_met] of
    every drop gives what looking at the preconditions now gives: true if
    they are all claimed, false at the first one that is not, [KeyError] at
    one that names no drop. *)
Theorem preconditions_stay_fresh cs c gui :
  just_built c →
  let after := (calls cs (c, gui)).1 in
  ∀ key d,
    DropsCampaign.get_drop key after = Some d →
    (Drop.preconditions_met key d after).2
    = Drop.all_claimed after (TimedDrop._precondition_drops d).
Proof.
  intros Hbuilt after.
  assert (Hfresh : preconditions_fresh after).
  { subst after. induction cs as [|op cs IH] using rev_ind.
    { destruct Hbuilt as (Hdrops & _). intros key d v Hd Hv. cbn in Hd.
      apply dict_get_elem_of, (list_elem_of_fmap_2 snd) in Hd.
      eapply Forall_forall in Hdrops; [|exact Hd]. destruct Hdrops as (Hnone & _).
      cbn in Hnone. congruence. }
    rewrite calls_snoc. destruct (calls cs (c, gui)) as [c' gui'].
    by apply preconditions_fresh_call. }
  intros key d Hd. unfold Drop.preconditions_met.
  destruct (TimedDrop._preconditions_met d) as [v|] eqn:Hv; cbn [snd].
  { symmetry. by eapply Hfresh. }
  by destruct (Drop.all_claimed after _).
Qed.

End Calls.

(** * Claiming and earning *)

Section Earning.

Implicit Types (c : DropsCampaign.t) (d : TimedDrop.t) (gui : list GuiEvent).

(** X26.  What a claim comes to.  A claim succeeds if the drop is already
    claimed, or if it has a claim id, the campaign ended less than a day
    ago and the request went well.  A claim that fails changes nothing and
    tells the GUI nothing.  One that succeeds leaves the drop claimed with
    all its required minutes, leaves the other drops' claims and minutes
    alone, and has the GUI update every drop of the campaign once, in
    order. *)
Theorem claim_outcomes key now request c gui d :
  DropsCampaign.get_drop key c = Some d →
  let outcome := (Drop.claim key now request (c, gui)).1 in
  let after := (Drop.claim key now request (c, gui)).2 in
  outcome = TimedDrop.is_claimed d ||
            (bool_decide (is_Some (TimedDrop.claim_id d)) &&
             bool_decide (now < DropsCampaign.ends_at c + hours 24)%Z && request) ∧
  (outcome = false → after = (c, gui)) ∧
  (outcome = true →
   after.2 = gui ++ (UpdateDrop <$> (DropsCampaign.timed_drops c).*1) ∧
   (∃ d', DropsCampaign.get_drop key after.1 = Some d' ∧
          TimedDrop.is_claimed d' = true ∧
          TimedDrop.current_minutes d' = TimedDrop.required_minutes d ∧
          TimedDrop.required_minutes d' = TimedDrop.required_minutes d) ∧
   ∀ k o, k ≠ key → DropsCampaign.get_drop k c = Some o →
          ∃ o', DropsCampaign.get_drop k after.1 = Some o' ∧
                TimedDrop.is_claimed o' = TimedDrop.is_claimed o ∧
                TimedDrop.current_minutes o' = TimedDrop.current_minutes o ∧
                TimedDrop.required_minutes o' = TimedDrop.required_minutes o).
Proof.
  intros Hd outcome after.
  assert (Houtcome : outcome = Drop._claim now request c d).
  { subst outcome. unfold Drop.claim. cbn [fst]. by rewrite Hd. }
  split.
  { rewrite Houtcome. unfold Drop._claim, Drop.can_claim.
    destruct (TimedDrop.is_claimed d); [done|]. cbn.
    by destruct (bool_decide (is_Some _)), (bool_decide (now < _)%Z). }
  split.
  { intros Hfalse. subst after. unfold Drop.claim. cbn [fst]. rewrite Hd.
    rewrite <-Houtcome, Hfalse. done. }
  intros Htrue.
  assert (Hafter : after.1 = with_claim key c ∧
                   after.2 = gui ++ (UpdateDrop <$> (DropsCampaign.timed_drops c).*1)).
  { subst after. unfold Drop.claim. cbn [fst]. rewrite Hd, <-Houtcome, Htrue.
    cbn. split; [done|]. by rewrite dict_change_keys. }
  destruct Hafter as [Hc Hgui]. split; [done|]. rewrite Hc.
  assert (Hget : ∀ k, option_Forall2
                        (λ d0 d', d' = (if decide (k = key)
                                        then λ d, TimedDrop.set_current_minutes
                                                    (TimedDrop.required_minutes d) d
                                        else id)
                                         (TimedDrop.set_preconditions_met None
                                            (if decide (k = key)
                                             then TimedDrop.set_is_claimed true d0 else d0)))
                        (DropsCampaign.get_drop k c)
                        (DropsCampaign.get_drop k (with_claim key c))).
  { intros k. apply (related_get _ _ _ k (step_with_claim key c)). }
  split.
  - specialize (Hget key). rewrite Hd in Hget. inversion Hget as [? d' Hd'|]; simplify_eq.
    eexists. split; [done|]. by destruct (decide (key = key)).
  - intros k o Hk Ho. specialize (Hget k). rewrite Ho in Hget.
    inversion Hget as [? o' Ho'|]; simplify_eq.
    eexists. split; [done|]. by destruct (decide (k = key)).
Qed.

(** [any] over the drops: what never says yes, and what says yes whenever
    another check does *)
Lemma any_drop_never (Inv : DropsCampaign.t → Prop) f keys c :
  (∀ key d c, Inv c → DropsCampaign.get_drop key c = Some d →
              (f key d c).2 ≠ Returned true ∧ Inv (f key d c).1) →
  Inv c → (any_drop f keys c).2 ≠ Returned true.
Proof.
  intros Hstep. revert c. induction keys as [|key keys IH]; intros c Hinv; [done|].
  cbn. unfold mbind, M_bind, bind, get. cbn.
  destruct (DropsCampaign.get_drop key c) as [d|] eqn:Hd; [|by apply IH].
  destruct (Hstep key d c Hinv Hd) as [Hno Hinv'].
  destruct (f key d c) as [c' [[]|e]]; cbn in *; [done| |done].
  by apply IH.
Qed.

Lemma any_drop_mono f g keys c :
  (∀ key d c,
     (g key d c).1 = (f key d c).1 ∧
     match (f key d c).2 with
     | Returned true => (g key d c).2 = Returned true
     | Returned false => ∃ b, (g key d c).2 = Returned b
     | Raised _ => True
     end) →
  (any_drop f keys c).2 = Returned true → (any_drop g keys c).2 = Returned true.
Proof.
  intros Hstep. revert c. induction keys as [|key keys IH]; intros c; [done|].
  cbn. unfold mbind, M_bind, bind, get. cbn.
  destruct (DropsCampaign.get_drop key c) as [d|] eqn:Hd; [|by apply IH].
  destruct (Hstep key d c) as [Hstate Hresult].
  destruct (f key d c) as [c' [[]|e]], (g key d c) as [c'' r]; cbn in *; subst c''.
  - by rewrite Hresult.
  - destruct Hresult as [[] ->]; [done|]. apply IH.
  - done.
Qed.

Lemma nothing_left_preconditions_met key d c :
  nothing_left c → nothing_left (Drop.preconditions_met key d c).1.
Proof.
  unfold nothing_left. eapply related_drops_Forall.
  { apply read_keeps_data. do 7 right. eauto. }
  intros k d0 d' [=]. intros [?|?]; [left|right]; congruence.
Qed.

Lemma nothing_left_eligible c : nothing_left c → nothing_left (DropsCampaign.eligible c).2.
Proof.
  unfold nothing_left, DropsCampaign.drops. by rewrite timed_drops_eligible.
Qed.

Lemma nothing_left_conditions key d c :
  nothing_left c → DropsCampaign.get_drop key c = Some d →
  (Drop._base_earn_conditions key d c).2 ≠ Returned true.
Proof.
  intros Hleft Hd. unfold Drop._base_earn_conditions, mbind, M_bind, bind.
  destruct (Drop.preconditions_met key d c) as [c' [met|e]]; cbn; [|done].
  apply dict_get_elem_of, (list_elem_of_fmap_2 snd) in Hd.
  eapply Forall_forall in Hleft; [|exact Hd]. cbn in Hleft.
  destruct Hleft as [->|Hzero]; [by rewrite andb_false_r|].
  rewrite (bool_decide_eq_false_2 (0 < _)%Z) by lia. by rewrite andb_false_r.
Qed.

(** X27.  A campaign with nothing left is never earnable.  If every drop
    is claimed or asks for no minutes, neither [can_earn], on whatever
    channel, nor [can_earn_within] answers yes, whatever is cached. *)
Theorem finished_campaign_earns_nothing now stamp channel c :
  nothing_left c →
  (campaign_can_earn now channel c).2 ≠ Returned true ∧
  (campaign_can_earn_within now stamp c).2 ≠ Returned true.
Proof.
  intros Hleft. split.
  - unfold campaign_can_earn.
    pose proof (campaign_base_can_earn_campaign now channel c) as Hc'.
    destruct (DropsCampaign._base_can_earn now channel c) as [[] c']; cbn in Hc'; subst c';
      [|done].
    apply (any_drop_never nothing_left); [|by apply nothing_left_eligible].
    intros key d c' Hleft' Hd. split.
    + pose proof (nothing_left_conditions key d c' Hleft' Hd) as Hno.
      unfold Drop._base_can_earn, mbind, M_bind, bind.
      destruct (Drop._base_earn_conditions key d c') as [c'' [[]|e]]; cbn in *; done.
    + rewrite _base_can_earn_campaign. by apply nothing_left_preconditions_met.
  - unfold campaign_can_earn_within.
    pose proof (nothing_left_eligible c Hleft) as Hleft'.
    destruct (DropsCampaign.eligible c) as [b c']. cbn in Hleft'.
    destruct (_ && _); [|done].
    apply (any_drop_never nothing_left); [|done].
    intros key d c'' Hleft'' Hd. split.
    + pose proof (nothing_left_conditions key d c'' Hleft'' Hd) as Hno.
      unfold Drop.can_earn_within, mbind, M_bind, bind.
      destruct (Drop._base_earn_conditions key d c'') as [c3 [[]|e]]; cbn in *; done.
    + rewrite can_earn_within_campaign. by apply nothing_left_preconditions_met.
Qed.

Lemma eligible_keeps_the_dates c :
  DropsCampaign.starts_at (DropsCampaign.eligible c).2 = DropsCampaign.starts_at c ∧
  DropsCampaign.ends_at (DropsCampaign.eligible c).2 = DropsCampaign.ends_at c ∧
  DropsCampaign.allowed_channels (DropsCampaign.eligible c).2
  = DropsCampaign.allowed_channels c.
Proof.
  unfold DropsCampaign.eligible, DropsCampaign.has_badge_or_emote.
  destruct (DropsCampaign.linked c); [done|].
  by destruct (DropsCampaign._cached_has_badge_or_emote c).
Qed.

(** X28.  What can be earned now can be earned within any later stamp.  If
    [can_earn] says yes on some channel, or on none, then [can_earn_within]
    says yes for every stamp after now. *)
Theorem earnable_now_is_earnable_within now stamp channel c :
  (now < stamp)%Z →
  (campaign_can_earn now channel c).2 = Returned true →
  (campaign_can_earn_within now stamp c).2 = Returned true.
Proof.
  intros Hstamp. unfold campaign_can_earn, campaign_can_earn_within.
  pose proof (eligible_keeps_the_dates c) as (Hstarts & Hends & _).
  unfold DropsCampaign._base_can_earn.
  destruct (DropsCampaign.eligible c) as [[] c']; cbn [negb fst snd] in *; [|done].
  destruct (DropsCampaign.active now c') eqn:Hactive; cbn [negb].
  2:{ done. }
  apply bool_decide_eq_true in Hactive.
  rewrite !bool_decide_eq_true_2 by lia. cbn [andb].
  assert (Hany : (any_drop (Drop._base_can_earn now) (DropsCampaign.timed_drops c').*1 c').2
                 = Returned true →
                 (any_drop (Drop.can_earn_within now stamp)
                           (DropsCampaign.timed_drops c').*1 c').2 = Returned true).
  { apply any_drop_mono. intros key d c0.
    rewrite can_earn_within_campaign, _base_can_earn_campaign. split; [done|].
    unfold Drop._base_can_earn, Drop.can_earn_within, mbind, M_bind, bind.
    destruct (Drop._base_earn_conditions key d c0) as [c1 [[]|e]]; cbn; [| |done].
    - destruct (bool_decide (_ ≤ now < _)%Z) eqn:Hnow; [|eauto].
      apply bool_decide_eq_true in Hnow. by rewrite !bool_decide_eq_true_2 by lia.
    - eauto. }
  destruct channel as [channel|]; [|exact Hany].
  case_decide; [|exact Hany].
  destruct (existsb _ _); [exact Hany|done].
Qed.

(** X29.  A channel can only narrow what is earnable.  What [can_earn]
    grants on a channel it grants with no channel given, with the same
    effect on the caches; a campaign without a channel list does not look
    at the channel at all; and a campaign with a list refuses every channel
    whose id is not on it. *)
Theorem channel_only_narrows now channel c :
  ((campaign_can_earn now (Some channel) c).2 = Returned true →
   campaign_can_earn now None c = campaign_can_earn now (Some channel) c) ∧
  (DropsCampaign.allowed_channels c = [] →
   campaign_can_earn now (Some channel) c = campaign_can_earn now None c) ∧
  (DropsCampaign.allowed_channels c ≠ [] →
   (∀ allowed, allowed ∈ DropsCampaign.allowed_channels c →
               Channel.id allowed ≠ Channel.id channel) →
   (campaign_can_earn now (Some channel) c).2 = Returned false).
Proof.
  pose proof (eligible_keeps_the_dates c) as (_ & _ & Hallowed).
  unfold campaign_can_earn, DropsCampaign._base_can_earn.
  destruct (DropsCampaign.eligible c) as [[] c']; cbn [negb fst snd] in *; [|done].
  destruct (DropsCampaign.active now c'); cbn [negb]; [|done].
  rewrite Hallowed. split_and!.
  - case_decide; [|done]. by destruct (existsb _ _).
  - intros ->. by rewrite decide_False by auto.
  - intros Hlist Hnone. rewrite decide_True by done.
    destruct (existsb _ _) eqn:Hex; [|done].
    apply existsb_exists in Hex as (allowed & Hin%list_elem_of_In & Hid%bool_decide_eq_true).
    by destruct (Hnone allowed Hin).
Qed.

(** X30.  A claim leaves the caches of the minutes alone.  A claim that
    succeeds gives the drop all its required minutes, but what
    [remaining_minutes] and [progress] had cached for it stays: a read
    after the claim returns the value from before.  Only if nothing was
    cached is the remainder read as zero. *)
Theorem claim_keeps_the_minute_caches key now request c gui d :
  DropsCampaign.get_drop key c = Some d →
  (Drop.claim key now request (c, gui)).1 = true →
  let after := (Drop.claim key now request (c, gui)).2 in
  (∀ v, TimedDrop._cached_remaining_minutes d = Some v →
        (Drop.remaining_minutes key after).1 = Some v) ∧
  (∀ p, TimedDrop._cached_progress d = Some p → (Drop.progress key after).1 = Some p) ∧
  (TimedDrop._cached_remaining_minutes d = None →
   (Drop.remaining_minutes key after).1 = Some 0%Z).
Proof.
  intros Hd Htrue after.
  assert (Hafter : after.1 = with_claim key c).
  { subst after. revert Htrue. unfold Drop.claim. cbn [fst]. rewrite Hd.
    by destruct (Drop._claim now request c d). }
  assert (Hd' : DropsCampaign.get_drop key (with_claim key c)
                = Some (TimedDrop.set_current_minutes (TimedDrop.required_minutes d)
                          (TimedDrop.set_preconditions_met None
                             (TimedDrop.set_is_claimed true d)))).
  { pose proof (related_get _ _ _ key (step_with_claim key c)) as Hget.
    unfold DropsCampaign.get_drop in *. rewrite Hd in Hget.
    inversion Hget as [? d' Hd' Heq1 Heq2|]; subst.
    destruct (decide (key = key)); done. }
  destruct after as [c' gui']. cbn [fst] in Hafter. subst c'.
  unfold Drop.remaining_minutes, Drop.progress. cbn [fst]. rewrite Hd'. cbn [fst].
  unfold TimedDrop.remaining_minutes, TimedDrop.progress. cbn.
  split_and!.
  - by intros v ->.
  - by intros p ->.
  - intros ->. cbn. f_equal. lia.
Qed.

End Earning.

Section InventoryScenarios.

Lemma new_campaign_just_built : just_built new_campaign.
Proof. split_and!; try done. by repeat constructor. Qed.

(** X20 at the new campaign: 100 minutes are reported for the first drop,
    which asks for 60. *)
Lemma update_minutes_clamps_witness :
  DropsCampaign.get_drop "first" new_campaign = Some first_drop ∧
  (∃ d', DropsCampaign.get_drop "first"
           (Drop.update_minutes "first" 100 (new_campaign, [])).1 = Some d' ∧
         TimedDrop.current_minutes d' = 60%Z) ∧
  (Drop.update_minutes "first" 100 (new_campaign, [])).2
  = [UpdateDrop "first"; DisplayDrop "first" true false].
Proof.
  split; [reflexivity|].
  destruct (update_minutes_clamps "first" 100 new_campaign [] first_drop eq_refl)
    as ((d' & Hd' & Hcurrent & _) & _ & Hgui).
  split; [|exact Hgui]. exists d'. split; [exact Hd'|exact Hcurrent].
Defined.

(** X21 at the new campaign: the first drop, at 10 of 60 minutes, is bumped
    a hundred times. *)
Lemma bump_minutes_saturates_witness :
  DropsCampaign.get_drop "first" new_campaign = Some first_drop ∧
  ∃ d', DropsCampaign.get_drop "first"
          (Nat.iter 100 (Drop.bump_minutes "first") (new_campaign, [])).1 = Some d' ∧
        TimedDrop.current_minutes d' = 60%Z.
Proof.
  split; [reflexivity|].
  destruct (bump_minutes_saturates "first" new_campaign [] first_drop 100 eq_refl)
    as (d' & Hd' & _ & _ & Hcurrent).
  exists d'. split; [exact Hd'|exact Hcurrent].
Defined.

(** X23 on reports, bumps and reads of the new campaign *)
Lemma minute_caches_stay_fresh_witness :
  just_built new_campaign ∧
  let after := calls [UpdateMinutes "first" 30; ReadProgress "first"; ReadCampaignProgress;
                      BumpMinutes "first"; ReadRemainingMinutes "first";
                      UpdateMinutes "second" 200] (new_campaign, []) in
  (DropsCampaign.progress after.1).1 = mean_progress_of after.1.
Proof.
  split; [exact new_campaign_just_built|].
  exact (proj1 (minute_caches_stay_fresh
                  [UpdateMinutes "first" 30; ReadProgress "first"; ReadCampaignProgress;
                   BumpMinutes "first"; ReadRemainingMinutes "first";
                   UpdateMinutes "second" 200] new_campaign []
                  new_campaign_just_built ltac:(by repeat constructor))).
Defined.

(** X24 on a claim between two reads of the counts *)
Lemma count_caches_stay_fresh_witness :
  just_built new_campaign ∧
  let after := (calls [ReadClaimedDrops; ReadFinished; Claim "first" 500 true;
                       ReadRemainingDrops] (new_campaign, [])).1 in
  (DropsCampaign.claimed_drops after).1 = claimed_count after.
Proof.
  split; [exact new_campaign_just_built|].
  exact (proj1 (count_caches_stay_fresh
                  [ReadClaimedDrops; ReadFinished; Claim "first" 500 true; ReadRemainingDrops]
                  new_campaign [] new_campaign_just_built)).
Defined.

(** X25 on a claim of the first drop after the earning check has looked at
    the preconditions of the second *)
Lemma preconditions_stay_fresh_witness :
  just_built new_campaign ∧
  let after := (calls [ReadCanEarn 500 None; ReadCanEarnWithin 500 600; Claim "first" 500 true]
                      (new_campaign, [])).1 in
  ∀ key d,
    DropsCampaign.get_drop key after = Some d →
    (Drop.preconditions_met key d after).2
    = Drop.all_claimed after (TimedDrop._precondition_drops d).
Proof.
  split; [exact new_campaign_just_built|].
  exact (preconditions_stay_fresh
           [ReadCanEarn 500 None; ReadCanEarnWithin 500 600; Claim "first" 500 true]
           new_campaign [] new_campaign_just_built).
Defined.

(** X26 at the new campaign: the first drop is claimed in time, and the
    request goes well. *)
Lemma claim_outcomes_witness :
  DropsCampaign.get_drop "first" new_campaign = Some first_drop ∧
  (Drop.claim "first" 500 true (new_campaign, [])).1 = true ∧
  (Drop.claim "first" 500 true (new_campaign, [])).2.2
  = [UpdateDrop "first"; UpdateDrop "second"].
Proof.
  split; [reflexivity|].
  destruct (claim_outcomes "first" 500 true new_campaign [] first_drop eq_refl)
    as (Houtcome & _ & Htrue).
  split; [exact Houtcome|]. exact (proj1 (Htrue Houtcome)).
Defined.

(** X27 at the campaign whose drops are both claimed *)
Lemma finished_campaign_earns_nothing_witness :
  nothing_left claimed_campaign ∧
  (campaign_can_earn 500 (Some some_channel) claimed_campaign).2 ≠ Returned true.
Proof.
  assert (nothing_left claimed_campaign) as Hleft by (repeat constructor).
  split; [exact Hleft|].
  exact (proj1 (finished_campaign_earns_nothing 500 600 (Some some_channel)
                  claimed_campaign Hleft)).
Defined.

(** X28 at the new campaign, half way through it *)
Lemma earnable_now_is_earnable_within_witness :
  (500 < 600)%Z ∧
  (campaign_can_earn 500 (Some some_channel) new_campaign).2 = Returned true ∧
  (campaign_can_earn_within 500 600 new_campaign).2 = Returned true.
Proof.
  assert (500 < 600)%Z as Hstamp by reflexivity.
  assert ((campaign_can_earn 500 (Some some_channel) new_campaign).2 = Returned true)
    as Hnow by (vm_compute; reflexivity).
  split_and!; [exact Hstamp|exact Hnow|].
  exact (earnable_now_is_earnable_within 500 600 (Some some_channel) new_campaign Hstamp Hnow).
Defined.

(** X30 at the new campaign: the remainder of the first drop is read, then
    the drop is claimed; the remainder still reads 50. *)
Lemma claim_keeps_the_minute_caches_witness :
  let read := (Drop.remaining_minutes "first" (new_campaign, [])).2 in
  DropsCampaign.get_drop "first" read.1
  = Some (TimedDrop.set_cached_remaining_minutes (Some 50%Z) first_drop) ∧
  (Drop.claim "first" 500 true read).1 = true ∧
  (Drop.remaining_minutes "first" (Drop.claim "first" 500 true read).2).1 = Some 50%Z.
Proof.
  assert ((Drop.claim "first" 500 true
             (Drop.remaining_minutes "first" (new_campaign, [])).2).1 = true) as Htrue
    by reflexivity.
  split_and!; [reflexivity|exact Htrue|].
  exact (proj1 (claim_keeps_the_minute_caches "first" 500 true
                  (Drop.remaining_minutes "first" (new_campaign, [])).2.1 []
                  (TimedDrop.set_cached_remaining_minutes (Some 50%Z) first_drop)
                  eq_refl Htrue) 50%Z eq_refl).
Defined.

End InventoryScenarios.
